(** * ai-coach: the matchup model, the PAT runner, the output parser and the
    strategy search, embedded in Rocq.

  Conventions of the embedding.

  - A Python [float] is a rational number ([Q]).  Arithmetic on floats is
    exact in the model; where the source converts decimal text to a float
    ([float(token)] in the output parser) the model rounds to the nearest
    binary64 value, ties to even, as the interpreter does.
  - A Python [str] is a [string] whose characters are the code points
    0..255 (Latin-1); the character classes below ([isspace], line
    boundaries, [lower]) are the interpreter's, restricted to that range.
  - A function that raises returns [None] (validation in the parameter
    model) or a value of an explicit result type (parser, runner, service).
  - The files that [run_pat] writes live in a finite map from path to
    content; the external engine is an oracle whose process results and
    output file are inputs of the model. *)

From Stdlib Require Import ZArith QArith Qabs Qround Psatz Reals.
From Stdlib Require Import String Ascii List DecimalString.
From Stdlib Require DecimalFacts DecimalN Sorted.
From stdpp Require Import gmap strings list.
Import ListNotations.

Local Open Scope Q_scope.

(* ===================================================================== *)
(** * Definitions *)
(* ===================================================================== *)

(** ** Text helpers: the methods of [str] the sources use *)

Module Text.

Definition chars (s : string) : list ascii := list_ascii_of_string s.
Definition text (l : list ascii) : string := string_of_list_ascii l.

Definition code (c : ascii) : N := N_of_ascii c.

(** [str.isspace] for one character, also the class [\s] of [re] on a
    [str] pattern: TAB..CR, FS..US, space, NEL, NBSP. *)
Definition isspace (c : ascii) : bool :=
  let n := code c in
  ((9 <=? n) && (n <=? 13) || (28 <=? n) && (n <=? 32)
   || (n =? 133) || (n =? 160))%N.

(** The class [\d] of [re]: the decimal digits. *)
Definition isdigit (c : ascii) : bool :=
  let n := code c in ((48 <=? n) && (n <=? 57))%N.

Definition digit_value (c : ascii) : Z := Z.of_N (code c) - 48.

(** [str.lower] for one character. *)
Definition lower_char (c : ascii) : ascii :=
  let n := code c in
  if ((65 <=? n) && (n <=? 90)
      || (192 <=? n) && (n <=? 222) && negb (n =? 215))%N
  then ascii_of_N (n + 32) else c.

Definition lower (l : list ascii) : list ascii := map lower_char l.

Fixpoint lstrip (l : list ascii) : list ascii :=
  match l with
  | c :: t => if isspace c then lstrip t else l
  | [] => []
  end.

Definition rstrip (l : list ascii) : list ascii := rev (lstrip (rev l)).

(** [str.strip()] *)
Definition strip (l : list ascii) : list ascii := rstrip (lstrip l).

Fixpoint startswith (p l : list ascii) : bool :=
  match p, l with
  | [], _ => true
  | a :: p', b :: l' => if Ascii.eqb a b then startswith p' l' else false
  | _ :: _, [] => false
  end.

(** [p in l] for strings. *)
Fixpoint contains (p l : list ascii) : bool :=
  startswith p l ||
  match l with
  | [] => false
  | _ :: t => contains p t
  end.

(** [str.split()] with no argument: the maximal runs of non-space. *)
Fixpoint split_ws (cur : list ascii) (l : list ascii) : list (list ascii) :=
  match l with
  | [] => match cur with [] => [] | _ => [rev cur] end
  | c :: t =>
      if isspace c
      then match cur with [] => split_ws [] t | _ => rev cur :: split_ws [] t end
      else split_ws (c :: cur) t
  end.

(** [sep.join(parts)] *)
Fixpoint join (sep : list ascii) (parts : list (list ascii)) : list ascii :=
  match parts with
  | [] => []
  | [p] => p
  | p :: rest => p ++ sep ++ join sep rest
  end.

(** Line boundaries of [str.splitlines]: LF, VT, FF, CR, FS, GS, RS, NEL. *)
Definition is_linebreak (c : ascii) : bool :=
  let n := code c in
  ((10 <=? n) && (n <=? 13) || (28 <=? n) && (n <=? 30) || (n =? 133))%N.

(** [str.splitlines()]: CR LF counts once, no empty last line. *)
Fixpoint splitlines_from (cur : list ascii) (l : list ascii) : list (list ascii) :=
  match l with
  | [] => match cur with [] => [] | _ => [rev cur] end
  | c :: t =>
      if is_linebreak c then
        match t with
        | c' :: t' =>
            if ((code c =? 13) && (code c' =? 10))%N
            then rev cur :: splitlines_from [] t'
            else rev cur :: splitlines_from [] t
        | [] => [rev cur]
        end
      else splitlines_from (c :: cur) t
  end.

Definition splitlines (l : list ascii) : list (list ascii) := splitlines_from [] l.

End Text.

(** ** coach/utils.py *)

Module Utils.

Definition Qlt_bool (a b : Q) : bool := negb (Qle_bool b a).

(** The builtins [min(a, b)] and [max(a, b)]: the first argument unless
    the second is strictly smaller (larger). *)
Definition py_min (a b : Q) : Q := if Qlt_bool b a then b else a.
Definition py_max (a b : Q) : Q := if Qlt_bool a b then b else a.

(** [clamp(value, low, high) = max(low, min(high, value))] *)
Definition clamp (value low high : Q) : Q := py_max low (py_min high value).

(** [clamp(value)] with the defaults [low=0.01], [high=0.99]. *)
Definition clamp_default (value : Q) : Q := clamp value (1 # 100) (99 # 100).

(** [round(x)] to an integer: half to even. *)
Definition py_round (x : Q) : Z :=
  let f := Qfloor x in
  match Qcompare (x - inject_Z f) (1 # 2) with
  | Lt => f
  | Gt => (f + 1)%Z
  | Eq => if Z.even f then f else (f + 1)%Z
  end.

End Utils.

(** ** coach/model/params.py *)

Module Params.
Import Utils.

Record ServeMix := { short : Q; flick : Q }.
Record RallyStyleMix := { attack : Q; neutral : Q; safe : Q }.
Record InfluenceWeights := { w_short : Q; w_attack : Q; w_safe : Q }.

Record PlayerParams := {
  player_id : string;
  name : string;
  base_srv_win : Q;
  base_rcv_win : Q;
  serve_mix : ServeMix;
  rally_style : RallyStyleMix;
  sample_matches : Z
}.

Record MatchupParams := {
  player_a : PlayerParams;
  player_b : PlayerParams;
  weights : InfluenceWeights;
  target : Z;
  cap : Z;
  best_of : Z
}.

Definition tolerance : Q := 1 # 1000000.

Definition in_unit (x : Q) : bool := Qle_bool 0 x && Qle_bool x 1.

(** Field bounds and [validate_sum] of [ServeMix]. *)
Definition ServeMix_valid (m : ServeMix) : bool :=
  in_unit (short m) && in_unit (flick m)
  && Qle_bool (Qabs (short m + flick m - 1)) tolerance.

(** Field bounds and [validate_sum] of [RallyStyleMix]. *)
Definition RallyStyleMix_valid (m : RallyStyleMix) : bool :=
  in_unit (attack m) && in_unit (neutral m) && in_unit (safe m)
  && Qle_bool (Qabs (attack m + neutral m + safe m - 1)) tolerance.

Definition weight_ok (w : Q) : bool := Qlt_bool 0 w && Qle_bool w (3 # 10).

Definition InfluenceWeights_valid (w : InfluenceWeights) : bool :=
  weight_ok (w_short w) && weight_ok (w_attack w) && weight_ok (w_safe w).

Definition base_ok (p : Q) : bool := Qle_bool (1 # 100) p && Qle_bool p (99 # 100).

(** The validator [not_empty]: [value.strip()] is not empty. *)
Definition not_empty (value : string) : bool :=
  match Text.strip (Text.chars value) with [] => false | _ => true end.

Definition PlayerParams_valid (p : PlayerParams) : bool :=
  not_empty (player_id p) && not_empty (name p)
  && base_ok (base_srv_win p) && base_ok (base_rcv_win p)
  && ServeMix_valid (serve_mix p) && RallyStyleMix_valid (rally_style p)
  && (0 <=? sample_matches p)%Z.

(** Field bounds and [validate_game_constraints] of [MatchupParams]. *)
Definition MatchupParams_valid (m : MatchupParams) : bool :=
  PlayerParams_valid (player_a m) && PlayerParams_valid (player_b m)
  && InfluenceWeights_valid (weights m)
  && ((11 <=? target m) && (target m <=? 30))%Z
  && ((21 <=? cap m) && (cap m <=? 50))%Z
  && ((1 <=? best_of m) && (best_of m <=? 7))%Z
  && negb (best_of m mod 2 =? 0)%Z
  && negb (cap m <? target m)%Z.

(** The constructors [ServeMix(...)] and [RallyStyleMix(...)]: [None] is
    the validation error. *)
Definition new_ServeMix (short' flick' : Q) : option ServeMix :=
  let m := {| short := short'; flick := flick' |} in
  if ServeMix_valid m then Some m else None.

Definition new_RallyStyleMix (attack' neutral' safe' : Q) : option RallyStyleMix :=
  let m := {| attack := attack'; neutral := neutral'; safe := safe' |} in
  if RallyStyleMix_valid m then Some m else None.

Definition _style_delta (self : MatchupParams) : Q :=
  let a := player_a self in
  let b := player_b self in
  w_short (weights self) * (short (serve_mix a) - short (serve_mix b))
  + w_attack (weights self) * (attack (rally_style a) - attack (rally_style b))
  - w_safe (weights self) * (safe (rally_style b) - safe (rally_style a)).

Record EffectiveProbabilities := {
  pA_srv_win : Q;
  pA_rcv_win : Q;
  pB_srv_win : Q;
  pB_rcv_win : Q
}.

Definition effective_probabilities (self : MatchupParams) : EffectiveProbabilities :=
  let delta := _style_delta self in
  let p_a_srv := clamp_default (base_srv_win (player_a self) + delta) in
  let p_a_rcv := clamp_default (base_rcv_win (player_a self) + delta) in
  {| pA_srv_win := p_a_srv;
     pA_rcv_win := p_a_rcv;
     pB_srv_win := clamp_default (1 - p_a_rcv);
     pB_rcv_win := clamp_default (1 - p_a_srv) |}.

(** [model_copy(update=...)] copies without validating. *)
Definition update_player_a (self : MatchupParams) (new_a : PlayerParams) : MatchupParams :=
  {| player_a := new_a; player_b := player_b self; weights := weights self;
     target := target self; cap := cap self; best_of := best_of self |}.

Definition update_mixes (a : PlayerParams) (sm : ServeMix) (rs : RallyStyleMix)
  : PlayerParams :=
  {| player_id := player_id a; name := name a;
     base_srv_win := base_srv_win a; base_rcv_win := base_rcv_win a;
     serve_mix := sm; rally_style := rs; sample_matches := sample_matches a |}.

Definition with_adjustments (self : MatchupParams) (serve_short_delta attack_delta : Q)
  : option MatchupParams :=
  let a := player_a self in
  let short' := clamp (short (serve_mix a) + serve_short_delta) (1 # 100) (99 # 100) in
  sm ← new_ServeMix short' (1 - short');
  let attack' := clamp (attack (rally_style a) + attack_delta) (1 # 100) (98 # 100) in
  let remain_old := py_max (neutral (rally_style a) + safe (rally_style a)) tolerance in
  let neutral' := (neutral (rally_style a) / remain_old) * (1 - attack') in
  let safe' := (safe (rally_style a) / remain_old) * (1 - attack') in
  rs ← new_RallyStyleMix attack' neutral' safe';
  Some (update_player_a self (update_mixes a sm rs)).

Definition l1_change_from (self baseline : MatchupParams) : Q :=
  let a_now := player_a self in
  let a_base := player_a baseline in
  Qabs (short (serve_mix a_now) - short (serve_mix a_base))
  + Qabs (flick (serve_mix a_now) - flick (serve_mix a_base))
  + Qabs (attack (rally_style a_now) - attack (rally_style a_base))
  + Qabs (neutral (rally_style a_now) - neutral (rally_style a_base))
  + Qabs (safe (rally_style a_now) - safe (rally_style a_base)).

End Params.

(** ** The template context of coach/model/params.py *)

Module TemplateContext.
Import Utils Params.

(** A value of the context dictionary: an [int] or a [str]. *)
Inductive ctx_value :=
| CInt (n : Z)
| CStr (s : string).

Definition decimal (n : Z) : string := NilZero.string_of_uint (N.to_uint (Z.to_N n)).

(** [f"{x:.6f}"]: six decimals, half to even. *)
Definition format_6f (x : Q) : string :=
  let n := py_round (Qabs x * 1000000) in
  let int_part := (n / 1000000)%Z in
  let frac_part := (n mod 1000000)%Z in
  let frac_digits :=
    match decimal (1000000 + frac_part) with
    | String _ ds => ds
    | EmptyString => EmptyString
    end in
  ((if Qlt_bool x 0 then "-" else "") +:+ decimal int_part +:+ "." +:+ frac_digits)%string.

Definition scale : Z := 10000.

Definition to_template_context (self : MatchupParams) : gmap string ctx_value :=
  let eff := effective_probabilities self in
  let p_a_srv_w := py_round (pA_srv_win eff * inject_Z scale) in
  let p_a_rcv_w := py_round (pA_rcv_win eff * inject_Z scale) in
  let a := player_a self in
  let b := player_b self in
  list_to_map [
    ("target", CInt (target self));
    ("cap", CInt (cap self));
    ("best_of", CInt (best_of self));
    ("games_to_win", CInt (best_of self / 2 + 1)%Z);
    ("pA_srv_win", CStr (format_6f (pA_srv_win eff)));
    ("pA_rcv_win", CStr (format_6f (pA_rcv_win eff)));
    ("pA_srv_win_w", CInt p_a_srv_w);
    ("pA_srv_lose_w", CInt (scale - p_a_srv_w)%Z);
    ("pA_rcv_win_w", CInt p_a_rcv_w);
    ("pA_rcv_lose_w", CInt (scale - p_a_rcv_w)%Z);
    ("baseA_srv_win", CStr (format_6f (base_srv_win a)));
    ("baseA_rcv_win", CStr (format_6f (base_rcv_win a)));
    ("baseB_srv_win", CStr (format_6f (base_srv_win b)));
    ("baseB_rcv_win", CStr (format_6f (base_rcv_win b)));
    ("serve_mix_A_short", CStr (format_6f (short (serve_mix a))));
    ("serve_mix_A_flick", CStr (format_6f (flick (serve_mix a))));
    ("serve_mix_B_short", CStr (format_6f (short (serve_mix b))));
    ("serve_mix_B_flick", CStr (format_6f (flick (serve_mix b))));
    ("rally_style_A_attack", CStr (format_6f (attack (rally_style a))));
    ("rally_style_A_neutral", CStr (format_6f (neutral (rally_style a))));
    ("rally_style_A_safe", CStr (format_6f (safe (rally_style a))));
    ("rally_style_B_attack", CStr (format_6f (attack (rally_style b))));
    ("rally_style_B_neutral", CStr (format_6f (neutral (rally_style b))));
    ("rally_style_B_safe", CStr (format_6f (safe (rally_style b))));
    ("w_short", CStr (format_6f (w_short (weights self))));
    ("w_attack", CStr (format_6f (w_attack (weights self))));
    ("w_safe", CStr (format_6f (w_safe (weights self))));
    ("playerA_name", CStr (name a));
    ("playerB_name", CStr (name b))
  ].

End TemplateContext.


(** ** coach/pat/parser.py *)

Module Parser.
Import Text.

(** *** [float(token)]: the nearest binary64 value *)

(** A float as the parser sees it: a finite value or an infinity (a
    decimal exponent too large for binary64). *)
Inductive pyfloat :=
| Finite (q : Q)
| Infinity (negative : bool).

(** The integer nearest to [n / d], ties to even ([0 <= n], [0 < d]). *)
Definition round_half_even_div (n d : Z) : Z :=
  let q := (n / d)%Z in
  let r := (n mod d)%Z in
  match (2 * r ?= d)%Z with
  | Lt => q
  | Gt => (q + 1)%Z
  | Eq => if Z.even q then q else (q + 1)%Z
  end.

(** [floor (log2 (n / d))] for positive [n] and [d]. *)
Definition floor_log2_ratio (n d : Z) : Z :=
  let e := (Z.log2 n - Z.log2 d)%Z in
  let at_least :=
    if (0 <=? e)%Z then (d * 2 ^ e <=? n)%Z else (d <=? n * 2 ^ (- e))%Z in
  if at_least then e else (e - 1)%Z.

(** The binary64 value nearest to [n / d] ([0 <= n], [0 < d]): 53
    significant bits, least exponent -1074, overflow to infinity. *)
Definition binary64_nearest (n d : Z) : option Q :=
  if (n =? 0)%Z then Some 0 else
  let e := floor_log2_ratio n d in
  let sh := Z.max (e - 52) (-1074) in
  if (0 <=? sh)%Z then
    let m := round_half_even_div n (d * 2 ^ sh) in
    if (2 ^ 1024 <=? m * 2 ^ sh)%Z then None
    else Some (inject_Z (m * 2 ^ sh))
  else
    let m := round_half_even_div (n * 2 ^ (- sh)) d in
    Some (Qmake m (Z.to_pos (2 ^ (- sh)))).

(** *** The two compiled patterns *)

Fixpoint span (f : ascii -> bool) (l : list ascii) : list ascii * list ascii :=
  match l with
  | c :: t =>
      if f c then let '(a, b) := span f t in (c :: a, b) else ([], l)
  | [] => ([], [])
  end.

(** A literal of the pattern under the flag [i]: the pattern's letters
    are lower case, the text is compared after [lower]. *)
Fixpoint literal_ignorecase (p l : list ascii) : option (list ascii) :=
  match p, l with
  | [], _ => Some l
  | a :: p', b :: l' =>
      if Ascii.eqb a (lower_char b) then literal_ignorecase p' l' else None
  | _ :: _, [] => None
  end.

(** [_PROB_CONTEXT_PATTERN = (?is)(?:prob(?:ability)?|with\s+prob)]
    matched at the head of [l]: the text after the match. *)
Definition match_context (l : list ascii) : option (unit * list ascii) :=
  match literal_ignorecase (chars "prob") l with
  | Some r =>
      match literal_ignorecase (chars "ability") r with
      | Some r' => Some (tt, r')
      | None => Some (tt, r)
      end
  | None =>
      match literal_ignorecase (chars "with") l with
      | Some r =>
          let '(ws, r') := span isspace r in
          match ws with
          | [] => None
          | _ => match literal_ignorecase (chars "prob") r' with
                 | Some r'' => Some (tt, r'')
                 | None => None
                 end
          end
      | None => None
      end
  end.

(** A match of [_NUMBER_PATTERN], cut into its parts. *)
Record number_token := {
  negative : bool;
  int_digits : list ascii;
  frac_digits : list ascii;
  exponent : Z
}.

Definition is_char (s : string) (c : ascii) : bool :=
  match s with
  | String a EmptyString => Ascii.eqb a c
  | _ => false
  end.

(** [[+-]?]: whether a minus was read, and the rest. *)
Definition match_sign (l : list ascii) : bool * list ascii :=
  match l with
  | c :: t =>
      if is_char "+" c then (false, t)
      else if is_char "-" c then (true, t)
      else (false, l)
  | [] => (false, [])
  end.

Definition digits_value (ds : list ascii) : Z :=
  fold_left (fun acc c => (10 * acc + digit_value c)%Z) ds 0%Z.

(** [(?:[eE][+-]?\d+)?] *)
Definition match_exponent (l : list ascii) : Z * list ascii :=
  match l with
  | c :: t =>
      if is_char "e" c || is_char "E" c then
        let '(neg, t1) := match_sign t in
        let '(es, t2) := span isdigit t1 in
        match es with
        | [] => (0%Z, l)
        | _ => ((if neg then - digits_value es else digits_value es)%Z, t2)
        end
      else (0%Z, l)
  | [] => (0%Z, [])
  end.

(** [_NUMBER_PATTERN = [+-]?(?:\d*\.\d+|\d+)(?:[eE][+-]?\d+)?] matched at
    the head of [l].  The first alternative needs a point followed by a
    digit; otherwise the second takes the digits before the point. *)
Definition match_number (l : list ascii) : option (number_token * list ascii) :=
  let '(neg, l1) := match_sign l in
  let '(ds, r1) := span isdigit l1 in
  let integer_only :=
    match ds with
    | [] => None
    | _ => Some (ds, [], r1)
    end in
  let mantissa :=
    match r1 with
    | c :: r2 =>
        if is_char "." c then
          let '(fs, r3) := span isdigit r2 in
          match fs with
          | [] => integer_only
          | _ => Some (ds, fs, r3)
          end
        else integer_only
    | [] => integer_only
    end in
  match mantissa with
  | Some (ds', fs, r) =>
      let '(e, r') := match_exponent r in
      Some ({| negative := neg; int_digits := ds'; frac_digits := fs; exponent := e |}, r')
  | None => None
  end.

(** [pattern.finditer(text)]: the matches from left to right, none
    overlapping; each with the text that follows it.  [skip] counts the
    characters still covered by the previous match.  Neither pattern
    matches the empty string, so no match starts at the end of the text. *)
Fixpoint finditer {A} (m : list ascii -> option (A * list ascii))
    (skip : nat) (l : list ascii) : list (A * list ascii) :=
  match l with
  | [] => []
  | _ :: t =>
      match skip with
      | S k => finditer m k t
      | O =>
          match m l with
          | Some (a, rest) =>
              (a, rest) :: finditer m (length l - length rest - 1) t
          | None => finditer m 0 t
          end
      end
  end.

(** [float(number_match.group(0))] *)
Definition float_of_token (t : number_token) : pyfloat :=
  let mantissa := digits_value (int_digits t ++ frac_digits t) in
  let e10 := (exponent t - Z.of_nat (length (frac_digits t)))%Z in
  let magnitude :=
    if (0 <=? e10)%Z then binary64_nearest (mantissa * 10 ^ e10) 1
    else binary64_nearest mantissa (10 ^ (- e10)) in
  match magnitude with
  | Some q => Finite (if negative t then - q else q)
  | None => Infinity (negative t)
  end.

(** [0.0 <= value <= 1.0] *)
Definition in_range (v : pyfloat) : option Q :=
  match v with
  | Finite q => if Qle_bool 0 q && Qle_bool q 1 then Some q else None
  | Infinity _ => None
  end.

Definition _extract_probabilities (segment : list ascii) : list Q :=
  omap (fun '(tok, _) => in_range (float_of_token tok)) (finditer match_number 0 segment).

Definition newline : ascii := ascii_of_N 10.

(** [text[segment_start:line_end]]: up to the next line feed. *)
Definition line_segment (rest : list ascii) : list ascii :=
  fst (span (fun c => negb (Ascii.eqb c newline)) rest).

(** [text[segment_start : min(len(text), segment_start + 40)]] *)
Definition nearby_segment (rest : list ascii) : list ascii := take 40 rest.

(** What one contextual match adds to [values]. *)
Definition context_values (rest : list ascii) : list Q :=
  match _extract_probabilities (line_segment rest) with
  | [] => _extract_probabilities (nearby_segment rest)
  | line_values => line_values
  end.

(** The list [values] when the loop of [parse_probability] ends. *)
Definition collect_values (text : list ascii) : list Q :=
  flat_map (fun '(_, rest) => context_values rest) (finditer match_context 0 text).

Definition _excerpt (text : list ascii) (max_len : nat) : list ascii :=
  let compact := join (chars " ") (split_ws [] text) in
  if (length compact <=? max_len)%nat then compact
  else take (max_len - 3) compact ++ chars "...".

Inductive parse_result :=
| Parsed (value : Q)
| ValueError (message : string).

Definition parse_error_prefix : string :=
  "Could not parse probability from PAT output. Excerpt: ".

Definition parse_probability (text : string) : parse_result :=
  match last (collect_values (chars text)) with
  | Some v => Parsed v
  | None =>
      ValueError (parse_error_prefix +:+ Text.text (_excerpt (chars text) 180))
  end.

End Parser.

(** ** coach/pat/mock_pat.py *)

Module MockPat.
Local Open Scope R_scope.

(** The largest argument for which [math.exp] returns: the float
    0x1.62e42fefa39efp+9 = 709.78271289338397...; its exponential is
    the last one below the largest float. *)
Definition exp_max_arg : R := 6243314768165359 / 8796093022208.

(** [math.exp]: the exponential of the reals, and [None] for the
    OverflowError ("math range error") above [exp_max_arg].  A result
    too small for a float is returned as 0 without an error; the reals
    keep it positive. *)
Definition math_exp (x : R) : option R :=
  if Rlt_dec exp_max_arg x then None else Some (exp x).

Definition _logistic (value : R) : option R :=
  e ← math_exp (- value);
  Some (1 / (1 + e)).

(** [float(params.get(key, fallback))] *)
Definition get (params : gmap string R) (key : string) (fallback : R) : R :=
  default fallback (params !! key).

Definition linear_score (params : gmap string R) : R :=
  let p_a_srv := get params "pA_srv_win" (5 / 10) in
  let p_a_rcv := get params "pA_rcv_win" (5 / 10) in
  let serve_edge :=
    get params "serve_mix_A_short" (5 / 10) - get params "serve_mix_B_short" (5 / 10) in
  let attack_edge :=
    get params "rally_style_A_attack" (33 / 100)
    - get params "rally_style_B_attack" (33 / 100) in
  let safe_edge :=
    get params "rally_style_B_safe" (33 / 100)
    - get params "rally_style_A_safe" (33 / 100) in
  28 / 10 * (p_a_srv - 5 / 10)
  + 22 / 10 * (p_a_rcv - 5 / 10)
  + 7 / 10 * serve_edge
  + 9 / 10 * attack_edge
  - 6 / 10 * safe_edge.

(** [None]: the OverflowError of [_logistic] leaves the function. *)
Definition mock_probability (params : gmap string R) : option R :=
  probability ← _logistic (linear_score params);
  Some (Rmax (1 / 100) (Rmin (99 / 100) probability)).

(** The keys [mock_probability] reads. *)
Definition mock_keys : list string :=
  ["pA_srv_win"; "pA_rcv_win"; "serve_mix_A_short"; "serve_mix_B_short";
   "rally_style_A_attack"; "rally_style_B_attack";
   "rally_style_B_safe"; "rally_style_A_safe"].

End MockPat.

(** ** coach/data/adapters/local_csv.py: the estimator *)

Module LocalCsv.
Import Utils.

(** One match seen from a player's side: a row of [_perspective_frame]. *)
Record PerspectiveRow := {
  serve_rallies : Z;
  serve_wins : Z;
  receive_rallies : Z;
  receive_wins : Z;
  short_rate : Q;
  flick_rate : Q;
  attack_rate : Q;
  neutral_rate : Q;
  safe_rate : Q;
  points_for : Z;
  points_against : Z;
  won : bool
}.

(** The default of the constructor argument [laplace_alpha]. *)
Definition default_laplace_alpha : Q := 2.

(** [None] is the ZeroDivisionError of the division of two floats. *)
Definition _smooth_probability (laplace_alpha : Q) (wins trials : Q) (alpha : option Q)
  : option Q :=
  let alpha' := default laplace_alpha alpha in
  if Qeq_bool (trials + 2 * alpha') 0 then None
  else Some ((wins + alpha') / (trials + 2 * alpha')).

(** [series.sum()] of an integer and of a float column. *)
Definition sum_Z (f : PerspectiveRow -> Z) (rows : list PerspectiveRow) : Z :=
  fold_right (fun r acc => (f r + acc)%Z) 0%Z rows.

Definition sum_Q (f : PerspectiveRow -> Q) (rows : list PerspectiveRow) : Q :=
  fold_right (fun r acc => f r + acc) 0 rows.

(** [series.clip(lower=1)] on one entry. *)
Definition clip_lower_1 (n : Z) : Z := Z.max 1 n.

Definition serve_weight (r : PerspectiveRow) : Z := clip_lower_1 (serve_rallies r).
Definition rally_weight (r : PerspectiveRow) : Z :=
  clip_lower_1 (points_for r + points_against r).

(** [(rate * weight).sum() / weight.sum()] *)
Definition weighted_mean (rate : PerspectiveRow -> Q) (weight : PerspectiveRow -> Z)
    (rows : list PerspectiveRow) : Q :=
  sum_Q (fun r => rate r * inject_Z (weight r)) rows / inject_Z (sum_Z weight rows).

Definition alpha_mix : Q := 2 # 100.

Record PlayerStats := {
  matches : Z;
  win_rate : Q;
  base_srv_win : Q;
  base_rcv_win : Q;
  serve_mix_short : Q;
  serve_mix_flick : Q;
  rally_style_attack : Q;
  rally_style_neutral : Q;
  rally_style_safe : Q;
  serve_trials : Z;
  receive_trials : Z
}.

Definition count_won (rows : list PerspectiveRow) : Z :=
  sum_Z (fun r => if won r then 1 else 0)%Z rows.

(** [get_player_params] on the rows of the window; [None] is the
    [ValueError] of [get_player_matches] for a player with no match, or
    the ZeroDivisionError of [_smooth_probability].  The weights are
    clipped to 1 at least and the three clamped styles sum to 0.15 at
    least, so that no other division is by zero. *)
Definition get_player_params (laplace_alpha : Q) (rows : list PerspectiveRow)
  : option PlayerStats :=
  match rows with
  | [] => None
  | _ =>
      let serve_trials' := sum_Z serve_rallies rows in
      let serve_wins' := sum_Z serve_wins rows in
      let receive_trials' := sum_Z receive_rallies rows in
      let receive_wins' := sum_Z receive_wins rows in
      base_srv ←
        _smooth_probability laplace_alpha (inject_Z serve_wins') (inject_Z serve_trials') None;
      base_rcv ←
        _smooth_probability laplace_alpha (inject_Z receive_wins')
          (inject_Z receive_trials') None;
      let short0 := weighted_mean short_rate serve_weight rows in
      let attack0 := weighted_mean attack_rate rally_weight rows in
      let safe0 := weighted_mean safe_rate rally_weight rows in
      let short := (short0 + alpha_mix) / (1 + 2 * alpha_mix) in
      let flick := 1 - short in
      let attack1 := py_max (5 # 100) (py_min (9 # 10) attack0) in
      let safe1 := py_max (5 # 100) (py_min (9 # 10) safe0) in
      let neutral1 := py_max (5 # 100) (1 - attack1 - safe1) in
      let total := attack1 + neutral1 + safe1 in
      let wins := count_won rows in
      let matches' := Z.of_nat (length rows) in
      win_rate' ←
        _smooth_probability laplace_alpha (inject_Z wins) (inject_Z matches')
          (Some (15 # 10));
      Some {| matches := matches';
              win_rate := win_rate';
              base_srv_win := base_srv;
              base_rcv_win := base_rcv;
              serve_mix_short := short;
              serve_mix_flick := flick;
              rally_style_attack := attack1 / total;
              rally_style_neutral := neutral1 / total;
              rally_style_safe := safe1 / total;
              serve_trials := serve_trials';
              receive_trials := receive_trials' |}
  end.

Record HeadToHead := {
  h2h_matches : Z;
  a_win_rate : Q;
  a_srv_win : Q;
  a_rcv_win : Q
}.

(** [get_head_to_head] on the head-to-head rows seen from player A;
    [None] is the ZeroDivisionError of [_smooth_probability]. *)
Definition get_head_to_head (laplace_alpha : Q) (rows : list PerspectiveRow)
  : option HeadToHead :=
  match rows with
  | [] => Some {| h2h_matches := 0; a_win_rate := 5 # 10; a_srv_win := 5 # 10;
                  a_rcv_win := 5 # 10 |}
  | _ =>
      let matches' := Z.of_nat (length rows) in
      let wins := count_won rows in
      let srv_trials := sum_Z serve_rallies rows in
      let srv_wins := sum_Z serve_wins rows in
      let rcv_trials := sum_Z receive_rallies rows in
      let rcv_wins := sum_Z receive_wins rows in
      a_win_rate' ←
        _smooth_probability laplace_alpha (inject_Z wins) (inject_Z matches') (Some 1);
      a_srv_win' ←
        _smooth_probability laplace_alpha (inject_Z srv_wins) (inject_Z srv_trials)
          (Some (15 # 10));
      a_rcv_win' ←
        _smooth_probability laplace_alpha (inject_Z rcv_wins) (inject_Z rcv_trials)
          (Some (15 # 10));
      Some {| h2h_matches := matches'; a_win_rate := a_win_rate';
              a_srv_win := a_srv_win'; a_rcv_win := a_rcv_win' |}
  end.

End LocalCsv.

(** ** coach/pat/runner.py *)

Module Runner.
Import Text Parser.
Local Open Scope string_scope.

Definition nl : string := String newline EmptyString.

(** [str(n)] for an integer. *)
Definition str_int (n : Z) : string :=
  if (n <? 0)%Z then "-" +:+ TemplateContext.decimal (- n)
  else TemplateContext.decimal n.

(** [a / b] on paths. *)
Definition path_join (dir name : string) : string := dir +:+ "/" +:+ name.

(** *** The world outside the function *)

(** What one execution of the engine does: in real mode, what the
    process-execution layer reports for the command. *)
Inductive process_result :=
| Completed (returncode : Z) (stdout stderr : string)
| NotFound (message : string)
    (* FileNotFoundError: the command could not be started *)
| TimedOut (stdout stderr : option string) (message : string)
    (* subprocess.TimeoutExpired; an output is [None] unless it is a str *)
| OtherError (message : string).
    (* any other exception, such as PermissionError *)

(** The expected output file, as [out_path.exists()] and
    [read_pat_output] see it. *)
Inductive out_file :=
| Missing
| Unreadable
| Content (text : string).

(** What building the compatibility runtime does. *)
Inductive shim_result :=
| ShimRaised (message : string)
    (* copying the installation or running mcs raised: str(exc) *)
| McsNotFound
| McsFinished (returncode : Z) (stdout stderr : string).

(** The engine during one invocation: an oracle.  [primary_run] is its
    first execution: the console process in real mode, the call of
    [mock_run] in mock mode, which either returns the probability
    [mock_value] or raises ([OtherError]: the model description cannot
    be read, [math.exp] overflows, the result file cannot be written). *)
Record engine := {
  primary_run : process_result;
  out_after_primary : out_file;
  shim : shim_result;
  compat_run : process_result;
  out_after_compat : out_file;
  mock_value : Q  (* what mock_probability computes for the model description *)
}.

(** A resolved console path and what the file system says of it. *)
Record console_path := {
  full_path : string;
  parent_dir : string;
  file_name : string;
  path_exists : bool;
  path_is_dir : bool
}.

Record host := {
  resolve_pat_console_path : string -> console_path;
  mono_path : string;  (* CoachConfig.from_env().mono_path *)
  mcs_path : string    (* _resolve_mcs_path() *)
}.

Record invocation := {
  pcsp_path : string;
  pcsp_name : string;
  run_dir : string;
  out_name : string;
  mode : string;
  pat_console_path : option string;
  timeout_s : Z;
  use_mono : option bool
}.

Definition out_path (inv : invocation) : string := path_join (run_dir inv) (out_name inv).

(** *** Records *)

Record _PATCommandResult := {
  attempt_cmd : list string;
  attempt_returncode : Z;
  attempt_stdout : string;
  attempt_stderr : string
}.

Record attempt_meta := {
  meta_index : Z;
  meta_cmd : list string;
  meta_returncode : Z;
  meta_stdout_path : string;
  meta_stderr_path : string
}.

(** The dictionary [payload]; a key that is absent is [None]. *)
Record payload := {
  ok : bool;
  returncode : Z;
  cmd : list string;
  stdout_path : string;
  stderr_path : string;
  pat_out_path : string;
  probability : option Q;
  attempts : option (list attempt_meta);
  fallback_applied : option bool;
  error : option string
}.

Inductive artifact :=
| TextFile (content : string)
| RunRecord (record : payload)           (* pat_run.json *)
| SummaryRecord (probability : option Q). (* summary.json *)

Inductive exn :=
| ValueError (message : string)
| RuntimeError (message : string)
| OSError (message : string).

Inductive outcome :=
| Returned (result : payload)
| Raised (e : exn).

(** The files under the run directory, the expected output file and
    the result, after [run_pat]. *)
Record run_effect := {
  disk_after : gmap string artifact;
  out_file_after : out_file;
  result : outcome
}.

(** *** Helpers of the module *)

Definition suffix (name : string) : string :=
  let l := chars name in
  let after_dot := fst (span (fun c => negb (is_char "." c)) (rev l)) in
  let i := (length l - length after_dot - 1)%nat in
  if (length after_dot <? length l)%nat && (0 <? i)%nat && (0 <? length after_dot)%nat
  then text (drop i l) else "".

Definition lower_string (s : string) : string := text (lower (chars s)).

Definition _resolve_use_mono (use_mono : option bool) (console : console_path) : bool :=
  match use_mono with
  | Some b => b
  | None => String.eqb (lower_string (suffix (file_name console))) ".exe"
  end.

Definition _build_pat_command (h : host) (console_path_str pcsp out : string)
    (use_mono : bool) : list string :=
  if use_mono then [mono_path h; console_path_str; "-pcsp"; pcsp; out]
  else [console_path_str; "-pcsp"; pcsp; out].

Definition is_in (needle haystack : string) : bool :=
  contains (chars needle) (chars haystack).

Definition _first_nonempty_line (text : string) : option string :=
  head (omap (fun raw => match strip raw with [] => None | line => Some (Text.text line) end)
             (splitlines (chars text))).

Definition signals : list string :=
  ["parsing error:"; "runtime exception occurred:"; "error occurred:";
   "invalid file name:"; "invalid folder name:"; "invalid arguments."].

Definition _extract_pat_model_error (stdout stderr : string) : option string :=
  head (omap (fun raw =>
                match strip raw with
                | [] => None
                | line =>
                    if existsb (fun token => contains (chars token) (lower line)) signals
                    then Some (Text.text line) else None
                end)
             (splitlines (chars (stdout +:+ nl +:+ stderr)))).

Definition hint_invalid_image : string :=
  "PAT3.Console under Mono can fail due NESC startup checks. "
  +:+ "The runner will attempt a compatibility shim automatically; if this still fails, install full Mono (with mcs) or use PAT4.".

Definition hint_object_reference : string :=
  "This is usually PAT3 NESC startup failure on Mono. "
  +:+ "Try setting PAT_CONSOLE_PATH to PAT3.Console.exe and let the runner apply compatibility fallback.".

Definition _infer_hint_from_output (stdout stderr : string) : option string :=
  let combined := lower_string (stdout +:+ nl +:+ stderr) in
  if is_in "invalid arguments. invalid image" combined then Some hint_invalid_image
  else if is_in "object reference not set to an instance of an object" combined
  then Some hint_object_reference
  else None.

Definition file_exists (f : out_file) : bool :=
  match f with Missing => false | _ => true end.

Definition _should_try_pat3_mono_compat_fallback (console : console_path)
    (use_mono : bool) (stdout stderr : string) (out : out_file) : bool :=
  if negb use_mono then false
  else if file_exists out then false
  else if negb (is_in "pat3.console" (lower_string (file_name console))) then false
  else
    let combined := lower_string (stdout +:+ nl +:+ stderr) in
    let has_pat_usage := is_in "for all modules except uml:" combined in
    let has_nesc_startup_symptom :=
      is_in "invalid arguments." combined
      && (is_in "invalid image" combined
          || is_in "object reference not set to an instance of an object" combined) in
    has_pat_usage && has_nesc_startup_symptom.

Definition write (path : string) (a : artifact) (d : gmap string artifact)
  : gmap string artifact := <[path := a]> d.

Definition or_else {A} (x y : option A) : option A :=
  match x with Some _ => x | None => y end.

(** [x or y] on optional strings: an empty string is falsy. *)
Definition truthy (x : option string) : option string :=
  match x with
  | Some EmptyString => None
  | _ => x
  end.

(** [_prepare_pat3_mono_compat_runtime]: the files it leaves in the run
    directory and the console of the patched copy, or [str(exc)].  The
    copy of the installation and the shim source inside it are the
    engine's business and are not kept in the model's disk. *)
Definition _prepare_pat3_mono_compat_runtime (h : host) (e : engine)
    (console : console_path) (dir : string) (d : gmap string artifact)
  : gmap string artifact * (string + string) :=
  let compat_root := path_join dir "pat3_mono_compat_runtime" in
  let shim_src := path_join (path_join (path_join compat_root "Modules") "NESC") "nesc_shim.cs" in
  let shim_out :=
    path_join (path_join (path_join compat_root "Modules") "NESC") "PAT.Module.NESC.dll" in
  let pat_common := path_join compat_root "PAT.Common.dll" in
  let mcs_cmd :=
    [mcs_path h; "-target:library"; "-out:" +:+ shim_out; "-r:" +:+ pat_common; shim_src] in
  match shim e with
  | ShimRaised message => (d, inr message)
  | McsNotFound =>
      (d, inr ("mcs compiler not found. PAT3 Mono compatibility fallback requires "
               +:+ "Mono C# compiler (`mcs`)."))
  | McsFinished rc so se =>
      let d1 := write (path_join dir "pat3_shim_compile_stdout.txt") (TextFile so) d in
      let d2 := write (path_join dir "pat3_shim_compile_stderr.txt") (TextFile se) d1 in
      let d3 :=
        write (path_join dir "pat3_shim_compile_cmd.txt")
          (TextFile (text (join (chars " ") (map chars mcs_cmd)))) d2 in
      if negb (rc =? 0)%Z then
        let detail := or_else (_first_nonempty_line se) (_first_nonempty_line so) in
        (d3, inr ("Failed to compile PAT3 NESC shim. "
                  +:+ default "Unknown compile failure." (truthy detail)))
      else (d3, inl (path_join compat_root (file_name console)))
  end.

(** [_write_attempt_logs], from index [idx] on. *)
Fixpoint _write_attempt_logs (dir : string) (idx : Z) (l : list _PATCommandResult)
    (d : gmap string artifact) : gmap string artifact * list attempt_meta :=
  match l with
  | [] => (d, [])
  | a :: rest =>
      let out := path_join dir ("pat_stdout_attempt" +:+ str_int idx +:+ ".txt") in
      let err := path_join dir ("pat_stderr_attempt" +:+ str_int idx +:+ ".txt") in
      let d1 := write out (TextFile (attempt_stdout a)) d in
      let d2 := write err (TextFile (attempt_stderr a)) d1 in
      let '(d3, metas) := _write_attempt_logs dir (idx + 1) rest d2 in
      (d3, {| meta_index := idx; meta_cmd := attempt_cmd a;
              meta_returncode := attempt_returncode a;
              meta_stdout_path := out; meta_stderr_path := err |} :: metas)
  end.

Definition _write_summary (summary_json : string) (probability' : option Q)
    (d : gmap string artifact) : gmap string artifact :=
  write summary_json (SummaryRecord probability') d.

(** *** Messages *)

Definition download_line : string :=
  "Download PAT from https://www.comp.nus.edu.sg/~pat/patdownload.htm".

Definition msg_no_console_path : string :=
  "PAT real mode requires PAT_CONSOLE_PATH." +:+ nl +:+ download_line +:+ nl
  +:+ "Set PAT_CONSOLE_PATH=/path/to/PAT.Console.exe and retry, or use --mode mock.".

Definition msg_console_not_found (resolved : string) : string :=
  "PAT Console not found at: " +:+ resolved +:+ nl +:+ download_line +:+ nl
  +:+ "Set PAT_CONSOLE_PATH to the PAT.Console.exe path, then retry.".

Definition msg_console_is_dir (resolved : string) : string :=
  "PAT_CONSOLE_PATH points to a directory without a console executable: "
  +:+ resolved +:+ nl
  +:+ "Set PAT_CONSOLE_PATH to PAT.Console.exe or PAT3.Console.exe.".

Definition msg_cannot_start : string :=
  "PAT command could not be started. Ensure PAT_CONSOLE_PATH is correct and "
  +:+ "Mono is installed and available on PATH when required.".

Definition msg_execution_failed : string :=
  "PAT execution failed. Check pat_stdout.txt and pat_stderr.txt in the run directory.".

Definition msg_empty_output : string := "PAT produced an empty output file.".
Definition msg_no_output : string := "PAT did not produce the expected output file.".


(** *** [run_pat] *)

Definition raise (e : exn) (out : out_file) (d : gmap string artifact) : run_effect :=
  {| disk_after := d; out_file_after := out; result := Raised e |}.

(** The branch [mode == "mock"].  An exception of [mock_run] is not
    caught: it leaves [run_pat] before anything is written.  Otherwise
    [mock_run] writes the synthetic result file and [run_pat] the four
    artifacts. *)
Definition run_mock (e : engine) (inv : invocation) (out_before : out_file)
    (d : gmap string artifact) : run_effect :=
  match primary_run e with
  | OtherError message => raise (OSError message) out_before d
  | _ =>
      let shown := TemplateContext.format_6f (mock_value e) in
      let out_text :=
        "PAT Mock Verification Result" +:+ nl +:+ "with prob " +:+ shown +:+ nl
        +:+ "module: -pcsp" +:+ nl in
      let stdout :=
        "[mock] PAT finished for " +:+ pcsp_name inv +:+ ". Probability = " +:+ shown
        +:+ nl in
      let stdout_path' := path_join (run_dir inv) "pat_stdout.txt" in
      let stderr_path' := path_join (run_dir inv) "pat_stderr.txt" in
      let p :=
        {| ok := true; returncode := 0;
           cmd := ["mock_pat"; "-pcsp"; pcsp_path inv; out_path inv];
           stdout_path := stdout_path'; stderr_path := stderr_path';
           pat_out_path := out_path inv;
           probability := Some (mock_value e);
           attempts := None; fallback_applied := None; error := None |} in
      let d1 := write stdout_path' (TextFile stdout) d in
      let d2 := write stderr_path' (TextFile "") d1 in
      let d3 := write (path_join (run_dir inv) "pat_run.json") (RunRecord p) d2 in
      let d4 :=
        _write_summary (path_join (run_dir inv) "summary.json") (Some (mock_value e)) d3 in
      {| disk_after := d4; out_file_after := Content out_text; result := Returned p |}
  end.

(** The two [except] branches around the primary attempt. *)
Definition run_not_completed (inv : invocation) (base_cmd : list string)
    (stdout stderr message : string) (out : out_file) (d : gmap string artifact)
  : run_effect :=
  let stdout_path' := path_join (run_dir inv) "pat_stdout.txt" in
  let stderr_path' := path_join (run_dir inv) "pat_stderr.txt" in
  let p :=
    {| ok := false; returncode := -1; cmd := base_cmd;
       stdout_path := stdout_path'; stderr_path := stderr_path';
       pat_out_path := out_path inv; probability := None;
       attempts := None; fallback_applied := None; error := Some message |} in
  let d1 := write stdout_path' (TextFile stdout) d in
  let d2 := write stderr_path' (TextFile stderr) d1 in
  let d3 := write (path_join (run_dir inv) "pat_run.json") (RunRecord p) d2 in
  let d4 := _write_summary (path_join (run_dir inv) "summary.json") None d3 in
  {| disk_after := d4; out_file_after := out; result := Returned p |}.

(** The attempts after the primary one: the compatibility fallback, when
    it is tried.  Every exception inside it becomes [fallback_error]. *)
Record fallback_state := {
  later_attempts : list _PATCommandResult;
  fallback_error : option string;
  out_final : out_file;
  fallback_disk : gmap string artifact
}.

Definition run_fallback (h : host) (e : engine) (inv : invocation)
    (console : console_path) (resolved_use_mono : bool)
    (stdout stderr : string) (d : gmap string artifact) : fallback_state :=
  if _should_try_pat3_mono_compat_fallback console resolved_use_mono stdout stderr
       (out_after_primary e)
  then
    match _prepare_pat3_mono_compat_runtime h e console (run_dir inv) d with
    | (d', inr message) =>
        {| later_attempts := []; fallback_error := Some message;
           out_final := out_after_primary e; fallback_disk := d' |}
    | (d', inl compat_console) =>
        let compat_cmd :=
          _build_pat_command h compat_console (pcsp_path inv) (out_path inv)
            resolved_use_mono in
        match compat_run e with
        | Completed rc so se =>
            {| later_attempts :=
                 [{| attempt_cmd := compat_cmd; attempt_returncode := rc;
                     attempt_stdout := so; attempt_stderr := se |}];
               fallback_error := None;
               out_final := out_after_compat e; fallback_disk := d' |}
        | NotFound message | TimedOut _ _ message | OtherError message =>
            {| later_attempts := []; fallback_error := Some message;
               out_final := out_after_compat e; fallback_disk := d' |}
        end
    end
  else
    {| later_attempts := []; fallback_error := None;
       out_final := out_after_primary e; fallback_disk := d |}.

(** [attempts[-1]] *)
Definition selected_attempt (primary : _PATCommandResult) (later : list _PATCommandResult)
  : _PATCommandResult :=
  default primary (last later).

(** The model error and the probability after the last attempt. *)
Definition classify (selected : _PATCommandResult) (out : out_file)
  : option string * option Q :=
  let model_error :=
    _extract_pat_model_error (attempt_stdout selected) (attempt_stderr selected) in
  let read_text (pat_out_text : string) :=
    match strip (chars pat_out_text) with
    | [] => (or_else model_error (Some msg_empty_output), None)
    | _ =>
        match parse_probability pat_out_text with
        | Parsed v => (model_error, Some v)
        | Parser.ValueError message => (or_else model_error (Some message), None)
        end
    end in
  match out with
  | Content pat_out_text => read_text pat_out_text
  | Unreadable => read_text ""
  | Missing =>
      if (attempt_returncode selected =? 0)%Z then
        (or_else model_error (Some msg_no_output), None)
      else (model_error, None)
  end.

Definition is_some {A} (x : option A) : bool :=
  match x with Some _ => true | None => false end.

Definition failure_message (model_error fallback_error' : option string)
    (stdout stderr : string) : string :=
  let detail :=
    or_else (truthy model_error)
      (or_else (truthy (_first_nonempty_line stderr)) (_first_nonempty_line stdout)) in
  let message1 :=
    match truthy detail with
    | Some dt => msg_execution_failed +:+ " Detail: " +:+ dt
    | None => msg_execution_failed
    end in
  let message2 :=
    match truthy (_infer_hint_from_output stdout stderr) with
    | Some hint => message1 +:+ " Hint: " +:+ hint
    | None => message1
    end in
  match truthy fallback_error' with
  | Some fe =>
      message2
      +:+ " Fallback detail: attempted PAT3 Mono compatibility shim but it failed: " +:+ fe
  | None => message2
  end.

(** The body of the [try] once the primary attempt has completed. *)
Definition run_completed (h : host) (e : engine) (inv : invocation)
    (console : console_path) (resolved_use_mono : bool)
    (primary : _PATCommandResult) (d : gmap string artifact) : run_effect :=
  let fb :=
    run_fallback h e inv console resolved_use_mono
      (attempt_stdout primary) (attempt_stderr primary) d in
  let all_attempts := primary :: later_attempts fb in
  let '(d1, attempt_meta') :=
    _write_attempt_logs (run_dir inv) 1 all_attempts (fallback_disk fb) in
  let selected := selected_attempt primary (later_attempts fb) in
  let stdout := attempt_stdout selected in
  let stderr := attempt_stderr selected in
  let stdout_path' := path_join (run_dir inv) "pat_stdout.txt" in
  let stderr_path' := path_join (run_dir inv) "pat_stderr.txt" in
  let d2 := write stdout_path' (TextFile stdout) d1 in
  let d3 := write stderr_path' (TextFile stderr) d2 in
  let '(model_error, probability') := classify selected (out_final fb) in
  let ok' :=
    (attempt_returncode selected =? 0)%Z && file_exists (out_final fb)
    && negb (is_some model_error) && is_some probability' in
  let p :=
    {| ok := ok'; returncode := attempt_returncode selected;
       cmd := attempt_cmd selected;
       stdout_path := stdout_path'; stderr_path := stderr_path';
       pat_out_path := out_path inv; probability := probability';
       attempts := Some attempt_meta';
       fallback_applied := Some (1 <? length all_attempts)%nat;
       error :=
         if ok' then None
         else Some (failure_message model_error (fallback_error fb) stdout stderr) |} in
  let d4 := write (path_join (run_dir inv) "pat_run.json") (RunRecord p) d3 in
  let d5 := _write_summary (path_join (run_dir inv) "summary.json") probability' d4 in
  {| disk_after := d5; out_file_after := out_final fb; result := Returned p |}.

(** [run_pat]: [out_before] is the state of the expected output file
    when the function is entered. *)
Definition run_pat (h : host) (e : engine) (inv : invocation)
    (out_before : out_file) (d : gmap string artifact) : run_effect :=
  if String.eqb (mode inv) "mock" then run_mock e inv out_before d
  else if negb (String.eqb (mode inv) "real") then
    raise (ValueError "mode must be 'real' or 'mock'") out_before d
  else
    match pat_console_path inv with
    | None => raise (RuntimeError msg_no_console_path) out_before d
    | Some given =>
        let console := resolve_pat_console_path h given in
        if negb (path_exists console) then
          raise (RuntimeError (msg_console_not_found (full_path console))) out_before d
        else if path_is_dir console then
          raise (RuntimeError (msg_console_is_dir (full_path console))) out_before d
        else
          let resolved_use_mono := _resolve_use_mono (use_mono inv) console in
          let base_cmd :=
            _build_pat_command h (full_path console) (pcsp_path inv) (out_path inv)
              resolved_use_mono in
          match primary_run e with
          | Completed rc so se =>
              run_completed h e inv console resolved_use_mono
                {| attempt_cmd := base_cmd; attempt_returncode := rc;
                   attempt_stdout := so; attempt_stderr := se |} d
          | NotFound _ =>
              run_not_completed inv base_cmd "" "" msg_cannot_start
                (out_after_primary e) d
          | TimedOut so se _ =>
              run_not_completed inv base_cmd (default "" so) (default "" se)
                ("PAT timed out after " +:+ str_int (timeout_s inv) +:+ "s")
                (out_after_primary e) d
          | OtherError message => raise (OSError message) (out_after_primary e) d
          end
    end.

End Runner.

(** ** coach/service.py *)

Module Service.
Import Utils Params.
Local Open Scope string_scope.

Record CoachConfig := {
  pat_console_path : option string;
  pat_use_mono : option bool;
  mono_path : string;
  pat_timeout_s : Z;
  runs_dir : string
}.

(** [path.name]: the last component. *)
Definition path_name (p : string) : string :=
  Text.text (rev (fst (Parser.span (fun c => negb (Parser.is_char "/" c))
                         (rev (Text.chars p))))).

(** [CoachConfig.resolve_use_mono] *)
Definition resolve_use_mono (config : CoachConfig) (pat_console : option string) : bool :=
  match pat_use_mono config with
  | Some b => b
  | None =>
      match Runner.or_else pat_console (pat_console_path config) with
      | None => false
      | Some path =>
          String.eqb (Runner.lower_string (Runner.suffix (path_name path))) ".exe"
      end
  end.

Record PATExecution := {
  ok : bool;
  returncode : Z;
  cmd : list string;
  stdout_path : string;
  stderr_path : string;
  pat_out_path : string;
  probability : option Q;
  error : option string
}.

Record StrategyCandidate := {
  rank : Z;
  serve_short_delta : Q;
  attack_delta : Q;
  l1_change : Q;
  candidate_probability : Q
}.

Record StrategyResult := {
  run_dir : string;
  mode : string;
  baseline_probability : Q;
  improved_probability : Q;
  delta : Q;
  best_candidate : StrategyCandidate;
  top_alternatives : list StrategyCandidate;
  params_baseline : MatchupParams;
  params_best : MatchupParams
}.

(** What leaves the service as an exception. *)
Inductive raised :=
| FromRunner (e : Runner.exn)
| ValidationError
| RuntimeError (message : string).

(** The service and what surrounds it: the configuration, the host, and
    the engine's behaviour for the baseline run and for the candidate
    of each index. *)
Record world := {
  config : CoachConfig;
  host : Runner.host;
  baseline_engine : Runner.engine;
  candidate_engine : Z -> Runner.engine
}.

(** The state that the operations thread: the files written and the run
    directories handed to [run_pat], oldest first. *)
Record state := {
  disk : gmap string Runner.artifact;
  executed : list string
}.

(** [str(exc)] when the expected output file cannot be read. *)
Definition read_error (path : string) (f : Runner.out_file) : string :=
  match f with
  | Runner.Unreadable => "[Errno 13] Permission denied: '" +:+ path +:+ "'"
  | _ => "[Errno 2] No such file or directory: '" +:+ path +:+ "'"
  end.

Definition _execute_pat (w : world) (e : Runner.engine)
    (pcsp_path pcsp_name run_dir' mode' : string)
    (pat_path : option string) (timeout_s : option Z) (st : state)
  : state * (raised + PATExecution) :=
  let pat_console :=
    match Runner.truthy pat_path with
    | Some p => Some p
    | None => pat_console_path (config w)
    end in
  let resolved_timeout :=
    match timeout_s with
    | Some t => if (t =? 0)%Z then pat_timeout_s (config w) else t
    | None => pat_timeout_s (config w)
    end in
  let use_mono := resolve_use_mono (config w) pat_console in
  let inv :=
    {| Runner.pcsp_path := pcsp_path; Runner.pcsp_name := pcsp_name;
       Runner.run_dir := run_dir'; Runner.out_name := "pat_output.txt";
       Runner.mode := mode'; Runner.pat_console_path := pat_console;
       Runner.timeout_s := resolved_timeout; Runner.use_mono := Some use_mono |} in
  let r := Runner.run_pat (host w) e inv Runner.Missing (disk st) in
  let st' := {| disk := Runner.disk_after r; executed := executed st ++ [run_dir'] |} in
  match Runner.result r with
  | Runner.Raised ex => (st', inl (FromRunner ex))
  | Runner.Returned result =>
      let '(probability', parse_error) :=
        match Runner.out_file_after r with
        | Runner.Content pat_out_text =>
            match Parser.parse_probability pat_out_text with
            | Parser.Parsed v => (Some v, None)
            | Parser.ValueError message => (None, Some message)
            end
        | f => (None, Some (read_error (Runner.out_path inv) f))
        end in
      (st', inr {| ok := Runner.ok result;
                   returncode := Runner.returncode result;
                   cmd := Runner.cmd result;
                   stdout_path := Runner.stdout_path result;
                   stderr_path := Runner.stderr_path result;
                   pat_out_path := Runner.pat_out_path result;
                   probability := probability';
                   error :=
                     if negb (Runner.ok result)
                     then Some (default "PAT execution failed" (Runner.error result))
                     else parse_error |})
  end.

(** *** [_generate_candidates] *)

Record candidate := {
  cand_serve_short_delta : Q;
  cand_attack_delta : Q;
  cand_l1 : Q
}.

Definition serve_steps : list Q :=
  [- (20 # 100); - (10 # 100); - (5 # 100); 5 # 100; 10 # 100; 20 # 100]%Q.
Definition attack_steps : list Q :=
  [- (20 # 100); - (10 # 100); - (5 # 100); 5 # 100; 10 # 100; 20 # 100]%Q.

(** The pairs of the two nested loops, in order, without (0, 0). *)
Definition grid : list (Q * Q) :=
  flat_map (fun ds =>
              flat_map (fun da =>
                          if Qeq_bool ds 0 && Qeq_bool da 0 then [] else [(ds, da)])
                       (attack_steps ++ [0%Q]))
           (serve_steps ++ [0%Q]).

(** One pass of the inner loop body: [None] when [with_adjustments]
    raises, [Some None] when the candidate is beyond the bound. *)
Definition consider (baseline : MatchupParams) (l1_bound : Q) (step : Q * Q)
  : option (option candidate) :=
  adjusted ← with_adjustments baseline (fst step) (snd step);
  let l1 := l1_change_from adjusted baseline in
  Some (if Qle_bool l1 (l1_bound + (1 # 1000000000))%Q
        then Some {| cand_serve_short_delta := fst step;
                     cand_attack_delta := snd step; cand_l1 := l1 |}
        else None).

(** [list.sort(key=...)]: stable; [before y x] says that the key of [y]
    is strictly smaller than the key of [x]. *)
Fixpoint insert_sorted {A} (before : A -> A -> bool) (x : A) (l : list A) : list A :=
  match l with
  | [] => [x]
  | y :: t => if before y x then y :: insert_sorted before x t else x :: y :: t
  end.

Definition stable_sort {A} (before : A -> A -> bool) (l : list A) : list A :=
  fold_right (insert_sorted before) [] l.

(** The sort key [(l1, abs(serve_short_delta) + abs(attack_delta))],
    compared as tuples. *)
Definition candidate_before (a b : candidate) : bool :=
  let ka := (Qabs (cand_serve_short_delta a) + Qabs (cand_attack_delta a))%Q in
  let kb := (Qabs (cand_serve_short_delta b) + Qabs (cand_attack_delta b))%Q in
  Qlt_bool (cand_l1 a) (cand_l1 b)
  || (Qeq_bool (cand_l1 a) (cand_l1 b) && Qlt_bool ka kb).

Definition _generate_candidates (baseline : MatchupParams) (l1_bound : Q)
  : option (list candidate) :=
  considered ← mapM (consider baseline l1_bound) grid;
  Some (stable_sort candidate_before (omap (fun kept => kept) considered)).

(** *** [strategy] *)

(** [f"{idx:03d}"] *)
Definition pad3 (idx : Z) : string :=
  let s := Runner.str_int idx in
  if (0 <=? idx)%Z && (idx <? 10)%Z then "00" +:+ s
  else if (0 <=? idx)%Z && (idx <? 100)%Z then "0" +:+ s
  else if (-10 <? idx)%Z && (idx <? 0)%Z then "-0" +:+ Runner.str_int (- idx)
  else s.

Definition msg_baseline (pat_out : string) : string :=
  "Could not parse baseline probability from PAT output. See " +:+ pat_out +:+ ".".

Definition msg_no_candidates : string :=
  "No strategy candidates yielded parseable probabilities.".

(** The [for] loop over the candidates, from index [idx] on: the list
    [ranked], or the exception that ends the loop. *)
Fixpoint search_loop (w : world) (params : MatchupParams)
    (run_dir' mode' : string) (pat_path : option string) (timeout_s : option Z)
    (idx : Z) (candidates : list candidate) (st : state)
  : state * (raised + list (StrategyCandidate * MatchupParams)) :=
  match candidates with
  | [] => (st, inr [])
  | c :: rest =>
      match with_adjustments params (cand_serve_short_delta c) (cand_attack_delta c) with
      | None => (st, inl ValidationError)
      | Some adjusted =>
          let candidate_dir := Runner.path_join run_dir' "candidates" in
          let cand_name := "candidate_" +:+ pad3 idx in
          let cand_path := Runner.path_join candidate_dir (cand_name +:+ ".pcsp") in
          let cand_run_dir := Runner.path_join candidate_dir cand_name in
          match _execute_pat w (candidate_engine w idx) cand_path (cand_name +:+ ".pcsp")
                  cand_run_dir mode' pat_path timeout_s st with
          | (st1, inl ex) => (st1, inl ex)
          | (st1, inr pat_exec) =>
              match search_loop w params run_dir' mode' pat_path timeout_s
                      (idx + 1) rest st1 with
              | (st2, inl ex) => (st2, inl ex)
              | (st2, inr ranked) =>
                  match probability pat_exec with
                  | None => (st2, inr ranked)
                  | Some p =>
                      (st2,
                       inr (({| rank := 0;
                                serve_short_delta :=
                                  short (serve_mix (player_a adjusted))
                                  - short (serve_mix (player_a params));
                                attack_delta :=
                                  attack (rally_style (player_a adjusted))
                                  - attack (rally_style (player_a params));
                                l1_change := l1_change_from adjusted params;
                                candidate_probability := p |}, adjusted) :: ranked))
                  end
              end
          end
      end
  end.

Definition ranked_before (x y : StrategyCandidate * MatchupParams) : bool :=
  Qlt_bool (candidate_probability (fst y)) (candidate_probability (fst x)).

Definition renumber (i : Z) (c : StrategyCandidate) : StrategyCandidate :=
  {| rank := i; serve_short_delta := serve_short_delta c;
     attack_delta := attack_delta c; l1_change := l1_change c;
     candidate_probability := candidate_probability c |}.

(** [enumerate(top, start=1)] with the rank rewritten. *)
Fixpoint number_from (i : Z) (top : list (StrategyCandidate * MatchupParams))
  : list StrategyCandidate :=
  match top with
  | [] => []
  | (c, _) :: rest => renumber i c :: number_from (i + 1) rest
  end.

(** [strategy], from the matchup parameters on.  Rendering the model
    description is left to the engine oracle, which answers per run.
    The sort keeps the length of [ranked], so the test [not ranked] is
    made on the sorted list. *)
Definition strategy (w : world) (params : MatchupParams)
    (run_dir' mode' : string) (budget : Z) (l1_bound : Q)
    (pat_path : option string) (timeout_s : option Z) (st : state)
  : state * (raised + StrategyResult) :=
  match _execute_pat w (baseline_engine w) (Runner.path_join run_dir' "baseline.pcsp")
          "baseline.pcsp" run_dir' mode' pat_path timeout_s st with
  | (st1, inl ex) => (st1, inl ex)
  | (st1, inr baseline_pat) =>
      match probability baseline_pat with
      | None => (st1, inl (RuntimeError (msg_baseline (pat_out_path baseline_pat))))
      | Some baseline =>
          match _generate_candidates params l1_bound with
          | None => (st1, inl ValidationError)
          | Some generated =>
              let candidates := take (Z.to_nat (Z.max 1 budget)) generated in
              match search_loop w params run_dir' mode' pat_path timeout_s 1
                      candidates st1 with
              | (st2, inl ex) => (st2, inl ex)
              | (st2, inr ranked) =>
                  match stable_sort ranked_before ranked with
                  | [] => (st2, inl (RuntimeError msg_no_candidates))
                  | ((best, best_params) :: _) as sorted =>
                      let numbered := number_from 1 (take 5 sorted) in
                      (st2,
                       inr {| run_dir := run_dir'; mode := mode';
                              baseline_probability := baseline;
                              improved_probability := candidate_probability best;
                              delta := (candidate_probability best - baseline)%Q;
                              best_candidate := renumber 1 best;
                              top_alternatives := numbered;
                              params_baseline := params;
                              params_best := best_params |})
                  end
              end
          end
      end
  end.

End Service.

(** ** coach/model/builder.py: [render_template] *)

Module Builder.
Import Text Parser TemplateContext.
Local Open Scope string_scope.

(** The class [[a-zA-Z0-9_]] of the placeholder pattern. *)
Definition is_key_char (c : ascii) : bool :=
  let n := code c in
  ((97 <=? n) && (n <=? 122) || (65 <=? n) && (n <=? 90)
   || (48 <=? n) && (n <=? 57) || (n =? 95))%N.

(** [_PLACEHOLDER_PATTERN = \{\{\s*([a-zA-Z0-9_]+)\s*\}\}] matched at the
    head of [l]: the key and the text after the match.  The three classes
    are disjoint, so the greedy match is the only one. *)
Definition match_placeholder (l : list ascii) : option (list ascii * list ascii) :=
  match l with
  | a :: b :: r0 =>
      if is_char "{" a && is_char "{" b then
        let '(_, r1) := span isspace r0 in
        let '(key, r2) := span is_key_char r1 in
        match key with
        | [] => None
        | _ =>
            let '(_, r3) := span isspace r2 in
            match r3 with
            | c :: d :: r4 =>
                if is_char "}" c && is_char "}" d then Some (key, r4) else None
            | _ => None
            end
        end
      else None
  | _ => None
  end.

(** The template as [pattern.sub] sees it: characters outside any match,
    and the matches with their key and their own text ([match.group(0)]). *)
Inductive piece :=
| Literal (c : ascii)
| Placeholder (key : string) (source : list ascii).

(** The scan of [sub]: leftmost matches, none overlapping.  [skip] counts
    the characters still covered by the previous match. *)
Fixpoint pieces (skip : nat) (l : list ascii) : list piece :=
  match l with
  | [] => []
  | c :: t =>
      match skip with
      | S k => pieces k t
      | O =>
          match match_placeholder l with
          | Some (key, rest) =>
              let n := (length l - length rest)%nat in
              Placeholder (text key) (take n l) :: pieces (n - 1) t
          | None => Literal c :: pieces 0 t
          end
      end
  end.

(** [str(context[key])] *)
Definition str (v : ctx_value) : string :=
  match v with
  | CInt n => Runner.str_int n
  | CStr s => s
  end.

(** The function [repl]: what replaces one piece. *)
Definition repl (context : gmap string ctx_value) (p : piece) : list ascii :=
  match p with
  | Literal c => [c]
  | Placeholder key source =>
      match context !! key with
      | Some v => chars (str v)
      | None => source
      end
  end.

(** The keys that [repl] adds to [missing], in the order of the scan. *)
Definition missing_keys (context : gmap string ctx_value) (ps : list piece) : list string :=
  omap (fun p =>
          match p with
          | Placeholder key _ =>
              match context !! key with
              | None => Some key
              | Some _ => None
              end
          | Literal _ => None
          end) ps.

(** [sorted(missing)] for the set [missing]: each key once, in the order
    of [str], which compares code points. *)
Fixpoint insert_key (k : string) (l : list string) : list string :=
  match l with
  | [] => [k]
  | x :: t =>
      match String.compare k x with
      | Lt => k :: l
      | Eq => l
      | Gt => x :: insert_key k t
      end
  end.

Definition sorted_keys (ks : list string) : list string := fold_right insert_key [] ks.

Inductive render_result :=
| Rendered (rendered : string)
| ValueError (message : string).

Definition render_template (template_text : string) (context : gmap string ctx_value)
  : render_result :=
  let ps := pieces 0 (chars template_text) in
  match missing_keys context ps with
  | [] => Rendered (text (flat_map (repl context) ps))
  | missing =>
      ValueError ("Missing template parameters: "
                  +:+ text (join (chars ", ") (map chars (sorted_keys missing))))
  end.

End Builder.

(** ** coach/data/adapters/local_csv.py: [_perspective_frame];
       coach/data/stats_builder.py *)

Module StatsBuilder.
Import Utils LocalCsv.

(** A row of the match table. *)
Record MatchRow := {
  playerA_id : string;
  playerB_id : string;
  winner_id : string;
  a_serve_rallies : Z;
  a_serve_wins : Z;
  b_serve_rallies : Z;
  b_serve_wins : Z;
  a_short_serve_rate : Q;
  a_flick_serve_rate : Q;
  a_attack_rate : Q;
  a_neutral_rate : Q;
  a_safe_rate : Q;
  b_short_serve_rate : Q;
  b_flick_serve_rate : Q;
  b_attack_rate : Q;
  b_neutral_rate : Q;
  b_safe_rate : Q;
  a_points : Z;
  b_points : Z
}.

(** One pass of the loop of [_perspective_frame]: the player is side A
    when the row says so, and side B otherwise. *)
Definition perspective (player_id : string) (row : MatchRow) : PerspectiveRow :=
  if String.eqb (playerA_id row) player_id then
    {| serve_rallies := a_serve_rallies row;
       serve_wins := a_serve_wins row;
       receive_rallies := b_serve_rallies row;
       receive_wins := (b_serve_rallies row - b_serve_wins row)%Z;
       short_rate := a_short_serve_rate row;
       flick_rate := a_flick_serve_rate row;
       attack_rate := a_attack_rate row;
       neutral_rate := a_neutral_rate row;
       safe_rate := a_safe_rate row;
       points_for := a_points row;
       points_against := b_points row;
       won := String.eqb (winner_id row) (playerA_id row) |}
  else
    {| serve_rallies := b_serve_rallies row;
       serve_wins := b_serve_wins row;
       receive_rallies := a_serve_rallies row;
       receive_wins := (a_serve_rallies row - a_serve_wins row)%Z;
       short_rate := b_short_serve_rate row;
       flick_rate := b_flick_serve_rate row;
       attack_rate := b_attack_rate row;
       neutral_rate := b_neutral_rate row;
       safe_rate := b_safe_rate row;
       points_for := b_points row;
       points_against := a_points row;
       won := String.eqb (winner_id row) (playerB_id row) |}.

Definition _perspective_frame (df : list MatchRow) (player_id : string)
  : list PerspectiveRow :=
  map (perspective player_id) df.

(** [np.clip(x, lo, hi)] *)
Definition np_clip (x lo hi : Q) : Q := py_min (py_max x lo) hi.

Definition default_weights : Params.InfluenceWeights :=
  {| Params.w_short := 4 # 100; Params.w_attack := 6 # 100; Params.w_safe := 5 # 100 |}.

(** A slope as the least-squares fit returns it. *)
Inductive np_float :=
| NpFinite (x : Q)
| NpInf        (* inf or -inf *)
| NpNaN.

(** What [np.linalg.lstsq] does (the fit itself is the library's): it
    raises, or returns the three slopes after the intercept.  A match
    without points makes the target NaN, and the slopes with it. *)
Inductive lstsq_result :=
| LstsqRaised
| Slopes (b1 b2 b3 : np_float).

(** [float(np.clip(abs(b), 0.01, 0.2))]; [None] is NaN, which no bound
    of [InfluenceWeights] accepts. *)
Definition clipped_weight (b : np_float) : option Q :=
  match b with
  | NpFinite x => Some (np_clip (Qabs x) (1 # 100) (2 # 10))
  | NpInf => Some (2 # 10)
  | NpNaN => None
  end.

(** [estimate_influence_weights]: [n_matches] is the length of the match
    table and [fit] what the least-squares fit does.  [None] is an
    exception: that of the fit, or the validation error of
    [InfluenceWeights]. *)
Definition estimate_influence_weights (n_matches : nat) (fit : lstsq_result)
  : option Params.InfluenceWeights :=
  w ←
    (if (n_matches <? 10)%nat then Some default_weights
     else
       match fit with
       | LstsqRaised => None
       | Slopes b1 b2 b3 =>
           w_short' ← clipped_weight b1;
           w_attack' ← clipped_weight b2;
           w_safe' ← clipped_weight b3;
           Some {| Params.w_short := w_short'; Params.w_attack := w_attack';
                   Params.w_safe := w_safe' |}
       end);
  if Params.InfluenceWeights_valid w then Some w else None.

(** [_build_player_params]; [None] is a validation error. *)
Definition _build_player_params (player_id name : string) (stats : PlayerStats)
    (sample_matches : Z) : option Params.PlayerParams :=
  serve_mix ← Params.new_ServeMix (serve_mix_short stats) (serve_mix_flick stats);
  rally_style ←
    Params.new_RallyStyleMix (rally_style_attack stats) (rally_style_neutral stats)
      (rally_style_safe stats);
  let p :=
    {| Params.player_id := player_id;
       Params.name := name;
       Params.base_srv_win := clamp_default (base_srv_win stats);
       Params.base_rcv_win := clamp_default (base_rcv_win stats);
       Params.serve_mix := serve_mix;
       Params.rally_style := rally_style;
       Params.sample_matches := sample_matches |} in
  if Params.PlayerParams_valid p then Some p else None.

(** The weight of the head-to-head record in the base rates of player A. *)
Definition blend_weight (h2h_matches' : Z) : Q :=
  if (0 <? h2h_matches')%Z
  then py_min (35 # 100) (inject_Z h2h_matches' / (inject_Z h2h_matches' + 12))
  else 0.

Definition blended (blend own h2h : Q) : Q := (1 - blend) * own + blend * h2h.

Definition with_base_rates (stats : PlayerStats) (srv rcv : Q) : PlayerStats :=
  {| matches := matches stats; win_rate := win_rate stats;
     base_srv_win := srv; base_rcv_win := rcv;
     serve_mix_short := serve_mix_short stats;
     serve_mix_flick := serve_mix_flick stats;
     rally_style_attack := rally_style_attack stats;
     rally_style_neutral := rally_style_neutral stats;
     rally_style_safe := rally_style_safe stats;
     serve_trials := serve_trials stats;
     receive_trials := receive_trials stats |}.

(** [build_matchup_params] once the two players are resolved: the rows
    are those that the window keeps for player A, for player B and for
    their head-to-head record.  [None] is any of the errors raised: the
    same player twice, a player without a match, a division by zero in
    the smoothing, a failed fit, a validation error. *)
Definition build_matchup_params (laplace_alpha : Q)
    (a_id a_name b_id b_name : string)
    (a_rows b_rows h2h_rows : list MatchRow)
    (n_matches : nat) (fit : lstsq_result) : option Params.MatchupParams :=
  if String.eqb a_id b_id then None
  else
    a_stats ← get_player_params laplace_alpha (_perspective_frame a_rows a_id);
    b_stats ← get_player_params laplace_alpha (_perspective_frame b_rows b_id);
    h2h ← get_head_to_head laplace_alpha (_perspective_frame h2h_rows a_id);
    weights ← estimate_influence_weights n_matches fit;
    let blend := blend_weight (h2h_matches h2h) in
    let a_stats' :=
      with_base_rates a_stats
        (blended blend (base_srv_win a_stats) (a_srv_win h2h))
        (blended blend (base_rcv_win a_stats) (a_rcv_win h2h)) in
    player_a ← _build_player_params a_id a_name a_stats' (matches a_stats');
    player_b ← _build_player_params b_id b_name b_stats (matches b_stats);
    let m :=
      {| Params.player_a := player_a; Params.player_b := player_b;
         Params.weights := weights;
         Params.target := 21; Params.cap := 30; Params.best_of := 3 |} in
    if Params.MatchupParams_valid m then Some m else None.

End StatsBuilder.

(** ** coach/service.py: [predict] *)

Module Prediction.
Import Params Service.
Local Open Scope string_scope.

Record PredictionResult := {
  run_dir : string;
  mode : string;
  probability : Q;
  params : MatchupParams;
  pat : PATExecution
}.

Definition msg_parsing_failed (pat_out stdout : string) : string :=
  "PAT run completed but probability parsing failed. See " +:+ pat_out
  +:+ " and " +:+ stdout +:+ ".".

(** [predict], from the matchup parameters on; the engine of the one run
    is the world's baseline engine. *)
Definition predict (w : world) (params' : MatchupParams)
    (run_dir' mode' : string) (pat_path : option string) (timeout_s : option Z)
    (st : state) : state * (raised + PredictionResult) :=
  match _execute_pat w (baseline_engine w) (Runner.path_join run_dir' "matchup.pcsp")
          "matchup.pcsp" run_dir' mode' pat_path timeout_s st with
  | (st1, inl ex) => (st1, inl ex)
  | (st1, inr pat_exec) =>
      match Service.probability pat_exec with
      | None =>
          (st1, inl (RuntimeError
                       (msg_parsing_failed (pat_out_path pat_exec) (stdout_path pat_exec))))
      | Some p =>
          (st1, inr {| run_dir := run_dir'; mode := mode'; probability := p;
                       params := params'; pat := pat_exec |})
      end
  end.

End Prediction.

(** ** coach/utils.py: [sanitize_filename] *)

Module Sanitize.
Import Text.
Local Open Scope string_scope.

(** The class [A-Za-z0-9._-]. *)
Definition is_safe (c : ascii) : bool :=
  let n := code c in
  ((65 <=? n) && (n <=? 90) || (97 <=? n) && (n <=? 122) || (48 <=? n) && (n <=? 57)
   || (n =? 46) || (n =? 95) || (n =? 45))%N.

(** [re.sub(r"[^A-Za-z0-9._-]+", "-", s)]: every maximal run of
    characters outside the class becomes one "-"; [in_run] says that
    the run has begun. *)
Fixpoint sub_unsafe (in_run : bool) (l : list ascii) : list ascii :=
  match l with
  | [] => []
  | c :: t =>
      if is_safe c then c :: sub_unsafe false t
      else if in_run then sub_unsafe true t
      else "-"%char :: sub_unsafe true t
  end.

(** Dropping the leading characters that [f] accepts. *)
Fixpoint lstrip_by (f : ascii -> bool) (l : list ascii) : list ascii :=
  match l with
  | c :: t => if f c then lstrip_by f t else l
  | [] => []
  end.

Definition strip_by (f : ascii -> bool) (l : list ascii) : list ascii :=
  rev (lstrip_by f (rev (lstrip_by f l))).

(** [s.strip(cs)] *)
Definition strip_chars (cs : string) (l : list ascii) : list ascii :=
  strip_by (fun c => existsb (Ascii.eqb c) (chars cs)) l.

Definition sanitize_filename (s : string) : string :=
  let cleaned := sub_unsafe false (strip (chars s)) in
  match strip_chars "-" cleaned with
  | [] => "item"
  | name => text name
  end.

End Sanitize.

(* ===================================================================== *)
(** * Theorems *)
(* ===================================================================== *)

(** ** Facts about [clamp] and the builtins it is made of *)

Section ClampFacts.
Import Utils.

Lemma Qlt_bool_true (a b : Q) : Qlt_bool a b = true <-> a < b.
Proof.
  unfold Qlt_bool. rewrite negb_true_iff.
  split.
  - intros H. apply Qnot_le_lt. intros Hle.
    apply Qle_bool_iff in Hle. congruence.
  - intros H. destruct (Qle_bool b a) eqn:E; [|reflexivity].
    apply Qle_bool_iff in E. exfalso. apply (Qlt_not_le _ _ H E).
Qed.

Lemma Qlt_bool_false (a b : Q) : Qlt_bool a b = false <-> b <= a.
Proof.
  unfold Qlt_bool. rewrite negb_false_iff. apply Qle_bool_iff.
Qed.

Lemma py_min_spec (a b : Q) :
  (b < a /\ py_min a b = b) \/ (a <= b /\ py_min a b = a).
Proof.
  unfold py_min. destruct (Qlt_bool b a) eqn:E.
  - left. split; [now apply Qlt_bool_true | reflexivity].
  - right. split; [now apply Qlt_bool_false | reflexivity].
Qed.

Lemma py_max_spec (a b : Q) :
  (a < b /\ py_max a b = b) \/ (b <= a /\ py_max a b = a).
Proof.
  unfold py_max. destruct (Qlt_bool a b) eqn:E.
  - left. split; [now apply Qlt_bool_true | reflexivity].
  - right. split; [now apply Qlt_bool_false | reflexivity].
Qed.

Lemma clamp_bounds (v low high : Q) :
  low <= high -> low <= clamp v low high /\ clamp v low high <= high.
Proof.
  intros Hlh. unfold clamp.
  destruct (py_min_spec high v) as [[H1 ->] | [H1 ->]];
    destruct (py_max_spec low v) as [[H2 E2] | [H2 E2]];
    destruct (py_max_spec low high) as [[H3 E3] | [H3 E3]];
    rewrite ?E2, ?E3; split; lra.
Qed.

Lemma clamp_inside (v low high : Q) :
  low <= v -> v <= high -> clamp v low high == v.
Proof.
  intros Hl Hh. unfold clamp.
  destruct (py_min_spec high v) as [[H1 ->] | [H1 ->]].
  - destruct (py_max_spec low v) as [[H2 ->] | [H2 ->]]; lra.
  - destruct (py_max_spec low high) as [[H2 ->] | [H2 ->]]; lra.
Qed.

Lemma clamp_default_bounds (v : Q) :
  1 # 100 <= clamp_default v /\ clamp_default v <= 99 # 100.
Proof. apply clamp_bounds. lra. Qed.

End ClampFacts.

(** ** coach/model/params.py: effective probabilities *)

Section EffectiveProbabilities.
Import Utils Params.

Lemma complement_in_range (x : Q) :
  1 # 100 <= x -> x <= 99 # 100 -> clamp_default (1 - x) == 1 - x.
Proof. intros H1 H2. apply clamp_inside; lra. Qed.

(** C5. For every [MatchupParams] (valid or not: the clamp does the work),
    the four effective probabilities lie in [0.01, 0.99], hence strictly
    between 0 and 1, and the opponent's two are the complements of
    player A's: pB_srv_win = 1 - pA_rcv_win and pB_rcv_win = 1 - pA_srv_win. *)
Theorem effective_probabilities_interior_and_complementary (p : MatchupParams) :
  let e := effective_probabilities p in
  (1 # 100 <= pA_srv_win e /\ pA_srv_win e <= 99 # 100) /\
  (1 # 100 <= pA_rcv_win e /\ pA_rcv_win e <= 99 # 100) /\
  (1 # 100 <= pB_srv_win e /\ pB_srv_win e <= 99 # 100) /\
  (1 # 100 <= pB_rcv_win e /\ pB_rcv_win e <= 99 # 100) /\
  (0 < pA_srv_win e /\ pA_srv_win e < 1) /\
  (0 < pA_rcv_win e /\ pA_rcv_win e < 1) /\
  (0 < pB_srv_win e /\ pB_srv_win e < 1) /\
  (0 < pB_rcv_win e /\ pB_rcv_win e < 1) /\
  pB_srv_win e == 1 - pA_rcv_win e /\
  pB_rcv_win e == 1 - pA_srv_win e.
Proof.
  cbv zeta. unfold effective_probabilities. cbn [pA_srv_win pA_rcv_win pB_srv_win pB_rcv_win].
  set (s := clamp_default (base_srv_win (player_a p) + _style_delta p)).
  set (r := clamp_default (base_rcv_win (player_a p) + _style_delta p)).
  destruct (clamp_default_bounds (base_srv_win (player_a p) + _style_delta p)) as [Hs1 Hs2].
  destruct (clamp_default_bounds (base_rcv_win (player_a p) + _style_delta p)) as [Hr1 Hr2].
  fold s in Hs1, Hs2. fold r in Hr1, Hr2.
  destruct (clamp_default_bounds (1 - r)) as [Hb1 Hb2].
  destruct (clamp_default_bounds (1 - s)) as [Hc1 Hc2].
  pose proof (complement_in_range r Hr1 Hr2) as Er.
  pose proof (complement_in_range s Hs1 Hs2) as Es.
  repeat split; try assumption; lra.
Qed.

End EffectiveProbabilities.

(** ** coach/model/params.py: the integer weights of the template context *)

Section TemplateWeights.
Import Utils Params TemplateContext.

(** C9. The context holds the serve and the receive probability of
    player A as pairs of integer weights, and each pair sums to 10000
    exactly. *)
Theorem template_weights_sum_to_scale (p : MatchupParams) :
  exists srv_win srv_lose rcv_win rcv_lose : Z,
    to_template_context p !! "pA_srv_win_w" = Some (CInt srv_win) /\
    to_template_context p !! "pA_srv_lose_w" = Some (CInt srv_lose) /\
    to_template_context p !! "pA_rcv_win_w" = Some (CInt rcv_win) /\
    to_template_context p !! "pA_rcv_lose_w" = Some (CInt rcv_lose) /\
    srv_win = py_round (pA_srv_win (effective_probabilities p) * 10000) /\
    rcv_win = py_round (pA_rcv_win (effective_probabilities p) * 10000) /\
    (srv_win + srv_lose = 10000)%Z /\
    (rcv_win + rcv_lose = 10000)%Z.
Proof.
  eexists _, _, _, _.
  unfold to_template_context. cbn [list_to_map foldr].
  repeat split; try reflexivity; unfold scale; lia.
Qed.

End TemplateWeights.

(** ** coach/model/params.py: [with_adjustments] and the simplex invariants *)

Section WithAdjustments.
Import Utils Params.

Lemma in_unit_true (x : Q) : in_unit x = true <-> 0 <= x /\ x <= 1.
Proof.
  unfold in_unit. rewrite andb_true_iff, !Qle_bool_iff. reflexivity.
Qed.

Lemma within_tolerance (x : Q) :
  Qle_bool (Qabs (x - 1)) tolerance = true <->
  1 - tolerance <= x /\ x <= 1 + tolerance.
Proof.
  rewrite Qle_bool_iff. unfold tolerance. split.
  - intros H. apply Qabs_Qle_condition in H. lra.
  - intros H. apply Qabs_Qle_condition. lra.
Qed.

Lemma ServeMix_valid_iff (m : ServeMix) :
  ServeMix_valid m = true <->
  (0 <= short m /\ short m <= 1) /\ (0 <= flick m /\ flick m <= 1) /\
  (1 - tolerance <= short m + flick m /\ short m + flick m <= 1 + tolerance).
Proof.
  unfold ServeMix_valid.
  rewrite !andb_true_iff, !in_unit_true, within_tolerance. tauto.
Qed.

Lemma RallyStyleMix_valid_iff (m : RallyStyleMix) :
  RallyStyleMix_valid m = true <->
  (0 <= attack m /\ attack m <= 1) /\ (0 <= neutral m /\ neutral m <= 1) /\
  (0 <= safe m /\ safe m <= 1) /\
  (1 - tolerance <= attack m + neutral m + safe m /\
   attack m + neutral m + safe m <= 1 + tolerance).
Proof.
  unfold RallyStyleMix_valid.
  rewrite !andb_true_iff, !in_unit_true, within_tolerance. tauto.
Qed.

(** The new serve mix is always accepted: [short] is clamped into
    [0.01, 0.99] and [flick] is its complement. *)
Lemma new_serve_mix_accepted (x : Q) :
  let short' := clamp x (1 # 100) (99 # 100) in
  new_ServeMix short' (1 - short') = Some {| short := short'; flick := 1 - short' |}.
Proof.
  cbv zeta. unfold new_ServeMix.
  destruct (clamp_bounds x (1 # 100) (99 # 100)) as [H1 H2]; [lra|].
  set (s := clamp x (1 # 100) (99 # 100)) in *.
  assert (ServeMix_valid {| short := s; flick := 1 - s |} = true) as ->; [|reflexivity].
  apply ServeMix_valid_iff. cbn [short flick]. unfold tolerance. repeat split; lra.
Qed.

(** A share of a positive total, scaled by a factor in [0, 1]. *)
Lemma share_bounds (x r k : Q) :
  0 <= x -> x <= r -> 0 < r -> 0 <= k -> k <= 1 ->
  0 <= x / r * k /\ x / r * k <= 1.
Proof.
  intros Hx Hxr Hr Hk0 Hk1.
  assert (0 <= x / r) as Hq0 by (apply Qle_shift_div_l; lra).
  assert (x / r <= 1) as Hq1 by (apply Qle_shift_div_r; lra).
  split; nra.
Qed.

(** The rescaled rally style is accepted whenever the old remainder
    [neutral + safe] is at least the guard [1e-6]. *)
Lemma new_rally_style_accepted (m : RallyStyleMix) (x : Q) :
  RallyStyleMix_valid m = true ->
  tolerance <= neutral m + safe m ->
  let attack' := clamp x (1 # 100) (98 # 100) in
  let remain_old := py_max (neutral m + safe m) tolerance in
  exists rs,
    new_RallyStyleMix attack'
      (neutral m / remain_old * (1 - attack'))
      (safe m / remain_old * (1 - attack')) = Some rs /\
    attack rs = attack' /\
    neutral rs == neutral m * ((1 - attack') / (neutral m + safe m)) /\
    safe rs == safe m * ((1 - attack') / (neutral m + safe m)) /\
    attack rs + neutral rs + safe rs == 1.
Proof.
  intros Hv Hr. cbv zeta.
  apply RallyStyleMix_valid_iff in Hv.
  destruct Hv as ([Ha0 Ha1] & [Hn0 Hn1] & [Hs0 Hs1] & _).
  destruct (clamp_bounds x (1 # 100) (98 # 100)) as [H1 H2]; [lra|].
  set (a' := clamp x (1 # 100) (98 # 100)) in *.
  assert (py_max (neutral m + safe m) tolerance = neutral m + safe m) as ->.
  { destruct (py_max_spec (neutral m + safe m) tolerance) as [[H _] | [_ H]];
      [lra | exact H]. }
  set (r := neutral m + safe m) in *.
  assert (0 < r) as Hr0 by (unfold tolerance in Hr; lra).
  assert (~ r == 0) as Hrne by lra.
  destruct (share_bounds (neutral m) r (1 - a')) as [Hn'0 Hn'1]; try lra.
  { unfold r. lra. }
  destruct (share_bounds (safe m) r (1 - a')) as [Hs'0 Hs'1]; try lra.
  { unfold r. lra. }
  assert (a' + neutral m / r * (1 - a') + safe m / r * (1 - a') == 1) as Hsum.
  { unfold r in Hrne |- *. field. exact Hrne. }
  eexists. unfold new_RallyStyleMix.
  match goal with
  | |- context [RallyStyleMix_valid ?rs] =>
      assert (RallyStyleMix_valid rs = true) as ->
  end.
  { apply RallyStyleMix_valid_iff. cbn [attack neutral safe].
    unfold tolerance. repeat split; lra. }
  split; [reflexivity|]. cbn [attack neutral safe].
  repeat split; try exact Hsum; field; exact Hrne.
Qed.

(** Away from the degenerate corner the adjustment returns a new
    instance, both of whose mixes sum to 1, with [neutral] and [safe]
    rescaled by [(1 - attack) / (old_neutral + old_safe)]. *)
Lemma with_adjustments_preserves_simplex
    (p : MatchupParams) (serve_short_delta attack_delta : Q) :
  RallyStyleMix_valid (rally_style (player_a p)) = true ->
  tolerance <= neutral (rally_style (player_a p)) + safe (rally_style (player_a p)) ->
  exists p',
    with_adjustments p serve_short_delta attack_delta = Some p' /\
    ServeMix_valid (serve_mix (player_a p')) = true /\
    RallyStyleMix_valid (rally_style (player_a p')) = true /\
    short (serve_mix (player_a p')) + flick (serve_mix (player_a p')) == 1 /\
    attack (rally_style (player_a p')) + neutral (rally_style (player_a p'))
      + safe (rally_style (player_a p')) == 1 /\
    neutral (rally_style (player_a p')) ==
      neutral (rally_style (player_a p))
      * ((1 - attack (rally_style (player_a p')))
         / (neutral (rally_style (player_a p)) + safe (rally_style (player_a p)))) /\
    safe (rally_style (player_a p')) ==
      safe (rally_style (player_a p))
      * ((1 - attack (rally_style (player_a p')))
         / (neutral (rally_style (player_a p)) + safe (rally_style (player_a p)))) /\
    player_b p' = player_b p /\ weights p' = weights p /\
    short (serve_mix (player_a p'))
      = clamp (short (serve_mix (player_a p)) + serve_short_delta) (1 # 100) (99 # 100) /\
    flick (serve_mix (player_a p')) = 1 - short (serve_mix (player_a p')) /\
    attack (rally_style (player_a p'))
      = clamp (attack (rally_style (player_a p)) + attack_delta) (1 # 100) (98 # 100).
Proof.
  intros Hv Hr. unfold with_adjustments.
  rewrite new_serve_mix_accepted. cbn [mbind option_bind].
  destruct (new_rally_style_accepted (rally_style (player_a p))
              (attack (rally_style (player_a p)) + attack_delta) Hv Hr)
    as (rs & Hrs & Ea & En & Es & Hsum).
  cbv zeta in Hrs. rewrite Hrs. cbn [mbind option_bind].
  eexists. split; [reflexivity|].
  cbn [player_a update_player_a update_mixes serve_mix rally_style short flick
       player_b weights].
  destruct (clamp_bounds (short (serve_mix (player_a p)) + serve_short_delta)
              (1 # 100) (99 # 100)) as [H1 H2]; [lra|].
  repeat split.
  - apply ServeMix_valid_iff. cbn [short flick]. unfold tolerance. repeat split; lra.
  - unfold new_RallyStyleMix in Hrs.
    destruct (RallyStyleMix_valid _) eqn:E in Hrs; [|discriminate].
    injection Hrs as <-. exact E.
  - ring.
  - exact Hsum.
  - rewrite Ea. exact En.
  - rewrite Ea. exact Es.
  - exact Ea.
Qed.

(** A valid matchup whose player A attacks in every rally. *)
Definition all_attack_player : PlayerParams :=
  {| player_id := "a"; name := "Player A";
     base_srv_win := 57 # 100; base_rcv_win := 52 # 100;
     serve_mix := {| short := 65 # 100; flick := 35 # 100 |};
     rally_style := {| attack := 1; neutral := 0; safe := 0 |};
     sample_matches := 20 |}.

Definition steady_player : PlayerParams :=
  {| player_id := "b"; name := "Player B";
     base_srv_win := 57 # 100; base_rcv_win := 52 # 100;
     serve_mix := {| short := 65 # 100; flick := 35 # 100 |};
     rally_style := {| attack := 5 # 10; neutral := 3 # 10; safe := 2 # 10 |};
     sample_matches := 20 |}.

Definition all_attack_matchup : MatchupParams :=
  {| player_a := all_attack_player; player_b := steady_player;
     weights := {| w_short := 4 # 100; w_attack := 6 # 100; w_safe := 5 # 100 |};
     target := 21; cap := 30; best_of := 3 |}.

(** C3, at the degenerate corner.  The matchup with rally style
    (attack 1, neutral 0, safe 0) passes every validator, yet
    [with_adjustments] with both deltas 0 does not return an instance:
    attack is clamped to 0.98, the guard [max(neutral + safe, 1e-6)]
    leaves neutral and safe at 0, the triple sums to 0.98 and the
    constructor of [RallyStyleMix] rejects it. *)
Theorem with_adjustments_fails_on_all_attack :
  MatchupParams_valid all_attack_matchup = true /\
  with_adjustments all_attack_matchup 0 0 = None /\
  new_RallyStyleMix (98 # 100) 0 0 = None.
Proof. repeat split; vm_compute; reflexivity. Qed.

End WithAdjustments.

(** ** coach/pat/parser.py: which value [parse_probability] returns *)

Section ParseProbability.
Import Text Parser.




















End ParseProbability.
(** ** coach/pat/mock_pat.py: the mock engine's probability *)

Section MockProbability.
Import MockPat.
Local Open Scope R_scope.

Lemma exp_monotone (x y : R) : x <= y -> exp x <= exp y.
Proof.
  intros [H | ->].
  - left. now apply exp_increasing.
  - right. reflexivity.
Qed.

(** The logistic curve, where [math.exp] returns. *)
Definition logistic_curve (x : R) : R := 1 / (1 + exp (- x)).

Lemma logistic_curve_monotone (x y : R) : x <= y -> logistic_curve x <= logistic_curve y.
Proof.
  intros H. unfold logistic_curve.
  pose proof (exp_pos (- x)) as Hx. pose proof (exp_pos (- y)) as Hy.
  assert (exp (- y) <= exp (- x)) as He by (apply exp_monotone; lra).
  apply Rmult_le_compat_l; [lra|].
  apply Rinv_le_contravar; lra.
Qed.

Lemma clamp_R_monotone (x y : R) :
  x <= y -> Rmax (1 / 100) (Rmin (99 / 100) x) <= Rmax (1 / 100) (Rmin (99 / 100) y).
Proof.
  intros H. apply Rle_max_compat_l. now apply Rle_min_compat_l.
Qed.

(** [mock_probability] returns exactly when the score is not below
    [- exp_max_arg], and then with the clamped value of the curve. *)
Lemma mock_probability_cases (params : gmap string R) :
  (linear_score params < - exp_max_arg /\ mock_probability params = None) \/
  (- exp_max_arg <= linear_score params /\
   mock_probability params
   = Some (Rmax (1 / 100) (Rmin (99 / 100) (logistic_curve (linear_score params))))).
Proof.
  unfold mock_probability, _logistic, math_exp.
  destruct (Rlt_dec exp_max_arg (- linear_score params)) as [H | H].
  - left. split; [lra | reflexivity].
  - right. split; [lra | reflexivity].
Qed.

Lemma linear_score_srv (params : gmap string R) (v : R) :
  linear_score (<["pA_srv_win" := v]> params)
  = 28 / 10 * (v - 5 / 10)
    + (linear_score params - 28 / 10 * (get params "pA_srv_win" (5 / 10) - 5 / 10)).
Proof.
  unfold linear_score, get. rewrite lookup_insert_eq.
  rewrite !lookup_insert_ne by discriminate.
  change (default (5 / 10) (Some v)) with v. lra.
Qed.

Lemma linear_score_depends_on_keys (p1 p2 : gmap string R) :
  (forall k, k ∈ mock_keys -> p1 !! k = p2 !! k) ->
  linear_score p1 = linear_score p2.
Proof.
  intros H. unfold linear_score, get.
  rewrite !H; [reflexivity |..]; unfold mock_keys;
    repeat (first [apply list_elem_of_here | apply list_elem_of_further]).
Qed.

(** C6 fails on the code: for the dictionary that holds only
    pA_srv_win = -254 the score is 2.8 * (-254.5) = -712.6, [math.exp]
    is called at 712.6 and raises OverflowError, so that
    [mock_probability] has no result there, although it clamps what
    [_logistic] returns into [0.01, 0.99]. *)
Theorem mock_probability_overflows :
  linear_score (<["pA_srv_win" := -254]> ∅) = - (7126 / 10) /\
  mock_probability (<["pA_srv_win" := -254]> ∅) = None.
Proof.
  assert (linear_score (<["pA_srv_win" := -254]> ∅) = - (7126 / 10)) as E.
  { rewrite linear_score_srv. unfold linear_score, get. rewrite !lookup_empty.
    unfold default, from_option. lra. }
  split; [exact E|].
  destruct (mock_probability_cases (<["pA_srv_win" := -254]> ∅)) as [[_ H] | [H _]];
    [exact H|].
  rewrite E in H. unfold exp_max_arg in H. lra.
Qed.

End MockProbability.

(** ** coach/data/adapters/local_csv.py: the smoothing of the estimator *)

Section Estimator.
Import Utils LocalCsv.

(** A single won match: 10 of 20 serve rallies and 8 of 18 receive
    rallies won. *)
Definition one_win : PerspectiveRow :=
  {| serve_rallies := 20; serve_wins := 10; receive_rallies := 18; receive_wins := 8;
     short_rate := 6 # 10; flick_rate := 4 # 10;
     attack_rate := 5 # 10; neutral_rate := 3 # 10; safe_rate := 2 # 10;
     points_for := 21; points_against := 17; won := true |}.

(** C8 as stated fails for the match win-rate of [get_player_params]:
    after one won match it is (1 + 1.5) / (1 + 3) = 5/8, the value for
    alpha = 1.5, and not (1 + 1) / (1 + 2) = 2/3, the value for
    alpha = 1.0. *)
Lemma player_win_rate_is_not_smoothed_with_alpha_one :
  exists st,
    get_player_params default_laplace_alpha [one_win] = Some st /\
    win_rate st == 5 # 8 /\
    exists p,
      _smooth_probability default_laplace_alpha 1 1 (Some 1) = Some p /\
      p == 2 # 3 /\ ~ win_rate st == p.
Proof.
  eexists. split; [reflexivity|]. split; [vm_compute; congruence|].
  eexists. split; [reflexivity|]. split; vm_compute; congruence.
Qed.

Lemma clamped_rate_bounds (x : Q) :
  5 # 100 <= clamp x (5 # 100) (9 # 10) /\ clamp x (5 # 100) (9 # 10) <= 9 # 10.
Proof. apply clamp_bounds. lra. Qed.

Lemma neutral_floor (x : Q) : 5 # 100 <= py_max (5 # 100) x.
Proof.
  destruct (py_max_spec (5 # 100) x) as [[H ->] | [H ->]]; lra.
Qed.

Lemma smooth_probability_cases (laplace_alpha wins trials : Q) (alpha : option Q) :
  let alpha' := default laplace_alpha alpha in
  (trials + 2 * alpha' == 0 /\ _smooth_probability laplace_alpha wins trials alpha = None) \/
  (~ trials + 2 * alpha' == 0 /\
   _smooth_probability laplace_alpha wins trials alpha
   = Some ((wins + alpha') / (trials + 2 * alpha'))).
Proof.
  cbv zeta. unfold _smooth_probability.
  destruct (Qeq_bool (trials + 2 * default laplace_alpha alpha) 0) eqn:E.
  - left. split; [now apply Qeq_bool_iff | reflexivity].
  - right. split; [now apply Qeq_bool_neq | reflexivity].
Qed.

(** The match win-rates never divide by zero: a window holds a match. *)
Lemma matches_denominator (rows : list PerspectiveRow) (a : Q) :
  0 <= a -> ~ inject_Z (Z.of_nat (length rows)) + 2 * a == 0 \/ rows = [].
Proof.
  intros Ha. destruct rows as [|r rows]; [now right|]. left.
  assert (1 <= inject_Z (Z.of_nat (length (r :: rows)))) as H.
  { change 1 with (inject_Z 1). rewrite <- Zle_Qle. cbn [length]. lia. }
  lra.
Qed.

(** C8, amended.  With the adapter's smoothing strength [alpha]
    (default 2.0), whenever the estimator returns: the base serve and
    receive rates are (wins + alpha) / (trials + 2 alpha); the
    head-to-head serve and receive rates use alpha = 1.5 and the
    head-to-head match win-rate uses alpha = 1.0, while the player's own
    match win-rate uses alpha = 1.5; the short rate is
    (x + 0.02) / (1 + 0.04) and flick is its complement; attack and safe
    are clamped to [0.05, 0.9], neutral is the remainder with floor
    0.05, and the three are divided by their sum, so that they sum
    to 1.  The estimator returns for every window with a match unless a
    denominator trials + 2 alpha is zero. *)
Theorem estimator_smoothing :
  default_laplace_alpha == 2 /\
  (forall alpha wins trials,
     (is_Some (_smooth_probability alpha wins trials None) <-> ~ trials + 2 * alpha == 0) /\
     forall p, _smooth_probability alpha wins trials None = Some p ->
               p == (wins + alpha) / (trials + 2 * alpha)) /\
  (forall alpha r rows,
     let window := r :: rows in
     (is_Some (get_player_params alpha window) <->
      ~ inject_Z (sum_Z serve_rallies window) + 2 * alpha == 0 /\
      ~ inject_Z (sum_Z receive_rallies window) + 2 * alpha == 0) /\
     forall st,
       get_player_params alpha window = Some st ->
       base_srv_win st ==
         (inject_Z (sum_Z serve_wins window) + alpha)
         / (inject_Z (sum_Z serve_rallies window) + 2 * alpha) /\
       base_rcv_win st ==
         (inject_Z (sum_Z receive_wins window) + alpha)
         / (inject_Z (sum_Z receive_rallies window) + 2 * alpha) /\
       win_rate st ==
         (inject_Z (count_won window) + (15 # 10))
         / (inject_Z (Z.of_nat (length window)) + 2 * (15 # 10)) /\
       serve_mix_short st ==
         (weighted_mean short_rate serve_weight window + (2 # 100)) / (1 + (4 # 100)) /\
       serve_mix_flick st == 1 - serve_mix_short st /\
       (let attack := clamp (weighted_mean attack_rate rally_weight window) (5 # 100) (9 # 10) in
        let safe := clamp (weighted_mean safe_rate rally_weight window) (5 # 100) (9 # 10) in
        let neutral := py_max (5 # 100) (1 - attack - safe) in
        5 # 100 <= neutral /\
        rally_style_attack st == attack / (attack + neutral + safe) /\
        rally_style_neutral st == neutral / (attack + neutral + safe) /\
        rally_style_safe st == safe / (attack + neutral + safe)) /\
       rally_style_attack st + rally_style_neutral st + rally_style_safe st == 1) /\
  (forall alpha r rows,
     let window := r :: rows in
     (is_Some (get_head_to_head alpha window) <->
      ~ inject_Z (sum_Z serve_rallies window) + 2 * (15 # 10) == 0 /\
      ~ inject_Z (sum_Z receive_rallies window) + 2 * (15 # 10) == 0) /\
     forall h,
       get_head_to_head alpha window = Some h ->
       a_win_rate h ==
         (inject_Z (count_won window) + 1) / (inject_Z (Z.of_nat (length window)) + 2 * 1) /\
       a_srv_win h ==
         (inject_Z (sum_Z serve_wins window) + (15 # 10))
         / (inject_Z (sum_Z serve_rallies window) + 2 * (15 # 10)) /\
       a_rcv_win h ==
         (inject_Z (sum_Z receive_wins window) + (15 # 10))
         / (inject_Z (sum_Z receive_rallies window) + 2 * (15 # 10))) /\
  (forall alpha,
     exists h,
       get_head_to_head alpha [] = Some h /\
       h2h_matches h = 0%Z /\ a_win_rate h == 5 # 10 /\
       a_srv_win h == 5 # 10 /\ a_rcv_win h == 5 # 10).
Proof.
  split; [reflexivity|]. split; [|split; [|split]].
  - intros alpha wins trials.
    destruct (smooth_probability_cases alpha wins trials None) as [[Hz E] | [Hz E]];
      cbn [default from_option] in Hz, E; rewrite E; split.
    + split; [intros [p [=]] | intros H; now destruct H].
    + intros p [=].
    + split; [intros _; exact Hz | eauto].
    + intros p [= <-]. reflexivity.
  - intros alpha r rows window.
    unfold get_player_params. fold window. cbv zeta.
    change (match window with [] => None | _ :: _ => ?x end) with x.
    destruct (smooth_probability_cases alpha (inject_Z (sum_Z serve_wins window))
                (inject_Z (sum_Z serve_rallies window)) None) as [[Hz1 E1] | [Hz1 E1]];
      cbn [default from_option] in Hz1, E1; rewrite E1; cbn [mbind option_bind].
    { split; [|intros st [=]]. split; [intros [st [=]] | intros [H _]; now destruct H]. }
    destruct (smooth_probability_cases alpha (inject_Z (sum_Z receive_wins window))
                (inject_Z (sum_Z receive_rallies window)) None) as [[Hz2 E2] | [Hz2 E2]];
      cbn [default from_option] in Hz2, E2; rewrite E2; cbn [mbind option_bind].
    { split; [|intros st [=]]. split; [intros [st [=]] | intros [_ H]; now destruct H]. }
    destruct (smooth_probability_cases alpha (inject_Z (count_won window))
                (inject_Z (Z.of_nat (length window))) (Some (15 # 10)))
      as [[Hz3 E3] | [Hz3 E3]];
      cbn [default from_option] in Hz3, E3; unfold Datatypes.id in Hz3, E3.
    { exfalso. destruct (matches_denominator window (15 # 10)) as [H | H];
        [lra | now destruct H | discriminate H]. }
    rewrite E3. cbn [mbind option_bind].
    split; [split; [intros _; now split | eauto]|].
    intros st [= <-].
    cbn [base_srv_win base_rcv_win win_rate serve_mix_short serve_mix_flick
         rally_style_attack rally_style_neutral rally_style_safe].
    change (py_max (5 # 100) (py_min (9 # 10) (weighted_mean attack_rate rally_weight window)))
      with (clamp (weighted_mean attack_rate rally_weight window) (5 # 100) (9 # 10)).
    change (py_max (5 # 100) (py_min (9 # 10) (weighted_mean safe_rate rally_weight window)))
      with (clamp (weighted_mean safe_rate rally_weight window) (5 # 100) (9 # 10)).
    destruct (clamped_rate_bounds (weighted_mean attack_rate rally_weight window)) as [Ha1 Ha2].
    destruct (clamped_rate_bounds (weighted_mean safe_rate rally_weight window)) as [Hs1 Hs2].
    set (a := clamp (weighted_mean attack_rate rally_weight window) (5 # 100) (9 # 10)) in *.
    set (s := clamp (weighted_mean safe_rate rally_weight window) (5 # 100) (9 # 10)) in *.
    pose proof (neutral_floor (1 - a - s)) as Hn.
    set (n := py_max (5 # 100) (1 - a - s)) in *.
    assert (~ a + n + s == 0) as Hne by lra.
    repeat split;
      first [exact Hn | apply Qeq_refl | (field; exact Hne) | (unfold alpha_mix; field)].
  - intros alpha r rows window.
    unfold get_head_to_head. fold window. cbv zeta.
    change (match window with [] => ?y | _ :: _ => ?x end) with x.
    destruct (smooth_probability_cases alpha (inject_Z (count_won window))
                (inject_Z (Z.of_nat (length window))) (Some 1))
      as [[Hz3 E3] | [Hz3 E3]];
      cbn [default from_option] in Hz3, E3; unfold Datatypes.id in Hz3, E3.
    { exfalso. destruct (matches_denominator window 1) as [H | H];
        [lra | now destruct H | discriminate H]. }
    rewrite E3. cbn [mbind option_bind].
    destruct (smooth_probability_cases alpha (inject_Z (sum_Z serve_wins window))
                (inject_Z (sum_Z serve_rallies window)) (Some (15 # 10)))
      as [[Hz1 E1] | [Hz1 E1]];
      cbn [default from_option] in Hz1, E1; unfold Datatypes.id in Hz1, E1;
      rewrite E1; cbn [mbind option_bind].
    { split; [|intros st [=]]. split; [intros [st [=]] | intros [H _]; now destruct H]. }
    destruct (smooth_probability_cases alpha (inject_Z (sum_Z receive_wins window))
                (inject_Z (sum_Z receive_rallies window)) (Some (15 # 10)))
      as [[Hz2 E2] | [Hz2 E2]];
      cbn [default from_option] in Hz2, E2; unfold Datatypes.id in Hz2, E2;
      rewrite E2; cbn [mbind option_bind].
    { split; [|intros st [=]]. split; [intros [st [=]] | intros [_ H]; now destruct H]. }
    split; [split; [intros _; now split | eauto]|].
    intros h [= <-]. cbn [a_win_rate a_srv_win a_rcv_win]. repeat split; reflexivity.
  - intros alpha. eexists. split; [reflexivity|]. cbn. repeat split; reflexivity.
Qed.

Lemma estimator_smoothing_witness :
  exists st,
    get_player_params default_laplace_alpha [one_win] = Some st /\
    base_srv_win st == 12 # 24 /\ base_rcv_win st == 10 # 22 /\ win_rate st == 5 # 8.
Proof.
  destruct estimator_smoothing as (_ & _ & Hplayer & _).
  destruct (Hplayer default_laplace_alpha one_win []) as [Hreturns Hrates].
  destruct (proj2 Hreturns) as [st Hst]; [split; vm_compute; discriminate|].
  exists st. split; [exact Hst|].
  destruct (Hrates st Hst) as (Hsrv & Hrcv & Hwin & _).
  rewrite Hsrv, Hrcv, Hwin. repeat split; vm_compute; reflexivity.
Defined.

End Estimator.

(** ** coach/pat/runner.py: when a run counts as successful *)

Section RunPatOutcome.
Import Text Parser Runner.
Local Open Scope string_scope.

Lemma is_some_true {A} (x : option A) : is_some x = true <-> exists v, x = Some v.
Proof.
  destruct x; cbn; split; try discriminate; eauto. intros [v [=]].
Qed.

(** The two results of [classify] are "no model error" and "a
    probability" exactly when the output carries no error signal and the
    file has text, other than white space, from which a probability can
    be parsed. *)
Lemma classify_clean (selected : _PATCommandResult) (out : out_file) (v : Q) :
  classify selected out = (None, Some v) <->
  _extract_pat_model_error (attempt_stdout selected) (attempt_stderr selected) = None /\
  exists pat_out_text,
    out = Content pat_out_text /\
    strip (chars pat_out_text) <> [] /\
    parse_probability pat_out_text = Parsed v.
Proof.
  unfold classify.
  set (me := _extract_pat_model_error _ _).
  destruct out as [| |t].
  - split.
    + destruct (attempt_returncode selected =? 0)%Z; intros [=].
    + intros (_ & t & [=] & _).
  - cbn. split.
    + intros [=].
    + intros (_ & t & [=] & _).
  - destruct (strip (chars t)) as [|c l] eqn:Es.
    + split.
      * intros [=].
      * intros (_ & t' & [= <-] & Hne & _). now rewrite Es in Hne.
    + destruct (parse_probability t) as [w|m] eqn:Ep.
      * split.
        -- intros [= -> ->]. split; [reflexivity|].
           exists t. rewrite Es, Ep. repeat split. discriminate.
        -- intros (-> & t' & [= <-] & _ & Ep'). rewrite Ep in Ep'.
           now injection Ep' as ->.
      * split.
        -- intros [=].
        -- intros (_ & t' & [= <-] & _ & Ep'). rewrite Ep in Ep'. discriminate.
Qed.

Lemma classify_probability (selected : _PATCommandResult) (out : out_file)
    (me : option string) (v : Q) :
  classify selected out = (me, Some v) ->
  me = _extract_pat_model_error (attempt_stdout selected) (attempt_stderr selected) /\
  exists pat_out_text,
    out = Content pat_out_text /\
    strip (chars pat_out_text) <> [] /\
    parse_probability pat_out_text = Parsed v.
Proof.
  unfold classify.
  destruct out as [| |t].
  - destruct (attempt_returncode selected =? 0)%Z; intros [=].
  - cbn. intros [=].
  - destruct (strip (chars t)) as [|c l] eqn:Es; [intros [=]|].
    destruct (parse_probability t) as [w|m] eqn:Ep; [|intros [=]].
    intros [= <- ->]. split; [reflexivity|].
    exists t. rewrite Es, Ep. repeat split. discriminate.
Qed.

(** A real-mode invocation reaches execution when a console path is
    given and resolves to an existing file. *)
Definition reaches_execution (h : host) (inv : invocation) (console : console_path) : Prop :=
  mode inv = "real" /\
  (exists given, pat_console_path inv = Some given /\
                 resolve_pat_console_path h given = console) /\
  path_exists console = true /\
  path_is_dir console = false.

Lemma run_pat_executes (h : host) (e : engine) (inv : invocation)
    (console : console_path) (out_before : out_file) (d : gmap string artifact) :
  reaches_execution h inv console ->
  let resolved_use_mono := _resolve_use_mono (use_mono inv) console in
  let base_cmd :=
    _build_pat_command h (full_path console) (pcsp_path inv) (out_path inv)
      resolved_use_mono in
  run_pat h e inv out_before d =
  match primary_run e with
  | Completed rc so se =>
      run_completed h e inv console resolved_use_mono
        {| attempt_cmd := base_cmd; attempt_returncode := rc;
           attempt_stdout := so; attempt_stderr := se |} d
  | NotFound _ =>
      run_not_completed inv base_cmd "" "" msg_cannot_start (out_after_primary e) d
  | TimedOut so se _ =>
      run_not_completed inv base_cmd (default "" so) (default "" se)
        ("PAT timed out after " +:+ str_int (timeout_s inv) +:+ "s")
        (out_after_primary e) d
  | OtherError message => raise (OSError message) (out_after_primary e) d
  end.
Proof.
  intros (Hmode & (given & Hgiven & Hres) & Hex & Hdir). cbv zeta.
  unfold run_pat. rewrite Hmode, Hgiven, Hres, Hex, Hdir. reflexivity.
Qed.

(** The last attempt and the output file it leaves. *)
Definition last_attempt (h : host) (e : engine) (inv : invocation)
    (console : console_path) (rc : Z) (so se : string) (d : gmap string artifact)
  : _PATCommandResult * out_file :=
  let resolved_use_mono := _resolve_use_mono (use_mono inv) console in
  let primary :=
    {| attempt_cmd :=
         _build_pat_command h (full_path console) (pcsp_path inv) (out_path inv)
           resolved_use_mono;
       attempt_returncode := rc; attempt_stdout := so; attempt_stderr := se |} in
  let fb := run_fallback h e inv console resolved_use_mono so se d in
  (selected_attempt primary (later_attempts fb), out_final fb).

Lemma run_completed_ok (h : host) (e : engine) (inv : invocation)
    (console : console_path) (mono : bool) (primary : _PATCommandResult)
    (d : gmap string artifact) :
  let fb :=
    run_fallback h e inv console mono (attempt_stdout primary) (attempt_stderr primary) d in
  let selected := selected_attempt primary (later_attempts fb) in
  exists p,
    result (run_completed h e inv console mono primary d) = Returned p /\
    out_file_after (run_completed h e inv console mono primary d) = out_final fb /\
    returncode p = attempt_returncode selected /\
    (forall v, probability p = Some v ->
       exists pat_out_text,
         out_final fb = Content pat_out_text /\
         strip (chars pat_out_text) <> [] /\
         parse_probability pat_out_text = Parsed v) /\
    (ok p = true <->
     attempt_returncode selected = 0%Z /\
     _extract_pat_model_error (attempt_stdout selected) (attempt_stderr selected) = None /\
     exists pat_out_text v,
       out_final fb = Content pat_out_text /\
       strip (chars pat_out_text) <> [] /\
       parse_probability pat_out_text = Parsed v /\
       probability p = Some v).
Proof.
  cbv zeta. unfold run_completed.
  set (fb := run_fallback h e inv console mono _ _ d).
  set (selected := selected_attempt primary (later_attempts fb)).
  destruct (_write_attempt_logs _ _ _ _) as [d1 metas].
  destruct (classify selected (out_final fb)) as [me pr] eqn:Ec.
  eexists. split; [reflexivity|]. cbn [out_file_after returncode ok probability].
  split; [reflexivity|]. split; [reflexivity|]. split.
  - intros v ->. now apply classify_probability in Ec as [_ H].
  - rewrite !andb_true_iff, negb_true_iff, Z.eqb_eq, is_some_true. split.
    + intros [[[Hrc Hex] Hme] [v ->]]. destruct me; [discriminate|].
      apply classify_clean in Ec as [Hsig (t & Ht & Hs & Hp)].
      split; [exact Hrc|]. split; [exact Hsig|]. now exists t, v.
    + intros (Hrc & Hsig & t & v & Ht & Hs & Hp & ->).
      assert (classify selected (out_final fb) = (None, Some v)) as Ec'.
      { apply classify_clean. split; [exact Hsig|]. now exists t. }
      rewrite Ec in Ec'. injection Ec' as ->.
      rewrite Ht. repeat split; eauto.
Qed.

Definition console_exe : console_path :=
  {| full_path := "/opt/pat/PAT3.Console.exe"; parent_dir := "/opt/pat";
     file_name := "PAT3.Console.exe"; path_exists := true; path_is_dir := false |}.

Definition host_with_console : host :=
  {| resolve_pat_console_path := fun _ => console_exe;
     mono_path := "mono"; mcs_path := "mcs" |}.

Definition real_invocation : invocation :=
  {| pcsp_path := "/runs/r1/matchup.pcsp"; pcsp_name := "matchup.pcsp";
     run_dir := "/runs/r1"; out_name := "pat_output.txt"; mode := "real";
     pat_console_path := Some "/opt/pat/PAT3.Console.exe";
     timeout_s := 120; use_mono := None |}.

(** The engine exits with code 0 and the output file holds a
    probability, but its stdout reports a parsing error. *)
Definition engine_with_error_signal : engine :=
  {| primary_run :=
       Completed 0
         ("Parsing Error: At least one expression is needed in the expression block."
          +:+ nl +:+ "PAT finished successfully.") "";
     out_after_primary := Content "Probability = 0.5";
     shim := McsNotFound; compat_run := NotFound "";
     out_after_compat := Missing; mock_value := 1 # 2 |}.

(** C1 as stated fails: exit code 0, the output file exists, is not
    empty and a probability parses from it, and still [ok] is false,
    because a line of stdout carries the signal "parsing error:". *)
Lemma run_pat_not_ok_despite_output :
  reaches_execution host_with_console real_invocation console_exe /\
  exists p,
    result (run_pat host_with_console engine_with_error_signal real_invocation Missing ∅)
      = Returned p /\
    returncode p = 0%Z /\
    out_file_after
      (run_pat host_with_console engine_with_error_signal real_invocation Missing ∅)
      = Content "Probability = 0.5" /\
    strip (chars "Probability = 0.5") <> [] /\
    parse_probability "Probability = 0.5" = Parsed (4503599627370496 # 9007199254740992) /\
    probability p = Some (4503599627370496 # 9007199254740992) /\
    ok p = false.
Proof.
  split.
  - repeat split; try reflexivity. now exists "/opt/pat/PAT3.Console.exe".
  - eexists. split; [vm_compute; reflexivity|].
    repeat split; try (vm_compute; reflexivity). vm_compute. discriminate.
Qed.

(** The engine exits with code 0, reports no error, and leaves a
    probability in the output file. *)
Definition engine_succeeding : engine :=
  {| primary_run := Completed 0 "PAT finished successfully." "";
     out_after_primary := Content "Probability = 0.5";
     shim := McsNotFound; compat_run := NotFound "";
     out_after_compat := Missing; mock_value := 1 # 2 |}.

(** After a completed primary attempt: when the run is reported
    successful, and which probability the payload carries. *)
Lemma run_completed_success (h : host) (e : engine) (inv : invocation)
    (console : console_path) (mono : bool) (primary : _PATCommandResult)
    (d : gmap string artifact) :
  let fb :=
    run_fallback h e inv console mono (attempt_stdout primary) (attempt_stderr primary) d in
  let selected := selected_attempt primary (later_attempts fb) in
  exists p,
    result (run_completed h e inv console mono primary d) = Returned p /\
    returncode p = attempt_returncode selected /\
    (ok p = true <->
     attempt_returncode selected = 0%Z /\
     _extract_pat_model_error (attempt_stdout selected) (attempt_stderr selected) = None /\
     exists pat_out_text v,
       out_final fb = Content pat_out_text /\
       strip (chars pat_out_text) <> [] /\
       parse_probability pat_out_text = Parsed v) /\
    (forall v,
       probability p = Some v <->
       exists pat_out_text,
         out_final fb = Content pat_out_text /\
         strip (chars pat_out_text) <> [] /\
         parse_probability pat_out_text = Parsed v).
Proof.
  cbv zeta.
  destruct (run_completed_ok h e inv console mono primary d)
    as (p & Hres & _ & Hrc & Hprob & Hok).
  exists p. split; [exact Hres|]. split; [exact Hrc|].
  assert (forall pat_out_text v,
            out_final (run_fallback h e inv console mono (attempt_stdout primary)
                         (attempt_stderr primary) d) = Content pat_out_text ->
            strip (chars pat_out_text) <> [] ->
            parse_probability pat_out_text = Parsed v ->
            probability p = Some v) as Hread.
  { intros t v Ht Hs Hp. revert Hres. unfold run_completed.
    destruct (_write_attempt_logs _ _ _ _) as [d1 metas].
    destruct (classify _ _) as [me pr] eqn:Ec.
    intros [= <-]. cbn [probability].
    unfold classify in Ec. rewrite Ht in Ec.
    destruct (strip (chars t)); [now destruct Hs|].
    rewrite Hp in Ec. now injection Ec as _ <-. }
  split.
  - rewrite Hok. split.
    + intros (H1 & H2 & t & v & Ht & Hs & Hp & _). split; [exact H1|].
      split; [exact H2|]. now exists t, v.
    + intros (H1 & H2 & t & v & Ht & Hs & Hp). split; [exact H1|].
      split; [exact H2|]. exists t, v. repeat split; try assumption.
      now apply (Hread t v).
  - intros v. split; [apply Hprob|].
    intros (t & Ht & Hs & Hp). now apply (Hread t v).
Qed.

(** C1, amended.  For a real-mode invocation that reaches execution:
    when the primary attempt completes, the run is reported successful
    exactly when the last attempt's exit code is 0, no line of its
    stdout or stderr carries one of the engine's error signals, and the
    expected output file exists with text other than white space from
    which a probability is parsed; the payload carries a probability
    exactly when one is parsed from such a file, whatever [ok] is; when
    the primary attempt cannot be started or times out, the run is
    reported failed with return code -1. *)
Theorem run_pat_ok_iff (h : host) (e : engine) (inv : invocation)
    (console : console_path) (out_before : out_file) (d : gmap string artifact) :
  reaches_execution h inv console ->
  match primary_run e with
  | Completed rc so se =>
      let '(selected, out) := last_attempt h e inv console rc so se d in
      exists p,
        result (run_pat h e inv out_before d) = Returned p /\
        returncode p = attempt_returncode selected /\
        (ok p = true <->
         attempt_returncode selected = 0%Z /\
         _extract_pat_model_error (attempt_stdout selected) (attempt_stderr selected)
           = None /\
         exists pat_out_text v,
           out = Content pat_out_text /\
           strip (chars pat_out_text) <> [] /\
           parse_probability pat_out_text = Parsed v) /\
        (forall v,
           probability p = Some v <->
           exists pat_out_text,
             out = Content pat_out_text /\
             strip (chars pat_out_text) <> [] /\
             parse_probability pat_out_text = Parsed v)
  | NotFound _ | TimedOut _ _ _ =>
      exists p,
        result (run_pat h e inv out_before d) = Returned p /\
        ok p = false /\ returncode p = (-1)%Z /\ probability p = None
  | OtherError message =>
      result (run_pat h e inv out_before d) = Raised (OSError message)
  end.
Proof.
  intros Hreach. rewrite (run_pat_executes h e inv console out_before d Hreach).
  destruct (primary_run e) as [rc so se | m | so se m | m].
  - unfold last_attempt.
    exact (run_completed_success h e inv console (_resolve_use_mono (use_mono inv) console)
             {| attempt_cmd :=
                  _build_pat_command h (full_path console) (pcsp_path inv)
                    (out_path inv) (_resolve_use_mono (use_mono inv) console);
                attempt_returncode := rc; attempt_stdout := so;
                attempt_stderr := se |} d).
  - eexists. repeat split.
  - eexists. repeat split.
  - reflexivity.
Qed.

(** A run that the theorem reports successful. *)
Lemma run_pat_ok_iff_witness :
  reaches_execution host_with_console real_invocation console_exe /\
  exists p,
    result (run_pat host_with_console engine_succeeding real_invocation Missing ∅)
      = Returned p /\
    ok p = true /\ returncode p = 0%Z /\
    probability p = Some (4503599627370496 # 9007199254740992).
Proof.
  assert (reaches_execution host_with_console real_invocation console_exe) as H.
  { repeat split; try reflexivity. now exists "/opt/pat/PAT3.Console.exe". }
  split; [exact H|].
  pose proof (run_pat_ok_iff host_with_console engine_succeeding
                real_invocation console_exe Missing ∅ H) as T.
  cbn [primary_run engine_succeeding] in T.
  destruct (last_attempt host_with_console engine_succeeding real_invocation console_exe
              0 "PAT finished successfully." "" ∅) as [selected out] eqn:El.
  vm_compute in El. injection El as <- <-.
  destruct T as (p & Hres & Hrc & Hok & Hprob).
  exists p. split; [exact Hres|].
  assert (exists pat_out_text,
            Content "Probability = 0.5" = Content pat_out_text /\
            strip (chars pat_out_text) <> [] /\
            parse_probability pat_out_text
            = Parsed (4503599627370496 # 9007199254740992)) as Hout.
  { exists "Probability = 0.5". split; [reflexivity|].
    split; [vm_compute; discriminate | vm_compute; reflexivity]. }
  split; [|split; [exact Hrc | now apply Hprob]].
  apply Hok. split; [reflexivity|]. split; [vm_compute; reflexivity|].
  destruct Hout as (t & Ht & Hs & Hp). now exists t, (4503599627370496 # 9007199254740992).
Defined.

End RunPatOutcome.

(** ** coach/pat/runner.py: what a run leaves on disk *)

Section RunPatArtifacts.
Import Text Parser Runner.
Local Open Scope string_scope.

Lemma path_join_inj (dir a b : string) : path_join dir a = path_join dir b -> a = b.
Proof.
  unfold path_join. induction dir as [|c dir IH]; intros H.
  - injection H as H. exact H.
  - injection H as H. now apply IH.
Qed.

(** The four artifacts of a run directory: the raw streams [so] and
    [se], the invocation record and the summary record. *)
Record artifacts_written (dir : string) (disk : gmap string artifact) (p : payload)
    (so se : string) : Prop := {
  stdout_written :
    stdout_path p = path_join dir "pat_stdout.txt" /\
    disk !! path_join dir "pat_stdout.txt" = Some (TextFile so);
  stderr_written :
    stderr_path p = path_join dir "pat_stderr.txt" /\
    disk !! path_join dir "pat_stderr.txt" = Some (TextFile se);
  record_written : disk !! path_join dir "pat_run.json" = Some (RunRecord p);
  summary_written :
    disk !! path_join dir "summary.json" = Some (SummaryRecord (probability p))
}.

Ltac other_file :=
  let E := fresh in intros E; apply path_join_inj in E; discriminate E.

Lemma four_writes (dir so se : string) (p : payload) (pr : option Q)
    (d : gmap string artifact) :
  stdout_path p = path_join dir "pat_stdout.txt" ->
  stderr_path p = path_join dir "pat_stderr.txt" ->
  probability p = pr ->
  artifacts_written dir
    (_write_summary (path_join dir "summary.json") pr
       (write (path_join dir "pat_run.json") (RunRecord p)
          (write (path_join dir "pat_stderr.txt") (TextFile se)
             (write (path_join dir "pat_stdout.txt") (TextFile so) d)))) p so se.
Proof.
  intros Ho He Hp. unfold _write_summary, write. constructor.
  - split; [exact Ho|].
    rewrite !lookup_insert_ne by other_file. apply lookup_insert_eq.
  - split; [exact He|].
    rewrite !lookup_insert_ne by other_file. apply lookup_insert_eq.
  - rewrite lookup_insert_ne by other_file. apply lookup_insert_eq.
  - rewrite Hp. apply lookup_insert_eq.
Qed.

Lemma run_not_completed_artifacts (inv : invocation) (base_cmd : list string)
    (so se message : string) (out : out_file) (d : gmap string artifact) :
  exists p,
    result (run_not_completed inv base_cmd so se message out d) = Returned p /\
    ok p = false /\ error p = Some message /\
    artifacts_written (run_dir inv)
      (disk_after (run_not_completed inv base_cmd so se message out d)) p so se.
Proof.
  eexists. split; [reflexivity|]. split; [reflexivity|]. split; [reflexivity|].
  unfold run_not_completed. cbn [disk_after]. now apply four_writes.
Qed.

Lemma run_completed_artifacts (h : host) (e : engine) (inv : invocation)
    (console : console_path) (mono : bool) (primary : _PATCommandResult)
    (d : gmap string artifact) :
  let selected :=
    selected_attempt primary
      (later_attempts
         (run_fallback h e inv console mono (attempt_stdout primary)
            (attempt_stderr primary) d)) in
  exists p,
    result (run_completed h e inv console mono primary d) = Returned p /\
    (ok p = false -> exists message, error p = Some message) /\
    (exists metas, attempts p = Some metas /\ metas <> []) /\
    artifacts_written (run_dir inv)
      (disk_after (run_completed h e inv console mono primary d)) p
      (attempt_stdout selected) (attempt_stderr selected).
Proof.
  cbv zeta. unfold run_completed.
  destruct (_write_attempt_logs _ _ _ _) as [d1 metas] eqn:Ew.
  destruct (classify _ _) as [me pr].
  eexists. split; [reflexivity|]. cbn [ok error attempts disk_after]. split; [|split].
  - intros ->. eauto.
  - exists metas. split; [reflexivity|].
    cbn [_write_attempt_logs] in Ew.
    destruct (_write_attempt_logs _ _ (later_attempts _) _) in Ew.
    injection Ew as _ <-. discriminate.
  - now apply four_writes.
Qed.

Definition no_console_invocation : invocation :=
  {| pcsp_path := "/runs/r1/matchup.pcsp"; pcsp_name := "matchup.pcsp";
     run_dir := "/runs/r1"; out_name := "pat_output.txt"; mode := "real";
     pat_console_path := None; timeout_s := 120; use_mono := None |}.

Definition missing_console : console_path :=
  {| full_path := "/opt/does_not_exist/PAT.Console.exe";
     parent_dir := "/opt/does_not_exist"; file_name := "PAT.Console.exe";
     path_exists := false; path_is_dir := false |}.

Definition host_without_console : host :=
  {| resolve_pat_console_path := fun _ => missing_console;
     mono_path := "mono"; mcs_path := "mcs" |}.

Definition idle_engine : engine :=
  {| primary_run := NotFound ""; out_after_primary := Missing;
     shim := McsNotFound; compat_run := NotFound "";
     out_after_compat := Missing; mock_value := 1 # 2 |}.

(** C2 as stated fails for two of the engine-unavailable errors: with no
    console path configured, and with a console path that does not
    exist (the case of the repository's test), [run_pat] raises a
    [RuntimeError] and the run directory holds no artifact at all. *)
Lemma run_pat_raises_without_artifacts :
  (result (run_pat host_with_console idle_engine no_console_invocation Missing ∅)
     = Raised (RuntimeError msg_no_console_path) /\
   disk_after (run_pat host_with_console idle_engine no_console_invocation Missing ∅) = ∅) /\
  (result (run_pat host_without_console idle_engine real_invocation Missing ∅)
     = Raised (RuntimeError (msg_console_not_found "/opt/does_not_exist/PAT.Console.exe")) /\
   disk_after (run_pat host_without_console idle_engine real_invocation Missing ∅) = ∅ /\
   disk_after (run_pat host_without_console idle_engine real_invocation Missing ∅)
     !! path_join "/runs/r1" "summary.json" = None).
Proof. repeat split. Qed.

(** C2, amended.  In real mode: once the invocation reaches execution,
    every outcome that [run_pat] handles (engine failure, a command that
    cannot be started, a timeout) is returned as a payload, not raised,
    after raw stdout, raw stderr, the invocation record and the summary
    record were written to the run directory, and a failed payload
    carries an error message; the engine-unavailable errors found before
    execution (no console path, a path that does not exist, a directory
    without a recognizable binary) are raised with the disk untouched. *)
Theorem run_pat_artifacts (h : host) (e : engine) (inv : invocation)
    (out_before : out_file) (d : gmap string artifact) :
  mode inv = "real" ->
  let r := run_pat h e inv out_before d in
  match pat_console_path inv with
  | None => result r = Raised (RuntimeError msg_no_console_path) /\ disk_after r = d
  | Some given =>
      let console := resolve_pat_console_path h given in
      if negb (path_exists console) then
        result r = Raised (RuntimeError (msg_console_not_found (full_path console))) /\
        disk_after r = d
      else if path_is_dir console then
        result r = Raised (RuntimeError (msg_console_is_dir (full_path console))) /\
        disk_after r = d
      else
        match primary_run e with
        | OtherError message => result r = Raised (OSError message) /\ disk_after r = d
        | Completed rc so se =>
            let '(selected, _) := last_attempt h e inv console rc so se d in
            exists p,
              result r = Returned p /\
              (ok p = false -> exists message, error p = Some message) /\
              artifacts_written (run_dir inv) (disk_after r) p
                (attempt_stdout selected) (attempt_stderr selected)
        | NotFound _ =>
            exists p,
              result r = Returned p /\ ok p = false /\
              error p = Some msg_cannot_start /\
              artifacts_written (run_dir inv) (disk_after r) p "" ""
        | TimedOut so se _ =>
            exists p,
              result r = Returned p /\ ok p = false /\
              error p = Some ("PAT timed out after " +:+ str_int (timeout_s inv) +:+ "s") /\
              artifacts_written (run_dir inv) (disk_after r) p (default "" so) (default "" se)
        end
  end.
Proof.
  intros Hmode r. subst r. unfold run_pat. rewrite Hmode. cbn [String.eqb negb].
  change (String.eqb "real" "mock") with false.
  change (String.eqb "real" "real") with true. cbn [negb].
  destruct (pat_console_path inv) as [given|]; [|now split].
  cbv zeta.
  destruct (path_exists (resolve_pat_console_path h given)); cbn [negb]; [|now split].
  destruct (path_is_dir (resolve_pat_console_path h given)); [now split|].
  destruct (primary_run e) as [rc so se | m | so se m | m].
  - unfold last_attempt.
    destruct (run_completed_artifacts h e inv (resolve_pat_console_path h given)
                (_resolve_use_mono (use_mono inv) (resolve_pat_console_path h given))
                {| attempt_cmd :=
                     _build_pat_command h (full_path (resolve_pat_console_path h given))
                       (pcsp_path inv) (out_path inv)
                       (_resolve_use_mono (use_mono inv) (resolve_pat_console_path h given));
                   attempt_returncode := rc; attempt_stdout := so;
                   attempt_stderr := se |} d)
      as (p & Hres & Herr & _ & Hart).
    exists p. split; [exact Hres|]. split; [exact Herr | exact Hart].
  - match goal with
    | |- context [run_not_completed ?i ?c ?a ?b ?m ?o ?d'] =>
        destruct (run_not_completed_artifacts i c a b m o d')
          as (p & Hres & Hok & Herr & Hart)
    end.
    exists p. split; [exact Hres|]. split; [exact Hok|]. split; [exact Herr | exact Hart].
  - match goal with
    | |- context [run_not_completed ?i ?c ?a ?b ?m ?o ?d'] =>
        destruct (run_not_completed_artifacts i c a b m o d')
          as (p & Hres & Hok & Herr & Hart)
    end.
    exists p. split; [exact Hres|]. split; [exact Hok|]. split; [exact Herr | exact Hart].
  - now split.
Qed.

(** A command that cannot be started. *)
Lemma run_pat_artifacts_witness :
  mode real_invocation = "real" /\
  exists p,
    result (run_pat host_with_console idle_engine real_invocation Missing ∅) = Returned p /\
    ok p = false /\
    disk_after (run_pat host_with_console idle_engine real_invocation Missing ∅)
      !! path_join "/runs/r1" "summary.json" = Some (SummaryRecord None).
Proof.
  split; [reflexivity|].
  pose proof (run_pat_artifacts host_with_console idle_engine real_invocation Missing ∅
                eq_refl) as T.
  cbv zeta in T. cbn [pat_console_path real_invocation] in T.
  change (negb (path_exists (resolve_pat_console_path host_with_console
                               "/opt/pat/PAT3.Console.exe"))) with false in T.
  change (path_is_dir (resolve_pat_console_path host_with_console
                         "/opt/pat/PAT3.Console.exe")) with false in T.
  cbn [primary_run idle_engine] in T.
  destruct T as (p & Hres & _ & _ & Hart).
  exists p. split; [exact Hres|].
  assert (p = {| ok := false; returncode := -1;
                 cmd := ["mono"; "/opt/pat/PAT3.Console.exe"; "-pcsp";
                         "/runs/r1/matchup.pcsp"; "/runs/r1/pat_output.txt"];
                 stdout_path := "/runs/r1/pat_stdout.txt";
                 stderr_path := "/runs/r1/pat_stderr.txt";
                 pat_out_path := "/runs/r1/pat_output.txt";
                 probability := None; attempts := None; fallback_applied := None;
                 error := Some msg_cannot_start |}) as Ep.
  { vm_compute in Hres. now injection Hres as <-. }
  split; [now rewrite Ep|].
  destruct Hart as [_ _ _ Hsum]. rewrite Ep in Hsum. exact Hsum.
Defined.

End RunPatArtifacts.

(** ** coach/pat/runner.py: the result does not depend on the files already there *)

Section RunPatFrame.
Import Runner.

Lemma write_attempt_logs_meta (dir : string) (l : list _PATCommandResult) :
  forall idx d d',
    snd (_write_attempt_logs dir idx l d) = snd (_write_attempt_logs dir idx l d').
Proof.
  induction l as [|a l IH]; intros idx d d'; cbn [_write_attempt_logs]; [reflexivity|].
  match goal with
  | |- snd (let '(_, _) := _write_attempt_logs dir ?i l ?x in _)
       = snd (let '(_, _) := _write_attempt_logs dir ?i l ?y in _) =>
      pose proof (IH i x y) as E;
      destruct (_write_attempt_logs dir i l x) as [? m1];
      destruct (_write_attempt_logs dir i l y) as [? m2]
  end.
  cbn [snd] in *. now rewrite E.
Qed.

Lemma prepare_runtime_answer (h : host) (e : engine) (console : console_path)
    (dir : string) (d d' : gmap string artifact) :
  snd (_prepare_pat3_mono_compat_runtime h e console dir d)
  = snd (_prepare_pat3_mono_compat_runtime h e console dir d').
Proof.
  unfold _prepare_pat3_mono_compat_runtime.
  destruct (shim e) as [m | | rc so se]; try reflexivity.
  now destruct (negb (rc =? 0)%Z).
Qed.

Lemma run_fallback_answer (h : host) (e : engine) (inv : invocation)
    (console : console_path) (mono : bool) (so se : string)
    (d d' : gmap string artifact) :
  later_attempts (run_fallback h e inv console mono so se d)
    = later_attempts (run_fallback h e inv console mono so se d') /\
  fallback_error (run_fallback h e inv console mono so se d)
    = fallback_error (run_fallback h e inv console mono so se d') /\
  out_final (run_fallback h e inv console mono so se d)
    = out_final (run_fallback h e inv console mono so se d').
Proof.
  unfold run_fallback.
  destruct (_should_try_pat3_mono_compat_fallback _ _ _ _ _); [|now repeat split].
  pose proof (prepare_runtime_answer h e console (run_dir inv) d d') as E.
  destruct (_prepare_pat3_mono_compat_runtime h e console (run_dir inv) d) as [d1 a1].
  destruct (_prepare_pat3_mono_compat_runtime h e console (run_dir inv) d') as [d2 a2].
  cbn [snd] in E. subst a2.
  destruct a1 as [compat|m]; [|now repeat split].
  destruct (compat_run e); now repeat split.
Qed.

(** [run_pat] writes files and reads none of them: its result and the
    state of the expected output file are the same on every disk. *)
Lemma run_pat_reads_no_artifact (h : host) (e : engine) (inv : invocation)
    (out_before : out_file) (d d' : gmap string artifact) :
  result (run_pat h e inv out_before d) = result (run_pat h e inv out_before d') /\
  out_file_after (run_pat h e inv out_before d)
    = out_file_after (run_pat h e inv out_before d').
Proof.
  unfold run_pat.
  destruct (String.eqb (mode inv) "mock");
    [unfold run_mock; destruct (primary_run e); now split|].
  destruct (negb (String.eqb (mode inv) "real")); [now split|].
  destruct (pat_console_path inv) as [given|]; [|now split].
  destruct (negb (path_exists _)); [now split|].
  destruct (path_is_dir _); [now split|].
  destruct (primary_run e) as [rc so se | m | so se m | m]; try now split.
  unfold run_completed. cbn [attempt_stdout attempt_stderr].
  match goal with
  | |- context [run_fallback h e inv ?c ?m so se d] =>
      destruct (run_fallback_answer h e inv c m so se d d') as (E1 & E2 & E3);
      set (fb := run_fallback h e inv c m so se d) in *;
      set (fb' := run_fallback h e inv c m so se d') in *
  end.
  rewrite <- E1, <- E2, <- E3.
  match goal with
  | |- context [_write_attempt_logs ?dir ?i ?l (fallback_disk fb)] =>
      pose proof (write_attempt_logs_meta dir l i (fallback_disk fb) (fallback_disk fb'))
        as Em;
      destruct (_write_attempt_logs dir i l (fallback_disk fb)) as [? m1];
      destruct (_write_attempt_logs dir i l (fallback_disk fb')) as [? m2]
  end.
  cbn [snd] in Em. subst m2.
  destruct (classify _ _) as [me pr]. now split.
Qed.

End RunPatFrame.

(** ** coach/service.py: the candidate search *)

Section SortFacts.
Import Service.

Lemma insert_sorted_perm {A} (before : A -> A -> bool) (x : A) (l : list A) :
  insert_sorted before x l ≡ₚ x :: l.
Proof.
  induction l as [|y t IH]; cbn [insert_sorted]; [reflexivity|].
  destruct (before y x); [|reflexivity].
  rewrite IH. apply Permutation_swap.
Qed.

(** The sort only reorders. *)
Lemma stable_sort_perm {A} (before : A -> A -> bool) (l : list A) :
  stable_sort before l ≡ₚ l.
Proof.
  induction l as [|x l IH]; cbn [stable_sort fold_right]; [reflexivity|].
  fold (stable_sort before l). now rewrite insert_sorted_perm, IH.
Qed.

Lemma stable_sort_nil {A} (before : A -> A -> bool) (l : list A) :
  stable_sort before l = [] <-> l = [].
Proof.
  split; [|now intros ->].
  intros H. apply Permutation_nil_r. rewrite <- H. symmetry. apply stable_sort_perm.
Qed.

Lemma number_from_length (top : list (StrategyCandidate * Params.MatchupParams)) :
  forall i, length (number_from i top) = length top.
Proof.
  induction top as [|[c p] t IH]; intros i; cbn; [reflexivity|]. now rewrite IH.
Qed.


End SortFacts.

Section StrategySearch.
Import Params Service.
Local Open Scope string_scope.

Variable w : world.
Variable params : MatchupParams.
Variables run_dir' mode' : string.
Variable pat_path : option string.
Variable timeout_s : option Z.

Definition fresh : state := {| disk := ∅; executed := [] |}.

Definition candidate_name (idx : Z) : string := "candidate_" +:+ pad3 idx.

(** The run directory of the candidate of index [idx]. *)
Definition candidate_run_dir (idx : Z) : string :=
  Runner.path_join (Runner.path_join run_dir' "candidates") (candidate_name idx).

(** What [_execute_pat] answers for the candidate of index [idx]. *)
Definition candidate_run (idx : Z) : raised + PATExecution :=
  snd (_execute_pat w (candidate_engine w idx)
         (Runner.path_join (Runner.path_join run_dir' "candidates")
            (candidate_name idx +:+ ".pcsp"))
         (candidate_name idx +:+ ".pcsp") (candidate_run_dir idx)
         mode' pat_path timeout_s fresh).

(** The probability the candidate yields, if its run yields one. *)
Definition candidate_yield (idx : Z) : option Q :=
  match candidate_run idx with
  | inr pat_exec => probability pat_exec
  | inl _ => None
  end.

Definition baseline_run : raised + PATExecution :=
  snd (_execute_pat w (baseline_engine w) (Runner.path_join run_dir' "baseline.pcsp")
         "baseline.pcsp" run_dir' mode' pat_path timeout_s fresh).

Lemma execute_pat_frame (e : Runner.engine) (pcsp name dir : string) (st : state) :
  snd (_execute_pat w e pcsp name dir mode' pat_path timeout_s st)
    = snd (_execute_pat w e pcsp name dir mode' pat_path timeout_s fresh) /\
  executed (fst (_execute_pat w e pcsp name dir mode' pat_path timeout_s st))
    = (executed st ++ [dir])%list.
Proof.
  unfold _execute_pat. cbn [disk fresh].
  match goal with
  | |- context [Runner.run_pat ?h e ?inv ?ob (disk st)] =>
      destruct (run_pat_reads_no_artifact h e inv ob (disk st) ∅) as [E1 E2];
      rewrite E1, E2;
      destruct (Runner.result (Runner.run_pat h e inv ob ∅)) as [p|ex];
      [destruct (Runner.out_file_after (Runner.run_pat h e inv ob ∅)) as [| |t];
       [| |destruct (Parser.parse_probability t)]|]
  end; now split.
Qed.


Definition adjustable (c : candidate) : Prop :=
  is_Some (with_adjustments params (cand_serve_short_delta c) (cand_attack_delta c)).

(** The loop, when no run ends with an exception: every candidate is
    executed, in order, and [ranked] keeps exactly those that yield a
    probability. *)
Lemma search_loop_completes (cands : list candidate) :
  forall idx st,
    Forall adjustable cands ->
    (forall i, (idx <= i < idx + Z.of_nat (length cands))%Z ->
               exists pat_exec, candidate_run i = inr pat_exec) ->
    exists st' ranked,
      search_loop w params run_dir' mode' pat_path timeout_s idx cands st
        = (st', inr ranked) /\
      executed st'
        = (executed st ++ map candidate_run_dir (seqZ idx (Z.of_nat (length cands))))%list /\
      map (fun r => candidate_probability (fst r)) ranked
        = omap candidate_yield (seqZ idx (Z.of_nat (length cands))).
Proof.
  induction cands as [|c rest IH]; intros idx st Hadj Hruns.
  - exists st, []. cbn. now rewrite app_nil_r.
  - inversion Hadj as [|? ? [adjusted Ha] Hrest]; subst.
    cbn [search_loop]. rewrite Ha.
    destruct (Hruns idx) as [pat_exec Hrun]; [cbn [length]; lia|].
    fold (candidate_name idx). fold (candidate_run_dir idx).
    match goal with
    | |- context [_execute_pat w ?e ?pc ?n ?dir mode' pat_path timeout_s st] =>
        destruct (execute_pat_frame e pc n dir st) as [Esnd Eexe];
        destruct (_execute_pat w e pc n dir mode' pat_path timeout_s st) as [st1 r1]
    end.
    cbn [fst snd] in Esnd, Eexe. unfold candidate_run in Hrun.
    rewrite Hrun in Esnd. subst r1.
    destruct (IH (idx + 1)%Z st1 Hrest) as (st2 & ranked & Eloop & Eexe2 & Eprob).
    { intros i Hi. apply Hruns. cbn [length]. lia. }
    rewrite Eloop.
    replace (Z.of_nat (length (c :: rest))) with (Z.succ (Z.of_nat (length rest)))
      by (cbn [length]; lia).
    rewrite seqZ_cons by lia. rewrite Z.pred_succ. cbn [map omap list_omap].
    replace (Z.succ idx) with (idx + 1)%Z by lia.
    assert (candidate_yield idx = probability pat_exec) as Ey.
    { unfold candidate_yield, candidate_run. now rewrite Hrun. }
    rewrite Ey.
    destruct (probability pat_exec) as [p|].
    + eexists st2, _. split; [reflexivity|]. split.
      * rewrite Eexe2, Eexe, <- app_assoc. reflexivity.
      * cbn [map fst candidate_probability]. now rewrite Eprob.
    + exists st2, ranked. split; [reflexivity|]. split.
      * rewrite Eexe2, Eexe, <- app_assoc. reflexivity.
      * exact Eprob.
Qed.

Lemma generated_adjustable (l1_bound : Q) (generated : list candidate) :
  _generate_candidates params l1_bound = Some generated -> Forall adjustable generated.
Proof.
  unfold _generate_candidates.
  destruct (mapM (consider params l1_bound) grid) as [considered|] eqn:Em; [|discriminate].
  cbn. intros [= <-]. rewrite stable_sort_perm.
  apply mapM_Some in Em. apply Forall_forall. intros c Hc.
  apply list_elem_of_omap in Hc as (oc & Hoc & ->).
  apply list_elem_of_lookup in Hoc as [i Hi].
  destruct (Forall2_lookup_r _ _ _ _ _ Em Hi) as (step & _ & Hstep).
  unfold consider in Hstep. unfold adjustable.
  destruct (with_adjustments params (fst step) (snd step)) as [adjusted|] eqn:Ea;
    [|discriminate].
  cbn in Hstep. injection Hstep as Hstep.
  destruct (Qle_bool _ _); [|discriminate].
  injection Hstep as <-. cbn. rewrite Ea. eauto.
Qed.



End StrategySearch.

(** ** coach/service.py: the candidate list under the default bound *)

Section CandidatesExist.
Import Utils Params Service.

Lemma clamp_cases (v low high : Q) :
  low <= high ->
  (v <= low /\ clamp v low high == low) \/
  (low <= v /\ v <= high /\ clamp v low high == v) \/
  (high <= v /\ clamp v low high == high).
Proof.
  intros Hlh. unfold clamp.
  destruct (py_min_spec high v) as [[H1 ->] | [H1 ->]].
  - destruct (py_max_spec low v) as [[H2 ->] | [H2 ->]].
    + right. left. repeat split; lra.
    + left. split; lra.
  - destruct (py_max_spec low high) as [[H2 ->] | [H2 ->]].
    + right. right. split; lra.
    + right. right. split; lra.
Qed.

(** The smallest serve step moves [short] by at most 0.05. *)
Lemma short_step_small (x : Q) :
  0 <= x -> x <= 1 -> Qabs (clamp (x + (5 # 100)) (1 # 100) (99 # 100) - x) <= 5 # 100.
Proof.
  intros H0 H1. apply Qabs_Qle_condition.
  destruct (clamp_cases (x + (5 # 100)) (1 # 100) (99 # 100)) as [[H E] | [(H & H' & E) | [H E]]];
    [lra | | |]; rewrite E; split; lra.
Qed.

(** Without an attack step, clamping moves [attack] by at most 0.02. *)
Lemma attack_clamp_small (x : Q) :
  0 <= x -> x <= 1 -> Qabs (clamp (x + 0) (1 # 100) (98 # 100) - x) <= 2 # 100.
Proof.
  intros H0 H1. apply Qabs_Qle_condition.
  destruct (clamp_cases (x + 0) (1 # 100) (98 # 100)) as [[H E] | [(H & H' & E) | [H E]]];
    [lra | | |]; rewrite E; split; lra.
Qed.

(** Rescaling two shares of [r] to a new total [t] moves them, together,
    by the distance between [r] and [t]. *)
Lemma rescale_moves_by_total (n s k t : Q) :
  0 <= n -> 0 <= s -> (n + s) * k == t -> 0 <= k ->
  Qabs (n * k - n) + Qabs (s * k - s) <= Qabs (t - (n + s)).
Proof.
  intros Hn Hs Hk Hk0.
  assert (n * k + s * k == t) as Hsum by (rewrite <- Hk; ring).
  destruct (Qlt_le_dec k 1) as [Hlt | Hge].
  - assert (n * k <= n) by nra. assert (s * k <= s) by nra.
    rewrite (Qabs_neg (n * k - n)), (Qabs_neg (s * k - s)), (Qabs_neg (t - (n + s))); lra.
  - assert (n <= n * k) by nra. assert (s <= s * k) by nra.
    rewrite (Qabs_pos (n * k - n)), (Qabs_pos (s * k - s)), (Qabs_pos (t - (n + s))); lra.
Qed.

(** The step (+0.05, 0) changes a valid player by at most 0.15 in L1. *)
Lemma smallest_step_within_reach (p p' : MatchupParams) :
  ServeMix_valid (serve_mix (player_a p)) = true ->
  RallyStyleMix_valid (rally_style (player_a p)) = true ->
  tolerance <= neutral (rally_style (player_a p)) + safe (rally_style (player_a p)) ->
  with_adjustments p (5 # 100) 0 = Some p' ->
  l1_change_from p' p <= 15 # 100.
Proof.
  intros Hsm Hrs Hr Hadj.
  destruct (with_adjustments_preserves_simplex p (5 # 100) 0 Hrs Hr)
    as (q & Hq & _ & _ & _ & _ & En & Es & _ & _ & Eshort & Eflick & Eattack).
  rewrite Hadj in Hq. injection Hq as <-.
  apply ServeMix_valid_iff in Hsm as ([Hs0 Hs1] & [Hf0 Hf1] & [Ht0 Ht1]).
  apply RallyStyleMix_valid_iff in Hrs as ([Ha0 Ha1] & [Hn0 Hn1] & [Hc0 Hc1] & [Hu0 Hu1]).
  unfold tolerance in *. unfold l1_change_from.
  pose proof (short_step_small (short (serve_mix (player_a p))) Hs0 Hs1) as B1.
  pose proof (attack_clamp_small (attack (rally_style (player_a p))) Ha0 Ha1) as B3.
  rewrite <- Eshort in B1. rewrite <- Eattack in B3.
  set (sh' := short (serve_mix (player_a p'))) in *.
  set (at' := attack (rally_style (player_a p'))) in *.
  set (sh := short (serve_mix (player_a p))) in *.
  set (fl := flick (serve_mix (player_a p))) in *.
  set (a := attack (rally_style (player_a p))) in *.
  set (n := neutral (rally_style (player_a p))) in *.
  set (s := safe (rally_style (player_a p))) in *.
  assert (Qabs (flick (serve_mix (player_a p')) - fl) <= (5 # 100) + (1 # 1000000)) as B2.
  { rewrite Eflick. apply Qabs_Qle_condition in B1.
    apply Qabs_Qle_condition. split; lra. }
  assert (~ n + s == 0) as Hne by lra.
  assert (1 # 100 <= at' /\ at' <= 98 # 100) as [Hat0 Hat1].
  { rewrite Eattack. apply clamp_bounds. lra. }
  assert (Qabs (neutral (rally_style (player_a p')) - n)
          + Qabs (safe (rally_style (player_a p')) - s) <= (2 # 100) + (1 # 1000000)) as B4.
  { rewrite En, Es.
    assert (0 <= (1 - at') / (n + s)) as Hk0 by (apply Qle_shift_div_l; lra).
    assert ((n + s) * ((1 - at') / (n + s)) == 1 - at') as Hk by (field; exact Hne).
    pose proof (rescale_moves_by_total n s ((1 - at') / (n + s)) (1 - at') Hn0 Hc0 Hk Hk0)
      as Hmove.
    apply Qabs_Qle_condition in B3.
    assert (Qabs (1 - at' - (n + s)) <= (2 # 100) + (1 # 1000000)) as Hd.
    { apply Qabs_Qle_condition. split; lra. }
    lra. }
  lra.
Qed.

(** With a bound of at least 0.15, and so with the default 0.3, some
    candidate always passes the filter. *)
Lemma generate_candidates_nonempty (p : MatchupParams) (l1_bound : Q)
    (generated : list candidate) :
  ServeMix_valid (serve_mix (player_a p)) = true ->
  RallyStyleMix_valid (rally_style (player_a p)) = true ->
  tolerance <= neutral (rally_style (player_a p)) + safe (rally_style (player_a p)) ->
  15 # 100 <= l1_bound ->
  _generate_candidates p l1_bound = Some generated ->
  generated <> [].
Proof.
  intros Hsm Hrs Hr Hb. unfold _generate_candidates.
  destruct (mapM (consider p l1_bound) grid) as [considered|] eqn:Em; [|discriminate].
  cbn. intros [= <-]. rewrite stable_sort_nil.
  apply mapM_Some in Em.
  assert (grid !! 27%nat = Some (5 # 100, 0)) as Hstep by reflexivity.
  destruct (Forall2_lookup_l _ _ _ _ _ Em Hstep) as (oc & Hoc & Hcons).
  unfold consider in Hcons. cbn [fst snd] in Hcons.
  destruct (with_adjustments p (5 # 100) 0) as [p'|] eqn:Ea; [|discriminate].
  cbn in Hcons.
  pose proof (smallest_step_within_reach p p' Hsm Hrs Hr Ea) as Hl1.
  assert (Qle_bool (l1_change_from p' p) (l1_bound + (1 # 1000000000)) = true) as Hle
    by (apply Qle_bool_iff; lra).
  rewrite Hle in Hcons. injection Hcons as <-.
  intros Hnil.
  apply list_elem_of_lookup_2 in Hoc.
  assert ({| cand_serve_short_delta := 5 # 100; cand_attack_delta := 0;
             cand_l1 := l1_change_from p' p |}
          ∈ omap (fun kept : option candidate => kept) considered) as Hin.
  { apply list_elem_of_omap. eexists. split; [exact Hoc | reflexivity]. }
  rewrite Hnil in Hin. now apply not_elem_of_nil in Hin.
Qed.

(** Away from the degenerate corner the generation never raises. *)
Lemma generate_candidates_succeeds (p : MatchupParams) (l1_bound : Q) :
  RallyStyleMix_valid (rally_style (player_a p)) = true ->
  tolerance <= neutral (rally_style (player_a p)) + safe (rally_style (player_a p)) ->
  exists generated, _generate_candidates p l1_bound = Some generated.
Proof.
  intros Hrs Hr. unfold _generate_candidates.
  destruct (mapM_is_Some_2 (consider p l1_bound) grid) as [considered ->].
  - apply Forall_forall. intros step _. unfold consider, compose.
    destruct (with_adjustments_preserves_simplex p (fst step) (snd step) Hrs Hr)
      as (p' & -> & _).
    cbn. eauto.
  - cbn. eauto.
Qed.

End CandidatesExist.

(** ** coach/service.py: the strategy operation *)

Section StrategyClaims.
Import Params Service.
Local Open Scope string_scope.

Definition sample_player (id name' : string) : PlayerParams :=
  {| player_id := id; name := name';
     base_srv_win := 57 # 100; base_rcv_win := 52 # 100;
     serve_mix := {| short := 65 # 100; flick := 35 # 100 |};
     rally_style := {| attack := 5 # 10; neutral := 3 # 10; safe := 2 # 10 |};
     sample_matches := 20 |}.

(** The matchup of the repository's parameter test. *)
Definition sample_matchup : MatchupParams :=
  {| player_a := sample_player "a" "Player A"; player_b := sample_player "b" "Player B";
     weights := {| w_short := 4 # 100; w_attack := 6 # 100; w_safe := 5 # 100 |};
     target := 21; cap := 30; best_of := 3 |}.

Definition sample_config : CoachConfig :=
  {| pat_console_path := Some "/opt/pat/PAT3.Console.exe"; pat_use_mono := None;
     mono_path := "mono"; pat_timeout_s := 120; runs_dir := "runs" |}.

Definition engine_answering (rc : Z) (stderr : string) (out : Runner.out_file)
  : Runner.engine :=
  {| Runner.primary_run := Runner.Completed rc "" stderr;
     Runner.out_after_primary := out;
     Runner.shim := Runner.McsNotFound; Runner.compat_run := Runner.NotFound "";
     Runner.out_after_compat := Runner.Missing; Runner.mock_value := 6 # 10 |}.

(** A real engine that fails on the first candidate and answers for the
    baseline and for every other candidate. *)
Definition flaky_world : world :=
  {| config := sample_config; host := host_with_console;
     baseline_engine := engine_answering 0 "" (Runner.Content "Probability = 0.6");
     candidate_engine := fun i =>
       if (i =? 1)%Z then engine_answering 1 "engine crashed" Runner.Missing
       else engine_answering 0 "" (Runner.Content "with prob 0.7") |}.

(** The mock engine. *)
Definition mock_world : world :=
  {| config := sample_config; host := host_with_console;
     baseline_engine := engine_answering 0 "" Runner.Missing;
     candidate_engine := fun _ => engine_answering 0 "" Runner.Missing |}.






End StrategyClaims.

(** ** coach/utils.py and coach/model/params.py: further properties *)

Section ClampShape.
Import Utils.

(** X1. [clamp] is monotone in its value, idempotent, and leaves no value
    outside the interval; with inverted bounds ([high < low]) it returns
    [low] whatever the value. *)
Theorem clamp_monotone_idempotent (low high : Q) :
  (forall v v', v <= v' -> clamp v low high <= clamp v' low high) /\
  (forall v, clamp (clamp v low high) low high == clamp v low high) /\
  (forall v, low <= clamp v low high) /\
  (forall v, high < low -> clamp v low high == low).
Proof.
  unfold clamp. repeat split.
  - intros v v' Hv.
    destruct (py_min_spec high v) as [[H1 ->] | [H1 ->]];
      destruct (py_min_spec high v') as [[H2 ->] | [H2 ->]];
      destruct (py_max_spec low v) as [[H3 E3] | [H3 E3]];
      destruct (py_max_spec low v') as [[H4 E4] | [H4 E4]];
      destruct (py_max_spec low high) as [[H5 E5] | [H5 E5]];
      rewrite ?E3, ?E4, ?E5; lra.
  - intros v.
    destruct (py_min_spec high v) as [[H1 ->] | [H1 ->]].
    + destruct (py_max_spec low v) as [[H3 ->] | [H3 ->]].
      * destruct (py_min_spec high v) as [[H2 ->] | [H2 ->]]; [|lra].
        destruct (py_max_spec low v) as [[H4 ->] | [H4 ->]]; lra.
      * destruct (py_min_spec high low) as [[H2 ->] | [H2 ->]].
        -- destruct (py_max_spec low low) as [[H4 ->] | [H4 ->]]; lra.
        -- destruct (py_max_spec low high) as [[H4 ->] | [H4 ->]]; lra.
    + destruct (py_max_spec low high) as [[H3 ->] | [H3 ->]].
      * destruct (py_min_spec high high) as [[H2 ->] | [H2 ->]]; [lra|].
        destruct (py_max_spec low high) as [[H4 ->] | [H4 ->]]; lra.
      * destruct (py_min_spec high low) as [[H2 ->] | [H2 ->]].
        -- destruct (py_max_spec low low) as [[H4 ->] | [H4 ->]]; lra.
        -- destruct (py_max_spec low high) as [[H4 ->] | [H4 ->]]; lra.
  - intros v.
    destruct (py_max_spec low (py_min high v)) as [[H ->] | [H ->]]; lra.
  - intros v Hinv.
    destruct (py_min_spec high v) as [[H1 E1] | [H1 E1]]; rewrite E1;
      [destruct (py_max_spec low v) as [[H3 ->] | [H3 ->]]
      |destruct (py_max_spec low high) as [[H3 ->] | [H3 ->]]]; lra.
Qed.

End ClampShape.

Section AdjustmentInvariants.
Import Utils Params.

(** X2. Whenever [with_adjustments] returns, the instance it returns
    passes every validator of [MatchupParams] again; only the two mixes of
    player A differ from the original: the short share lies in
    [0.01, 0.99] with flick its complement, the attack share lies in
    [0.01, 0.98], and neutral and safe keep their old proportion. *)
Theorem with_adjustments_returns_valid_params
    (p p' : MatchupParams) (serve_short_delta attack_delta : Q) :
  MatchupParams_valid p = true ->
  with_adjustments p serve_short_delta attack_delta = Some p' ->
  MatchupParams_valid p' = true /\
  player_b p' = player_b p /\ weights p' = weights p /\
  target p' = target p /\ cap p' = cap p /\ best_of p' = best_of p /\
  player_id (player_a p') = player_id (player_a p) /\
  name (player_a p') = name (player_a p) /\
  base_srv_win (player_a p') = base_srv_win (player_a p) /\
  base_rcv_win (player_a p') = base_rcv_win (player_a p) /\
  sample_matches (player_a p') = sample_matches (player_a p) /\
  (1 # 100 <= short (serve_mix (player_a p')) /\
   short (serve_mix (player_a p')) <= 99 # 100) /\
  flick (serve_mix (player_a p')) = 1 - short (serve_mix (player_a p')) /\
  (1 # 100 <= attack (rally_style (player_a p')) /\
   attack (rally_style (player_a p')) <= 98 # 100) /\
  neutral (rally_style (player_a p')) * safe (rally_style (player_a p))
    == safe (rally_style (player_a p')) * neutral (rally_style (player_a p)).
Proof.
  intros Hv H. unfold with_adjustments in H.
  rewrite new_serve_mix_accepted in H. cbn [mbind option_bind] in H.
  destruct (new_RallyStyleMix _ _ _) as [rs|] eqn:Hrs in H; [|discriminate].
  cbn [mbind option_bind] in H. injection H as <-.
  unfold new_RallyStyleMix in Hrs.
  destruct (RallyStyleMix_valid _) eqn:Hrv in Hrs; [|discriminate].
  injection Hrs as <-.
  destruct (clamp_bounds (short (serve_mix (player_a p)) + serve_short_delta)
              (1 # 100) (99 # 100)) as [Hs1 Hs2]; [lra|].
  destruct (clamp_bounds (attack (rally_style (player_a p)) + attack_delta)
              (1 # 100) (98 # 100)) as [Ha1 Ha2]; [lra|].
  cbn [player_a player_b weights target cap best_of update_player_a update_mixes
       player_id name base_srv_win base_rcv_win sample_matches serve_mix
       rally_style short flick attack neutral safe].
  split; [|repeat split; try assumption].
  - unfold MatchupParams_valid, PlayerParams_valid in Hv |- *.
    repeat (apply andb_prop in Hv; destruct Hv as [Hv ?]).
    cbn [player_a player_b weights target cap best_of update_player_a update_mixes
         player_id name base_srv_win base_rcv_win sample_matches serve_mix
         rally_style].
    match goal with
    | |- context [ServeMix_valid ?m] =>
        assert (ServeMix_valid m = true) as Hsm
    end.
    { apply ServeMix_valid_iff. cbn [short flick]. unfold tolerance.
      repeat split; lra. }
    repeat match goal with
           | E : _ = true |- _ => rewrite E; clear E
           end.
    reflexivity.
  - set (r := py_max _ _).
    assert (0 < r) as Hr.
    { unfold r.
      destruct (py_max_spec (neutral (rally_style (player_a p))
                             + safe (rally_style (player_a p))) tolerance)
        as [[H1 ->] | [H1 ->]]; unfold tolerance in *; lra. }
    field. lra.
Qed.

Lemma with_adjustments_returns_valid_params_witness :
  exists p',
    with_adjustments sample_matchup (5 # 100) (- (10 # 100)) = Some p' /\
    MatchupParams_valid p' = true.
Proof.
  destruct (with_adjustments sample_matchup (5 # 100) (- (10 # 100))) as [p'|] eqn:E;
    [|vm_compute in E; discriminate E].
  exists p'. split; [reflexivity|].
  apply (with_adjustments_returns_valid_params sample_matchup p'
           (5 # 100) (- (10 # 100))); [vm_compute; reflexivity | exact E].
Defined.

(** X3. [l1_change_from] is a distance on the two mixes of player A: it is
    0 between an instance and itself, symmetric, never negative, obeys the
    triangle inequality, and is 0 only when all five shares agree. *)
Theorem l1_change_from_is_a_distance :
  (forall p, l1_change_from p p == 0) /\
  (forall p q, l1_change_from p q == l1_change_from q p) /\
  (forall p q, 0 <= l1_change_from p q) /\
  (forall p q r, l1_change_from p r <= l1_change_from p q + l1_change_from q r) /\
  (forall p q, l1_change_from p q == 0 ->
     short (serve_mix (player_a p)) == short (serve_mix (player_a q)) /\
     flick (serve_mix (player_a p)) == flick (serve_mix (player_a q)) /\
     attack (rally_style (player_a p)) == attack (rally_style (player_a q)) /\
     neutral (rally_style (player_a p)) == neutral (rally_style (player_a q)) /\
     safe (rally_style (player_a p)) == safe (rally_style (player_a q))).
Proof.
  unfold l1_change_from. repeat split.
  - intros p.
    assert (forall x : Q, Qabs (x - x) == 0) as E.
    { intros x. assert (x - x == 0) as -> by ring. reflexivity. }
    rewrite !E. ring.
  - intros p q.
    rewrite (Qabs_Qminus (short _)), (Qabs_Qminus (flick _)),
      (Qabs_Qminus (attack _)), (Qabs_Qminus (neutral _)), (Qabs_Qminus (safe _)).
    reflexivity.
  - intros p q.
    repeat match goal with
           | |- context [Qabs ?x] =>
               lazymatch goal with
               | _ : 0 <= Qabs x |- _ => fail
               | _ => pose proof (Qabs_nonneg x)
               end
           end.
    lra.
  - intros p q r.
    assert (forall x y z : Q, Qabs (x - z) <= Qabs (x - y) + Qabs (y - z)) as T.
    { intros x y z. assert (x - z == (x - y) + (y - z)) as -> by ring.
      apply Qabs_triangle. }
    pose proof (T (short (serve_mix (player_a p))) (short (serve_mix (player_a q)))
                  (short (serve_mix (player_a r)))).
    pose proof (T (flick (serve_mix (player_a p))) (flick (serve_mix (player_a q)))
                  (flick (serve_mix (player_a r)))).
    pose proof (T (attack (rally_style (player_a p))) (attack (rally_style (player_a q)))
                  (attack (rally_style (player_a r)))).
    pose proof (T (neutral (rally_style (player_a p))) (neutral (rally_style (player_a q)))
                  (neutral (rally_style (player_a r)))).
    pose proof (T (safe (rally_style (player_a p))) (safe (rally_style (player_a q)))
                  (safe (rally_style (player_a r)))).
    lra.
  - pose proof (Qabs_nonneg (short (serve_mix (player_a p)) - short (serve_mix (player_a q)))).
    pose proof (Qabs_nonneg (flick (serve_mix (player_a p)) - flick (serve_mix (player_a q)))).
    pose proof (Qabs_nonneg (attack (rally_style (player_a p)) - attack (rally_style (player_a q)))).
    pose proof (Qabs_nonneg (neutral (rally_style (player_a p)) - neutral (rally_style (player_a q)))).
    pose proof (Qabs_nonneg (safe (rally_style (player_a p)) - safe (rally_style (player_a q)))).
    assert (Qabs (short (serve_mix (player_a p)) - short (serve_mix (player_a q))) <= 0) as E by lra.
    apply Qabs_Qle_condition in E. lra.
  - pose proof (Qabs_nonneg (short (serve_mix (player_a p)) - short (serve_mix (player_a q)))).
    pose proof (Qabs_nonneg (flick (serve_mix (player_a p)) - flick (serve_mix (player_a q)))).
    pose proof (Qabs_nonneg (attack (rally_style (player_a p)) - attack (rally_style (player_a q)))).
    pose proof (Qabs_nonneg (neutral (rally_style (player_a p)) - neutral (rally_style (player_a q)))).
    pose proof (Qabs_nonneg (safe (rally_style (player_a p)) - safe (rally_style (player_a q)))).
    assert (Qabs (flick (serve_mix (player_a p)) - flick (serve_mix (player_a q))) <= 0) as E by lra.
    apply Qabs_Qle_condition in E. lra.
  - pose proof (Qabs_nonneg (short (serve_mix (player_a p)) - short (serve_mix (player_a q)))).
    pose proof (Qabs_nonneg (flick (serve_mix (player_a p)) - flick (serve_mix (player_a q)))).
    pose proof (Qabs_nonneg (attack (rally_style (player_a p)) - attack (rally_style (player_a q)))).
    pose proof (Qabs_nonneg (neutral (rally_style (player_a p)) - neutral (rally_style (player_a q)))).
    pose proof (Qabs_nonneg (safe (rally_style (player_a p)) - safe (rally_style (player_a q)))).
    assert (Qabs (attack (rally_style (player_a p)) - attack (rally_style (player_a q))) <= 0) as E by lra.
    apply Qabs_Qle_condition in E. lra.
  - pose proof (Qabs_nonneg (short (serve_mix (player_a p)) - short (serve_mix (player_a q)))).
    pose proof (Qabs_nonneg (flick (serve_mix (player_a p)) - flick (serve_mix (player_a q)))).
    pose proof (Qabs_nonneg (attack (rally_style (player_a p)) - attack (rally_style (player_a q)))).
    pose proof (Qabs_nonneg (neutral (rally_style (player_a p)) - neutral (rally_style (player_a q)))).
    pose proof (Qabs_nonneg (safe (rally_style (player_a p)) - safe (rally_style (player_a q)))).
    assert (Qabs (neutral (rally_style (player_a p)) - neutral (rally_style (player_a q))) <= 0) as E by lra.
    apply Qabs_Qle_condition in E. lra.
  - pose proof (Qabs_nonneg (short (serve_mix (player_a p)) - short (serve_mix (player_a q)))).
    pose proof (Qabs_nonneg (flick (serve_mix (player_a p)) - flick (serve_mix (player_a q)))).
    pose proof (Qabs_nonneg (attack (rally_style (player_a p)) - attack (rally_style (player_a q)))).
    pose proof (Qabs_nonneg (neutral (rally_style (player_a p)) - neutral (rally_style (player_a q)))).
    pose proof (Qabs_nonneg (safe (rally_style (player_a p)) - safe (rally_style (player_a q)))).
    assert (Qabs (safe (rally_style (player_a p)) - safe (rally_style (player_a q))) <= 0) as E by lra.
    apply Qabs_Qle_condition in E. lra.
Qed.

End AdjustmentInvariants.

Section ContextWeights.
Import Utils Params TemplateContext.

(** [round] never leaves an interval with integer ends. *)
Lemma py_round_between (x : Q) (a b : Z) :
  inject_Z a <= x -> x <= inject_Z b -> (a <= py_round x <= b)%Z.
Proof.
  intros Ha Hb.
  pose proof (Qfloor_le x) as Hf.
  pose proof (Qlt_floor x) as Hf'.
  assert (a <= Qfloor x)%Z as Hfa.
  { rewrite <- (Qfloor_Z a). apply Qfloor_resp_le. exact Ha. }
  assert (Qfloor x <= b)%Z as Hfb.
  { rewrite <- (Qfloor_Z b). apply Qfloor_resp_le. exact Hb. }
  unfold py_round.
  destruct (Qcompare (x - inject_Z (Qfloor x)) (1 # 2)) eqn:E.
  - apply Qeq_alt in E.
    destruct (Z.even (Qfloor x)); [lia|].
    destruct (Z.eq_dec (Qfloor x) b) as [Eb|Nb]; [|lia].
    rewrite Eb in E. lra.
  - lia.
  - apply Qgt_alt in E.
    destruct (Z.eq_dec (Qfloor x) b) as [Eb|Nb]; [|lia].
    rewrite Eb in E. lra.
Qed.

(** [round] is within one half of its argument. *)
Lemma py_round_close (x : Q) :
  x - (1 # 2) <= inject_Z (py_round x) /\ inject_Z (py_round x) <= x + (1 # 2).
Proof.
  pose proof (Qfloor_le x) as Hf.
  pose proof (Qlt_floor x) as Hf'.
  rewrite inject_Z_plus in Hf'. change (inject_Z 1) with 1 in Hf'.
  unfold py_round.
  destruct (Qcompare (x - inject_Z (Qfloor x)) (1 # 2)) eqn:E.
  - apply Qeq_alt in E.
    destruct (Z.even (Qfloor x)); rewrite ?inject_Z_plus;
      change (inject_Z 1) with 1; split; lra.
  - apply Qlt_alt in E. split; lra.
  - apply Qgt_alt in E. rewrite inject_Z_plus. change (inject_Z 1) with 1. split; lra.
Qed.

(** X4. Each of the four integer weights of the template context lies
    between 100 and 9900: no branch of the weighted choice has weight 0 or
    a negative weight, and each weight is within one half of 10000 times
    the effective probability it stands for. *)
Theorem template_weights_positive (p : MatchupParams) :
  exists srv_win srv_lose rcv_win rcv_lose : Z,
    to_template_context p !! "pA_srv_win_w" = Some (CInt srv_win) /\
    to_template_context p !! "pA_srv_lose_w" = Some (CInt srv_lose) /\
    to_template_context p !! "pA_rcv_win_w" = Some (CInt rcv_win) /\
    to_template_context p !! "pA_rcv_lose_w" = Some (CInt rcv_lose) /\
    (100 <= srv_win <= 9900)%Z /\ (100 <= srv_lose <= 9900)%Z /\
    (100 <= rcv_win <= 9900)%Z /\ (100 <= rcv_lose <= 9900)%Z /\
    Qabs (inject_Z srv_win - pA_srv_win (effective_probabilities p) * 10000) <= 1 # 2 /\
    Qabs (inject_Z rcv_win - pA_rcv_win (effective_probabilities p) * 10000) <= 1 # 2.
Proof.
  eexists _, _, _, _.
  unfold to_template_context. cbn [list_to_map foldr].
  do 4 (split; [reflexivity|]).
  set (e := effective_probabilities p).
  assert (1 # 100 <= pA_srv_win e /\ pA_srv_win e <= 99 # 100) as [Hs1 Hs2].
  { unfold e, effective_probabilities. cbn [pA_srv_win]. apply clamp_default_bounds. }
  assert (1 # 100 <= pA_rcv_win e /\ pA_rcv_win e <= 99 # 100) as [Hr1 Hr2].
  { unfold e, effective_probabilities. cbn [pA_rcv_win]. apply clamp_default_bounds. }
  unfold scale.
  assert (100 <= py_round (pA_srv_win e * inject_Z 10000) <= 9900)%Z as Hs.
  { apply py_round_between.
    - change (inject_Z 100) with (100 # 1). change (inject_Z 10000) with (10000 # 1). lra.
    - change (inject_Z 9900) with (9900 # 1). change (inject_Z 10000) with (10000 # 1). lra. }
  assert (100 <= py_round (pA_rcv_win e * inject_Z 10000) <= 9900)%Z as Hr.
  { apply py_round_between.
    - change (inject_Z 100) with (100 # 1). change (inject_Z 10000) with (10000 # 1). lra.
    - change (inject_Z 9900) with (9900 # 1). change (inject_Z 10000) with (10000 # 1). lra. }
  repeat split; try lia.
  - apply Qabs_Qle_condition.
    destruct (py_round_close (pA_srv_win e * inject_Z 10000)) as [H1 H2].
    change (inject_Z 10000) with (10000 # 1) in *. split; lra.
  - apply Qabs_Qle_condition.
    destruct (py_round_close (pA_rcv_win e * inject_Z 10000)) as [H1 H2].
    change (inject_Z 10000) with (10000 # 1) in *. split; lra.
Qed.

End ContextWeights.

(** ** coach/pat/runner.py: the compatibility fallback and the attempt logs *)

Section FallbackExtras.
Import Text Parser Runner.
Local Open Scope string_scope.

(** What [_should_try_pat3_mono_compat_fallback] asks for. *)
Lemma should_try_conditions (console : console_path) (mono : bool)
    (so se : string) (out : out_file) :
  _should_try_pat3_mono_compat_fallback console mono so se out = true ->
  mono = true /\ out = Missing /\
  is_in "pat3.console" (lower_string (file_name console)) = true /\
  is_in "for all modules except uml:" (lower_string (so +:+ nl +:+ se)) = true /\
  is_in "invalid arguments." (lower_string (so +:+ nl +:+ se)) = true.
Proof.
  unfold _should_try_pat3_mono_compat_fallback.
  destruct mono; cbn [negb]; [|discriminate].
  destruct out; cbn [file_exists]; try discriminate.
  destruct (is_in "pat3.console" _); cbn [negb]; [|discriminate].
  cbv zeta. intros H.
  apply andb_prop in H as [H1 H2]. apply andb_prop in H2 as [H2 _].
  now repeat split.
Qed.

(** The attempts after the primary one: none, or the one compatibility
    run, which needs the conditions of the fallback, a compiled shim and
    a compatibility process that completed. *)
Lemma run_fallback_cases (h : host) (e : engine) (inv : invocation)
    (console : console_path) (mono : bool) (so se : string)
    (d : gmap string artifact) :
  let fb := run_fallback h e inv console mono so se d in
  later_attempts fb = [] \/
  (mono = true /\ out_after_primary e = Missing /\
   is_in "pat3.console" (lower_string (file_name console)) = true /\
   exists so1 se1 rc' so' se',
     shim e = McsFinished 0 so1 se1 /\
     compat_run e = Completed rc' so' se' /\
     later_attempts fb =
       [{| attempt_cmd :=
             _build_pat_command h
               (path_join (path_join (run_dir inv) "pat3_mono_compat_runtime")
                  (file_name console))
               (pcsp_path inv) (out_path inv) true;
           attempt_returncode := rc'; attempt_stdout := so'; attempt_stderr := se' |}] /\
     fallback_error fb = None /\
     out_final fb = out_after_compat e).
Proof.
  cbv zeta. unfold run_fallback.
  destruct (_should_try_pat3_mono_compat_fallback _ _ _ _ _) eqn:Et; [|now left].
  apply should_try_conditions in Et as (-> & Hout & Hname & _).
  unfold _prepare_pat3_mono_compat_runtime.
  destruct (shim e) as [m | | rc1 so1 se1] eqn:Es; try now left.
  destruct (rc1 =? 0)%Z eqn:Erc; cbn [negb]; [|now left].
  apply Z.eqb_eq in Erc. subst rc1.
  destruct (compat_run e) as [rc' so' se' | m | so' se' m | m] eqn:Ec; try now left.
  right. split; [reflexivity|]. split; [exact Hout|]. split; [exact Hname|].
  exists so1, se1, rc', so', se'. now repeat split.
Qed.

(** X5. The compatibility fallback runs at most once, and only after a
    primary attempt that completed: a run that completed reports one or
    two attempts; it reports two exactly when the fallback was applied,
    which needs Mono, a PAT3 console, no output file after the primary
    attempt, a shim that compiled and a compatibility process that
    completed, and then the return code and the command of the result
    are those of the compatibility run.  A primary attempt that cannot be
    started or that times out is not retried. *)
Theorem fallback_runs_at_most_once (h : host) (e : engine) (inv : invocation)
    (console : console_path) (out_before : out_file) (d : gmap string artifact) :
  reaches_execution h inv console ->
  let mono := _resolve_use_mono (use_mono inv) console in
  let base_cmd :=
    _build_pat_command h (full_path console) (pcsp_path inv) (out_path inv) mono in
  match primary_run e with
  | Completed rc so se =>
      exists p metas,
        result (run_pat h e inv out_before d) = Returned p /\
        attempts p = Some metas /\
        ((length metas = 1%nat /\ fallback_applied p = Some false /\
          returncode p = rc /\ cmd p = base_cmd)
         \/
         (length metas = 2%nat /\ fallback_applied p = Some true /\
          mono = true /\ out_after_primary e = Missing /\
          is_in "pat3.console" (lower_string (file_name console)) = true /\
          exists so1 se1 rc' so' se',
            shim e = McsFinished 0 so1 se1 /\
            compat_run e = Completed rc' so' se' /\
            returncode p = rc' /\
            cmd p =
              _build_pat_command h
                (path_join (path_join (run_dir inv) "pat3_mono_compat_runtime")
                   (file_name console))
                (pcsp_path inv) (out_path inv) true /\
            out_file_after (run_pat h e inv out_before d) = out_after_compat e))
  | NotFound _ | TimedOut _ _ _ =>
      exists p,
        result (run_pat h e inv out_before d) = Returned p /\
        attempts p = None /\ fallback_applied p = None /\ cmd p = base_cmd /\
        out_file_after (run_pat h e inv out_before d) = out_after_primary e
  | OtherError message =>
      result (run_pat h e inv out_before d) = Raised (OSError message)
  end.
Proof.
  intros Hreach mono base_cmd.
  rewrite (run_pat_executes h e inv console out_before d Hreach).
  fold mono. fold base_cmd.
  destruct (primary_run e) as [rc so se | m | so se m | m].
  - unfold run_completed. cbn [attempt_stdout attempt_stderr].
    destruct (run_fallback_cases h e inv console mono so se d) as [Hnone | Hone].
    + set (fb := run_fallback h e inv console mono so se d) in *.
      rewrite Hnone. cbn [_write_attempt_logs selected_attempt last default].
      destruct (classify _ _) as [me pr].
      eexists _, _. split; [reflexivity|]. split; [reflexivity|].
      left. now repeat split.
    + destruct Hone as (Hm & Hout & Hname & so1 & se1 & rc' & so' & se' &
                        Hs & Hc & Hl & _ & Hf).
      set (fb := run_fallback h e inv console mono so se d) in *.
      rewrite Hl. cbn [_write_attempt_logs selected_attempt last default].
      destruct (classify _ _) as [me pr].
      eexists _, _. split; [reflexivity|]. split; [reflexivity|].
      right. cbn [length fallback_applied returncode cmd attempt_returncode
                  attempt_cmd out_file_after].
      split; [reflexivity|]. split; [reflexivity|].
      split; [exact Hm|]. split; [exact Hout|]. split; [exact Hname|].
      exists so1, se1, rc', so', se'. now repeat split.
  - eexists. now repeat split.
  - eexists. now repeat split.
  - reflexivity.
Qed.


(** A console under Mono whose first run stops at the NESC start-up
    check and whose patched copy answers. *)
Definition engine_needing_shim : engine :=
  {| primary_run :=
       Completed 1
         ("Invalid arguments. Invalid image" +:+ nl
          +:+ "Usage: for all modules except UML: PAT3.Console.exe -pcsp input output") "";
     out_after_primary := Missing;
     shim := McsFinished 0 "" "";
     compat_run := Completed 0 "verification done" "";
     out_after_compat := Content "Probability = 0.6";
     mock_value := 1 # 2 |}.

Lemma fallback_runs_at_most_once_witness :
  exists p metas,
    result (run_pat host_with_console engine_needing_shim real_invocation Missing ∅)
      = Returned p /\
    attempts p = Some metas /\ length metas = 2%nat /\ returncode p = 0%Z.
Proof.
  assert (reaches_execution host_with_console real_invocation console_exe) as H.
  { repeat split; try reflexivity. now exists "/opt/pat/PAT3.Console.exe". }
  pose proof (fallback_runs_at_most_once host_with_console engine_needing_shim
                real_invocation console_exe Missing ∅ H) as T.
  cbv zeta in T. cbn [primary_run engine_needing_shim] in T.
  destruct T as (p & metas & Hres & Hat & [(Hl & Hfa & _) | (Hl & _ & _ & _ & _ & T)]).
  - exfalso. vm_compute in Hres. injection Hres as <-. discriminate Hfa.
  - destruct T as (so1 & se1 & rc' & so' & se' & _ & Hc & Hrc & _).
    exists p, metas. split; [exact Hres|]. split; [exact Hat|]. split; [exact Hl|].
    rewrite Hrc. cbn in Hc. now injection Hc as <- _ _.
Defined.

Ltac distinct_file :=
  let E := fresh in intros E; apply path_join_inj in E; discriminate E.

Lemma str_int_1 : str_int 1 = "1".
Proof. reflexivity. Qed.

Lemma str_int_2 : str_int 2 = "2".
Proof. reflexivity. Qed.

(** X6. Every attempt of a run that completed is kept: the payload lists
    the attempts numbered from 1, the first being the primary command
    with its exit code; for each attempt the stdout and the stderr are
    stored in pat_stdout_attempt<i>.txt and pat_stderr_attempt<i>.txt of
    the run directory; and the last attempt is the one whose exit code,
    command and streams the payload and pat_stdout.txt / pat_stderr.txt
    report. *)
Theorem attempt_logs_are_persisted (h : host) (e : engine) (inv : invocation)
    (console : console_path) (out_before : out_file) (d : gmap string artifact)
    (rc : Z) (so se : string) :
  reaches_execution h inv console ->
  primary_run e = Completed rc so se ->
  let r := run_pat h e inv out_before d in
  let stored (path content : string) := disk_after r !! path = Some (TextFile content) in
  exists p metas,
    result r = Returned p /\ attempts p = Some metas /\
    map meta_index metas = seqZ 1 (Z.of_nat (length metas)) /\
    (forall meta, meta ∈ metas ->
       meta_stdout_path meta
         = path_join (run_dir inv)
             ("pat_stdout_attempt" +:+ str_int (meta_index meta) +:+ ".txt") /\
       meta_stderr_path meta
         = path_join (run_dir inv)
             ("pat_stderr_attempt" +:+ str_int (meta_index meta) +:+ ".txt") /\
       exists so' se',
         stored (meta_stdout_path meta) so' /\ stored (meta_stderr_path meta) se') /\
    (exists first,
       head metas = Some first /\
       meta_cmd first
         = _build_pat_command h (full_path console) (pcsp_path inv) (out_path inv)
             (_resolve_use_mono (use_mono inv) console) /\
       meta_returncode first = rc /\
       stored (meta_stdout_path first) so /\ stored (meta_stderr_path first) se) /\
    (exists final so' se',
       last metas = Some final /\
       meta_cmd final = cmd p /\ meta_returncode final = returncode p /\
       stored (meta_stdout_path final) so' /\ stored (meta_stderr_path final) se' /\
       stored (stdout_path p) so' /\ stored (stderr_path p) se').
Proof.
  intros Hreach Hprim r stored. unfold stored, r.
  rewrite (run_pat_executes h e inv console out_before d Hreach), Hprim.
  unfold run_completed. cbn [attempt_stdout attempt_stderr].
  destruct (run_fallback_cases h e inv console (_resolve_use_mono (use_mono inv) console)
              so se d) as [Hnone | Hone].
  - set (fb := run_fallback h e inv console _ so se d) in *.
    rewrite Hnone. cbn [_write_attempt_logs selected_attempt last default].
    destruct (classify _ _) as [me pr].
    eexists _, _. split; [reflexivity|]. split; [reflexivity|].
    cbn [disk_after map meta_index length attempt_stdout attempt_stderr attempt_cmd
         attempt_returncode stdout_path stderr_path cmd returncode].
    unfold _write_summary, write. rewrite !str_int_1. cbn [String.app].
    split; [reflexivity|]. split; [|split].
    + intros meta Hin. apply list_elem_of_singleton in Hin. subst meta.
      cbn [meta_stdout_path meta_stderr_path meta_index]. rewrite !str_int_1.
      cbn [String.app]. split; [reflexivity|]. split; [reflexivity|].
      exists so, se. split.
      * rewrite !lookup_insert_ne by distinct_file. apply lookup_insert_eq.
      * rewrite !lookup_insert_ne by distinct_file. apply lookup_insert_eq.
    + eexists. split; [reflexivity|].
      cbn [meta_cmd meta_returncode meta_stdout_path meta_stderr_path].
      split; [reflexivity|]. split; [reflexivity|]. split.
      * rewrite !lookup_insert_ne by distinct_file. apply lookup_insert_eq.
      * rewrite !lookup_insert_ne by distinct_file. apply lookup_insert_eq.
    + eexists _, so, se. split; [reflexivity|].
      cbn [meta_cmd meta_returncode meta_stdout_path meta_stderr_path].
      split; [reflexivity|]. split; [reflexivity|]. repeat split.
      * rewrite !lookup_insert_ne by distinct_file. apply lookup_insert_eq.
      * rewrite !lookup_insert_ne by distinct_file. apply lookup_insert_eq.
      * rewrite !lookup_insert_ne by distinct_file. apply lookup_insert_eq.
      * rewrite !lookup_insert_ne by distinct_file. apply lookup_insert_eq.
  - destruct Hone as (_ & _ & _ & so1 & se1 & rc' & so' & se' & _ & _ & Hl & _ & _).
    set (fb := run_fallback h e inv console _ so se d) in *.
    rewrite Hl. cbn [_write_attempt_logs selected_attempt last default].
    destruct (classify _ _) as [me pr].
    eexists _, _. split; [reflexivity|]. split; [reflexivity|].
    cbn [disk_after map meta_index length attempt_stdout attempt_stderr attempt_cmd
         attempt_returncode stdout_path stderr_path cmd returncode].
    unfold _write_summary, write.
    change (1 + 1)%Z with 2%Z. rewrite !str_int_1, !str_int_2. cbn [String.app].
    split; [reflexivity|]. split; [|split].
    + intros meta Hin. apply elem_of_cons in Hin as [-> | Hin];
        [|apply list_elem_of_singleton in Hin; subst meta];
        cbn [meta_stdout_path meta_stderr_path meta_index];
        rewrite ?str_int_1, ?str_int_2; cbn [String.app];
        (split; [reflexivity|]); (split; [reflexivity|]).
      * exists so, se. split.
        -- rewrite !lookup_insert_ne by distinct_file. apply lookup_insert_eq.
        -- rewrite !lookup_insert_ne by distinct_file. apply lookup_insert_eq.
      * exists so', se'. split.
        -- rewrite !lookup_insert_ne by distinct_file. apply lookup_insert_eq.
        -- rewrite !lookup_insert_ne by distinct_file. apply lookup_insert_eq.
    + eexists. split; [reflexivity|].
      cbn [meta_cmd meta_returncode meta_stdout_path meta_stderr_path].
      split; [reflexivity|]. split; [reflexivity|]. split.
      * rewrite !lookup_insert_ne by distinct_file. apply lookup_insert_eq.
      * rewrite !lookup_insert_ne by distinct_file. apply lookup_insert_eq.
    + eexists _, so', se'. split; [reflexivity|].
      cbn [meta_cmd meta_returncode meta_stdout_path meta_stderr_path].
      split; [reflexivity|]. split; [reflexivity|]. repeat split.
      * rewrite !lookup_insert_ne by distinct_file. apply lookup_insert_eq.
      * rewrite !lookup_insert_ne by distinct_file. apply lookup_insert_eq.
      * rewrite !lookup_insert_ne by distinct_file. apply lookup_insert_eq.
      * rewrite !lookup_insert_ne by distinct_file. apply lookup_insert_eq.
Qed.

Lemma attempt_logs_are_persisted_witness :
  exists p metas,
    result (run_pat host_with_console engine_needing_shim real_invocation Missing ∅)
      = Returned p /\
    attempts p = Some metas /\
    map meta_index metas = seqZ 1 (Z.of_nat (length metas)).
Proof.
  assert (reaches_execution host_with_console real_invocation console_exe) as H.
  { repeat split; try reflexivity. now exists "/opt/pat/PAT3.Console.exe". }
  destruct (attempt_logs_are_persisted host_with_console engine_needing_shim
              real_invocation console_exe Missing ∅ _ _ _ H eq_refl)
    as (p & metas & Hres & Hat & Hidx & _).
  now exists p, metas.
Defined.


Lemma string_app_assoc (a b c : string) : (a +:+ b) +:+ c = a +:+ (b +:+ c).
Proof.
  induction a as [|x a IH]; [reflexivity|].
  change (String x ((a +:+ b) +:+ c) = String x (a +:+ (b +:+ c))).
  now rewrite IH.
Qed.

Definition fallback_detail : string :=
  " Fallback detail: attempted PAT3 Mono compatibility shim but it failed: ".

(** The message of a failed run starts with the fixed sentence, and a
    fallback error that is not empty ends it. *)
Lemma failure_message_shape (me : option string) (fe so se : string) :
  fe <> "" ->
  exists middle,
    failure_message me (Some fe) so se
    = msg_execution_failed +:+ middle +:+ fallback_detail +:+ fe.
Proof.
  intros Hfe. unfold failure_message. cbv zeta.
  assert (truthy (Some fe) = Some fe) as ->.
  { destruct fe; [contradiction|reflexivity]. }
  fold fallback_detail.
  destruct (truthy (or_else (truthy me) _)) as [dt|];
    destruct (truthy (_infer_hint_from_output so se)) as [hint|].
  - exists (" Detail: " +:+ dt +:+ " Hint: " +:+ hint).
    now rewrite !string_app_assoc.
  - exists (" Detail: " +:+ dt). now rewrite !string_app_assoc.
  - exists (" Hint: " +:+ hint). now rewrite !string_app_assoc.
  - exists "". reflexivity.
Qed.

(** X7. When the fallback is tried and building the patched runtime
    fails (copying raised, the mcs compiler is missing, or the shim does
    not compile), the failure is not swallowed: the run is reported
    failed with the primary attempt as its only attempt, and the error
    message starts with the fixed failure sentence and ends with
    "Fallback detail: attempted PAT3 Mono compatibility shim but it
    failed: " followed by the reason. *)
Theorem failed_fallback_is_reported (h : host) (e : engine) (inv : invocation)
    (console : console_path) (out_before : out_file) (d : gmap string artifact)
    (rc : Z) (so se reason : string) :
  reaches_execution h inv console ->
  primary_run e = Completed rc so se ->
  _should_try_pat3_mono_compat_fallback console
    (_resolve_use_mono (use_mono inv) console) so se (out_after_primary e) = true ->
  snd (_prepare_pat3_mono_compat_runtime h e console (run_dir inv) d) = inr reason ->
  reason <> "" ->
  exists p meta middle,
    result (run_pat h e inv out_before d) = Returned p /\
    ok p = false /\ probability p = None /\ returncode p = rc /\
    attempts p = Some [meta] /\ fallback_applied p = Some false /\
    error p = Some (msg_execution_failed +:+ middle +:+ fallback_detail +:+ reason).
Proof.
  intros Hreach Hprim Htry Hprep Hreason.
  rewrite (run_pat_executes h e inv console out_before d Hreach), Hprim.
  unfold run_completed. cbn [attempt_stdout attempt_stderr].
  unfold run_fallback. rewrite Htry.
  apply should_try_conditions in Htry as (_ & Hout & _).
  destruct (_prepare_pat3_mono_compat_runtime h e console (run_dir inv) d)
    as [d' [compat|m]]; cbn [snd] in Hprep; [discriminate|].
  injection Hprep as ->.
  cbn [later_attempts fallback_error out_final fallback_disk
       _write_attempt_logs selected_attempt last default].
  rewrite Hout. unfold classify. cbn [attempt_returncode attempt_stdout attempt_stderr].
  destruct (failure_message_shape
              (if (rc =? 0)%Z
               then or_else (_extract_pat_model_error so se) (Some msg_no_output)
               else _extract_pat_model_error so se) reason so se Hreason)
    as [middle Hmsg].
  destruct (rc =? 0)%Z;
    (eexists _, _, middle; cbn [file_exists andb];
     rewrite ?andb_false_r; cbn [ok probability returncode attempts fallback_applied
                                 error attempt_returncode length Nat.ltb Nat.leb];
     repeat split; now rewrite Hmsg).
Qed.

(** The same console on a host without the mcs compiler. *)
Definition engine_without_mcs : engine :=
  {| primary_run :=
       Completed 1
         ("Invalid arguments. Invalid image" +:+ nl
          +:+ "Usage: for all modules except UML: PAT3.Console.exe -pcsp input output") "";
     out_after_primary := Missing;
     shim := McsNotFound;
     compat_run := NotFound "";
     out_after_compat := Missing;
     mock_value := 1 # 2 |}.

Lemma failed_fallback_is_reported_witness :
  exists p middle,
    result (run_pat host_with_console engine_without_mcs real_invocation Missing ∅)
      = Returned p /\
    ok p = false /\
    error p =
      Some (msg_execution_failed +:+ middle +:+ fallback_detail
            +:+ "mcs compiler not found. PAT3 Mono compatibility fallback requires "
            +:+ "Mono C# compiler (`mcs`).").
Proof.
  assert (reaches_execution host_with_console real_invocation console_exe) as H.
  { repeat split; try reflexivity. now exists "/opt/pat/PAT3.Console.exe". }
  edestruct (failed_fallback_is_reported host_with_console engine_without_mcs
               real_invocation console_exe Missing ∅)
    as (p & meta & middle & Hres & Hok & _ & _ & _ & _ & Herr);
    [exact H | reflexivity | vm_compute; reflexivity | reflexivity | discriminate |].
  exists p, middle. split; [exact Hres|]. split; [exact Hok|]. exact Herr.
Defined.

End FallbackExtras.

(** ** The mock engine: what it prints is what the parser reads *)

Section DecimalText.
Import Utils Text Parser TemplateContext.

(** The value of a run of digits, from an accumulator on. *)
Definition digits_from (acc : Z) (ds : list ascii) : Z :=
  fold_left (fun acc c => (10 * acc + digit_value c)%Z) ds acc.

Lemma digit_value_range (c : ascii) :
  isdigit c = true -> (0 <= digit_value c <= 9)%Z.
Proof.
  unfold isdigit, digit_value. intros H.
  apply andb_prop in H as [H1 H2].
  apply N.leb_le in H1. apply N.leb_le in H2. lia.
Qed.

Lemma digits_from_split (l : list ascii) :
  forall acc,
    digits_from acc l = (acc * 10 ^ Z.of_nat (length l) + digits_from 0 l)%Z.
Proof.
  induction l as [|c l IH]; intros acc.
  - cbn. lia.
  - change (digits_from acc (c :: l)) with (digits_from (10 * acc + digit_value c) l).
    change (digits_from 0 (c :: l)) with (digits_from (10 * 0 + digit_value c) l).
    rewrite (IH (10 * acc + digit_value c)%Z), (IH (10 * 0 + digit_value c)%Z).
    change (length (c :: l)) with (S (length l)).
    rewrite Nat2Z.inj_succ, Z.pow_succ_r by lia. ring.
Qed.

Lemma digits_from_bound (l : list ascii) :
  Forall (fun c => isdigit c = true) l ->
  (0 <= digits_from 0 l < 10 ^ Z.of_nat (length l))%Z.
Proof.
  induction 1 as [|c l Hc Hl IH].
  - cbn. lia.
  - change (digits_from 0 (c :: l)) with (digits_from (10 * 0 + digit_value c) l).
    rewrite digits_from_split.
    change (length (c :: l)) with (S (length l)).
    rewrite Nat2Z.inj_succ, Z.pow_succ_r by lia.
    apply digit_value_range in Hc.
    assert (0 < 10 ^ Z.of_nat (length l))%Z by (apply Z.pow_pos_nonneg; lia).
    nia.
Qed.

Lemma uint_digits (d : Decimal.uint) :
  Forall (fun c => isdigit c = true) (chars (NilEmpty.string_of_uint d)).
Proof.
  induction d; cbn [NilEmpty.string_of_uint chars list_ascii_of_string];
    constructor; solve [reflexivity | assumption].
Qed.

Lemma digits_from_pos (d : Decimal.uint) :
  forall p, digits_from (Z.pos p) (chars (NilEmpty.string_of_uint d))
            = Z.pos (Pos.of_uint_acc d p).
Proof.
  induction d as [|d IH|d IH|d IH|d IH|d IH|d IH|d IH|d IH|d IH|d IH]; intros p;
    [reflexivity|..];
    cbn [NilEmpty.string_of_uint chars list_ascii_of_string Pos.of_uint_acc];
    rewrite <- IH;
    match goal with
    | |- digits_from ?a (?c :: ?l) = _ =>
        change (digits_from a (c :: l)) with (digits_from (10 * a + digit_value c) l)
    end;
    f_equal;
    match goal with
    | |- context [digit_value ?c] =>
        let v := eval vm_compute in (digit_value c) in
        change (digit_value c) with v
    end; lia.
Qed.

Lemma digits_from_zero (d : Decimal.uint) :
  digits_from 0 (chars (NilEmpty.string_of_uint d)) = Z.of_N (Pos.of_uint d).
Proof.
  induction d as [|d IH|d IH|d IH|d IH|d IH|d IH|d IH|d IH|d IH|d IH];
    [reflexivity|exact IH|..];
    cbn [NilEmpty.string_of_uint chars list_ascii_of_string Pos.of_uint];
    match goal with
    | |- digits_from ?a (?c :: ?l) = _ =>
        change (digits_from a (c :: l)) with (digits_from (10 * a + digit_value c) l)
    end;
    cbn [Z.of_N]; rewrite <- digits_from_pos; reflexivity.
Qed.


(** A number of seven digits that starts with 1. *)
Lemma leading_digit (k m : Z) (l : list ascii) :
  Forall (fun c => isdigit c = true) l ->
  (1 <= k <= 9)%Z ->
  digits_from k l = m ->
  (1000000 <= m < 2000000)%Z ->
  k = 1%Z /\ length l = 6%nat /\ digits_from 0 l = (m - 1000000)%Z.
Proof.
  intros Hl Hk Hv Hm. rewrite digits_from_split in Hv.
  pose proof (digits_from_bound l Hl) as Hb.
  set (L := Z.of_nat (length l)) in *.
  assert (0 <= L)%Z as HL0 by (unfold L; lia).
  assert (L = 6)%Z as HL.
  { destruct (Z_lt_le_dec L 6) as [Hlt|Hge].
    - exfalso.
      assert (10 ^ L <= 10 ^ 5)%Z as Hp by (apply Z.pow_le_mono_r; lia).
      change (10 ^ 5)%Z with 100000%Z in Hp. nia.
    - destruct (Z_lt_le_dec 6 L) as [Hgt|Hle]; [|lia].
      exfalso.
      assert (10 ^ 7 <= 10 ^ L)%Z as Hp by (apply Z.pow_le_mono_r; lia).
      change (10 ^ 7)%Z with 10000000%Z in Hp. nia. }
  rewrite HL in Hv, Hb. change (10 ^ 6)%Z with 1000000%Z in Hv, Hb.
  repeat split; unfold L in HL; lia.
Qed.

Lemma decimal_seven (m : Z) :
  (1000000 <= m < 2000000)%Z ->
  exists d1 d2 d3 d4 d5 d6 : ascii,
    decimal m
    = String "1" (String d1 (String d2 (String d3 (String d4 (String d5
        (String d6 EmptyString)))))) /\
    Forall (fun c => isdigit c = true) [d1; d2; d3; d4; d5; d6] /\
    digits_from 0 [d1; d2; d3; d4; d5; d6] = (m - 1000000)%Z.
Proof.
  intros Hm. unfold decimal.
  pose proof (DecimalN.Unsigned.of_to (Z.to_N m)) as Hof.
  pose proof (DecimalN.Unsigned.to_of (N.to_uint (Z.to_N m))) as Hnorm.
  rewrite Hof in Hnorm.
  pose proof (uint_digits (N.to_uint (Z.to_N m))) as Hdig.
  pose proof (digits_from_zero (N.to_uint (Z.to_N m))) as Hval.
  change (Pos.of_uint (N.to_uint (Z.to_N m))) with (N.of_uint (N.to_uint (Z.to_N m)))
    in Hval.
  rewrite Hof, Z2N.id in Hval by lia.
  destruct (N.to_uint (Z.to_N m)) as [|d|d|d|d|d|d|d|d|d|d] eqn:Ed.
  4-11: (exfalso;
         cbn [NilEmpty.string_of_uint chars list_ascii_of_string] in Hdig, Hval;
         apply Forall_cons in Hdig as [_ Hdig];
         change (digits_from 0 (?c :: ?l))
           with (digits_from (10 * 0 + digit_value c) l) in Hval;
         match type of Hval with
         | digits_from ?k ?l = _ =>
             assert (1 <= k <= 9)%Z as Hk9 by (vm_compute; split; discriminate);
             destruct (leading_digit k m l Hdig Hk9 Hval Hm) as (Hk & _)
         end;
         vm_compute in Hk; discriminate Hk).
  - cbn in Hval. lia.
  - exfalso. rewrite DecimalFacts.unorm_D0 in Hnorm.
    destruct d as [|u|u|u|u|u|u|u|u|u|u] eqn:Edd; [vm_compute in Hval; lia|..];
      match type of Hnorm with
      | _ = Decimal.unorm ?u =>
          assert (u <> Decimal.Nil) as Hne by discriminate;
          pose proof (DecimalFacts.nb_digits_unorm u Hne) as Hnb;
          rewrite <- Hnorm in Hnb; cbn [Decimal.nb_digits] in Hnb; lia
      end.
  - cbn [NilEmpty.string_of_uint chars list_ascii_of_string] in Hdig, Hval.
    apply Forall_cons in Hdig as [_ Hdig].
    change (digits_from 0 (?c :: ?l)) with (digits_from (10 * 0 + digit_value c) l) in Hval.
    match type of Hval with
    | digits_from ?k ?l = _ =>
        assert (1 <= k <= 9)%Z as Hk9 by (vm_compute; split; discriminate);
        destruct (leading_digit k m l Hdig Hk9 Hval Hm) as (_ & Hlen & Hrest)
    end.
    cbn [NilZero.string_of_uint NilEmpty.string_of_uint].
    destruct (NilEmpty.string_of_uint d) as [|d1 [|d2 [|d3 [|d4 [|d5 [|d6 [|d7 s]]]]]]];
      cbn in Hlen; try discriminate Hlen.
    exists d1, d2, d3, d4, d5, d6. split; [reflexivity|]. split; [exact Hdig|exact Hrest].
Qed.

End DecimalText.

Section FormatAndParse.
Import Utils Text Parser TemplateContext.

(** [f"{x:.6f}"] of a value in [0, 0.99]: "0.", then six digits that
    spell [round(x * 10^6)]. *)
Lemma format_6f_shape (x : Q) :
  0 <= x -> x <= 99 # 100 ->
  exists d1 d2 d3 d4 d5 d6 : ascii,
    format_6f x
    = String "0" (String "." (String d1 (String d2 (String d3 (String d4 (String d5
        (String d6 EmptyString))))))) /\
    Forall (fun c => isdigit c = true) [d1; d2; d3; d4; d5; d6] /\
    digits_from 0 [d1; d2; d3; d4; d5; d6] = py_round (Qabs x * 1000000) /\
    (0 <= py_round (Qabs x * 1000000) <= 990000)%Z.
Proof.
  intros H0 H1. unfold format_6f.
  assert (0 <= py_round (Qabs x * 1000000) <= 990000)%Z as Hn.
  { pose proof (Qabs_pos x H0) as Ex.
    apply py_round_between.
    - change (inject_Z 0) with 0. rewrite Ex. lra.
    - change (inject_Z 990000) with (990000 # 1). rewrite Ex. lra. }
  set (n := py_round (Qabs x * 1000000)) in *.
  assert (Qlt_bool x 0 = false) as -> by (apply Qlt_bool_false; exact H0).
  rewrite (Z.div_small n 1000000), (Z.mod_small n 1000000) by lia.
  destruct (decimal_seven (1000000 + n)) as (d1 & d2 & d3 & d4 & d5 & d6 & Hd & Hdig & Hval);
    [lia|].
  rewrite Hd. exists d1, d2, d3, d4, d5, d6.
  split; [reflexivity|]. split; [exact Hdig|]. split; [|exact Hn].
  rewrite Hval. lia.
Qed.

(** *** Scanning *)

Lemma finditer_skip {A} (m : list ascii -> option (A * list ascii))
    (p rest : list ascii) :
  finditer m (length p) (p ++ rest) = finditer m 0 rest.
Proof.
  induction p as [|c p IH]; [reflexivity|].
  cbn [length app finditer]. exact IH.
Qed.

Lemma span_all (f : ascii -> bool) (l : list ascii) :
  Forall (fun c => f c = true) l -> span f l = (l, []).
Proof.
  induction 1 as [|c l Hc Hl IH]; [reflexivity|].
  cbn [span]. now rewrite Hc, IH.
Qed.

Lemma span_stop (f : ascii -> bool) (pre : list ascii) (c : ascii) (rest : list ascii) :
  Forall (fun c => f c = true) pre -> f c = false ->
  span f (pre ++ c :: rest) = (pre, c :: rest).
Proof.
  intros Hpre Hc. induction Hpre as [|a pre Ha Hpre IH].
  - cbn [app span]. now rewrite Hc.
  - cbn [app span]. now rewrite Ha, IH.
Qed.

(** A character at which no contextual marker starts. *)
Definition starts_context (c : ascii) : bool :=
  Ascii.eqb "p" (lower_char c) || Ascii.eqb "w" (lower_char c).

Lemma match_context_none (c : ascii) (l : list ascii) :
  starts_context c = false -> match_context (c :: l) = None.
Proof.
  unfold starts_context. intros H. apply orb_false_elim in H as [Hp Hw].
  unfold match_context.
  change (chars "prob") with ["p"; "r"; "o"; "b"]%char.
  change (chars "with") with ["w"; "i"; "t"; "h"]%char.
  cbn [literal_ignorecase]. now rewrite Hp, Hw.
Qed.

Lemma finditer_context_prefix (pre rest : list ascii) :
  Forall (fun c => starts_context c = false) pre ->
  finditer match_context 0 (pre ++ rest) = finditer match_context 0 rest.
Proof.
  induction 1 as [|c pre Hc Hpre IH]; [reflexivity|].
  cbn [app finditer]. now rewrite (match_context_none c _ Hc).
Qed.

Lemma digit_starts_no_context (c : ascii) :
  isdigit c = true -> starts_context c = false.
Proof.
  destruct c as [[] [] [] [] [] [] [] []]; vm_compute; congruence.
Qed.

Lemma digit_is_no_newline (c : ascii) :
  isdigit c = true -> negb (Ascii.eqb c newline) = true.
Proof.
  destruct c as [[] [] [] [] [] [] [] []]; vm_compute; congruence.
Qed.


(** *** [float(token)] on a value between 0 and 1 *)

Lemma round_half_even_div_close (n d : Z) :
  (0 <= n)%Z -> (0 < d)%Z ->
  (0 <= round_half_even_div n d /\
   2 * (round_half_even_div n d * d - n) <= d /\
   2 * (n - round_half_even_div n d * d) <= d)%Z.
Proof.
  intros Hn Hd. unfold round_half_even_div.
  pose proof (Z.div_mod n d ltac:(lia)) as E.
  pose proof (Z.mod_pos_bound n d Hd) as Hr.
  assert (0 <= n / d)%Z as Hq by (apply Z.div_pos; lia).
  destruct (Z.compare_spec (2 * (n mod d)) d) as [Hc|Hc|Hc];
    [destruct (Z.even (n / d))|..]; nia.
Qed.

Lemma round_half_even_div_le (n d k : Z) :
  (0 <= n)%Z -> (0 < d)%Z -> (n <= k * d)%Z -> (round_half_even_div n d <= k)%Z.
Proof.
  intros Hn Hd Hk.
  destruct (round_half_even_div_close n d Hn Hd) as (_ & H1 & _).
  nia.
Qed.

Lemma floor_log2_ratio_nonpos (n d : Z) :
  (0 < n <= d)%Z -> (floor_log2_ratio n d <= 0)%Z.
Proof.
  intros H. unfold floor_log2_ratio.
  assert (Z.log2 n <= Z.log2 d)%Z by (apply Z.log2_le_mono; lia).
  destruct (if (0 <=? Z.log2 n - Z.log2 d)%Z then _ else _); lia.
Qed.

(** The binary64 value nearest to a ratio between 0 and 1 lies between
    0 and 1, at most 2^-53 away. *)
Lemma binary64_nearest_unit (n d : Z) :
  (0 <= n <= d)%Z -> (0 < d)%Z ->
  exists q,
    binary64_nearest n d = Some q /\ 0 <= q /\ q <= 1 /\
    Qabs (q - inject_Z n / inject_Z d) <= 1 # 9007199254740992.
Proof.
  intros Hn Hd. unfold binary64_nearest.
  assert (0 < inject_Z d) as Hdq.
  { change 0 with (inject_Z 0). rewrite <- Zlt_Qlt. exact Hd. }
  destruct (n =? 0)%Z eqn:En.
  - apply Z.eqb_eq in En. subst n. exists 0.
    split; [reflexivity|]. split; [lra|]. split; [lra|].
    assert (0 - inject_Z 0 / inject_Z d == 0) as ->.
    { change (inject_Z 0) with 0. field. lra. }
    cbn. discriminate.
  - apply Z.eqb_neq in En.
    pose proof (floor_log2_ratio_nonpos n d ltac:(lia)) as He.
    set (e := floor_log2_ratio n d) in *.
    set (sh := Z.max (e - 52) (-1074)).
    assert (-1074 <= sh <= -52)%Z as Hsh by (unfold sh; lia).
    assert ((0 <=? sh)%Z = false) as -> by (apply Z.leb_gt; lia).
    set (K := (2 ^ (- sh))%Z).
    assert (4503599627370496 <= K)%Z as HK.
    { change 4503599627370496%Z with (2 ^ 52)%Z. apply Z.pow_le_mono_r; lia. }
    destruct (round_half_even_div_close (n * K) d ltac:(nia) Hd) as (Hm0 & Hm1 & Hm2).
    pose proof (round_half_even_div_le (n * K) d K ltac:(nia) Hd ltac:(nia)) as HmK.
    set (m := round_half_even_div (n * K) d) in *.
    eexists. split; [reflexivity|].
    assert (m # Z.to_pos K == inject_Z m / inject_Z K) as Eq.
    { rewrite Qmake_Qdiv, Z2Pos.id by lia. reflexivity. }
    assert (4503599627370496 <= inject_Z K) as HKq.
    { change 4503599627370496 with (inject_Z 4503599627370496).
      rewrite <- Zle_Qle. exact HK. }
    assert (0 <= inject_Z m) as Hm0q.
    { change 0 with (inject_Z 0). rewrite <- Zle_Qle. exact Hm0. }
    assert (inject_Z m <= inject_Z K) as HmKq by (rewrite <- Zle_Qle; exact HmK).
    assert (2 * (inject_Z m * inject_Z d - inject_Z n * inject_Z K) <= inject_Z d) as H1q.
    { rewrite Zle_Qle in Hm1. unfold Z.sub in Hm1.
      rewrite inject_Z_mult, inject_Z_plus, inject_Z_opp, !inject_Z_mult in Hm1.
      change (inject_Z 2) with 2 in Hm1. lra. }
    assert (2 * (inject_Z n * inject_Z K - inject_Z m * inject_Z d) <= inject_Z d) as H2q.
    { rewrite Zle_Qle in Hm2. unfold Z.sub in Hm2.
      rewrite inject_Z_mult, inject_Z_plus, inject_Z_opp, !inject_Z_mult in Hm2.
      change (inject_Z 2) with 2 in Hm2. lra. }
    rewrite Eq.
    split; [apply Qle_shift_div_l; lra|]. split; [apply Qle_shift_div_r; lra|].
    assert (inject_Z m / inject_Z K - inject_Z n / inject_Z d
            == (inject_Z m * inject_Z d - inject_Z n * inject_Z K)
               / (inject_Z K * inject_Z d)) as ->.
    { field. split; lra. }
    assert (0 < inject_Z K * inject_Z d) as HKd by nra.
    apply Qabs_Qle_condition. split.
    + apply Qle_shift_div_l; [exact HKd|]. nra.
    + apply Qle_shift_div_r; [exact HKd|]. nra.
Qed.


(** *** The result file of the mock engine *)

Lemma finditer_match {A} (m : list ascii -> option (A * list ascii))
    (c : ascii) (t rest : list ascii) (a : A) :
  m (c :: t) = Some (a, rest) ->
  finditer m 0 (c :: t)
  = (a, rest) :: finditer m (length (c :: t) - length rest - 1) t.
Proof. intros H. cbn [finditer]. now rewrite H. Qed.

Lemma finditer_no_match {A} (m : list ascii -> option (A * list ascii))
    (c : ascii) (t : list ascii) :
  m (c :: t) = None -> finditer m 0 (c :: t) = finditer m 0 t.
Proof. intros H. cbn [finditer]. now rewrite H. Qed.

Lemma match_number_fraction (ds : list ascii) :
  ds <> [] -> Forall (fun c => isdigit c = true) ds ->
  match_number ("0" :: "." :: ds)%char
  = Some ({| negative := false; int_digits := ["0"%char]; frac_digits := ds;
             exponent := 0 |}, []).
Proof.
  intros Hne Hds. unfold match_number.
  change (match_sign ("0" :: "." :: ds)%char) with (false, ("0" :: "." :: ds)%char).
  cbv beta iota zeta.
  change (span isdigit ("0" :: "." :: ds)%char) with (["0"%char], ("." :: ds)%char).
  cbv beta iota zeta.
  change (is_char "." "."%char) with true. cbv iota.
  rewrite (span_all isdigit ds Hds).
  destruct ds as [|d ds]; [contradiction|]. reflexivity.
Qed.

(** The text after "with prob" in the mock result file, for six digits. *)
Definition mock_tail (ds : list ascii) : list ascii :=
  ([" "; "0"; "."]%char ++ ds)
  ++ newline :: chars "module: -pcsp" ++ [newline].

Definition mock_text (ds : list ascii) : list ascii :=
  (chars "PAT Mock Verification Result" ++ [newline])
  ++ chars "with prob" ++ mock_tail ds.

Lemma mock_text_contexts (ds : list ascii) :
  Forall (fun c => isdigit c = true) ds ->
  finditer match_context 0 (mock_text ds) = [(tt, mock_tail ds)].
Proof.
  intros Hds. unfold mock_text.
  (* nothing before "with prob" *)
  change (chars "PAT Mock Verification Result" ++ [newline])
    with ("P"%char :: (chars "AT Mock Verification Result" ++ [newline])).
  change (chars "AT Mock Verification Result" ++ [newline])
    with ("A"%char :: (chars "T Mock Verification Result" ++ [newline])).
  rewrite <- !app_comm_cons.
  rewrite finditer_no_match by reflexivity.
  rewrite app_comm_cons.
  rewrite finditer_context_prefix by (repeat constructor).
  (* the marker *)
  change (chars "with prob") with ("w"%char :: chars "ith prob").
  rewrite <- app_comm_cons.
  rewrite (finditer_match match_context _ _ (mock_tail ds) tt) by reflexivity.
  f_equal.
  replace (length ("w"%char :: chars "ith prob" ++ mock_tail ds)
           - length (mock_tail ds) - 1)%nat
    with (length (chars "ith prob")).
  2:{ cbn [length]. rewrite length_app. cbn [length chars list_ascii_of_string]. lia. }
  rewrite finditer_skip.
  (* nothing after it *)
  unfold mock_tail.
  change (newline :: chars "module: -pcsp" ++ [newline])
    with ((newline :: chars "module: -") ++ (chars "pcsp" ++ [newline])).
  rewrite app_assoc, finditer_context_prefix; [reflexivity|].
  apply Forall_app. split; [apply Forall_app; split|].
  - repeat constructor.
  - eapply Forall_impl; [exact Hds|]. intros c Hc. now apply digit_starts_no_context.
  - repeat constructor.
Qed.

Lemma mock_text_parses (d1 d2 d3 d4 d5 d6 : ascii) (q : Q) :
  Forall (fun c => isdigit c = true) [d1; d2; d3; d4; d5; d6] ->
  binary64_nearest (digits_from 0 [d1; d2; d3; d4; d5; d6]) 1000000 = Some q ->
  0 <= q -> q <= 1 ->
  collect_values (mock_text [d1; d2; d3; d4; d5; d6]) = [q].
Proof.
  intros Hds Hq H0 H1. unfold collect_values.
  rewrite (mock_text_contexts _ Hds). cbn [flat_map]. rewrite app_nil_r.
  unfold context_values, line_segment, mock_tail.
  rewrite span_stop.
  2:{ apply Forall_app. split; [repeat constructor|].
      eapply Forall_impl; [exact Hds|]. intros c Hc. now apply digit_is_no_newline. }
  2:{ reflexivity. }
  cbn [fst].
  assert (_extract_probabilities ([" "; "0"; "."]%char ++ [d1; d2; d3; d4; d5; d6]) = [q])
    as ->; [|reflexivity].
  unfold _extract_probabilities. cbn [app].
  rewrite finditer_no_match by reflexivity.
  rewrite (finditer_match match_number _ _ _ _
             (match_number_fraction [d1; d2; d3; d4; d5; d6] ltac:(discriminate) Hds)).
  change (length ("0" :: "." :: [d1; d2; d3; d4; d5; d6])%char - length (@nil ascii) - 1)%nat
    with (length ("."%char :: [d1; d2; d3; d4; d5; d6])).
  rewrite <- (app_nil_r ("."%char :: [d1; d2; d3; d4; d5; d6])) at 2.
  rewrite finditer_skip.
  change (finditer match_number 0 []) with (@nil (number_token * list ascii)).
  cbn [omap list_omap].
  unfold float_of_token.
  cbn [int_digits frac_digits exponent negative length app].
  change (digits_value ("0"%char :: [d1; d2; d3; d4; d5; d6]))
    with (digits_from 0 [d1; d2; d3; d4; d5; d6]).
  change (0 - Z.of_nat 6)%Z with (-6)%Z. cbv iota.
  change (0 <=? -6)%Z with false. cbv iota.
  change (10 ^ (- -6))%Z with 1000000%Z.
  rewrite Hq. unfold in_range.
  apply Qle_bool_iff in H0. apply Qle_bool_iff in H1. now rewrite H0, H1.
Qed.

End FormatAndParse.

Section MockMode.
Import Utils Text Parser TemplateContext Runner.
Local Open Scope string_scope.

(** What the parser reads back from the six decimals of [x]. *)
Lemma read_back (x : Q) :
  0 <= x -> x <= 99 # 100 ->
  exists q,
    parse_probability
      ("PAT Mock Verification Result" +:+ nl +:+ "with prob " +:+ format_6f x +:+ nl
       +:+ "module: -pcsp" +:+ nl) = Parsed q /\
    binary64_nearest (py_round (Qabs x * 1000000)) 1000000 = Some q /\
    0 <= q /\ q <= 1 /\
    Qabs (q - x) <= (1 # 2000000) + (1 # 9007199254740992).
Proof.
  intros H0 H1.
  destruct (format_6f_shape x H0 H1)
    as (d1 & d2 & d3 & d4 & d5 & d6 & Hshown & Hdig & Hval & Hn).
  destruct (binary64_nearest_unit (py_round (Qabs x * 1000000)) 1000000
              ltac:(lia) ltac:(lia)) as (q & Hq & Hq0 & Hq1 & Hacc).
  exists q. rewrite Hshown. split; [|split; [exact Hq|split; [exact Hq0|split; [exact Hq1|]]]].
  - unfold parse_probability.
    change (chars _) with (mock_text [d1; d2; d3; d4; d5; d6]).
    rewrite (mock_text_parses d1 d2 d3 d4 d5 d6 q Hdig); [reflexivity| |exact Hq0|exact Hq1].
    rewrite Hval. exact Hq.
  - destruct (py_round_close (Qabs x * 1000000)) as [Hr1 Hr2].
    pose proof (Qabs_pos x H0) as Ex.
    set (n := inject_Z (py_round (Qabs x * 1000000))) in *.
    change (inject_Z 1000000) with (1000000 # 1) in Hacc.
    apply Qabs_Qle_condition in Hacc. destruct Hacc as [Ha1 Ha2].
    apply Qabs_Qle_condition.
    assert (n / (1000000 # 1) == n * (1 # 1000000)) as En by (field; discriminate).
    rewrite En in Ha1, Ha2. split; lra.
Qed.

(** X8. In mock mode [run_pat] does not catch what [mock_run] raises:
    the exception leaves [run_pat] with nothing written.  When
    [mock_run] returns, [run_pat] returns a successful payload (exit
    code 0, no error, no attempt list) and leaves the four artifacts;
    and whenever the mock's probability lies in [0, 0.99] (it is clamped
    to [0.01, 0.99]) the result file that the mock wrote is read back by
    [parse_probability] as a probability between 0 and 1: the binary64
    value nearest to the six decimals printed, within 5e-7 + 2^-53 of
    the value the payload reports. *)
Theorem run_pat_mock_round_trip (h : host) (e : engine) (inv : invocation)
    (out_before : out_file) (d : gmap string artifact) :
  mode inv = "mock" ->
  0 <= mock_value e -> mock_value e <= 99 # 100 ->
  let r := run_pat h e inv out_before d in
  match primary_run e with
  | OtherError message =>
      result r = Raised (OSError message) /\ disk_after r = d /\
      out_file_after r = out_before
  | _ =>
      exists p so pat_out_text q,
        result r = Returned p /\
        ok p = true /\ returncode p = 0%Z /\ error p = None /\ attempts p = None /\
        probability p = Some (mock_value e) /\
        artifacts_written (run_dir inv) (disk_after r) p so "" /\
        out_file_after r = Content pat_out_text /\
        parse_probability pat_out_text = Parsed q /\
        binary64_nearest (py_round (Qabs (mock_value e) * 1000000)) 1000000 = Some q /\
        0 <= q /\ q <= 1 /\
        Qabs (q - mock_value e) <= (1 # 2000000) + (1 # 9007199254740992)
  end.
Proof.
  intros Hmode H0 H1 r. unfold r, run_pat. rewrite Hmode.
  change (String.eqb "mock" "mock") with true. cbv iota.
  destruct (read_back (mock_value e) H0 H1) as (q & Hparse & Hq & Hq0 & Hq1 & Hacc).
  unfold run_mock.
  destruct (primary_run e) as [rc so se | m | so se m | m]; [| | |now repeat split];
    (eexists _, _, _, q; split; [reflexivity|];
     cbn [ok returncode error attempts probability disk_after out_file_after];
     do 5 (split; [reflexivity|]);
     split; [now apply four_writes|];
     split; [reflexivity|]; split; [exact Hparse|];
     split; [exact Hq|]; split; [exact Hq0|]; split; [exact Hq1|exact Hacc]).
Qed.

Definition mock_invocation : invocation :=
  {| pcsp_path := "/runs/m1/matchup.pcsp"; pcsp_name := "matchup.pcsp";
     run_dir := "/runs/m1"; out_name := "pat_output.txt"; mode := "mock";
     pat_console_path := None; timeout_s := 120; use_mono := None |}.

(** A mock engine that returns [value]. *)
Definition mock_engine (value : Q) : engine :=
  {| primary_run := Completed 0 "" ""; out_after_primary := Missing;
     shim := McsNotFound; compat_run := NotFound "";
     out_after_compat := Missing; mock_value := value |}.

Lemma run_pat_mock_round_trip_witness :
  exists p pat_out_text q,
    result (run_pat host_with_console (mock_engine (6 # 10)) mock_invocation Missing ∅)
      = Returned p /\
    ok p = true /\
    out_file_after
      (run_pat host_with_console (mock_engine (6 # 10)) mock_invocation Missing ∅)
      = Content pat_out_text /\
    parse_probability pat_out_text = Parsed q /\ 0 <= q /\ q <= 1.
Proof.
  pose proof (run_pat_mock_round_trip host_with_console (mock_engine (6 # 10))
                mock_invocation Missing ∅ eq_refl) as T.
  cbn [primary_run mock_engine mock_value] in T.
  destruct T
    as (p & so & t & q & Hres & Hok & _ & _ & _ & _ & _ & Hout & Hparse & _ & H0 & H1 & _).
  - cbn. discriminate.
  - cbn. discriminate.
  - exists p, t, q. now repeat split.
Defined.

End MockMode.

(** ** coach/service.py: the order of the sorts and the bound of the search *)

Section SortOrder.
Import Service.
Context {A : Type} (before : A -> A -> bool).

(** [not_after x y]: the sort does not move [y] in front of [x]. *)
Definition not_after (x y : A) : Prop := before y x = false.

Hypothesis before_asym : forall x y, before x y = true -> before y x = false.
Hypothesis not_after_trans :
  forall x y z, not_after x y -> not_after y z -> not_after x z.

Lemma insert_sorted_sorted (x : A) (l : list A) :
  Sorted.StronglySorted not_after l ->
  Sorted.StronglySorted not_after (insert_sorted before x l).
Proof.
  induction 1 as [|y t Ht IH Hy]; cbn [insert_sorted].
  - repeat constructor.
  - destruct (before y x) eqn:E.
    + constructor; [exact IH|].
      rewrite insert_sorted_perm.
      constructor; [|exact Hy]. unfold not_after. now apply before_asym.
    + constructor; [constructor; assumption|].
      constructor; [exact E|].
      eapply Forall_impl; [exact Hy|].
      intros z Hz. eapply not_after_trans; [|exact Hz]. exact E.
Qed.

Lemma stable_sort_sorted (l : list A) :
  Sorted.StronglySorted not_after (stable_sort before l).
Proof.
  induction l as [|x l IH]; cbn [stable_sort fold_right]; [constructor|].
  apply insert_sorted_sorted. exact IH.
Qed.

End SortOrder.

Section SortedLists.

Lemma sorted_lookup {A} (R : A -> A -> Prop) (l : list A) :
  Sorted.StronglySorted R l ->
  forall i j a b, (i < j)%nat -> l !! i = Some a -> l !! j = Some b -> R a b.
Proof.
  induction 1 as [|x t Ht IH Hx]; intros i j a b Hij Hi Hj.
  - discriminate.
  - destruct j as [|j]; [lia|]. cbn in Hj.
    destruct i as [|i]; cbn in Hi.
    + injection Hi as <-.
      apply list_elem_of_lookup_2 in Hj.
      rewrite Forall_forall in Hx. now apply Hx.
    + apply (IH i j); [lia|assumption..].
Qed.

Lemma sorted_take {A} (R : A -> A -> Prop) (l : list A) (n : nat) :
  Sorted.StronglySorted R l -> Sorted.StronglySorted R (take n l).
Proof.
  intros H. revert n. induction H as [|x t Ht IH Hx]; intros [|n]; cbn [take];
    try constructor.
  - apply IH.
  - now apply Forall_take.
Qed.

Lemma length_omap_le {A B} (f : A -> option B) (l : list A) :
  (length (omap f l) <= length l)%nat.
Proof.
  induction l as [|x l IH]; cbn [omap list_omap length]; [lia|].
  destruct (f x); cbn [length]; lia.
Qed.

End SortedLists.

Section CandidateOrder.
Import Utils Params Service.

Definition step_size (c : candidate) : Q :=
  Qabs (cand_serve_short_delta c) + Qabs (cand_attack_delta c).

(** The sort key of [_generate_candidates], compared as tuples. *)
Definition key_le (a b : candidate) : Prop :=
  cand_l1 a < cand_l1 b \/ (cand_l1 a == cand_l1 b /\ step_size a <= step_size b).

Lemma candidate_before_true (a b : candidate) :
  candidate_before a b = true <->
  cand_l1 a < cand_l1 b \/ (cand_l1 a == cand_l1 b /\ step_size a < step_size b).
Proof.
  unfold candidate_before, step_size. cbv zeta.
  rewrite orb_true_iff, andb_true_iff, !Qlt_bool_true, Qeq_bool_iff. reflexivity.
Qed.

Lemma candidate_not_after (a b : candidate) :
  not_after candidate_before a b <-> key_le a b.
Proof.
  unfold not_after, key_le. rewrite <- not_true_iff_false, candidate_before_true.
  destruct (Qlt_le_dec (cand_l1 a) (cand_l1 b)) as [H1|H1];
    destruct (Qlt_le_dec (cand_l1 b) (cand_l1 a)) as [H2|H2];
    destruct (Qlt_le_dec (step_size b) (step_size a)) as [H3|H3];
    split; intros H; try (left; lra); try (right; split; lra);
    try (intros [H4|[H4 H5]]; destruct H as [H|[H H']]; lra);
    try (exfalso; apply H; first [left; lra | right; split; lra]).
Qed.

Lemma candidate_before_asym (a b : candidate) :
  candidate_before a b = true -> candidate_before b a = false.
Proof.
  intros H. apply candidate_before_true in H.
  apply (candidate_not_after a b). unfold key_le.
  destruct H as [H|[H H']]; [left; exact H | right; split; [exact H | lra]].
Qed.

Lemma candidate_not_after_trans (a b c : candidate) :
  not_after candidate_before a b -> not_after candidate_before b c ->
  not_after candidate_before a c.
Proof.
  rewrite !candidate_not_after. unfold key_le.
  intros [H1|[H1 H1']] [H2|[H2 H2']]; first [left; lra | right; split; lra].
Qed.

Lemma ranked_before_asym (x y : StrategyCandidate * MatchupParams) :
  ranked_before x y = true -> ranked_before y x = false.
Proof.
  unfold ranked_before. rewrite Qlt_bool_true, Qlt_bool_false. lra.
Qed.

Lemma ranked_not_after (x y : StrategyCandidate * MatchupParams) :
  not_after ranked_before x y <->
  candidate_probability (fst y) <= candidate_probability (fst x).
Proof. unfold not_after, ranked_before. apply Qlt_bool_false. Qed.

Lemma ranked_not_after_trans (x y z : StrategyCandidate * MatchupParams) :
  not_after ranked_before x y -> not_after ranked_before y z ->
  not_after ranked_before x z.
Proof. rewrite !ranked_not_after. lra. Qed.

End CandidateOrder.

Section CandidateGeneration.
Import Utils Params Service.

Lemma grid_has_no_null_step :
  Forall (fun step => ~ (fst step == 0 /\ snd step == 0)) grid.
Proof.
  unfold grid. cbn.
  repeat constructor; cbn [fst snd]; intros [H1 H2]; revert H1 H2;
    unfold Qeq; cbn; lia.
Qed.

Lemma grid_length : length grid = 48%nat.
Proof. reflexivity. Qed.

(** What [_generate_candidates] keeps: the steps of the grid whose
    adjustment stays within the bound, each with its distance. *)
Lemma generated_candidates_spec (p : MatchupParams) (l1_bound : Q)
    (generated : list candidate) :
  _generate_candidates p l1_bound = Some generated ->
  forall c,
    c ∈ generated <->
    exists adjusted,
      (cand_serve_short_delta c, cand_attack_delta c) ∈ grid /\
      with_adjustments p (cand_serve_short_delta c) (cand_attack_delta c) = Some adjusted /\
      cand_l1 c = l1_change_from adjusted p /\
      cand_l1 c <= l1_bound + (1 # 1000000000).
Proof.
  unfold _generate_candidates.
  destruct (mapM (consider p l1_bound) grid) as [considered|] eqn:Em; [|discriminate].
  cbn. intros [= <-] c. rewrite stable_sort_perm.
  apply mapM_Some in Em. rewrite list_elem_of_omap. split.
  - intros (oc & Hoc & ->).
    apply list_elem_of_lookup in Hoc as [i Hi].
    destruct (Forall2_lookup_r _ _ _ _ _ Em Hi) as (step & Hs & Hstep).
    unfold consider in Hstep.
    destruct (with_adjustments p (fst step) (snd step)) as [adjusted|] eqn:Ea;
      [|discriminate].
    cbn in Hstep. injection Hstep as Hstep.
    destruct (Qle_bool _ _) eqn:El; [|discriminate].
    injection Hstep as <-. cbn [cand_serve_short_delta cand_attack_delta cand_l1].
    exists adjusted. split.
    + apply list_elem_of_lookup_2 in Hs. now destruct step.
    + split; [exact Ea|]. split; [reflexivity|]. now apply Qle_bool_iff.
  - intros (adjusted & Hin & Ha & Hl1 & Hb).
    apply list_elem_of_lookup in Hin as [i Hi].
    destruct (Forall2_lookup_l _ _ _ _ _ Em Hi) as (oc & Ho & Hstep).
    unfold consider in Hstep. cbn [fst snd] in Hstep. rewrite Ha in Hstep.
    cbn in Hstep. injection Hstep as <-.
    rewrite <- Hl1 in Ho. apply Qle_bool_iff in Hb. rewrite Hb in Ho.
    eexists. split; [eapply list_elem_of_lookup_2; exact Ho|].
    now destruct c.
Qed.

(** X9. The list of [_generate_candidates] holds exactly the steps of
    the 7 x 7 grid without (0, 0) whose adjustment lies within the bound
    (plus 1e-9), each with the L1 distance of its adjustment; it has at
    most 48 entries and is sorted by non-decreasing distance, ties by
    non-decreasing step size. *)
Theorem generate_candidates_bounded_sorted (p : MatchupParams) (l1_bound : Q)
    (generated : list candidate) :
  _generate_candidates p l1_bound = Some generated ->
  (length generated <= 48)%nat /\
  (forall c,
     c ∈ generated <->
     exists adjusted,
       (cand_serve_short_delta c, cand_attack_delta c) ∈ grid /\
       with_adjustments p (cand_serve_short_delta c) (cand_attack_delta c)
         = Some adjusted /\
       cand_l1 c = l1_change_from adjusted p /\
       cand_l1 c <= l1_bound + (1 # 1000000000)) /\
  (forall c, c ∈ generated ->
     ~ (cand_serve_short_delta c == 0 /\ cand_attack_delta c == 0)) /\
  Sorted.StronglySorted key_le generated /\
  (forall i j a b, (i < j)%nat -> generated !! i = Some a -> generated !! j = Some b ->
                   cand_l1 a <= cand_l1 b).
Proof.
  intros Hgen.
  pose proof (generated_candidates_spec p l1_bound generated Hgen) as Hspec.
  assert (Sorted.StronglySorted key_le generated) as Hsorted.
  { unfold _generate_candidates in Hgen.
    destruct (mapM (consider p l1_bound) grid) as [considered|]; [|discriminate].
    cbn in Hgen. injection Hgen as <-.
    eapply Sorted.StronglySorted_ind
      with (P := fun l => Sorted.StronglySorted key_le l);
      [constructor | | apply (stable_sort_sorted candidate_before candidate_before_asym
                                candidate_not_after_trans)].
    intros a l _ IH Ha. constructor; [exact IH|].
    eapply Forall_impl; [exact Ha|]. intros b Hb. now apply candidate_not_after. }
  split; [|split; [exact Hspec|split; [|split; [exact Hsorted|]]]].
  - unfold _generate_candidates in Hgen.
    destruct (mapM (consider p l1_bound) grid) as [considered|] eqn:Em; [|discriminate].
    cbn in Hgen. injection Hgen as <-.
    rewrite stable_sort_perm. apply length_mapM in Em. rewrite grid_length in Em.
    pose proof (length_omap_le (fun kept : option candidate => kept) considered). lia.
  - intros c Hc. apply Hspec in Hc as (adjusted & Hin & _).
    pose proof grid_has_no_null_step as Hg. rewrite Forall_forall in Hg.
    apply (Hg _ Hin).
  - intros i j a b Hij Hi Hj.
    pose proof (sorted_lookup key_le generated Hsorted i j a b Hij Hi Hj) as [H|[H _]]; lra.
Qed.

Lemma generate_candidates_bounded_sorted_witness :
  exists generated,
    _generate_candidates sample_matchup (3 # 10) = Some generated /\
    (length generated <= 48)%nat /\
    Sorted.StronglySorted key_le generated.
Proof.
  destruct (_generate_candidates sample_matchup (3 # 10)) as [generated|] eqn:Eg;
    [|vm_compute in Eg; discriminate Eg].
  exists generated. split; [reflexivity|].
  destruct (generate_candidates_bounded_sorted sample_matchup (3 # 10) generated Eg)
    as (Hlen & _ & _ & Hs & _).
  split; [exact Hlen | exact Hs].
Defined.

End CandidateGeneration.

Section StrategyRanking.
Import Utils Params Service.

(** An entry of [ranked] and the candidate it was made from. *)
Definition made_from (params : MatchupParams) (c : candidate)
    (r : StrategyCandidate * MatchupParams) : Prop :=
  with_adjustments params (cand_serve_short_delta c) (cand_attack_delta c) = Some (snd r) /\
  rank (fst r) = 0%Z /\
  serve_short_delta (fst r)
    = short (serve_mix (player_a (snd r))) - short (serve_mix (player_a params)) /\
  attack_delta (fst r)
    = attack (rally_style (player_a (snd r))) - attack (rally_style (player_a params)) /\
  l1_change (fst r) = l1_change_from (snd r) params.

Lemma search_loop_ranked (w : world) (params : MatchupParams) (run_dir' mode' : string)
    (pat_path : option string) (timeout_s : option Z) (cands : list candidate) :
  forall idx st st' ranked,
    search_loop w params run_dir' mode' pat_path timeout_s idx cands st
      = (st', inr ranked) ->
    Forall (fun r => exists c, c ∈ cands /\ made_from params c r) ranked.
Proof.
  induction cands as [|c rest IH]; intros idx st st' ranked H.
  - cbn in H. injection H as _ <-. constructor.
  - cbn [search_loop] in H.
    destruct (with_adjustments params _ _) as [adjusted|] eqn:Ea; [|discriminate].
    destruct (_execute_pat _ _ _ _ _ _ _ _ _) as [st1 [ex|pat_exec]]; [discriminate|].
    destruct (search_loop _ _ _ _ _ _ _ rest st1) as [st2 [ex|ranked']] eqn:El;
      [discriminate|].
    apply IH in El.
    assert (Forall (fun r => exists c0, c0 ∈ c :: rest /\ made_from params c0 r) ranked')
      as Hrest.
    { eapply Forall_impl; [exact El|]. intros r (c0 & Hc0 & Hm).
      exists c0. split; [now apply list_elem_of_further | exact Hm]. }
    destruct (probability pat_exec) as [pr|]; injection H as _ <-; [|exact Hrest].
    constructor; [|exact Hrest].
    exists c. split; [apply list_elem_of_here|].
    unfold made_from. cbn [fst snd rank serve_short_delta attack_delta l1_change].
    now repeat split.
Qed.

Lemma number_from_ranks (top : list (StrategyCandidate * MatchupParams)) :
  forall i, map rank (number_from i top) = seqZ i (Z.of_nat (length top)).
Proof.
  induction top as [|[c p] t IH]; intros i; [reflexivity|].
  cbn [number_from map renumber rank length].
  rewrite Nat2Z.inj_succ, seqZ_cons by lia.
  rewrite Z.pred_succ, IH. now replace (Z.succ i) with (i + 1)%Z by lia.
Qed.

Lemma number_from_elem (top : list (StrategyCandidate * MatchupParams)) :
  forall i c, c ∈ number_from i top ->
              exists r k, r ∈ top /\ c = renumber k (fst r).
Proof.
  induction top as [|[c0 p] t IH]; intros i c Hc; cbn [number_from] in Hc.
  - now apply not_elem_of_nil in Hc.
  - apply elem_of_cons in Hc as [-> | Hc].
    + exists (c0, p), i. split; [apply list_elem_of_here | reflexivity].
    + destruct (IH _ _ Hc) as (r & k & Hr & ->).
      exists r, k. split; [now apply list_elem_of_further | reflexivity].
Qed.

Lemma number_from_sorted (top : list (StrategyCandidate * MatchupParams)) :
  Sorted.StronglySorted (not_after ranked_before) top ->
  forall i,
    Sorted.StronglySorted
      (fun a b => candidate_probability b <= candidate_probability a)
      (number_from i top).
Proof.
  induction 1 as [|[c p] t Ht IH Hx]; intros i; cbn [number_from]; constructor.
  - apply IH.
  - apply Forall_forall. intros b Hb.
    destruct (number_from_elem _ _ _ Hb) as (r & k & Hr & ->).
    rewrite Forall_forall in Hx. specialize (Hx r Hr).
    apply ranked_not_after in Hx. exact Hx.
Qed.

(** X10. Whatever [strategy] returns is ranked: at least one and at
    most five alternatives, numbered 1, 2, ... in order of non-increasing
    probability; the best candidate is the first of them and its
    probability is the improved probability, which no alternative
    exceeds; delta is the improved minus the baseline probability; every
    alternative is the adjustment of a grid step, with an L1 change
    between 0 and the bound (plus 1e-9); and the best parameters are
    the adjustment that the best candidate describes. *)
Theorem strategy_result_is_ranked (w : world) (params : MatchupParams)
    (run_dir' mode' : string) (budget : Z) (l1_bound : Q)
    (pat_path : option string) (timeout_s : option Z) (st : state)
    (res : StrategyResult) :
  snd (strategy w params run_dir' mode' budget l1_bound pat_path timeout_s st) = inr res ->
  let top := top_alternatives res in
  params_baseline res = params /\
  delta res = improved_probability res - baseline_probability res /\
  (1 <= length top <= 5)%nat /\
  map rank top = seqZ 1 (Z.of_nat (length top)) /\
  head top = Some (best_candidate res) /\
  candidate_probability (best_candidate res) = improved_probability res /\
  Sorted.StronglySorted
    (fun a b => candidate_probability b <= candidate_probability a) top /\
  (forall c, c ∈ top ->
     candidate_probability c <= improved_probability res /\
     0 <= l1_change c /\ l1_change c <= l1_bound + (1 # 1000000000)) /\
  exists step,
    step ∈ grid /\
    with_adjustments params (fst step) (snd step) = Some (params_best res) /\
    l1_change (best_candidate res) = l1_change_from (params_best res) params /\
    serve_short_delta (best_candidate res)
      = short (serve_mix (player_a (params_best res)))
        - short (serve_mix (player_a params)) /\
    attack_delta (best_candidate res)
      = attack (rally_style (player_a (params_best res)))
        - attack (rally_style (player_a params)).
Proof.
  unfold strategy.
  destruct (_execute_pat _ _ _ _ _ _ _ _ _) as [st1 [ex|baseline_pat]]; [discriminate|].
  destruct (probability baseline_pat) as [baseline|]; [|discriminate].
  destruct (_generate_candidates params l1_bound) as [generated|] eqn:Hgen; [|discriminate].
  destruct (search_loop _ _ _ _ _ _ _ _ _) as [st2 [ex|ranked]] eqn:Hloop; [discriminate|].
  pose proof (stable_sort_sorted ranked_before ranked_before_asym
                ranked_not_after_trans ranked) as Hsorted.
  pose proof (stable_sort_perm ranked_before ranked) as Hperm.
  apply search_loop_ranked in Hloop.
  destruct (stable_sort ranked_before ranked) as [|[best best_params] sorted] eqn:Es;
    [discriminate|].
  cbn [snd]. intros [= <-].
  cbn [params_baseline delta improved_probability baseline_probability top_alternatives
       best_candidate params_best].
  change (renumber 1 best :: number_from (1 + 1) (take 4 sorted))
    with (number_from 1 (take 5 ((best, best_params) :: sorted))).
  (* every sorted entry comes from a generated candidate *)
  assert (forall r, r ∈ (best, best_params) :: sorted ->
            exists c, c ∈ generated /\ made_from params c r) as Hfrom.
  { intros r Hr. rewrite Hperm in Hr. rewrite Forall_forall in Hloop.
    destruct (Hloop r Hr) as (c & Hc & Hm). exists c. split; [|exact Hm].
    apply elem_of_take in Hc as (i & Hi & _). now apply list_elem_of_lookup_2 in Hi. }
  pose proof (generated_candidates_spec params l1_bound generated Hgen) as Hspec.
  split; [reflexivity|]. split; [reflexivity|]. split.
  { rewrite number_from_length, length_take. cbn [length]. lia. }
  split; [rewrite number_from_ranks, number_from_length; reflexivity|].
  split; [reflexivity|]. split; [reflexivity|]. split.
  { apply number_from_sorted. now apply sorted_take. }
  split.
  - intros c Hc.
    destruct (number_from_elem _ _ _ Hc) as (r & k & Hr & ->).
    cbn [renumber candidate_probability l1_change].
    apply elem_of_take in Hr as (i & Hi & _). apply list_elem_of_lookup_2 in Hi.
    split.
    + apply elem_of_cons in Hi as [-> | Hi]; [cbn [fst]; lra|].
      apply Sorted.StronglySorted_inv in Hsorted as [_ Hall].
      rewrite Forall_forall in Hall. specialize (Hall r Hi).
      apply ranked_not_after in Hall. exact Hall.
    + destruct (Hfrom r Hi) as (c & Hc' & Ha & _ & _ & _ & Hl1).
      apply Hspec in Hc' as (adjusted & _ & Ha' & Hl1' & Hb).
      rewrite Ha in Ha'. injection Ha' as <-.
      rewrite Hl1, <- Hl1'. split; [|exact Hb].
      rewrite Hl1'. 
      unfold l1_change_from.
      repeat match goal with
             | |- context [Qabs ?x] =>
                 lazymatch goal with
                 | _ : 0 <= Qabs x |- _ => fail
                 | _ => pose proof (Qabs_nonneg x)
                 end
             end.
      lra.
  - destruct (Hfrom (best, best_params) (list_elem_of_here _ _))
      as (c & Hc' & Ha & _ & Hs & Hat & Hl1).
    apply Hspec in Hc' as (adjusted & Hin & _).
    exists (cand_serve_short_delta c, cand_attack_delta c).
    cbn [fst snd renumber l1_change serve_short_delta attack_delta] in *.
    now repeat split.
Qed.


Lemma strategy_result_is_ranked_witness :
  exists res,
    snd (strategy mock_world sample_matchup "/runs/s1" "mock" 3 (3 # 10) None None fresh)
      = inr res /\
    map rank (top_alternatives res) = seqZ 1 (Z.of_nat (length (top_alternatives res))).
Proof.
  destruct (snd (strategy mock_world sample_matchup "/runs/s1" "mock" 3 (3 # 10)
                   None None fresh)) as [ex|res] eqn:E;
    [vm_compute in E; discriminate E|].
  exists res. split; [reflexivity|].
  apply (strategy_result_is_ranked mock_world sample_matchup "/runs/s1" "mock" 3 (3 # 10)
           None None fresh res E).
Defined.

End StrategyRanking.

(** ** The estimator and coach/data/stats_builder.py: what reaches the model *)

Section EstimatorOutput.
Import Utils LocalCsv.

Lemma weights_sum_positive (weight : PerspectiveRow -> Z) (rows : list PerspectiveRow) :
  (forall r, 1 <= weight r)%Z -> (Z.of_nat (length rows) <= sum_Z weight rows)%Z.
Proof.
  intros Hw. induction rows as [|r rows IH]; cbn [sum_Z fold_right length].
  - lia.
  - fold (sum_Z weight rows). specialize (Hw r). lia.
Qed.

Lemma weighted_sum_bounds (rate : PerspectiveRow -> Q) (weight : PerspectiveRow -> Z)
    (rows : list PerspectiveRow) :
  (forall r, 1 <= weight r)%Z ->
  Forall (fun r => 0 <= rate r /\ rate r <= 1) rows ->
  0 <= sum_Q (fun r => rate r * inject_Z (weight r)) rows /\
  sum_Q (fun r => rate r * inject_Z (weight r)) rows <= inject_Z (sum_Z weight rows).
Proof.
  intros Hw Hr. induction Hr as [|r rows [H0 H1] Hrows IH]; cbn [sum_Q sum_Z fold_right].
  - split; apply Qle_refl.
  - fold (sum_Q (fun r => rate r * inject_Z (weight r)) rows). fold (sum_Z weight rows).
    rewrite inject_Z_plus.
    assert (1 <= inject_Z (weight r)) as Hwr.
    { change 1 with (inject_Z 1). rewrite <- Zle_Qle. apply Hw. }
    destruct IH as [IH0 IH1]. split; nra.
Qed.

(** A weighted mean of rates between 0 and 1, with weights of at least
    1, lies between 0 and 1. *)
Lemma weighted_mean_unit (rate : PerspectiveRow -> Q) (weight : PerspectiveRow -> Z)
    (rows : list PerspectiveRow) :
  rows <> [] ->
  (forall r, 1 <= weight r)%Z ->
  Forall (fun r => 0 <= rate r /\ rate r <= 1) rows ->
  0 <= weighted_mean rate weight rows /\ weighted_mean rate weight rows <= 1.
Proof.
  intros Hne Hw Hr. unfold weighted_mean.
  destruct (weighted_sum_bounds rate weight rows Hw Hr) as [H0 H1].
  pose proof (weights_sum_positive weight rows Hw) as Hpos.
  assert (0 < inject_Z (sum_Z weight rows)) as Hq.
  { change 0 with (inject_Z 0). rewrite <- Zlt_Qlt.
    destruct rows; [contradiction|]. cbn [length] in Hpos. lia. }
  split.
  - apply Qle_shift_div_l; [exact Hq|]. lra.
  - apply Qle_shift_div_r; [exact Hq|]. lra.
Qed.

Lemma serve_weight_positive (r : PerspectiveRow) : (1 <= serve_weight r)%Z.
Proof. unfold serve_weight, clip_lower_1. lia. Qed.

Lemma smooth_probability_returns (laplace_alpha wins trials : Q) (alpha : option Q) :
  ~ trials + 2 * default laplace_alpha alpha == 0 ->
  _smooth_probability laplace_alpha wins trials alpha
  = Some ((wins + default laplace_alpha alpha) / (trials + 2 * default laplace_alpha alpha)).
Proof.
  intros H. destruct (smooth_probability_cases laplace_alpha wins trials alpha)
    as [[Hz _] | [_ E]]; [now destruct H | exact E].
Qed.

Lemma matches_positive (rows : list PerspectiveRow) :
  rows <> [] -> 1 <= inject_Z (Z.of_nat (length rows)).
Proof.
  intros H. destruct rows as [|r rows]; [contradiction|].
  change 1 with (inject_Z 1). rewrite <- Zle_Qle. cbn [length]. lia.
Qed.

(** The rally counts of a window, as the estimator needs them: with a
    positive smoothing strength no denominator is zero. *)
Definition counted (rows : list PerspectiveRow) : Prop :=
  (0 <= sum_Z serve_rallies rows)%Z /\ (0 <= sum_Z receive_rallies rows)%Z.

(** What the estimator returns for a window with at least one match
    whose short-serve rates lie between 0 and 1. *)
Lemma estimated_mixes (alpha : Q) (rows : list PerspectiveRow) :
  0 < alpha -> counted rows ->
  rows <> [] ->
  Forall (fun r => 0 <= short_rate r /\ short_rate r <= 1) rows ->
  exists st,
    get_player_params alpha rows = Some st /\
    matches st = Z.of_nat (length rows) /\
    (1 # 52 <= serve_mix_short st /\ serve_mix_short st <= 51 # 52) /\
    serve_mix_flick st = 1 - serve_mix_short st /\
    1 # 37 <= rally_style_attack st /\
    1 # 37 <= rally_style_neutral st /\
    1 # 37 <= rally_style_safe st /\
    rally_style_attack st + rally_style_neutral st + rally_style_safe st == 1.
Proof.
  intros Halpha [Hcs Hcr] Hne Hshort.
  destruct (weighted_mean_unit short_rate serve_weight rows Hne serve_weight_positive Hshort)
    as [Hm0 Hm1].
  pose proof (matches_positive rows Hne) as Hlen.
  assert (0 <= inject_Z (sum_Z serve_rallies rows)) as Qs.
  { change 0 with (inject_Z 0). now rewrite <- Zle_Qle. }
  assert (0 <= inject_Z (sum_Z receive_rallies rows)) as Qr.
  { change 0 with (inject_Z 0). now rewrite <- Zle_Qle. }
  destruct rows as [|r rows]; [contradiction|].
  unfold get_player_params. cbv zeta.
  rewrite (smooth_probability_returns alpha _ (inject_Z (sum_Z serve_rallies (r :: rows))) None)
    by (cbn [default from_option]; lra).
  rewrite (smooth_probability_returns alpha _ (inject_Z (sum_Z receive_rallies (r :: rows)))
             None) by (cbn [default from_option]; lra).
  rewrite (smooth_probability_returns alpha _ (inject_Z (Z.of_nat (length (r :: rows))))
             (Some (15 # 10))) by (cbn [default from_option]; unfold Datatypes.id; lra).
  cbn [mbind option_bind].
  eexists. split; [reflexivity|].
  cbn [matches serve_mix_short serve_mix_flick rally_style_attack rally_style_neutral
       rally_style_safe].
  set (window := r :: rows) in *.
  change (py_max (5 # 100) (py_min (9 # 10) (weighted_mean attack_rate rally_weight window)))
    with (clamp (weighted_mean attack_rate rally_weight window) (5 # 100) (9 # 10)).
  change (py_max (5 # 100) (py_min (9 # 10) (weighted_mean safe_rate rally_weight window)))
    with (clamp (weighted_mean safe_rate rally_weight window) (5 # 100) (9 # 10)).
  destruct (clamped_rate_bounds (weighted_mean attack_rate rally_weight window)) as [Ha1 Ha2].
  destruct (clamped_rate_bounds (weighted_mean safe_rate rally_weight window)) as [Hs1 Hs2].
  set (a := clamp (weighted_mean attack_rate rally_weight window) (5 # 100) (9 # 10)) in *.
  set (s := clamp (weighted_mean safe_rate rally_weight window) (5 # 100) (9 # 10)) in *.
  pose proof (neutral_floor (1 - a - s)) as Hn.
  assert (py_max (5 # 100) (1 - a - s) <= 1) as Hn1.
  { destruct (py_max_spec (5 # 100) (1 - a - s)) as [[_ ->] | [_ ->]]; lra. }
  set (n := py_max (5 # 100) (1 - a - s)) in *.
  set (m := weighted_mean short_rate serve_weight window) in *.
  assert (0 < a + n + s) as Ht0 by lra.
  assert (a + n + s <= 185 # 100) as Ht1.
  { unfold n. destruct (py_max_spec (5 # 100) (1 - a - s)) as [[_ ->] | [_ ->]]; lra. }
  split; [reflexivity|]. unfold alpha_mix. split; [|split; [reflexivity|]].
  - split.
    + apply Qle_shift_div_l; lra.
    + apply Qle_shift_div_r; lra.
  - split; [apply Qle_shift_div_l; lra|].
    split; [apply Qle_shift_div_l; lra|].
    split; [apply Qle_shift_div_l; lra|].
    field. lra.
Qed.

End EstimatorOutput.

Section BuildMatchupParams.
Import Utils LocalCsv StatsBuilder.

Lemma np_clip_bounds (x lo hi : Q) :
  lo <= hi -> lo <= np_clip x lo hi /\ np_clip x lo hi <= hi.
Proof.
  intros H. unfold np_clip.
  destruct (py_max_spec x lo) as [[H1 E1] | [H1 E1]]; rewrite E1;
    [destruct (py_min_spec lo hi) as [[H2 ->] | [H2 ->]]
    |destruct (py_min_spec x hi) as [[H2 ->] | [H2 ->]]]; split; lra.
Qed.

Lemma weight_ok_true (x : Q) : 1 # 100 <= x -> x <= 2 # 10 -> Params.weight_ok x = true.
Proof.
  intros H1 H2. unfold Params.weight_ok. apply andb_true_intro. split.
  - apply Qlt_bool_true. lra.
  - apply Qle_bool_iff. lra.
Qed.

(** A fit whose slopes are numbers (infinite ones included). *)
Definition fit_usable (fit : lstsq_result) : Prop :=
  match fit with
  | LstsqRaised => False
  | Slopes b1 b2 b3 => b1 <> NpNaN /\ b2 <> NpNaN /\ b3 <> NpNaN
  end.

Lemma clipped_weight_bounds (b : np_float) :
  b <> NpNaN ->
  exists w, clipped_weight b = Some w /\ 1 # 100 <= w /\ w <= 2 # 10.
Proof.
  intros H. destruct b as [x| |]; [| |contradiction]; cbn [clipped_weight].
  - eexists. split; [reflexivity|]. apply np_clip_bounds. lra.
  - eexists. split; [reflexivity|]. split; lra.
Qed.

(** With fewer than ten matches, or a fit whose slopes are numbers, the
    weights pass the validator of [InfluenceWeights]: each lies in
    [0.01, 0.2]. *)
Lemma estimate_influence_weights_valid (n_matches : nat) (fit : lstsq_result) :
  (n_matches < 10)%nat \/ fit_usable fit ->
  exists w,
    estimate_influence_weights n_matches fit = Some w /\
    Params.InfluenceWeights_valid w = true /\
    (1 # 100 <= Params.w_short w /\ Params.w_short w <= 2 # 10) /\
    (1 # 100 <= Params.w_attack w /\ Params.w_attack w <= 2 # 10) /\
    (1 # 100 <= Params.w_safe w /\ Params.w_safe w <= 2 # 10).
Proof.
  intros H. unfold estimate_influence_weights.
  destruct (n_matches <? 10)%nat eqn:E.
  - exists default_weights. repeat split; cbn; discriminate.
  - apply Nat.ltb_ge in E. destruct H as [H | H]; [lia|].
    destruct fit as [|b1 b2 b3]; [contradiction|]. destruct H as (N1 & N2 & N3).
    destruct (clipped_weight_bounds b1 N1) as (w1 & -> & H1 & H1').
    destruct (clipped_weight_bounds b2 N2) as (w2 & -> & H2 & H2').
    destruct (clipped_weight_bounds b3 N3) as (w3 & -> & H3 & H3').
    cbn [mbind option_bind].
    match goal with
    | |- context [Params.InfluenceWeights_valid ?w] =>
        assert (Params.InfluenceWeights_valid w = true) as Hv
    end.
    { unfold Params.InfluenceWeights_valid.
      cbn [Params.w_short Params.w_attack Params.w_safe].
      now rewrite !weight_ok_true. }
    rewrite Hv. eexists. split; [reflexivity|]. split; [exact Hv|].
    cbn [Params.w_short Params.w_attack Params.w_safe]. now repeat split.
Qed.

Lemma base_ok_clamp (x : Q) : Params.base_ok (clamp_default x) = true.
Proof.
  destruct (clamp_default_bounds x) as [H1 H2].
  unfold Params.base_ok. apply andb_true_intro.
  split; now apply Qle_bool_iff.
Qed.

(** [_build_player_params] accepts what the estimator returns. *)
Lemma build_player_params_accepts (player_id name : string) (st : PlayerStats)
    (sample_matches : Z) :
  Params.not_empty player_id = true -> Params.not_empty name = true ->
  (0 <= sample_matches)%Z ->
  (0 <= serve_mix_short st /\ serve_mix_short st <= 1) ->
  serve_mix_flick st = 1 - serve_mix_short st ->
  0 <= rally_style_attack st -> 0 <= rally_style_neutral st -> 0 <= rally_style_safe st ->
  rally_style_attack st + rally_style_neutral st + rally_style_safe st == 1 ->
  exists p,
    _build_player_params player_id name st sample_matches = Some p /\
    Params.PlayerParams_valid p = true /\
    Params.player_id p = player_id /\ Params.name p = name /\
    Params.base_srv_win p = clamp_default (base_srv_win st) /\
    Params.base_rcv_win p = clamp_default (base_rcv_win st) /\
    Params.short (Params.serve_mix p) = serve_mix_short st /\
    Params.flick (Params.serve_mix p) = serve_mix_flick st /\
    Params.attack (Params.rally_style p) = rally_style_attack st /\
    Params.neutral (Params.rally_style p) = rally_style_neutral st /\
    Params.safe (Params.rally_style p) = rally_style_safe st /\
    Params.sample_matches p = sample_matches.
Proof.
  intros Hid Hname Hm [Hs0 Hs1] Hf Ha Hn Hs Hsum.
  unfold _build_player_params, Params.new_ServeMix, Params.new_RallyStyleMix.
  assert (Params.ServeMix_valid
            {| Params.short := serve_mix_short st; Params.flick := serve_mix_flick st |}
          = true) as Hsm.
  { apply ServeMix_valid_iff. cbn [Params.short Params.flick]. rewrite Hf.
    unfold Params.tolerance. repeat split; lra. }
  assert (Params.RallyStyleMix_valid
            {| Params.attack := rally_style_attack st;
               Params.neutral := rally_style_neutral st;
               Params.safe := rally_style_safe st |} = true) as Hrs.
  { apply RallyStyleMix_valid_iff. cbn [Params.attack Params.neutral Params.safe].
    unfold Params.tolerance. repeat split; lra. }
  rewrite Hsm. cbn [mbind option_bind]. rewrite Hrs. cbn [mbind option_bind].
  match goal with
  | |- context [Params.PlayerParams_valid ?p] =>
      assert (Params.PlayerParams_valid p = true) as Hv
  end.
  { unfold Params.PlayerParams_valid.
    cbn [Params.player_id Params.name Params.base_srv_win Params.base_rcv_win
         Params.serve_mix Params.rally_style Params.sample_matches].
    rewrite Hid, Hname, !base_ok_clamp, Hsm, Hrs. cbn [andb].
    apply Z.leb_le. exact Hm. }
  rewrite Hv. eexists. split; [reflexivity|]. split; [exact Hv|]. now repeat split.
Qed.

Definition rates_in_unit (row : MatchRow) : Prop :=
  (0 <= a_short_serve_rate row /\ a_short_serve_rate row <= 1) /\
  (0 <= b_short_serve_rate row /\ b_short_serve_rate row <= 1).

Lemma perspective_short_rates (player_id : string) (rows : list MatchRow) :
  Forall rates_in_unit rows ->
  Forall (fun r => 0 <= short_rate r /\ short_rate r <= 1)
         (_perspective_frame rows player_id).
Proof.
  intros H. unfold _perspective_frame. apply Forall_fmap.
  eapply Forall_impl; [exact H|]. intros row [Ha Hb]. unfold compose, perspective.
  destruct (String.eqb _ _); cbn [short_rate]; assumption.
Qed.

(** The rally counts of a row are not negative. *)
Definition counts_nonneg (row : MatchRow) : Prop :=
  (0 <= a_serve_rallies row)%Z /\ (0 <= b_serve_rallies row)%Z.

Lemma perspective_counted (player_id : string) (rows : list MatchRow) :
  Forall counts_nonneg rows -> counted (_perspective_frame rows player_id).
Proof.
  unfold _perspective_frame, counted.
  induction 1 as [|row rows [Ha Hb] Hrows [IH1 IH2]]; [cbn; lia|].
  cbn [map sum_Z fold_right].
  fold (sum_Z serve_rallies (map (perspective player_id) rows)).
  fold (sum_Z receive_rallies (map (perspective player_id) rows)).
  assert (0 <= serve_rallies (perspective player_id row)
          /\ 0 <= receive_rallies (perspective player_id row))%Z as [H1 H2].
  { unfold perspective. destruct (String.eqb _ _); cbn [serve_rallies receive_rallies]; lia. }
  lia.
Qed.

(** The head-to-head record of a window whose rally counts are not
    negative. *)
Lemma get_head_to_head_returns (alpha : Q) (rows : list PerspectiveRow) :
  counted rows -> rows <> [] ->
  get_head_to_head alpha rows
  = Some {| h2h_matches := Z.of_nat (length rows);
            a_win_rate :=
              (inject_Z (count_won rows) + 1) / (inject_Z (Z.of_nat (length rows)) + 2 * 1);
            a_srv_win :=
              (inject_Z (sum_Z serve_wins rows) + (15 # 10))
              / (inject_Z (sum_Z serve_rallies rows) + 2 * (15 # 10));
            a_rcv_win :=
              (inject_Z (sum_Z receive_wins rows) + (15 # 10))
              / (inject_Z (sum_Z receive_rallies rows) + 2 * (15 # 10)) |}.
Proof.
  intros [Hcs Hcr] Hne.
  pose proof (matches_positive rows Hne) as Hlen.
  assert (0 <= inject_Z (sum_Z serve_rallies rows)) as Qs.
  { change 0 with (inject_Z 0). now rewrite <- Zle_Qle. }
  assert (0 <= inject_Z (sum_Z receive_rallies rows)) as Qr.
  { change 0 with (inject_Z 0). now rewrite <- Zle_Qle. }
  destruct rows as [|r rows]; [contradiction|].
  unfold get_head_to_head. cbv zeta.
  rewrite (smooth_probability_returns alpha _ (inject_Z (Z.of_nat (length (r :: rows))))
             (Some 1)) by (cbn [default from_option]; unfold Datatypes.id; lra).
  rewrite (smooth_probability_returns alpha _ (inject_Z (sum_Z serve_rallies (r :: rows)))
             (Some (15 # 10))) by (cbn [default from_option]; unfold Datatypes.id; lra).
  rewrite (smooth_probability_returns alpha _ (inject_Z (sum_Z receive_rallies (r :: rows)))
             (Some (15 # 10))) by (cbn [default from_option]; unfold Datatypes.id; lra).
  reflexivity.
Qed.

Lemma get_head_to_head_counted (alpha : Q) (rows : list PerspectiveRow) :
  counted rows -> exists h, get_head_to_head alpha rows = Some h.
Proof.
  intros H. destruct rows as [|r rows]; [cbn; eauto|].
  rewrite get_head_to_head_returns; [eauto | exact H | discriminate].
Qed.

(** X11. For two different players with non-blank identifiers and
    names, each with at least one match in the window, with a positive
    smoothing strength, rally counts that are not negative, short-serve
    rates between 0 and 1, and either fewer than ten matches in the
    table or a fit whose slopes are numbers, [build_matchup_params] does
    not raise: the parameters it returns pass every validator (21
    points, cap 30, best of 3, weights in [0.01, 0.2]); player A's base
    rates are the blend of the own and the head-to-head rate, clamped;
    and player A's neutral and safe shares are at least 1/37 each, so
    every adjustment of the strategy search succeeds and, for a bound of
    at least 0.15, the search has candidates. *)
Theorem build_matchup_params_accepted (laplace_alpha : Q)
    (a_id a_name b_id b_name : string) (a_rows b_rows h2h_rows : list MatchRow)
    (n_matches : nat) (fit : lstsq_result) :
  a_id <> b_id ->
  Params.not_empty a_id = true -> Params.not_empty a_name = true ->
  Params.not_empty b_id = true -> Params.not_empty b_name = true ->
  0 < laplace_alpha ->
  (n_matches < 10)%nat \/ fit_usable fit ->
  a_rows <> [] -> b_rows <> [] ->
  Forall counts_nonneg a_rows -> Forall counts_nonneg b_rows ->
  Forall counts_nonneg h2h_rows ->
  Forall rates_in_unit a_rows -> Forall rates_in_unit b_rows ->
  exists m a_stats h2h,
    build_matchup_params laplace_alpha a_id a_name b_id b_name a_rows b_rows h2h_rows
      n_matches fit = Some m /\
    Params.MatchupParams_valid m = true /\
    Params.target m = 21%Z /\ Params.cap m = 30%Z /\ Params.best_of m = 3%Z /\
    get_player_params laplace_alpha (_perspective_frame a_rows a_id) = Some a_stats /\
    get_head_to_head laplace_alpha (_perspective_frame h2h_rows a_id) = Some h2h /\
    (let blend := blend_weight (h2h_matches h2h) in
     Params.base_srv_win (Params.player_a m)
       = clamp_default (blended blend (base_srv_win a_stats) (a_srv_win h2h)) /\
     Params.base_rcv_win (Params.player_a m)
       = clamp_default (blended blend (base_rcv_win a_stats) (a_rcv_win h2h))) /\
    Params.sample_matches (Params.player_a m) = Z.of_nat (length a_rows) /\
    Params.sample_matches (Params.player_b m) = Z.of_nat (length b_rows) /\
    1 # 37 <= Params.neutral (Params.rally_style (Params.player_a m)) /\
    1 # 37 <= Params.safe (Params.rally_style (Params.player_a m)) /\
    (forall ds da, is_Some (Params.with_adjustments m ds da)) /\
    (forall l1_bound, 15 # 100 <= l1_bound ->
       exists generated,
         Service._generate_candidates m l1_bound = Some generated /\ generated <> []).
Proof.
  intros Hab Haid Haname Hbid Hbname Halpha Hfit Hane Hbne Hac Hbc Hhc Har Hbr.
  unfold build_matchup_params.
  assert (String.eqb a_id b_id = false) as -> by now apply String.eqb_neq.
  destruct (estimated_mixes laplace_alpha (_perspective_frame a_rows a_id))
    as (sa & Esa & Hma & [Hsa0 Hsa1] & Hfa & Haa & Hna & Hsfa & Hsuma).
  { exact Halpha. }
  { now apply perspective_counted. }
  { unfold _perspective_frame. destruct a_rows; [contradiction|discriminate]. }
  { now apply perspective_short_rates. }
  destruct (estimated_mixes laplace_alpha (_perspective_frame b_rows b_id))
    as (sb & Esb & Hmb & [Hsb0 Hsb1] & Hfb & Hab' & Hnb & Hsfb & Hsumb).
  { exact Halpha. }
  { now apply perspective_counted. }
  { unfold _perspective_frame. destruct b_rows; [contradiction|discriminate]. }
  { now apply perspective_short_rates. }
  rewrite Esa, Esb. cbn [mbind option_bind].
  destruct (get_head_to_head_counted laplace_alpha (_perspective_frame h2h_rows a_id)
              (perspective_counted a_id h2h_rows Hhc)) as [h2h Eh].
  rewrite Eh. cbn [mbind option_bind].
  destruct (estimate_influence_weights_valid n_matches fit Hfit) as (w & -> & Hw & _).
  cbn [mbind option_bind].
  set (blend := blend_weight (h2h_matches h2h)).
  unfold _perspective_frame in Hma, Hmb. rewrite length_map in Hma, Hmb.
  destruct (build_player_params_accepts a_id a_name
              (with_base_rates sa (blended blend (base_srv_win sa) (a_srv_win h2h))
                 (blended blend (base_rcv_win sa) (a_rcv_win h2h)))
              (matches sa))
    as (pa & Epa & Hpa & Hpa_id & Hpa_name & Hpa_srv & Hpa_rcv & Hpa_short & Hpa_flick
        & Hpa_attack & Hpa_neutral & Hpa_safe & Hpa_matches);
    cbn [with_base_rates serve_mix_short serve_mix_flick rally_style_attack
         rally_style_neutral rally_style_safe matches]; try assumption; try lia; try lra.
  destruct (build_player_params_accepts b_id b_name sb (matches sb))
    as (pb & Epb & Hpb & _ & _ & _ & _ & _ & _ & _ & _ & _ & Hpb_matches);
    try assumption; try lia; try lra.
  cbn [with_base_rates matches] in Epa |- *. rewrite Epa. cbn [mbind option_bind].
  rewrite Epb. cbn [mbind option_bind].
  match goal with
  | |- context [Params.MatchupParams_valid ?m] =>
      assert (Params.MatchupParams_valid m = true) as Hv
  end.
  { unfold Params.MatchupParams_valid.
    cbn [Params.player_a Params.player_b Params.weights Params.target Params.cap
         Params.best_of].
    rewrite Hpa, Hpb, Hw. reflexivity. }
  rewrite Hv. eexists _, sa, h2h. split; [reflexivity|]. split; [exact Hv|].
  cbn [Params.player_a Params.player_b Params.weights Params.target Params.cap
       Params.best_of].
  cbn [with_base_rates base_srv_win base_rcv_win serve_mix_short serve_mix_flick
       rally_style_attack rally_style_neutral rally_style_safe matches]
    in Hpa_srv, Hpa_rcv, Hpa_neutral, Hpa_safe, Hpa_matches.
  do 3 (split; [reflexivity|]). split; [reflexivity|]. split; [reflexivity|].
  split; [split; assumption|].
  split; [congruence|]. split; [congruence|].
  rewrite Hpa_neutral, Hpa_safe. split; [exact Hna|]. split; [exact Hsfa|].
  assert (Params.RallyStyleMix_valid (Params.rally_style pa) = true) as Hrs.
  { unfold Params.PlayerParams_valid in Hpa.
    repeat (apply andb_prop in Hpa; destruct Hpa as [Hpa ?]). assumption. }
  assert (Params.ServeMix_valid (Params.serve_mix pa) = true) as Hsm.
  { unfold Params.PlayerParams_valid in Hpa.
    repeat (apply andb_prop in Hpa; destruct Hpa as [Hpa ?]). assumption. }
  assert (Params.tolerance
          <= Params.neutral (Params.rally_style pa) + Params.safe (Params.rally_style pa))
    as Hrem.
  { rewrite Hpa_neutral, Hpa_safe. unfold Params.tolerance. lra. }
  split.
  - intros ds da.
    match goal with
    | |- is_Some (Params.with_adjustments ?m ds da) =>
        destruct (with_adjustments_preserves_simplex m ds da Hrs Hrem) as (p' & -> & _)
    end.
    eauto.
  - intros l1_bound Hb.
    match goal with
    | |- exists g, Service._generate_candidates ?m l1_bound = Some g /\ _ =>
        destruct (generate_candidates_succeeds m l1_bound Hrs Hrem) as [generated Hg];
        exists generated; split; [exact Hg|];
        exact (generate_candidates_nonempty m l1_bound generated Hsm Hrs Hrem Hb Hg)
    end.
Qed.

Definition sample_row : MatchRow :=
  {| playerA_id := "a"; playerB_id := "b"; winner_id := "a";
     a_serve_rallies := 30; a_serve_wins := 18;
     b_serve_rallies := 28; b_serve_wins := 13;
     a_short_serve_rate := 7 # 10; a_flick_serve_rate := 3 # 10;
     a_attack_rate := 5 # 10; a_neutral_rate := 3 # 10; a_safe_rate := 2 # 10;
     b_short_serve_rate := 6 # 10; b_flick_serve_rate := 4 # 10;
     b_attack_rate := 4 # 10; b_neutral_rate := 3 # 10; b_safe_rate := 3 # 10;
     a_points := 42; b_points := 35 |}.

Lemma build_matchup_params_accepted_witness :
  exists m,
    build_matchup_params 2 "a" "Player A" "b" "Player B"
      [sample_row] [sample_row] [sample_row] 1 LstsqRaised = Some m /\
    Params.MatchupParams_valid m = true.
Proof.
  destruct (build_matchup_params_accepted 2 "a" "Player A" "b" "Player B"
              [sample_row] [sample_row] [sample_row] 1 LstsqRaised)
    as (m & st & h & Hm & Hv & _);
    [discriminate | reflexivity | reflexivity | reflexivity | reflexivity
    | reflexivity | left; lia
    | discriminate | discriminate
    | constructor; [split; discriminate | constructor]
    | constructor; [split; discriminate | constructor]
    | constructor; [split; discriminate | constructor]
    | repeat constructor; cbn; discriminate
    | repeat constructor; cbn; discriminate |].
  exists m. split; [exact Hm | exact Hv].
Defined.

(** X12. The head-to-head record never weighs more than 35 % in player
    A's base rates: the weight is 0 without a head-to-head match,
    m / (m + 12) for 1 to 6 matches and 0.35 from 7 matches on, it grows
    with the number of matches, and the blended rate lies between the
    player's own rate and the head-to-head rate. *)
Theorem blend_weight_bounds :
  (forall m, 0 <= blend_weight m /\ blend_weight m <= 35 # 100) /\
  (forall m, (m <= 0)%Z -> blend_weight m = 0) /\
  (forall m, (1 <= m <= 6)%Z -> blend_weight m == inject_Z m / (inject_Z m + 12)) /\
  (forall m, (7 <= m)%Z -> blend_weight m == 35 # 100) /\
  (forall m m', (m <= m')%Z -> blend_weight m <= blend_weight m') /\
  (forall m own h2h,
     own <= h2h ->
     own <= blended (blend_weight m) own h2h /\
     blended (blend_weight m) own h2h <= own + (35 # 100) * (h2h - own)) /\
  (forall m own h2h,
     h2h <= own ->
     own - (35 # 100) * (own - h2h) <= blended (blend_weight m) own h2h /\
     blended (blend_weight m) own h2h <= own).
Proof.
  assert (forall m, (0 < m)%Z -> 0 < inject_Z m + 12) as Hden.
  { intros m Hm. assert (0 < inject_Z m); [|lra].
    change 0 with (inject_Z 0). now rewrite <- Zlt_Qlt. }
  assert (forall m, (0 < m)%Z ->
            0 <= inject_Z m / (inject_Z m + 12)) as Hratio0.
  { intros m Hm. specialize (Hden m Hm). apply Qle_shift_div_l; [exact Hden|].
    assert (0 < inject_Z m); [|lra].
    change 0 with (inject_Z 0). now rewrite <- Zlt_Qlt. }
  assert (forall m, 0 <= blend_weight m /\ blend_weight m <= 35 # 100) as Hrange.
  { intros m. unfold blend_weight. destruct (0 <? m)%Z eqn:E; [|split; lra].
    apply Z.ltb_lt in E. specialize (Hratio0 m E).
    destruct (py_min_spec (35 # 100) (inject_Z m / (inject_Z m + 12)))
      as [[H ->] | [H ->]]; split; lra. }
  assert (forall m m', (0 < m <= m')%Z ->
            inject_Z m / (inject_Z m + 12) <= inject_Z m' / (inject_Z m' + 12)) as Hmono.
  { intros m m' [Hm Hmm'].
    pose proof (Hden m Hm) as H1. pose proof (Hden m' ltac:(lia)) as H2.
    assert (inject_Z m <= inject_Z m') as Hq by (rewrite <- Zle_Qle; exact Hmm').
    apply Qle_shift_div_l; [exact H2|].
    assert (inject_Z m / (inject_Z m + 12) * (inject_Z m' + 12)
            == inject_Z m * (inject_Z m' + 12) / (inject_Z m + 12)) as -> by (field; lra).
    apply Qle_shift_div_r; [exact H1|]. nra. }
  split; [exact Hrange|]. split; [|split; [|split; [|split; [|split]]]].
  - intros m Hm. unfold blend_weight.
    now assert ((0 <? m)%Z = false) as -> by (apply Z.ltb_ge; lia).
  - intros m Hm. unfold blend_weight.
    assert ((0 <? m)%Z = true) as -> by (apply Z.ltb_lt; lia).
    destruct (py_min_spec (35 # 100) (inject_Z m / (inject_Z m + 12)))
      as [[H ->] | [H ->]]; [reflexivity|].
    pose proof (Hmono m 6%Z ltac:(lia)) as H6.
    change (inject_Z 6 / (inject_Z 6 + 12)) with ((6 # 1) / ((6 # 1) + 12)) in H6.
    assert ((6 # 1) / ((6 # 1) + 12) == 1 # 3) as E6 by reflexivity.
    rewrite E6 in H6. lra.
  - intros m Hm. unfold blend_weight.
    assert ((0 <? m)%Z = true) as -> by (apply Z.ltb_lt; lia).
    destruct (py_min_spec (35 # 100) (inject_Z m / (inject_Z m + 12)))
      as [[H ->] | [H ->]]; [|reflexivity].
    pose proof (Hmono 7%Z m ltac:(lia)) as H7.
    change (inject_Z 7 / (inject_Z 7 + 12)) with ((7 # 1) / ((7 # 1) + 12)) in H7.
    assert ((7 # 1) / ((7 # 1) + 12) == 7 # 19) as E7 by reflexivity.
    rewrite E7 in H7. lra.
  - intros m m' Hmm'. destruct (Hrange m') as [H0' _].
    unfold blend_weight in *.
    destruct (0 <? m)%Z eqn:E; [|exact H0'].
    apply Z.ltb_lt in E.
    assert ((0 <? m')%Z = true) as E' by (apply Z.ltb_lt; lia).
    rewrite E' in *.
    pose proof (Hmono m m' ltac:(lia)) as Hm.
    destruct (py_min_spec (35 # 100) (inject_Z m / (inject_Z m + 12)))
      as [[H ->] | [H ->]];
      destruct (py_min_spec (35 # 100) (inject_Z m' / (inject_Z m' + 12)))
        as [[H' ->] | [H' ->]]; lra.
  - intros m own h2h Ho. destruct (Hrange m) as [H0 H1]. unfold blended. split; nra.
  - intros m own h2h Ho. destruct (Hrange m) as [H0 H1]. unfold blended. split; nra.
Qed.

End BuildMatchupParams.

Section HeadToHeadMirror.
Import Utils LocalCsv StatsBuilder.

(** A row of the head-to-head record of [a] and [b]. *)
Definition between (a b : string) (row : MatchRow) : Prop :=
  (playerA_id row = a /\ playerB_id row = b) \/ (playerA_id row = b /\ playerB_id row = a).

Lemma perspective_mirror (a b : string) (row : MatchRow) :
  a <> b -> between a b row ->
  receive_rallies (perspective a row) = serve_rallies (perspective b row) /\
  receive_wins (perspective a row)
    = (serve_rallies (perspective b row) - serve_wins (perspective b row))%Z /\
  serve_rallies (perspective a row) = receive_rallies (perspective b row) /\
  (serve_rallies (perspective a row) - serve_wins (perspective a row))%Z
    = receive_wins (perspective b row) /\
  points_for (perspective a row) = points_against (perspective b row) /\
  points_against (perspective a row) = points_for (perspective b row) /\
  ((winner_id row = a \/ winner_id row = b) ->
   won (perspective a row) = negb (won (perspective b row))).
Proof.
  intros Hab [[HA HB] | [HA HB]]; unfold perspective; rewrite HA.
  - rewrite String.eqb_refl.
    assert (String.eqb a b = false) as -> by now apply String.eqb_neq.
    cbn. rewrite HB. repeat split.
    intros [-> | ->].
    + rewrite String.eqb_refl. now assert (String.eqb a b = false) as -> by now apply String.eqb_neq.
    + rewrite String.eqb_refl. now assert (String.eqb b a = false) as -> by (apply String.eqb_neq; congruence).
  - assert (String.eqb b a = false) as -> by (apply String.eqb_neq; congruence).
    rewrite String.eqb_refl. cbn. rewrite HB. repeat split.
    intros [-> | ->].
    + rewrite String.eqb_refl. now assert (String.eqb a b = false) as -> by now apply String.eqb_neq.
    + rewrite String.eqb_refl. now assert (String.eqb b a = false) as -> by (apply String.eqb_neq; congruence).
Qed.

Lemma mirrored_sums (a b : string) (rows : list MatchRow) :
  a <> b -> Forall (between a b) rows ->
  sum_Z receive_rallies (_perspective_frame rows a)
    = sum_Z serve_rallies (_perspective_frame rows b) /\
  sum_Z receive_wins (_perspective_frame rows a)
    = (sum_Z serve_rallies (_perspective_frame rows b)
       - sum_Z serve_wins (_perspective_frame rows b))%Z.
Proof.
  intros Hab H. unfold _perspective_frame.
  induction H as [|row rows Hrow Hrows [IH1 IH2]]; [now split|].
  cbn [map sum_Z fold_right].
  fold (sum_Z receive_rallies (map (perspective a) rows)).
  fold (sum_Z receive_wins (map (perspective a) rows)).
  fold (sum_Z serve_rallies (map (perspective b) rows)).
  fold (sum_Z serve_wins (map (perspective b) rows)).
  destruct (perspective_mirror a b row Hab Hrow) as (E1 & E2 & _).
  rewrite E1, E2, IH1, IH2. split; lia.
Qed.

Lemma mirrored_wins (a b : string) (rows : list MatchRow) :
  a <> b -> Forall (between a b) rows ->
  Forall (fun row => winner_id row = a \/ winner_id row = b) rows ->
  (count_won (_perspective_frame rows a) + count_won (_perspective_frame rows b)
   = Z.of_nat (length rows))%Z.
Proof.
  intros Hab H Hw. unfold _perspective_frame, count_won.
  induction H as [|row rows Hrow Hrows IH]; [reflexivity|].
  apply Forall_cons in Hw as [Hw1 Hw].
  cbn [map sum_Z fold_right length].
  fold (sum_Z (fun r => if won r then 1 else 0)%Z (map (perspective a) rows)).
  fold (sum_Z (fun r => if won r then 1 else 0)%Z (map (perspective b) rows)).
  specialize (IH Hw).
  destruct (perspective_mirror a b row Hab Hrow) as (_ & _ & _ & _ & _ & _ & E).
  rewrite (E Hw1). destruct (won (perspective b row)); cbn [negb]; lia.
Qed.

(** X13. The head-to-head record is the same seen from either side:
    over the same rows, with rally counts that are not negative, the
    record is returned for both players, the receive win rate estimated
    for one is exactly the complement of the serve win rate estimated
    for the other, the two count the same number of matches, and when
    every row names one of the two as the winner their match win rates
    are complements too. *)
Theorem head_to_head_mirrors (laplace_alpha : Q) (a b : string) (rows : list MatchRow) :
  a <> b ->
  Forall (between a b) rows ->
  Forall (fun row => (0 <= a_serve_rallies row)%Z /\ (0 <= b_serve_rallies row)%Z) rows ->
  exists ha hb,
    get_head_to_head laplace_alpha (_perspective_frame rows a) = Some ha /\
    get_head_to_head laplace_alpha (_perspective_frame rows b) = Some hb /\
    h2h_matches ha = Z.of_nat (length rows) /\
    h2h_matches hb = Z.of_nat (length rows) /\
    a_rcv_win ha == 1 - a_srv_win hb /\
    a_srv_win ha == 1 - a_rcv_win hb /\
    (Forall (fun row => winner_id row = a \/ winner_id row = b) rows ->
     a_win_rate ha == 1 - a_win_rate hb).
Proof.
  intros Hab Hrows Hnn.
  destruct (mirrored_sums a b rows Hab Hrows) as [E1 E2].
  assert (Forall (between b a) rows) as Hrows'.
  { eapply Forall_impl; [exact Hrows|]. intros row [H|H]; [right|left]; exact H. }
  destruct (mirrored_sums b a rows ltac:(congruence) Hrows') as [E3 E4].
  pose proof (perspective_counted a rows Hnn) as Hca.
  pose proof (perspective_counted b rows Hnn) as Hcb.
  pose proof Hca as [Ha0 _]. pose proof Hcb as [Hb0 _].
  pose proof (mirrored_wins a b rows Hab Hrows) as Hwins.
  unfold _perspective_frame in *.
  destruct rows as [|row rows].
  - eexists _, _. split; [reflexivity|]. split; [reflexivity|].
    cbn. repeat split; reflexivity.
  - rewrite (get_head_to_head_returns laplace_alpha _ Hca) by discriminate.
    rewrite (get_head_to_head_returns laplace_alpha _ Hcb) by discriminate.
    eexists _, _. split; [reflexivity|]. split; [reflexivity|].
    cbn [map] in *.
    set (pa := perspective a row :: map (perspective a) rows) in *.
    set (pb := perspective b row :: map (perspective b) rows) in *.
    cbn [h2h_matches a_rcv_win a_srv_win a_win_rate].
    assert (length pa = length (row :: rows)) as La by (unfold pa; cbn; now rewrite length_map).
    assert (length pb = length (row :: rows)) as Lb by (unfold pb; cbn; now rewrite length_map).
    rewrite La, Lb.
    assert (0 <= inject_Z (sum_Z serve_rallies pa)) as Qa.
    { change 0 with (inject_Z 0). now rewrite <- Zle_Qle. }
    assert (0 <= inject_Z (sum_Z serve_rallies pb)) as Qb.
    { change 0 with (inject_Z 0). now rewrite <- Zle_Qle. }
    split; [reflexivity|]. split; [reflexivity|]. split; [|split].
    + rewrite E1, E2. unfold Z.sub. rewrite inject_Z_plus, inject_Z_opp. field. lra.
    + rewrite E3, E4. unfold Z.sub. rewrite inject_Z_plus, inject_Z_opp. field. lra.
    + intros Hw. specialize (Hwins Hw).
      assert (0 <= inject_Z (Z.of_nat (length (row :: rows)))) as Qn.
      { change 0 with (inject_Z 0). rewrite <- Zle_Qle. lia. }
      assert (inject_Z (count_won pa)
              == inject_Z (Z.of_nat (length (row :: rows))) - inject_Z (count_won pb)) as ->.
      { rewrite <- Hwins, inject_Z_plus. ring. }
      field. lra.
Qed.

Lemma head_to_head_mirrors_witness :
  exists ha hb,
    get_head_to_head 2 (_perspective_frame [sample_row] "a") = Some ha /\
    get_head_to_head 2 (_perspective_frame [sample_row] "b") = Some hb /\
    a_rcv_win ha == 1 - a_srv_win hb.
Proof.
  destruct (head_to_head_mirrors 2 "a" "b" [sample_row])
    as (ha & hb & Ea & Eb & _ & _ & H & _).
  - discriminate.
  - constructor; [left; split; reflexivity | constructor].
  - constructor; [cbn; lia | constructor].
  - exists ha, hb. now repeat split.
Defined.

End HeadToHeadMirror.

(** ** coach/service.py: what [_execute_pat] and [predict] report *)

Section ExecutePatReport.
Import Params Service Prediction.
Local Open Scope string_scope.

(** The invocation that [_execute_pat] hands to [run_pat]. *)
Definition service_invocation (w : world) (pcsp_path pcsp_name run_dir' mode' : string)
    (pat_path : option string) (timeout_s : option Z) : Runner.invocation :=
  let pat_console :=
    match Runner.truthy pat_path with
    | Some p => Some p
    | None => pat_console_path (config w)
    end in
  {| Runner.pcsp_path := pcsp_path; Runner.pcsp_name := pcsp_name;
     Runner.run_dir := run_dir'; Runner.out_name := "pat_output.txt";
     Runner.mode := mode'; Runner.pat_console_path := pat_console;
     Runner.timeout_s :=
       match timeout_s with
       | Some t => if (t =? 0)%Z then pat_timeout_s (config w) else t
       | None => pat_timeout_s (config w)
       end;
     Runner.use_mono := Some (resolve_use_mono (config w) pat_console) |}.

Definition service_run (w : world) (e : Runner.engine)
    (pcsp_path pcsp_name run_dir' mode' : string)
    (pat_path : option string) (timeout_s : option Z) (st : state) : Runner.run_effect :=
  Runner.run_pat (host w) e
    (service_invocation w pcsp_path pcsp_name run_dir' mode' pat_path timeout_s)
    Runner.Missing (disk st).

Lemma execute_pat_run (w : world) (e : Runner.engine)
    (pcsp_path pcsp_name run_dir' mode' : string)
    (pat_path : option string) (timeout_s : option Z) (st : state) :
  let r := service_run w e pcsp_path pcsp_name run_dir' mode' pat_path timeout_s st in
  _execute_pat w e pcsp_path pcsp_name run_dir' mode' pat_path timeout_s st
  = ({| disk := Runner.disk_after r; executed := (executed st ++ [run_dir'])%list |},
     match Runner.result r with
     | Runner.Raised ex => inl (FromRunner ex)
     | Runner.Returned result =>
         let '(probability', parse_error) :=
           match Runner.out_file_after r with
           | Runner.Content pat_out_text =>
               match Parser.parse_probability pat_out_text with
               | Parser.Parsed v => (Some v, None)
               | Parser.ValueError message => (None, Some message)
               end
           | f =>
               (None,
                Some (read_error
                        (Runner.out_path
                           (service_invocation w pcsp_path pcsp_name run_dir' mode'
                              pat_path timeout_s)) f))
           end in
         inr {| ok := Runner.ok result;
                returncode := Runner.returncode result;
                cmd := Runner.cmd result;
                stdout_path := Runner.stdout_path result;
                stderr_path := Runner.stderr_path result;
                pat_out_path := Runner.pat_out_path result;
                Service.probability := probability';
                error :=
                  if negb (Runner.ok result)
                  then Some (default "PAT execution failed" (Runner.error result))
                  else parse_error |}
     end).
Proof.
  cbv zeta. unfold _execute_pat, service_run, service_invocation. cbv zeta.
  destruct (Runner.result _); [|reflexivity].
  destruct (Runner.out_file_after _) as [| |t]; try reflexivity.
  destruct (Parser.parse_probability t); reflexivity.
Qed.

(** The probability of an execution is what parses from the output file
    after the run, whatever the run reported. *)
Lemma execute_pat_probability (w : world) (e : Runner.engine)
    (pcsp_path pcsp_name run_dir' mode' : string)
    (pat_path : option string) (timeout_s : option Z) (st : state)
    (pat_exec : PATExecution) :
  snd (_execute_pat w e pcsp_path pcsp_name run_dir' mode' pat_path timeout_s st)
    = inr pat_exec ->
  let r := service_run w e pcsp_path pcsp_name run_dir' mode' pat_path timeout_s st in
  exists p,
    Runner.result r = Runner.Returned p /\
    ok pat_exec = Runner.ok p /\
    returncode pat_exec = Runner.returncode p /\
    (forall v,
       Service.probability pat_exec = Some v <->
       exists t, Runner.out_file_after r = Runner.Content t /\
                 Parser.parse_probability t = Parser.Parsed v) /\
    (error pat_exec = None <->
     ok pat_exec = true /\ Service.probability pat_exec <> None).
Proof.
  cbv zeta. rewrite execute_pat_run. cbv zeta. cbn [snd].
  destruct (Runner.result _) as [p|ex]; [|discriminate].
  destruct (Runner.out_file_after _) as [| |t].
  - intros [= <-]. exists p. split; [reflexivity|].
    cbn [ok returncode Service.probability error]. repeat split; try discriminate.
    + intros (t & Ht & _). discriminate.
    + destruct (Runner.ok p); cbn; discriminate.
    + destruct (Runner.ok p); cbn; discriminate.
    + intros [_ H]. now destruct H.
  - intros [= <-]. exists p. split; [reflexivity|].
    cbn [ok returncode Service.probability error]. repeat split; try discriminate.
    + intros (t & Ht & _). discriminate.
    + destruct (Runner.ok p); cbn; discriminate.
    + destruct (Runner.ok p); cbn; discriminate.
    + intros [_ H]. now destruct H.
  - destruct (Parser.parse_probability t) as [v0|m] eqn:Ep;
      intros [= <-]; exists p; (split; [reflexivity|]);
      cbn [ok returncode Service.probability error]; repeat split; try discriminate.
    + intros [= <-]. now exists t.
    + intros (t' & [= <-] & Hp). rewrite Ep in Hp. now injection Hp as <-.
    + destruct (Runner.ok p); cbn; [reflexivity|discriminate].
    + intros [-> _]. reflexivity.
    + intros (t' & [= <-] & Hp). rewrite Ep in Hp. discriminate.
    + destruct (Runner.ok p); cbn; discriminate.
    + destruct (Runner.ok p); cbn; discriminate.
    + intros [_ H]. now destruct H.
Qed.


(** Outside mock mode a run is reported successful only with exit
    code 0 and an output file from which its probability parses. *)
Lemma run_pat_ok_has_output (h : Runner.host) (e : Runner.engine)
    (inv : Runner.invocation) (out_before : Runner.out_file)
    (d : gmap string Runner.artifact) (p : Runner.payload) :
  Runner.mode inv <> "mock" ->
  Runner.result (Runner.run_pat h e inv out_before d) = Runner.Returned p ->
  Runner.ok p = true ->
  Runner.returncode p = 0%Z /\
  exists t v,
    Runner.out_file_after (Runner.run_pat h e inv out_before d) = Runner.Content t /\
    Parser.parse_probability t = Parser.Parsed v /\
    Runner.probability p = Some v.
Proof.
  intros Hmode. unfold Runner.run_pat.
  assert (String.eqb (Runner.mode inv) "mock" = false) as -> by now apply String.eqb_neq.
  destruct (negb (String.eqb (Runner.mode inv) "real")); [discriminate|].
  destruct (Runner.pat_console_path inv) as [given|]; [|discriminate].
  destruct (negb (Runner.path_exists _)); [discriminate|].
  destruct (Runner.path_is_dir _); [discriminate|].
  destruct (Runner.primary_run e) as [rc so se | m | so se m | m].
  - match goal with
    | |- context [Runner.run_completed ?h0 ?e0 ?inv0 ?c ?m ?pr ?d0] =>
        destruct (run_completed_ok h0 e0 inv0 c m pr d0) as (p0 & Hres & Hout & Hrc & _ & Hok)
    end.
    rewrite Hres, Hout. intros [= <-] Ho.
    apply Hok in Ho as (Hz & _ & t & v & Ht & _ & Hp & Hpr).
    split; [now rewrite Hrc|]. now exists t, v.
  - cbn. intros [= <-]. discriminate.
  - cbn. intros [= <-]. discriminate.
  - discriminate.
Qed.

(** X14. An execution that the service returns explains itself: outside
    mock mode, [ok] implies exit code 0, a probability and no error; a
    missing probability always comes with an error message; and no error
    means that the run was ok and a probability was read.  The
    probability itself is whatever parses from the output file after the
    run, whether or not the run was ok. *)
Theorem execution_is_explained (w : world) (e : Runner.engine)
    (pcsp_path pcsp_name run_dir' mode' : string)
    (pat_path : option string) (timeout_s : option Z) (st : state)
    (pat_exec : PATExecution) :
  snd (_execute_pat w e pcsp_path pcsp_name run_dir' mode' pat_path timeout_s st)
    = inr pat_exec ->
  let r := service_run w e pcsp_path pcsp_name run_dir' mode' pat_path timeout_s st in
  (forall v,
     Service.probability pat_exec = Some v <->
     exists t, Runner.out_file_after r = Runner.Content t /\
               Parser.parse_probability t = Parser.Parsed v) /\
  (Service.probability pat_exec = None -> exists message, error pat_exec = Some message) /\
  (error pat_exec = None -> ok pat_exec = true /\ Service.probability pat_exec <> None) /\
  (mode' <> "mock" -> ok pat_exec = true ->
   returncode pat_exec = 0%Z /\ error pat_exec = None /\
   exists v p,
     Service.probability pat_exec = Some v /\
     Runner.result r = Runner.Returned p /\ Runner.probability p = Some v).
Proof.
  intros H r.
  destruct (execute_pat_probability w e pcsp_path pcsp_name run_dir' mode' pat_path
              timeout_s st pat_exec H) as (p & Hres & Hok & Hrc & Hprob & Herr).
  fold r in Hres, Hprob. split; [exact Hprob|]. split; [|split].
  - intros Hnone. destruct (error pat_exec) as [m|] eqn:Ee; [eauto|].
    destruct Herr as [Herr _]. destruct (Herr eq_refl) as [_ Hne]. contradiction.
  - apply Herr.
  - intros Hmode Ho. rewrite Hok in Ho.
    destruct (run_pat_ok_has_output (host w) e
                (service_invocation w pcsp_path pcsp_name run_dir' mode' pat_path timeout_s)
                Runner.Missing (disk st) p Hmode Hres Ho) as (Hz & t & v & Ht & Hp & Hpr).
    assert (Service.probability pat_exec = Some v) as Hv.
    { apply Hprob. now exists t. }
    split; [now rewrite Hrc|]. split.
    + apply Herr. split; [now rewrite Hok|]. rewrite Hv. discriminate.
    + now exists v, p.
Qed.

Lemma execution_is_explained_witness :
  exists pat_exec,
    snd (_execute_pat flaky_world (baseline_engine flaky_world) "/runs/p1/matchup.pcsp"
           "matchup.pcsp" "/runs/p1" "real" None None fresh) = inr pat_exec /\
    (error pat_exec = None -> ok pat_exec = true /\ Service.probability pat_exec <> None).
Proof.
  destruct (snd (_execute_pat flaky_world (baseline_engine flaky_world)
                   "/runs/p1/matchup.pcsp" "matchup.pcsp" "/runs/p1" "real" None None
                   fresh)) as [ex|pat_exec] eqn:E; [vm_compute in E; discriminate E|].
  exists pat_exec. split; [reflexivity|].
  apply (execution_is_explained flaky_world (baseline_engine flaky_world)
           "/runs/p1/matchup.pcsp" "matchup.pcsp" "/runs/p1" "real" None None fresh
           pat_exec E).
Defined.

(** X15. [predict] returns a result exactly when [run_pat] returns and a
    probability parses from the output file, and that probability is the
    result's; whether the run was ok is not asked.  An exception of
    [run_pat] is passed on, and a run whose output file is missing,
    unreadable or without a probability ends in the error "PAT run
    completed but probability parsing failed." with the two paths. *)
Theorem predict_returns_iff_output_parses (w : world) (params' : MatchupParams)
    (run_dir' mode' : string) (pat_path : option string) (timeout_s : option Z)
    (st : state) :
  let r :=
    service_run w (baseline_engine w) (Runner.path_join run_dir' "matchup.pcsp")
      "matchup.pcsp" run_dir' mode' pat_path timeout_s st in
  let out := predict w params' run_dir' mode' pat_path timeout_s st in
  executed (fst out) = (executed st ++ [run_dir'])%list /\
  disk (fst out) = Runner.disk_after r /\
  match Runner.result r with
  | Runner.Raised ex => snd out = inl (FromRunner ex)
  | Runner.Returned p =>
      match Runner.out_file_after r with
      | Runner.Content t =>
          match Parser.parse_probability t with
          | Parser.Parsed v =>
              exists res,
                snd out = inr res /\ probability res = v /\
                params res = params' /\ run_dir res = run_dir' /\ mode res = mode' /\
                Service.probability (pat res) = Some v /\
                ok (pat res) = Runner.ok p /\
                returncode (pat res) = Runner.returncode p
          | Parser.ValueError _ =>
              snd out = inl (RuntimeError
                               (msg_parsing_failed (Runner.pat_out_path p)
                                  (Runner.stdout_path p)))
          end
      | _ =>
          snd out = inl (RuntimeError
                           (msg_parsing_failed (Runner.pat_out_path p)
                              (Runner.stdout_path p)))
      end
  end.
Proof.
  cbv zeta. unfold predict. rewrite execute_pat_run. cbv zeta.
  destruct (Runner.result _) as [p|ex]; [|now repeat split].
  destruct (Runner.out_file_after _) as [| |t]; [now repeat split..|].
  destruct (Parser.parse_probability t) as [v|m]; [|now repeat split].
  cbn [fst snd executed disk Service.probability].
  split; [reflexivity|]. split; [reflexivity|].
  eexists. split; [reflexivity|]. now repeat split.
Qed.

End ExecutePatReport.

(** ** coach/service.py: the operations on the mock engine *)

Section MockService.
Import Utils Params Service.
Local Open Scope string_scope.

(** A mock engine that returns a probability, one that the six decimals
    can show. *)
Definition mock_in_range (e : Runner.engine) : Prop :=
  (forall message, Runner.primary_run e <> Runner.OtherError message) /\
  0 <= Runner.mock_value e /\ Runner.mock_value e <= 99 # 100.

Lemma execute_pat_mock (w : world) (e : Runner.engine)
    (pcsp_path pcsp_name run_dir' : string)
    (pat_path : option string) (timeout_s : option Z) (st : state) :
  mock_in_range e ->
  exists pat_exec q,
    snd (_execute_pat w e pcsp_path pcsp_name run_dir' "mock" pat_path timeout_s st)
      = inr pat_exec /\
    ok pat_exec = true /\ returncode pat_exec = 0%Z /\ error pat_exec = None /\
    Service.probability pat_exec = Some q /\
    0 <= q /\ q <= 1 /\
    Qabs (q - Runner.mock_value e) <= (1 # 2000000) + (1 # 9007199254740992).
Proof.
  intros (Hreturns & H0 & H1).
  destruct (read_back (Runner.mock_value e) H0 H1) as (q & Hparse & _ & Hq0 & Hq1 & Hacc).
  unfold _execute_pat, Runner.run_pat. cbn [Runner.mode].
  change (String.eqb "mock" "mock") with true. cbv iota.
  unfold Runner.run_mock.
  destruct (Runner.primary_run e) as [rc so se | m | so se m | m];
    [| | |now destruct (Hreturns m)];
    cbn [Runner.result Runner.out_file_after Runner.disk_after];
    rewrite Hparse; cbn [snd];
    (eexists _, q; split; [reflexivity|]);
    cbn [ok returncode error Service.probability Runner.ok Runner.returncode negb];
    now repeat split.
Qed.

(** X16. On the mock engine the strategy operation always answers: when
    every mock run returns a probability in [0, 0.99] and the generation returns
    at least one candidate, [strategy] in mock mode returns a result; all
    the candidates within the budget are ranked, so the result lists
    min(5, max(1, budget), number of candidates) alternatives, and the
    baseline probability is within 5e-7 + 2^-53 of the mock's value. *)
Theorem strategy_mock_always_answers (w : world) (params : MatchupParams)
    (run_dir' : string) (budget : Z) (l1_bound : Q)
    (pat_path : option string) (timeout_s : option Z) (st : state)
    (generated : list candidate) :
  mock_in_range (baseline_engine w) ->
  (forall i, mock_in_range (candidate_engine w i)) ->
  _generate_candidates params l1_bound = Some generated ->
  generated <> [] ->
  exists res,
    snd (strategy w params run_dir' "mock" budget l1_bound pat_path timeout_s st) = inr res /\
    length (top_alternatives res)
      = Nat.min 5 (Nat.min (Z.to_nat (Z.max 1 budget)) (length generated)) /\
    (0 <= baseline_probability res /\ baseline_probability res <= 1) /\
    Qabs (baseline_probability res - Runner.mock_value (baseline_engine w))
      <= (1 # 2000000) + (1 # 9007199254740992).
Proof.
  intros Hbase Hcand Hgen Hne. unfold strategy.
  destruct (execute_pat_mock w (baseline_engine w) (Runner.path_join run_dir' "baseline.pcsp")
              "baseline.pcsp" run_dir' pat_path timeout_s st Hbase)
    as (bp & b & Eb & _ & _ & _ & Hb & Hb0 & Hb1 & Hbacc).
  destruct (_execute_pat w (baseline_engine w) _ _ run_dir' "mock" pat_path timeout_s st)
    as [st1 r1].
  cbn [snd] in Eb. subst r1. rewrite Hb, Hgen.
  set (candidates := take (Z.to_nat (Z.max 1 budget)) generated).
  destruct (search_loop_completes w params run_dir' "mock" pat_path timeout_s
              candidates 1 st1) as (st2 & ranked & Eloop & _ & Eprob).
  { apply Forall_take. now apply generated_adjustable in Hgen. }
  { intros i _. unfold candidate_run.
    destruct (execute_pat_mock w (candidate_engine w i)
                (Runner.path_join (Runner.path_join run_dir' "candidates")
                   (candidate_name i +:+ ".pcsp"))
                (candidate_name i +:+ ".pcsp") (candidate_run_dir run_dir' i)
                pat_path timeout_s fresh (Hcand i)) as (pe & q & E & _).
    eauto. }
  rewrite Eloop.
  assert (length ranked = length candidates) as Hlen.
  { rewrite <- (length_map (fun r => candidate_probability (fst r)) ranked), Eprob.
    assert (forall l : list Z,
              length (omap (candidate_yield w run_dir' "mock" pat_path timeout_s) l)
              = length l) as Hall.
    { induction l as [|i l IH]; [reflexivity|]. cbn [omap list_omap].
      unfold candidate_yield at 1, candidate_run.
      destruct (execute_pat_mock w (candidate_engine w i)
                  (Runner.path_join (Runner.path_join run_dir' "candidates")
                     (candidate_name i +:+ ".pcsp"))
                  (candidate_name i +:+ ".pcsp") (candidate_run_dir run_dir' i)
                  pat_path timeout_s fresh (Hcand i))
        as (pe & q & E & _ & _ & _ & Hq & _).
      rewrite E, Hq. cbn [length]. now rewrite IH. }
    rewrite Hall, length_seqZ. lia. }
  pose proof (stable_sort_perm ranked_before ranked) as Hperm.
  apply Permutation_length in Hperm.
  assert (length candidates
          = Nat.min (Z.to_nat (Z.max 1 budget)) (length generated)) as Hc.
  { unfold candidates. apply length_take. }
  assert (0 < length candidates)%nat as Hpos.
  { rewrite Hc. destruct generated; [contradiction|]. cbn [length]. lia. }
  destruct (stable_sort ranked_before ranked) as [|[best best_params] sorted] eqn:Es.
  - cbn [length] in Hperm. lia.
  - eexists. split; [reflexivity|].
    cbn [top_alternatives baseline_probability].
    split; [|split; [split; assumption | exact Hbacc]].
    rewrite number_from_length, length_take, Hperm, Hlen, Hc. reflexivity.
Qed.

Lemma strategy_mock_always_answers_witness :
  exists res generated,
    _generate_candidates sample_matchup (3 # 10) = Some generated /\
    snd (strategy mock_world sample_matchup "/runs/s1" "mock" 3 (3 # 10) None None fresh)
      = inr res /\
    length (top_alternatives res) = Nat.min 5 (Nat.min 3 (length generated)).
Proof.
  destruct (_generate_candidates sample_matchup (3 # 10)) as [generated|] eqn:Eg;
    [|vm_compute in Eg; discriminate Eg].
  assert (generated <> []) as Hne.
  { vm_compute in Eg. injection Eg as <-. discriminate. }
  destruct (strategy_mock_always_answers mock_world sample_matchup "/runs/s1" 3 (3 # 10)
              None None fresh generated) as (res & Hres & Hlen & _).
  - split; [discriminate | split; cbn; discriminate].
  - intros i. split; [discriminate | split; cbn; discriminate].
  - exact Eg.
  - exact Hne.
  - exists res, generated. split; [reflexivity|]. split; [exact Hres | exact Hlen].
Defined.

End MockService.

(** ** coach/model/builder.py: rendering the template *)

Section RenderTemplate.
Import Text Parser TemplateContext Builder.
Local Open Scope string_scope.

(** The keys of the placeholders of a template, in the order of the
    scan. *)
Definition placeholder_keys (ps : list piece) : list string :=
  omap (fun p => match p with Placeholder key _ => Some key | Literal _ => None end) ps.

Lemma missing_keys_spec (context : gmap string ctx_value) (ps : list piece) (k : string) :
  k ∈ missing_keys context ps <-> k ∈ placeholder_keys ps /\ context !! k = None.
Proof.
  unfold missing_keys, placeholder_keys. rewrite !list_elem_of_omap. split.
  - intros ([c|key src] & Hin & Hk); [discriminate|].
    destruct (context !! key) eqn:E; [discriminate|]. injection Hk as <-.
    split; [|exact E]. exists (Placeholder key src). now split.
  - intros [([c|key src] & Hin & Hk) Hnone]; [discriminate|]. injection Hk as <-.
    exists (Placeholder key src). split; [exact Hin|]. now rewrite Hnone.
Qed.

Lemma missing_keys_nil (context : gmap string ctx_value) (ps : list piece) :
  missing_keys context ps = [] <->
  forall k, k ∈ placeholder_keys ps -> is_Some (context !! k).
Proof.
  pose proof (missing_keys_spec context ps) as Hspec. split.
  - intros Hnil k Hk. destruct (context !! k) eqn:E; [eauto|].
    exfalso. assert (k ∈ missing_keys context ps) as Hin by (apply Hspec; now split).
    rewrite Hnil in Hin. now apply not_elem_of_nil in Hin.
  - intros Hall. destruct (missing_keys context ps) as [|k ks] eqn:Em; [reflexivity|].
    exfalso. assert (k ∈ k :: ks) as Hin by apply list_elem_of_here.
    apply Hspec in Hin as [Hk Hnone]. destruct (Hall k Hk) as [v Hv]. congruence.
Qed.

Definition key_lt (a b : string) : Prop := String.compare a b = Lt.

Lemma insert_key_elem (k : string) (l : list string) (x : string) :
  x ∈ insert_key k l <-> x = k \/ x ∈ l.
Proof.
  induction l as [|y t IH]; cbn [insert_key].
  - rewrite list_elem_of_singleton. split; [now left|].
    intros [H|H]; [exact H | now apply not_elem_of_nil in H].
  - destruct (String.compare k y) eqn:E.
    + apply String.compare_eq_iff in E. subst y. rewrite elem_of_cons. tauto.
    + rewrite elem_of_cons. tauto.
    + rewrite !elem_of_cons, IH. tauto.
Qed.

Lemma insert_key_sorted (k : string) (l : list string) :
  Sorted.Sorted key_lt l -> Sorted.Sorted key_lt (insert_key k l).
Proof.
  induction 1 as [|y t Ht IH Hy]; cbn [insert_key].
  - repeat constructor.
  - destruct (String.compare k y) eqn:E.
    + now constructor.
    + constructor; [now constructor|]. constructor. exact E.
    + constructor; [exact IH|].
      assert (key_lt y k) as Hyk.
      { unfold key_lt. rewrite String.compare_antisym, E. reflexivity. }
      destruct t as [|z t]; cbn [insert_key]; [now constructor|].
      inversion Hy as [|? ? Hyz]; subst.
      destruct (String.compare k z); constructor; assumption.
Qed.

Lemma sorted_keys_elem (ks : list string) (x : string) : x ∈ sorted_keys ks <-> x ∈ ks.
Proof.
  induction ks as [|k ks IH]; cbn [sorted_keys fold_right]; [reflexivity|].
  fold (sorted_keys ks). rewrite insert_key_elem, elem_of_cons, IH. reflexivity.
Qed.

Lemma sorted_keys_sorted (ks : list string) : Sorted.Sorted key_lt (sorted_keys ks).
Proof.
  induction ks as [|k ks IH]; cbn [sorted_keys fold_right]; [constructor|].
  now apply insert_key_sorted.
Qed.

(** X17. [render_template] either replaces every placeholder, which it
    does exactly when every placeholder key is in the context, or raises
    "Missing template parameters: " followed by the missing keys: each
    key once, in ascending order, separated by ", ", and these are
    exactly the placeholder keys that the context lacks (all of them,
    not only the first). *)
Theorem render_template_reports_missing (template_text : string)
    (context : gmap string ctx_value) :
  let ps := pieces 0 (chars template_text) in
  ((forall k, k ∈ placeholder_keys ps -> is_Some (context !! k)) /\
   render_template template_text context = Rendered (text (flat_map (repl context) ps)))
  \/
  (exists missing,
     render_template template_text context
       = ValueError ("Missing template parameters: "
                     +:+ text (join (chars ", ") (map chars missing))) /\
     missing <> [] /\
     Sorted.Sorted key_lt missing /\
     forall k, k ∈ missing <-> k ∈ placeholder_keys ps /\ context !! k = None).
Proof.
  cbv zeta. unfold render_template. cbv zeta.
  set (ps := pieces 0 (chars template_text)).
  pose proof (missing_keys_spec context ps) as Hspec.
  destruct (missing_keys context ps) as [|k0 ks] eqn:Em.
  - left. split; [|reflexivity]. now apply missing_keys_nil.
  - right. exists (sorted_keys (k0 :: ks)). split; [reflexivity|]. split; [|split].
    + intros Hnil.
      assert (k0 ∈ sorted_keys (k0 :: ks)) as Hin
        by (apply sorted_keys_elem, list_elem_of_here).
      rewrite Hnil in Hin. now apply not_elem_of_nil in Hin.
    + apply sorted_keys_sorted.
    + intros k. rewrite sorted_keys_elem. apply Hspec.
Qed.

Lemma missing_keys_placeholder (context : gmap string ctx_value) (key : string)
    (src : list ascii) (ps : list piece) :
  missing_keys context (Placeholder key src :: ps)
  = match context !! key with
    | None => key :: missing_keys context ps
    | Some _ => missing_keys context ps
    end.
Proof.
  unfold missing_keys. cbn [omap list_omap]. now destruct (context !! key).
Qed.

(** [render_template] reads the context only at the placeholder keys. *)
Lemma render_pieces_weaken (context context' : gmap string ctx_value) (ps : list piece) :
  context ⊆ context' ->
  missing_keys context ps = [] ->
  missing_keys context' ps = [] /\
  flat_map (repl context') ps = flat_map (repl context) ps.
Proof.
  intros Hsub. induction ps as [|[c|key src] ps IH].
  - now split.
  - change (missing_keys context (Literal c :: ps)) with (missing_keys context ps).
    change (missing_keys context' (Literal c :: ps)) with (missing_keys context' ps).
    intros H. destruct (IH H) as [E1 E2]. split; [exact E1|].
    cbn [flat_map repl]. now rewrite E2.
  - rewrite !missing_keys_placeholder.
    destruct (context !! key) as [v|] eqn:E; [|discriminate].
    intros H. destruct (IH H) as [E1 E2].
    cbn [flat_map repl]. rewrite (lookup_weaken _ _ _ _ E Hsub), E, E2. now split.
Qed.

Lemma pieces_without_brace (l : list ascii) :
  Forall (fun c => is_char "{" c = false) l -> pieces 0 l = map Literal l.
Proof.
  induction 1 as [|c l Hc Hl IH]; [reflexivity|].
  cbn [pieces map]. rewrite <- IH.
  assert (match_placeholder (c :: l) = None) as ->; [|reflexivity].
  unfold match_placeholder. destruct l as [|b r0]; [reflexivity|]. now rewrite Hc.
Qed.

Lemma literals_render (context : gmap string ctx_value) (l : list ascii) :
  missing_keys context (map Literal l) = [] /\
  flat_map (repl context) (map Literal l) = l.
Proof.
  induction l as [|c l [IH1 IH2]]; [now split|]. split.
  - exact IH1.
  - cbn [map flat_map repl app]. now rewrite IH2.
Qed.

Lemma text_chars (s : string) : text (chars s) = s.
Proof. apply string_of_list_ascii_of_string. Qed.

(** X18. Keys that no placeholder uses do not matter: a template that
    renders in a context renders to the same text in every larger
    context; and a template without the character "{" renders to itself
    in every context. *)
Theorem render_template_ignores_other_keys (template_text : string) :
  (forall (context context' : gmap string ctx_value) (rendered : string),
     context ⊆ context' ->
     render_template template_text context = Rendered rendered ->
     render_template template_text context' = Rendered rendered) /\
  (Forall (fun c => is_char "{" c = false) (chars template_text) ->
   forall context, render_template template_text context = Rendered template_text).
Proof.
  split.
  - intros context context' rendered Hsub. unfold render_template. cbv zeta.
    destruct (missing_keys context _) as [|k ks] eqn:Em; [|discriminate].
    destruct (render_pieces_weaken context context' _ Hsub Em) as [-> ->].
    exact (fun H => H).
  - intros Hno context. unfold render_template. cbv zeta.
    rewrite (pieces_without_brace _ Hno).
    destruct (literals_render context (chars template_text)) as [-> ->].
    f_equal. apply text_chars.
Qed.

(** The keys of the context of [to_template_context]. *)
Definition context_keys : list string :=
  ["target"; "cap"; "best_of"; "games_to_win"; "pA_srv_win"; "pA_rcv_win";
   "pA_srv_win_w"; "pA_srv_lose_w"; "pA_rcv_win_w"; "pA_rcv_lose_w";
   "baseA_srv_win"; "baseA_rcv_win"; "baseB_srv_win"; "baseB_rcv_win";
   "serve_mix_A_short"; "serve_mix_A_flick"; "serve_mix_B_short"; "serve_mix_B_flick";
   "rally_style_A_attack"; "rally_style_A_neutral"; "rally_style_A_safe";
   "rally_style_B_attack"; "rally_style_B_neutral"; "rally_style_B_safe";
   "w_short"; "w_attack"; "w_safe"; "playerA_name"; "playerB_name"].

Lemma context_has_keys (p : Params.MatchupParams) :
  Forall (fun k => is_Some (to_template_context p !! k)) context_keys.
Proof.
  unfold context_keys, to_template_context. cbn [list_to_map foldr].
  repeat (constructor; [eexists; reflexivity|]). constructor.
Qed.

(** X19. The context of [to_template_context] has the 29 keys of the
    parameter model, for every parameter set; so a template all of whose
    placeholders are among them always renders, and the number of games
    to win is more than half of best_of. *)
Theorem template_context_renders (p : Params.MatchupParams) (template_text : string) :
  Forall (fun k => k ∈ context_keys) (placeholder_keys (pieces 0 (chars template_text))) ->
  (exists rendered,
     render_template template_text (to_template_context p) = Rendered rendered) /\
  to_template_context p !! "games_to_win" = Some (CInt (Params.best_of p / 2 + 1)) /\
  (Params.best_of p < 2 * (Params.best_of p / 2 + 1) <= Params.best_of p + 2)%Z.
Proof.
  intros Hkeys. split; [|split; [reflexivity|]].
  - unfold render_template. cbv zeta.
    assert (missing_keys (to_template_context p) (pieces 0 (chars template_text)) = [])
      as ->; [|eauto].
    apply missing_keys_nil. intros k Hk.
    rewrite Forall_forall in Hkeys. specialize (Hkeys k Hk).
    pose proof (context_has_keys p) as Hc. rewrite Forall_forall in Hc. now apply Hc.
  - pose proof (Z.div_mod (Params.best_of p) 2 ltac:(lia)) as E.
    pose proof (Z.mod_pos_bound (Params.best_of p) 2 ltac:(lia)) as Hm. lia.
Qed.

Lemma template_context_renders_witness :
  exists rendered,
    render_template "#define N {{ target }}; // {{playerA_name}}"
      (to_template_context sample_matchup) = Rendered rendered.
Proof.
  apply (template_context_renders sample_matchup
           "#define N {{ target }}; // {{playerA_name}}").
  vm_compute. repeat constructor.
Defined.

End RenderTemplate.

(** ** coach/pat/mock_pat.py: the direction of every parameter *)

Section MockDirections.
Import MockPat.
Local Open Scope R_scope.

(** The parameters that raise the mock probability, and those that
    lower it. *)
Definition raising_keys : list string :=
  ["pA_srv_win"; "pA_rcv_win"; "serve_mix_A_short"; "rally_style_A_attack";
   "rally_style_A_safe"].

Definition lowering_keys : list string :=
  ["serve_mix_B_short"; "rally_style_B_attack"; "rally_style_B_safe"].

Ltac read_keys :=
  unfold linear_score, get;
  rewrite !lookup_insert_eq;
  rewrite !lookup_insert_ne by discriminate;
  unfold default, from_option, Datatypes.id.

Lemma linear_score_raising (params : gmap string R) (k : string) (v v' : R) :
  k ∈ raising_keys -> v <= v' ->
  linear_score (<[k := v]> params) <= linear_score (<[k := v']> params).
Proof.
  intros Hk Hv. unfold raising_keys in Hk.
  repeat (apply elem_of_cons in Hk as [-> | Hk]);
    [read_keys; lra .. | now apply not_elem_of_nil in Hk].
Qed.

Lemma linear_score_lowering (params : gmap string R) (k : string) (v v' : R) :
  k ∈ lowering_keys -> v <= v' ->
  linear_score (<[k := v']> params) <= linear_score (<[k := v]> params).
Proof.
  intros Hk Hv. unfold lowering_keys in Hk.
  repeat (apply elem_of_cons in Hk as [-> | Hk]);
    [read_keys; lra .. | now apply not_elem_of_nil in Hk].
Qed.

(** X20. [mock_probability] returns exactly when its linear score is
    at least -709.78..., the point below which [math.exp] overflows; so
    it returns whenever the eight parameters lie in [0, 1].  It reads
    only the eight parameters; what it returns lies in [0.01, 0.99] and
    is exactly 0.5 without any parameter.  Where it returns, it still
    returns and does not decrease when one of player A's five
    parameters grows; where it returns after one of player B's three
    has grown, it returned before, with a value at least as large. *)
Theorem mock_probability_directions :
  (forall params : gmap string R,
     is_Some (mock_probability params) <-> - exp_max_arg <= linear_score params) /\
  (forall params : gmap string R,
     (forall k, k ∈ mock_keys -> 0 <= get params k (1 / 2) <= 1) ->
     is_Some (mock_probability params)) /\
  (forall p1 p2 : gmap string R,
     (forall k, k ∈ mock_keys -> p1 !! k = p2 !! k) ->
     mock_probability p1 = mock_probability p2) /\
  (forall (params : gmap string R) (p : R),
     mock_probability params = Some p -> 1 / 100 <= p <= 99 / 100) /\
  mock_probability ∅ = Some (1 / 2) /\
  (forall (params : gmap string R) (k : string) (v v' p : R),
     k ∈ raising_keys -> v <= v' ->
     mock_probability (<[k := v]> params) = Some p ->
     exists p', mock_probability (<[k := v']> params) = Some p' /\ p <= p') /\
  (forall (params : gmap string R) (k : string) (v v' p' : R),
     k ∈ lowering_keys -> v <= v' ->
     mock_probability (<[k := v']> params) = Some p' ->
     exists p, mock_probability (<[k := v]> params) = Some p /\ p' <= p).
Proof.
  assert (forall p1 p2 : gmap string R, forall p,
            linear_score p1 <= linear_score p2 ->
            mock_probability p1 = Some p ->
            exists p', mock_probability p2 = Some p' /\ p <= p') as Hmono.
  { intros p1 p2 p Hle H1.
    destruct (mock_probability_cases p1) as [[_ E1] | [Hs1 E1]]; [congruence|].
    destruct (mock_probability_cases p2) as [[Hs2 _] | [_ E2]]; [lra|].
    rewrite E1 in H1. injection H1 as <-.
    eexists. split; [exact E2|].
    now apply clamp_R_monotone, logistic_curve_monotone. }
  split; [|split; [|split; [|split; [|split; [|split]]]]].
  - intros params.
    destruct (mock_probability_cases params) as [[Hs E] | [Hs E]]; rewrite E; split.
    + intros [p [=]].
    + lra.
    + intros _. exact Hs.
    + eauto.
  - intros params H.
    destruct (mock_probability_cases params) as [[Hs _] | [_ E]]; [|rewrite E; eauto].
    exfalso. revert Hs. unfold linear_score, exp_max_arg.
    pose proof (H "pA_srv_win") as H1. pose proof (H "pA_rcv_win") as H2.
    pose proof (H "serve_mix_A_short") as H3. pose proof (H "serve_mix_B_short") as H4.
    pose proof (H "rally_style_A_attack") as H5.
    pose proof (H "rally_style_B_attack") as H6.
    pose proof (H "rally_style_B_safe") as H7. pose proof (H "rally_style_A_safe") as H8.
    unfold get in *.
    destruct (params !! "pA_srv_win"), (params !! "pA_rcv_win"),
      (params !! "serve_mix_A_short"), (params !! "serve_mix_B_short"),
      (params !! "rally_style_A_attack"), (params !! "rally_style_B_attack"),
      (params !! "rally_style_B_safe"), (params !! "rally_style_A_safe");
      unfold default, from_option, Datatypes.id in *;
      repeat match goal with
             | Hk : ?k ∈ mock_keys -> _ |- _ =>
                 let Hin := fresh in
                 assert (k ∈ mock_keys) as Hin
                   by (unfold mock_keys;
                       repeat (first [apply list_elem_of_here | apply list_elem_of_further]));
                 specialize (Hk Hin); clear Hin
             end;
      lra.
  - intros p1 p2 H. unfold mock_probability.
    now rewrite (linear_score_depends_on_keys p1 p2 H).
  - intros params p H.
    destruct (mock_probability_cases params) as [[_ E] | [_ E]]; [congruence|].
    rewrite E in H. injection H as <-. split.
    + apply Rmax_l.
    + apply Rmax_lub; [lra | apply Rmin_l].
  - destruct (mock_probability_cases ∅) as [[Hs _] | [_ E]].
    + exfalso. revert Hs. unfold linear_score, get, exp_max_arg.
      rewrite !lookup_empty. unfold default, from_option. lra.
    + rewrite E. f_equal.
      assert (linear_score ∅ = 0) as ->.
      { unfold linear_score, get. rewrite !lookup_empty.
        unfold default, from_option. lra. }
      unfold logistic_curve. rewrite Ropp_0, exp_0.
      replace (1 / (1 + 1)) with (1 / 2) by lra.
      rewrite Rmin_right by lra. rewrite Rmax_right by lra. reflexivity.
  - intros params k v v' p Hk Hv. apply Hmono. now apply linear_score_raising.
  - intros params k v v' p' Hk Hv. apply Hmono. now apply linear_score_lowering.
Qed.

Lemma mock_probability_directions_witness :
  exists p', mock_probability (<["pA_srv_win" := 7 / 10]> ∅) = Some p' /\ 1 / 2 <= p'.
Proof.
  destruct mock_probability_directions as (_ & _ & _ & _ & Hhalf & Hup & _).
  assert (mock_probability (<["pA_srv_win" := 1 / 2]> ∅) = Some (1 / 2)) as H.
  { assert (linear_score (<["pA_srv_win" := 1 / 2]> ∅) = linear_score ∅) as E.
    { rewrite linear_score_srv. unfold linear_score, get. rewrite !lookup_empty.
      unfold default, from_option. lra. }
    unfold mock_probability. rewrite E. exact Hhalf. }
  apply (Hup ∅ "pA_srv_win" (1 / 2) (7 / 10) (1 / 2)); [|lra|exact H].
  unfold raising_keys. apply list_elem_of_here.
Defined.

End MockDirections.

(** ** coach/pat/parser.py: a text without a marker *)

Section ParserEdges.
Import Text Parser.
Local Open Scope string_scope.

(** X21. A number is read only after a marker: for a text in which no
    character is a p or a w in either case (so that neither "prob" nor
    "with prob" can start), and so for the empty text, [parse_probability]
    raises the error whose message is the fixed sentence followed by the
    excerpt of the text, whatever numbers the text holds. *)
Theorem parse_probability_needs_marker (text : string) :
  Forall (fun c => lower_char c <> "p"%char /\ lower_char c <> "w"%char) (chars text) ->
  parse_probability text
  = ValueError (parse_error_prefix +:+ Text.text (_excerpt (chars text) 180)).
Proof.
  intros H. unfold parse_probability, collect_values.
  assert (finditer match_context 0 (chars text) = []) as ->; [|reflexivity].
  rewrite <- (app_nil_r (chars text)).
  rewrite finditer_context_prefix; [reflexivity|].
  eapply Forall_impl; [exact H|]. intros c [Hp Hw]. unfold starts_context.
  apply orb_false_intro; apply Ascii.eqb_neq; congruence.
Qed.

Lemma parse_probability_needs_marker_witness :
  parse_probability "0.75 (75 %)"
  = ValueError (parse_error_prefix +:+ "0.75 (75 %)").
Proof.
  rewrite (parse_probability_needs_marker "0.75 (75 %)"); [reflexivity|].
  repeat constructor; discriminate.
Defined.

End ParserEdges.

(** ** coach/data/adapters/local_csv.py: Laplace smoothing *)

Section Smoothing.
Import Utils LocalCsv.

(** X22. Laplace smoothing shrinks a rate toward one half: with a
    positive strength and 0 <= wins <= trials, the smoothed rate is
    returned and lies strictly between 0 and 1; it is exactly 0.5
    without any trial; with trials it lies between the raw rate
    wins / trials and 0.5; and the smoothed rate of the losses is the
    complement of that of the wins. *)
Theorem smooth_probability_shrinks (laplace_alpha : Q) (alpha : option Q) (wins trials : Q) :
  0 < default laplace_alpha alpha ->
  0 <= wins -> wins <= trials ->
  exists p q,
    _smooth_probability laplace_alpha wins trials alpha = Some p /\
    _smooth_probability laplace_alpha (trials - wins) trials alpha = Some q /\
    (0 < p /\ p < 1) /\
    (trials == 0 -> p == 1 # 2) /\
    (0 < trials ->
     (wins / trials <= 1 # 2 -> wins / trials <= p /\ p <= 1 # 2) /\
     (1 # 2 <= wins / trials -> 1 # 2 <= p /\ p <= wins / trials)) /\
    q == 1 - p.
Proof.
  intros Ha Hw0 Hwt.
  rewrite !smooth_probability_returns by lra.
  eexists _, _. split; [reflexivity|]. split; [reflexivity|].
  set (a := default laplace_alpha alpha) in *.
  assert (0 < trials + 2 * a) as Hd by lra.
  split; [split|split; [|split]].
  - apply Qlt_shift_div_l; lra.
  - apply Qlt_shift_div_r; lra.
  - intros Ht. rewrite Ht.
    assert (wins == 0) as -> by lra. field. lra.
  - intros Ht.
    assert (wins / trials * trials == wins) as Er by (field; lra).
    set (r := wins / trials) in *.
    split; intros Hr; split.
    + apply Qle_shift_div_l; [exact Hd|]. nra.
    + apply Qle_shift_div_r; [exact Hd|]. nra.
    + apply Qle_shift_div_l; [exact Hd|]. nra.
    + apply Qle_shift_div_r; [exact Hd|]. nra.
  - field. lra.
Qed.

Lemma smooth_probability_shrinks_witness :
  exists p, _smooth_probability 2 18 30 None = Some p /\ 0 < p /\ p < 1.
Proof.
  destruct (smooth_probability_shrinks 2 None 18 30) as (p & q & Hp & _ & Hrange & _);
    [reflexivity | discriminate | discriminate |].
  exists p. split; [exact Hp | exact Hrange].
Defined.

End Smoothing.

(** ** coach/model/params.py: how far one adjustment moves the mixes *)

Section AdjustmentReach.
Import Utils Params.

(** Clamping a moved value that started inside the range moves it by at
    most the step. *)
Lemma clamp_step_small (x d low high : Q) :
  low <= x -> x <= high -> Qabs (clamp (x + d) low high - x) <= Qabs d.
Proof.
  intros Hl Hh.
  assert (Qabs d == d \/ Qabs d == - d) as Hd.
  { destruct (Qlt_le_dec d 0).
    - right. apply Qabs_neg. lra.
    - left. apply Qabs_pos. lra. }
  pose proof (Qabs_nonneg d) as Hd0.
  apply Qabs_Qle_condition.
  destruct (clamp_cases (x + d) low high) as [[H E] | [(H & H' & E) | [H E]]];
    [lra | | |]; rewrite E; destruct Hd as [Ed | Ed]; split; lra.
Qed.

(** X23. An adjustment of a valid player whose short share lies in
    [0.01, 0.99] and whose attack share lies in [0.01, 0.98] always
    succeeds, and moves the five shares, in L1, by at most twice the
    two step sizes plus 2e-6; with both steps 0 it changes (almost)
    nothing. *)
Theorem adjustment_moves_at_most_twice_the_steps
    (p : MatchupParams) (serve_short_delta attack_delta : Q) :
  ServeMix_valid (serve_mix (player_a p)) = true ->
  RallyStyleMix_valid (rally_style (player_a p)) = true ->
  1 # 100 <= short (serve_mix (player_a p)) <= 99 # 100 ->
  1 # 100 <= attack (rally_style (player_a p)) <= 98 # 100 ->
  exists p',
    with_adjustments p serve_short_delta attack_delta = Some p' /\
    l1_change_from p' p
      <= 2 * Qabs serve_short_delta + 2 * Qabs attack_delta + (2 # 1000000) /\
    (serve_short_delta == 0 -> attack_delta == 0 -> l1_change_from p' p <= 2 # 1000000).
Proof.
  intros Hsm Hrs [Hsh0 Hsh1] [Hat0 Hat1].
  pose proof Hsm as Hsm'. pose proof Hrs as Hrs'.
  apply ServeMix_valid_iff in Hsm' as (_ & [Hf0 Hf1] & [Ht0 Ht1]).
  apply RallyStyleMix_valid_iff in Hrs' as (_ & [Hn0 Hn1] & [Hc0 Hc1] & [Hu0 Hu1]).
  unfold tolerance in *.
  assert (tolerance <= neutral (rally_style (player_a p)) + safe (rally_style (player_a p)))
    as Hr by (unfold tolerance; lra).
  destruct (with_adjustments_preserves_simplex p serve_short_delta attack_delta Hrs Hr)
    as (p' & Hadj & _ & _ & _ & _ & En & Es & _ & _ & Eshort & Eflick & Eattack).
  exists p'. split; [exact Hadj|].
  assert (l1_change_from p' p
          <= 2 * Qabs serve_short_delta + 2 * Qabs attack_delta + (2 # 1000000)) as Hbound.
  { unfold l1_change_from.
    pose proof (clamp_step_small (short (serve_mix (player_a p))) serve_short_delta
                  (1 # 100) (99 # 100) Hsh0 Hsh1) as B1.
    pose proof (clamp_step_small (attack (rally_style (player_a p))) attack_delta
                  (1 # 100) (98 # 100) Hat0 Hat1) as B3.
    rewrite <- Eshort in B1. rewrite <- Eattack in B3.
    assert (1 # 100 <= attack (rally_style (player_a p'))
            /\ attack (rally_style (player_a p')) <= 98 # 100) as [Hat0' Hat1'].
    { rewrite Eattack. apply clamp_bounds. lra. }
    set (sh' := short (serve_mix (player_a p'))) in *.
    set (at' := attack (rally_style (player_a p'))) in *.
    set (sh := short (serve_mix (player_a p))) in *.
    set (fl := flick (serve_mix (player_a p))) in *.
    set (a := attack (rally_style (player_a p))) in *.
    set (n := neutral (rally_style (player_a p))) in *.
    set (s := safe (rally_style (player_a p))) in *.
    set (ds := Qabs serve_short_delta) in *. set (da := Qabs attack_delta) in *.
    assert (Qabs (flick (serve_mix (player_a p')) - fl) <= ds + (1 # 1000000)) as B2.
    { rewrite Eflick. apply Qabs_Qle_condition in B1.
      apply Qabs_Qle_condition. split; lra. }
    assert (~ n + s == 0) as Hne by lra.
    assert (Qabs (neutral (rally_style (player_a p')) - n)
            + Qabs (safe (rally_style (player_a p')) - s) <= da + (1 # 1000000)) as B4.
    { rewrite En, Es.
      assert (0 <= (1 - at') / (n + s)) as Hk0 by (apply Qle_shift_div_l; lra).
      assert ((n + s) * ((1 - at') / (n + s)) == 1 - at') as Hk by (field; exact Hne).
      pose proof (rescale_moves_by_total n s ((1 - at') / (n + s)) (1 - at') Hn0 Hc0 Hk Hk0)
        as Hmove.
      apply Qabs_Qle_condition in B3.
      assert (Qabs (1 - at' - (n + s)) <= da + (1 # 1000000)) as Hd.
      { apply Qabs_Qle_condition. split; lra. }
      lra. }
    lra. }
  split; [exact Hbound|].
  intros E1 E2.
  assert (Qabs serve_short_delta == 0) as Z1 by (rewrite E1; reflexivity).
  assert (Qabs attack_delta == 0) as Z2 by (rewrite E2; reflexivity).
  lra.
Qed.

Lemma adjustment_moves_at_most_twice_the_steps_witness :
  exists p',
    with_adjustments sample_matchup (5 # 100) (- (10 # 100)) = Some p' /\
    l1_change_from p' sample_matchup
      <= 2 * Qabs (5 # 100) + 2 * Qabs (- (10 # 100)) + (2 # 1000000) /\
    ((5 # 100) == 0 -> - (10 # 100) == 0 -> l1_change_from p' sample_matchup <= 2 # 1000000).
Proof.
  apply (adjustment_moves_at_most_twice_the_steps sample_matchup (5 # 100) (- (10 # 100)));
    vm_compute; try reflexivity; split; discriminate.
Defined.

End AdjustmentReach.

(** ** coach/service.py: what the budget buys *)

Section StrategyBudget.
Import Utils Params Service.
Local Open Scope string_scope.

Variable w : world.
Variable params : MatchupParams.
Variables run_dir' mode' : string.
Variable pat_path : option string.
Variable timeout_s : option Z.

(** The probability that the run of the candidate of index [idx] yields. *)
Definition yield_of : Z -> option Q :=
  candidate_yield w run_dir' mode' pat_path timeout_s.

(** When the loop returns, [ranked] carries the probabilities of the
    candidates that yielded one, in the order of the runs. *)
Lemma search_loop_yields (cands : list candidate) :
  forall idx st st' ranked,
    search_loop w params run_dir' mode' pat_path timeout_s idx cands st
      = (st', inr ranked) ->
    map (fun r => candidate_probability (fst r)) ranked
      = omap yield_of (seqZ idx (Z.of_nat (length cands))).
Proof.
  induction cands as [|c rest IH]; intros idx st st' ranked H.
  - cbn in H. injection H as _ <-. reflexivity.
  - cbn [search_loop] in H.
    destruct (with_adjustments params _ _) as [adjusted|]; [|discriminate].
    fold (candidate_name idx) in H. fold (candidate_run_dir run_dir' idx) in H.
    match type of H with
    | context [_execute_pat w ?e ?pc ?n ?dir mode' pat_path timeout_s st] =>
        destruct (execute_pat_frame w mode' pat_path timeout_s e pc n dir st) as [Esnd _];
        destruct (_execute_pat w e pc n dir mode' pat_path timeout_s st) as [st1 r1]
    end.
    cbn [snd] in Esnd.
    fold (candidate_run w run_dir' mode' pat_path timeout_s idx) in Esnd.
    destruct r1 as [ex|pat_exec]; [discriminate|].
    destruct (search_loop _ _ _ _ _ _ _ rest st1) as [st2 [ex|ranked']] eqn:El;
      [discriminate|].
    apply IH in El.
    replace (Z.of_nat (length (c :: rest))) with (Z.succ (Z.of_nat (length rest)))
      by (cbn [length]; lia).
    rewrite seqZ_cons by lia. rewrite Z.pred_succ. cbn [omap list_omap].
    replace (Z.succ idx) with (idx + 1)%Z by lia.
    assert (yield_of idx = probability pat_exec) as ->.
    { unfold yield_of, candidate_yield. now rewrite <- Esnd. }
    destruct (probability pat_exec) as [p|]; injection H as _ <-.
    + cbn [map fst candidate_probability]. now rewrite El.
    + exact El.
Qed.

Lemma yields_elem (n : Z) (y : Q) :
  y ∈ omap yield_of (seqZ 1 n) <-> exists i, (1 <= i <= n)%Z /\ yield_of i = Some y.
Proof.
  rewrite list_elem_of_omap. split.
  - intros (i & Hi & Hy). apply elem_of_seqZ in Hi. exists i. split; [lia | exact Hy].
  - intros (i & Hi & Hy). exists i. split; [apply elem_of_seqZ; lia | exact Hy].
Qed.

(** The number of candidates that a budget lets run. *)
Definition runs_within (budget : Z) (generated : list candidate) : Z :=
  Z.of_nat (length (take (Z.to_nat (Z.max 1 budget)) generated)).

(** What a returned result says about the runs behind it. *)
Lemma strategy_returns_best (budget : Z) (l1_bound : Q) (st : state)
    (res : StrategyResult) :
  snd (strategy w params run_dir' mode' budget l1_bound pat_path timeout_s st) = inr res ->
  exists generated pat_exec,
    _generate_candidates params l1_bound = Some generated /\
    baseline_run w run_dir' mode' pat_path timeout_s = inr pat_exec /\
    probability pat_exec = Some (baseline_probability res) /\
    (exists i, (1 <= i <= runs_within budget generated)%Z /\
               yield_of i = Some (improved_probability res)) /\
    (forall i y, (1 <= i <= runs_within budget generated)%Z -> yield_of i = Some y ->
                 (y <= improved_probability res)%Q).
Proof.
  unfold strategy.
  match goal with
  | |- context [_execute_pat w ?e ?pc ?n ?dir mode' pat_path timeout_s st] =>
      destruct (execute_pat_frame w mode' pat_path timeout_s e pc n dir st) as [Esnd _];
      destruct (_execute_pat w e pc n dir mode' pat_path timeout_s st) as [st1 r1]
  end.
  cbn [snd] in Esnd. fold (baseline_run w run_dir' mode' pat_path timeout_s) in Esnd.
  destruct r1 as [ex|baseline_pat]; [discriminate|].
  destruct (probability baseline_pat) as [baseline|] eqn:Hb; [|discriminate].
  destruct (_generate_candidates params l1_bound) as [generated|]; [|discriminate].
  destruct (search_loop _ _ _ _ _ _ _ _ _) as [st2 [ex|ranked]] eqn:Hloop; [discriminate|].
  apply search_loop_yields in Hloop.
  pose proof (stable_sort_sorted ranked_before ranked_before_asym
                ranked_not_after_trans ranked) as Hsorted.
  pose proof (stable_sort_perm ranked_before ranked) as Hperm.
  destruct (stable_sort ranked_before ranked) as [|[best best_params] sorted] eqn:Es;
    [discriminate|].
  cbn [snd]. intros [= <-]. cbn [baseline_probability improved_probability].
  exists generated, baseline_pat.
  split; [reflexivity|]. split; [now rewrite <- Esnd|]. split; [exact Hb|].
  fold (runs_within budget generated) in Hloop.
  assert (forall y, y ∈ omap yield_of (seqZ 1 (runs_within budget generated)) <->
                    exists r, r ∈ (best, best_params) :: sorted
                              /\ y = candidate_probability (fst r)) as Hy.
  { intros y. rewrite <- Hloop, list_elem_of_fmap. setoid_rewrite Hperm.
    split; intros (r & H1 & H2); exists r; now split. }
  split.
  - apply yields_elem, Hy. exists (best, best_params).
    split; [apply list_elem_of_here | reflexivity].
  - intros i y Hi Hyi.
    assert (y ∈ omap yield_of (seqZ 1 (runs_within budget generated))) as Hin
      by (apply yields_elem; eauto).
    apply Hy in Hin as (r & Hr & ->).
    apply elem_of_cons in Hr as [-> | Hr]; [cbn [fst]; lra|].
    apply Sorted.StronglySorted_inv in Hsorted as [_ Hall].
    rewrite Forall_forall in Hall. specialize (Hall r Hr).
    apply ranked_not_after in Hall. exact Hall.
Qed.

Lemma runs_within_mono (b1 b2 : Z) (generated : list candidate) :
  (b1 <= b2)%Z -> (runs_within b1 generated <= runs_within b2 generated)%Z.
Proof. intros H. unfold runs_within. rewrite !length_take. lia. Qed.

(** X24. The improved probability of a returned result is the largest
    probability that any executed candidate yielded, not only the
    largest of the five alternatives kept.  Hence, with the engine
    answering alike for the same candidate, a search that returns with a
    larger budget reports the same baseline probability and an improved
    probability, and a delta, at least as large. *)
Theorem larger_budget_is_never_worse (budget1 budget2 : Z) (l1_bound : Q)
    (st1 st2 : state) (res1 res2 : StrategyResult) :
  (budget1 <= budget2)%Z ->
  snd (strategy w params run_dir' mode' budget1 l1_bound pat_path timeout_s st1)
    = inr res1 ->
  snd (strategy w params run_dir' mode' budget2 l1_bound pat_path timeout_s st2)
    = inr res2 ->
  (exists generated,
     _generate_candidates params l1_bound = Some generated /\
     forall i y, (1 <= i <= runs_within budget2 generated)%Z -> yield_of i = Some y ->
                 (y <= improved_probability res2)%Q) /\
  baseline_probability res1 = baseline_probability res2 /\
  (improved_probability res1 <= improved_probability res2)%Q /\
  (delta res1 <= delta res2)%Q.
Proof.
  intros Hle H1 H2.
  assert (delta res1 = (improved_probability res1 - baseline_probability res1)%Q
          /\ delta res2 = (improved_probability res2 - baseline_probability res2)%Q)
    as [Ed1 Ed2].
  { clear Hle. revert H1 H2. unfold strategy.
    repeat match goal with
           | |- context [_execute_pat w ?e ?pc ?n ?dir mode' pat_path timeout_s ?st] =>
               destruct (_execute_pat w e pc n dir mode' pat_path timeout_s st)
                 as [? [?|?]]
           end; try discriminate.
    repeat match goal with
           | |- context [probability ?p] => destruct (probability p)
           end; try discriminate.
    destruct (_generate_candidates params l1_bound); [|discriminate].
    repeat match goal with
           | |- context [search_loop ?a ?b ?c ?d ?e ?f ?g ?h ?i] =>
               destruct (search_loop a b c d e f g h i) as [? [?|?]]
           end; try discriminate.
    repeat match goal with
           | |- context [stable_sort ranked_before ?l] =>
               destruct (stable_sort ranked_before l) as [|[? ?] ?]
           end; try discriminate.
    cbn [snd]. intros [= <-] [= <-]. split; reflexivity. }
  apply strategy_returns_best in H1 as (g1 & e1 & Hg1 & Hb1 & Hp1 & (i & Hi & Hyi) & _).
  apply strategy_returns_best in H2 as (g2 & e2 & Hg2 & Hb2 & Hp2 & _ & Hmax).
  rewrite Hg1 in Hg2. injection Hg2 as <-.
  rewrite Hb1 in Hb2. injection Hb2 as <-.
  rewrite Hp1 in Hp2. injection Hp2 as Hbase.
  assert (improved_probability res1 <= improved_probability res2)%Q as Himp.
  { apply (Hmax i); [|exact Hyi].
    pose proof (runs_within_mono budget1 budget2 g1 Hle). lia. }
  split; [exists g1; split; [exact Hg1 | exact Hmax]|].
  split; [exact Hbase|]. split; [exact Himp|].
  rewrite Ed1, Ed2, Hbase. lra.
Qed.

End StrategyBudget.

Section StrategyBudgetExample.
Import Utils Params Service.
Local Open Scope string_scope.

Lemma larger_budget_is_never_worse_witness :
  exists res1 res2,
    snd (strategy mock_world sample_matchup "/runs/s1" "mock" 2 (3 # 10) None None fresh)
      = inr res1 /\
    snd (strategy mock_world sample_matchup "/runs/s1" "mock" 6 (3 # 10) None None fresh)
      = inr res2 /\
    (improved_probability res1 <= improved_probability res2)%Q.
Proof.
  destruct (snd (strategy mock_world sample_matchup "/runs/s1" "mock" 2 (3 # 10)
                   None None fresh)) as [ex|res1] eqn:E1;
    [vm_compute in E1; discriminate E1|].
  destruct (snd (strategy mock_world sample_matchup "/runs/s1" "mock" 6 (3 # 10)
                   None None fresh)) as [ex|res2] eqn:E2;
    [vm_compute in E2; discriminate E2|].
  exists res1, res2. split; [reflexivity|]. split; [reflexivity|].
  apply (larger_budget_is_never_worse mock_world sample_matchup "/runs/s1" "mock"
           None None 2 6 (3 # 10) fresh fresh res1 res2); [lia | exact E1 | exact E2].
Defined.

End StrategyBudgetExample.

(** ** coach/pat/runner.py: the error line of the console output *)

Section TextSearch.
Import Text.

(** [p] occurs in [l]. *)
Definition occurs_in (p l : list ascii) : Prop := exists a b, l = a ++ p ++ b.

Lemma startswith_spec (p : list ascii) :
  forall l, startswith p l = true <-> exists b, l = p ++ b.
Proof.
  induction p as [|x p IH]; intros l; cbn [startswith].
  - split; [intros _; now exists l | reflexivity].
  - destruct l as [|y l].
    + split; [discriminate | intros [b Hb]; discriminate].
    + destruct (Ascii.eqb x y) eqn:E.
      * apply Ascii.eqb_eq in E as ->. rewrite IH. split.
        -- intros [b ->]. now exists b.
        -- intros [b [= ->]]. now exists b.
      * apply Ascii.eqb_neq in E. split; [discriminate|].
        intros [b [= <- _]]. now destruct E.
Qed.

Lemma contains_spec (p l : list ascii) : contains p l = true <-> occurs_in p l.
Proof.
  unfold occurs_in. induction l as [|y l IH]; cbn [contains].
  - rewrite orb_false_r, startswith_spec. split.
    + intros [b Hb]. now exists [], b.
    + intros (a & b & H). symmetry in H.
      apply app_eq_nil in H as [-> H]. now exists b.
  - rewrite orb_true_iff, startswith_spec, IH. split.
    + intros [[b Hb] | (a & b & ->)]; [now exists [], b | now exists (y :: a), b].
    + intros ([|x a] & b & H).
      * left. now exists b.
      * right. injection H as _ ->. now exists a, b.
Qed.

Lemma occurs_in_trans (p q l : list ascii) :
  occurs_in p q -> occurs_in q l -> occurs_in p l.
Proof.
  intros (a & b & ->) (a' & b' & ->). exists (a' ++ a), (b ++ b').
  now rewrite <- !app_assoc.
Qed.

Lemma occurs_in_nil (p : list ascii) : p <> [] -> ~ occurs_in p [].
Proof.
  intros Hp (a & b & H). symmetry in H.
  apply app_eq_nil in H as [_ H]. apply app_eq_nil in H as [H _]. now destruct Hp.
Qed.

(** A text without the character [c] that starts before an occurrence
    of [c] ends before it. *)
Lemma prefix_before (c : ascii) (p : list ascii) :
  c ∉ p ->
  forall a0 b0 b, p ++ b = a0 ++ c :: b0 -> exists b', a0 = p ++ b'.
Proof.
  induction p as [|x p IH]; intros Hc a0 b0 b H.
  - now exists a0.
  - destruct a0 as [|y a0].
    + injection H as -> _. destruct Hc. apply list_elem_of_here.
    + injection H as -> H.
      destruct (IH (fun Hin => Hc (list_elem_of_further _ _ _ Hin)) a0 b0 b H) as [b' ->].
      now exists b'.
Qed.

(** A text without [c] that occurs around an occurrence of [c] occurs
    before it or after it. *)
Lemma occurs_beside (c : ascii) (p : list ascii) :
  c ∉ p ->
  forall a0 b0, occurs_in p (a0 ++ c :: b0) -> occurs_in p a0 \/ occurs_in p b0.
Proof.
  intros Hc. induction a0 as [|y a0 IH]; intros b0 (a & b & H).
  - destruct a as [|x a].
    + destruct p as [|x p]; [left; now exists [], []|].
      injection H as -> _. destruct Hc. apply list_elem_of_here.
    + injection H as _ ->. right. now exists a, b.
  - destruct a as [|x a].
    + symmetry in H. destruct (prefix_before c p Hc (y :: a0) b0 b H) as [b' Hb'].
      left. now exists [], b'.
    + injection H as _ H.
      destruct (IH b0) as [(a' & b' & ->) | Hr]; [now exists a, b | |].
      * left. now exists (y :: a'), b'.
      * now right.
Qed.

(** *** Lines *)

Definition no_linebreak (p : list ascii) : Prop :=
  Forall (fun c => is_linebreak c = false) p.

Lemma linebreak_not_in (c : ascii) (p : list ascii) :
  is_linebreak c = true -> no_linebreak p -> c ∉ p.
Proof.
  intros Hc Hp Hin. unfold no_linebreak in Hp. rewrite Forall_forall in Hp.
  specialize (Hp c Hin). congruence.
Qed.

Lemma two_step_ind (P : list ascii -> Prop) :
  P [] ->
  (forall c t, P t -> (forall c' t', t = c' :: t' -> P t') -> P (c :: t)) ->
  forall l, P l.
Proof.
  intros Hnil Hcons l.
  enough (P l /\ forall c' t', l = c' :: t' -> P t') as [H _] by exact H.
  induction l as [|c t [IH1 IH2]].
  - split; [exact Hnil | discriminate].
  - split; [now apply Hcons|]. now intros c' t' [= _ <-].
Qed.

(** Every line is a piece of the text. *)
Lemma splitlines_from_occurs (l : list ascii) :
  forall cur raw, raw ∈ splitlines_from cur l -> occurs_in raw (rev cur ++ l).
Proof.
  induction l as [|c t IH IH'] using two_step_ind; intros cur raw Hraw;
    cbn [splitlines_from] in Hraw.
  - destruct cur as [|x cur]; [now apply not_elem_of_nil in Hraw|].
    apply list_elem_of_singleton in Hraw as ->. exists [], []. now rewrite app_nil_r.
  - destruct (is_linebreak c).
    + assert (raw = rev cur \/ exists m rest, c :: t = m ++ rest
                                              /\ raw ∈ splitlines_from [] rest
                                              /\ occurs_in raw rest) as [-> | Hin].
      { destruct t as [|c' t'].
        - apply list_elem_of_singleton in Hraw. now left.
        - destruct ((code c =? 13) && (code c' =? 10))%N;
            apply elem_of_cons in Hraw as [-> | Hraw]; try (now left); right.
          + exists [c; c'], t'. split; [reflexivity|]. split; [exact Hraw|].
            now apply (IH' c' t' eq_refl []) in Hraw.
          + exists [c], (c' :: t'). split; [reflexivity|]. split; [exact Hraw|].
            now apply (IH []) in Hraw. }
      * now exists [], (c :: t).
      * destruct Hin as (m & rest & -> & _ & a & b & ->).
        exists (rev cur ++ m ++ a), b. now rewrite <- !app_assoc.
    + apply IH in Hraw. cbn [rev] in Hraw. now rewrite <- app_assoc in Hraw.
Qed.

Lemma splitlines_from_no_linebreak (l : list ascii) :
  forall cur raw,
    no_linebreak cur -> raw ∈ splitlines_from cur l -> no_linebreak raw.
Proof.
  assert (forall cur, no_linebreak cur -> no_linebreak (rev cur)) as Hrev.
  { intros cur H. unfold no_linebreak. now apply Forall_rev. }
  induction l as [|c t IH IH'] using two_step_ind; intros cur raw Hcur Hraw;
    cbn [splitlines_from] in Hraw.
  - destruct cur as [|x cur]; [now apply not_elem_of_nil in Hraw|].
    apply list_elem_of_singleton in Hraw as ->. now apply Hrev.
  - destruct (is_linebreak c) eqn:Ec.
    + destruct t as [|c' t'].
      * apply list_elem_of_singleton in Hraw as ->. now apply Hrev.
      * destruct ((code c =? 13) && (code c' =? 10))%N;
          apply elem_of_cons in Hraw as [-> | Hraw]; try (now apply Hrev).
        -- apply (IH' c' t' eq_refl [] raw); [constructor | exact Hraw].
        -- apply (IH [] raw); [constructor | exact Hraw].
    + apply (IH (c :: cur) raw); [|exact Hraw]. now constructor.
Qed.

(** A text without line breaks that occurs in the whole occurs in one
    of the lines. *)
Lemma occurs_in_some_line (p : list ascii) :
  p <> [] -> no_linebreak p ->
  forall l cur,
    occurs_in p (rev cur ++ l) ->
    exists raw, raw ∈ splitlines_from cur l /\ occurs_in p raw.
Proof.
  intros Hp Hnb.
  induction l as [|c t IH IH'] using two_step_ind; intros cur Hocc;
    cbn [splitlines_from].
  - rewrite app_nil_r in Hocc. destruct cur as [|x cur].
    + now apply occurs_in_nil in Hocc.
    + exists (rev (x :: cur)). split; [apply list_elem_of_here | exact Hocc].
  - destruct (is_linebreak c) eqn:Ec.
    + apply (occurs_beside c p (linebreak_not_in c p Ec Hnb)) in Hocc as [Hocc | Hocc].
      * exists (rev cur). split; [|exact Hocc].
        destruct t as [|c' t']; [apply list_elem_of_here|].
        destruct ((code c =? 13) && (code c' =? 10))%N; apply list_elem_of_here.
      * destruct t as [|c' t']; [now apply occurs_in_nil in Hocc|].
        destruct ((code c =? 13) && (code c' =? 10))%N eqn:Ecr.
        -- assert (is_linebreak c' = true) as Ec'.
           { apply andb_true_iff in Ecr as [_ E]. apply N.eqb_eq in E.
             unfold is_linebreak. now rewrite E. }
           apply (occurs_beside c' p (linebreak_not_in c' p Ec' Hnb) [] t') in Hocc
             as [Hocc | Hocc]; [now apply occurs_in_nil in Hocc|].
           destruct (IH' c' t' eq_refl [] Hocc) as (raw & Hraw & Hin).
           exists raw. split; [now apply list_elem_of_further | exact Hin].
        -- destruct (IH [] Hocc) as (raw & Hraw & Hin).
           exists raw. split; [now apply list_elem_of_further | exact Hin].
    + apply IH. cbn [rev]. now rewrite <- app_assoc.
Qed.

(** *** Stripping *)

Section StripBy.
Import Sanitize.
Variable f : ascii -> bool.

Definition starts_without (l : list ascii) : Prop :=
  match l with [] => True | c :: _ => f c = false end.

Lemma lstrip_by_suffix (l : list ascii) : exists a, l = a ++ lstrip_by f l.
Proof.
  induction l as [|c t [a IH]]; [now exists []|]. cbn [lstrip_by].
  destruct (f c); [|now exists []].
  exists (c :: a). cbn. now rewrite <- IH.
Qed.

Lemma lstrip_by_starts (l : list ascii) : starts_without (lstrip_by f l).
Proof.
  induction l as [|c t IH]; [exact I|]. cbn [lstrip_by].
  destruct (f c) eqn:E; [exact IH | exact E].
Qed.

Lemma lstrip_by_fixed (l : list ascii) : starts_without l -> lstrip_by f l = l.
Proof. destruct l as [|c t]; [reflexivity|]. cbn. now intros ->. Qed.

Lemma lstrip_by_snoc (m : list ascii) (c : ascii) :
  f c = false -> lstrip_by f (m ++ [c]) = lstrip_by f m ++ [c].
Proof.
  intros Hc. induction m as [|x m IH]; cbn [lstrip_by app]; [now rewrite Hc|].
  now destruct (f x).
Qed.

(** What [strip] leaves begins and ends with a character that is kept,
    so stripping it again changes nothing; and it is a piece of the
    text. *)
Lemma strip_by_shape (l : list ascii) :
  starts_without (strip_by f l) /\ starts_without (rev (strip_by f l)) /\
  strip_by f (strip_by f l) = strip_by f l /\
  exists a b, l = a ++ strip_by f l ++ b.
Proof.
  assert (starts_without (strip_by f l)) as H1.
  { unfold strip_by. pose proof (lstrip_by_starts l) as Hs.
    destruct (lstrip_by f l) as [|c t]; [exact I|]. cbn [starts_without] in Hs.
    cbn [rev]. rewrite lstrip_by_snoc by exact Hs.
    rewrite rev_app_distr. exact Hs. }
  assert (starts_without (rev (strip_by f l))) as H2.
  { unfold strip_by. rewrite rev_involutive. apply lstrip_by_starts. }
  split; [exact H1|]. split; [exact H2|]. split.
  - unfold strip_by at 1. rewrite (lstrip_by_fixed _ H1), (lstrip_by_fixed _ H2).
    apply rev_involutive.
  - unfold strip_by. destruct (lstrip_by_suffix l) as [a Ha].
    destruct (lstrip_by_suffix (rev (lstrip_by f l))) as [b Hb].
    exists a, (rev b). rewrite <- rev_app_distr, <- Hb, rev_involutive. exact Ha.
Qed.

Lemma strip_by_fixed (l : list ascii) :
  starts_without l -> starts_without (rev l) -> strip_by f l = l.
Proof.
  intros H1 H2. unfold strip_by.
  rewrite (lstrip_by_fixed _ H1), (lstrip_by_fixed _ H2). apply rev_involutive.
Qed.

End StripBy.

Definition starts_unspaced (l : list ascii) : Prop := starts_without isspace l.

Lemma lstrip_by_isspace (l : list ascii) : lstrip l = Sanitize.lstrip_by isspace l.
Proof. induction l as [|c t IH]; [reflexivity|]. cbn. now rewrite IH. Qed.

Lemma strip_by_isspace (l : list ascii) : strip l = Sanitize.strip_by isspace l.
Proof.
  unfold strip, rstrip, Sanitize.strip_by. now rewrite !lstrip_by_isspace.
Qed.

Lemma lstrip_starts_unspaced (l : list ascii) : starts_unspaced (lstrip l).
Proof. rewrite lstrip_by_isspace. apply lstrip_by_starts. Qed.

(** The result of [strip()] begins and ends with a character that is
    not white space, so stripping it again changes nothing. *)
Lemma strip_shape (l : list ascii) :
  starts_unspaced (strip l) /\ starts_unspaced (rev (strip l)) /\
  strip (strip l) = strip l.
Proof.
  rewrite !strip_by_isspace.
  destruct (strip_by_shape isspace l) as (H1 & H2 & H3 & _). now repeat split.
Qed.

Lemma strip_occurs (l : list ascii) : occurs_in (strip l) l.
Proof.
  rewrite strip_by_isspace. now destruct (strip_by_shape isspace l) as (_ & _ & _ & H).
Qed.

Lemma occurs_in_lstrip (p l : list ascii) :
  starts_unspaced p -> p <> [] -> occurs_in p l -> occurs_in p (lstrip l).
Proof.
  intros Hs Hp (a & b & ->). induction a as [|x a IH].
  - destruct p as [|c p]; [now destruct Hp|]. cbn in Hs. cbn [app lstrip].
    rewrite Hs. now exists [], b.
  - cbn [app lstrip]. destruct (isspace x); [exact IH|]. now exists (x :: a), b.
Qed.

Lemma occurs_in_rev (p l : list ascii) : occurs_in p l -> occurs_in (rev p) (rev l).
Proof.
  intros (a & b & ->). exists (rev b), (rev a).
  now rewrite !rev_app_distr, <- app_assoc.
Qed.

Lemma occurs_in_strip (p l : list ascii) :
  p <> [] -> starts_unspaced p -> starts_unspaced (rev p) ->
  occurs_in p l <-> occurs_in p (strip l).
Proof.
  intros Hp Hs He. split.
  - intros H. apply (occurs_in_lstrip p l Hs Hp) in H.
    apply occurs_in_rev in H.
    apply occurs_in_lstrip in H; [|exact He|].
    + apply occurs_in_rev in H. now rewrite rev_involutive in H.
    + intros E. apply (f_equal (@rev ascii)) in E. rewrite rev_involutive in E.
      now destruct Hp.
  - intros H. exact (occurs_in_trans _ _ _ H (strip_occurs l)).
Qed.

(** *** Lower case *)

Lemma lower_char_class (c : ascii) :
  isspace (lower_char c) = isspace c /\
  is_linebreak (lower_char c) = is_linebreak c /\
  (code (lower_char c) =? 13)%N = (code c =? 13)%N /\
  (code (lower_char c) =? 10)%N = (code c =? 10)%N.
Proof. destruct c as [[] [] [] [] [] [] [] []]; vm_compute; repeat split. Qed.

Lemma lower_lstrip (l : list ascii) : lstrip (lower l) = lower (lstrip l).
Proof.
  induction l as [|c t IH]; [reflexivity|]. cbn [lower map lstrip].
  destruct (lower_char_class c) as [-> _]. destruct (isspace c); [exact IH | reflexivity].
Qed.

Lemma lower_rev (l : list ascii) : rev (lower l) = lower (rev l).
Proof. unfold lower. now rewrite List.map_rev. Qed.

Lemma lower_strip (l : list ascii) : strip (lower l) = lower (strip l).
Proof.
  unfold strip, rstrip. now rewrite lower_lstrip, lower_rev, lower_lstrip, lower_rev.
Qed.

Lemma lower_splitlines_from (l : list ascii) :
  forall cur,
    splitlines_from (lower cur) (lower l) = map lower (splitlines_from cur l).
Proof.
  pose proof lower_rev as Hrev.
  induction l as [|c t IH IH'] using two_step_ind; intros cur.
  - destruct cur as [|x cur]; [reflexivity|].
    change (splitlines_from (lower (x :: cur)) (lower []))
      with [rev (lower (x :: cur))].
    now rewrite Hrev.
  - change (lower (c :: t)) with (lower_char c :: lower t).
    cbn [splitlines_from].
    destruct (lower_char_class c) as (_ & -> & -> & _).
    destruct (is_linebreak c).
    + destruct t as [|c' t']; [cbn; now rewrite Hrev|].
      change (lower (c' :: t')) with (lower_char c' :: lower t').
      destruct (lower_char_class c') as (_ & _ & _ & ->).
      destruct ((code c =? 13) && (code c' =? 10))%N; cbn [map]; rewrite Hrev.
      * f_equal. apply (IH' c' t' eq_refl []).
      * f_equal. apply (IH []).
    + apply (IH (c :: cur)).
Qed.

(** Looking for [p] line by line, each line stripped and lowered, finds
    it exactly when the lowered text as a whole contains it. *)
Lemma line_search_agrees (p l : list ascii) :
  p <> [] -> no_linebreak p -> starts_unspaced p -> starts_unspaced (rev p) ->
  contains p (lower l) = true <->
  exists raw, raw ∈ splitlines l /\ contains p (lower (strip raw)) = true.
Proof.
  intros Hp Hnb Hs He. rewrite contains_spec. unfold splitlines. split.
  - intros H.
    destruct (occurs_in_some_line p Hp Hnb (lower l) [] H) as (raw' & Hraw' & Hin).
    change (@nil ascii) with (lower []) in Hraw'.
    rewrite lower_splitlines_from in Hraw'.
    apply list_elem_of_fmap in Hraw' as (raw & -> & Hraw).
    exists raw. split; [exact Hraw|].
    rewrite <- lower_strip. apply contains_spec.
    exact (proj1 (occurs_in_strip p (lower raw) Hp Hs He) Hin).
  - intros (raw & Hraw & H). apply contains_spec in H.
    rewrite <- lower_strip in H.
    apply (proj2 (occurs_in_strip p (lower raw) Hp Hs He)) in H.
    apply (occurs_in_trans _ _ _ H).
    apply (splitlines_from_occurs (lower l) (lower [])).
    rewrite lower_splitlines_from. apply list_elem_of_fmap. now exists raw.
Qed.

End TextSearch.

Section ErrorLine.
Import Text Runner.
Local Open Scope string_scope.

Lemma chars_text (l : list ascii) : chars (text l) = l.
Proof. apply list_ascii_of_string_of_list_ascii. Qed.

Lemma is_in_lower (token s : string) :
  is_in token (lower_string s) = contains (chars token) (lower (chars s)).
Proof. unfold is_in, lower_string. now rewrite chars_text. Qed.

Lemma head_omap_none {A B} (f : A -> option B) (l : list A) :
  head (omap f l) = None <-> forall x, x ∈ l -> f x = None.
Proof.
  induction l as [|x l IH]; cbn [omap list_omap].
  - split; [intros _ y Hy; now apply not_elem_of_nil in Hy | reflexivity].
  - destruct (f x) eqn:E.
    + split; [discriminate|]. intros H.
      specialize (H x (list_elem_of_here _ _)). congruence.
    + rewrite IH. split.
      * intros H y Hy. apply elem_of_cons in Hy as [-> | Hy]; [exact E | now apply H].
      * intros H y Hy. apply H. now apply list_elem_of_further.
Qed.

Lemma head_omap_some {A B} (f : A -> option B) (l : list A) (y : B) :
  head (omap f l) = Some y -> exists x, x ∈ l /\ f x = Some y.
Proof.
  intros H. assert (y ∈ omap f l) as Hin.
  { destruct (omap f l) as [|z t]; [discriminate|].
    injection H as ->. apply list_elem_of_here. }
  apply list_elem_of_omap in Hin as (x & Hx & Hy). now exists x.
Qed.

(** What [_extract_pat_model_error] looks for reads as one unbroken
    piece of text, with no white space at either end. *)
Definition searchable (p : list ascii) : Prop :=
  p <> [] /\ no_linebreak p /\ starts_unspaced p /\ starts_unspaced (rev p).

Lemma signals_searchable : Forall (fun token => searchable (chars token)) signals.
Proof.
  apply Forall_forall. intros token Ht. unfold signals in Ht.
  repeat (apply elem_of_cons in Ht as [-> | Ht]);
    [| | | | | |now apply not_elem_of_nil in Ht];
    (split; [vm_compute; discriminate|]);
    (split; [unfold no_linebreak; cbn [chars list_ascii_of_string]; repeat constructor|]);
    split; reflexivity.
Qed.

(** The test made on one line. *)
Definition error_line (raw : list ascii) : option string :=
  match strip raw with
  | [] => None
  | line =>
      if existsb (fun token => contains (chars token) (lower line)) signals
      then Some (text line) else None
  end.

Lemma error_line_none (raw : list ascii) :
  error_line raw = None <->
  forall token, token ∈ signals -> contains (chars token) (lower (strip raw)) = false.
Proof.
  unfold error_line.
  assert (existsb (fun token => contains (chars token) (lower (strip raw))) signals = false
          <-> forall token, token ∈ signals ->
                contains (chars token) (lower (strip raw)) = false) as Hex.
  { rewrite <- not_true_iff_false, existsb_exists. split.
    - intros H token Ht. apply not_true_iff_false. intros Hc. apply H.
      exists token. split; [now apply list_elem_of_In | exact Hc].
    - intros H (token & Ht & Hc). apply list_elem_of_In in Ht.
      rewrite (H token Ht) in Hc. discriminate. }
  destruct (strip raw) as [|c line] eqn:E.
  - split; [|reflexivity]. intros _ token Ht.
    pose proof signals_searchable as Hs. rewrite Forall_forall in Hs.
    destruct (Hs token Ht) as (Hne & _).
    apply not_true_iff_false. intros Hc. apply contains_spec in Hc.
    now apply occurs_in_nil in Hc.
  - rewrite <- Hex. destruct (existsb _ signals); split; congruence.
Qed.

Lemma error_line_some (raw : list ascii) (line : string) :
  error_line raw = Some line ->
  line = text (strip raw) /\ strip raw <> [] /\
  exists token, token ∈ signals /\ contains (chars token) (lower (strip raw)) = true.
Proof.
  unfold error_line. destruct (strip raw) as [|c l] eqn:E; [discriminate|].
  destruct (existsb _ signals) eqn:Hex; [|discriminate].
  intros [= <-]. split; [reflexivity|]. split; [discriminate|].
  apply existsb_exists in Hex as (token & Ht & Hc).
  exists token. split; [now apply list_elem_of_In | exact Hc].
Qed.

Lemma no_linebreak_occurs (p l : list ascii) :
  occurs_in p l -> no_linebreak l -> no_linebreak p.
Proof.
  intros (a & b & ->) H. unfold no_linebreak in *.
  apply Forall_app in H as [_ H]. now apply Forall_app in H as [H _].
Qed.

(** X25. [_extract_pat_model_error] searches line by line, yet it finds
    an error line exactly when the lowered console output as a whole
    contains one of the six signals.  The line it returns is a
    non-empty single line of the output without white space at either
    end that contains a signal, whatever the case of the letters.  So a
    run for which the compatibility fallback is tried, or for which the
    invalid-image hint is given, always has an error line. *)
Theorem model_error_line_agrees_with_text (stdout stderr : string) :
  let combined := stdout +:+ nl +:+ stderr in
  (_extract_pat_model_error stdout stderr = None <->
   forall token, token ∈ signals -> is_in token (lower_string combined) = false) /\
  (forall line,
     _extract_pat_model_error stdout stderr = Some line ->
     line <> "" /\ strip (chars line) = chars line /\ no_linebreak (chars line) /\
     occurs_in (chars line) (chars combined) /\
     exists token, token ∈ signals /\ is_in token (lower_string line) = true) /\
  (forall console use_mono out,
     _should_try_pat3_mono_compat_fallback console use_mono stdout stderr out = true ->
     is_Some (_extract_pat_model_error stdout stderr)) /\
  (_infer_hint_from_output stdout stderr = Some hint_invalid_image ->
   is_Some (_extract_pat_model_error stdout stderr)).
Proof.
  intros combined.
  assert (_extract_pat_model_error stdout stderr
          = head (omap error_line (splitlines (chars combined)))) as Edef by reflexivity.
  assert (_extract_pat_model_error stdout stderr = None <->
          forall token, token ∈ signals -> is_in token (lower_string combined) = false)
    as Hnone.
  { rewrite Edef, head_omap_none. setoid_rewrite error_line_none.
    pose proof signals_searchable as Hs. rewrite Forall_forall in Hs.
    split.
    - intros H token Ht. rewrite is_in_lower. apply not_true_iff_false. intros Hc.
      destruct (Hs token Ht) as (H1 & H2 & H3 & H4).
      apply (line_search_agrees _ _ H1 H2 H3 H4) in Hc as (raw & Hraw & Hc).
      rewrite (H raw Hraw token Ht) in Hc. discriminate.
    - intros H raw Hraw token Ht. apply not_true_iff_false. intros Hc.
      destruct (Hs token Ht) as (H1 & H2 & H3 & H4).
      assert (contains (chars token) (lower (chars combined)) = true) as Hall.
      { apply (line_search_agrees _ _ H1 H2 H3 H4). now exists raw. }
      rewrite <- is_in_lower, (H token Ht) in Hall. discriminate. }
  assert (is_in "invalid arguments." (lower_string combined) = true ->
          is_Some (_extract_pat_model_error stdout stderr)) as Hsignal.
  { intros Hin. destruct (_extract_pat_model_error stdout stderr) eqn:E; [eauto|].
    rewrite (proj1 Hnone eq_refl "invalid arguments.") in Hin; [discriminate|].
    unfold signals. repeat (first [apply list_elem_of_here | apply list_elem_of_further]). }
  split; [exact Hnone|]. split; [|split].
  - intros line Hline. rewrite Edef in Hline.
    apply head_omap_some in Hline as (raw & Hraw & Hline).
    apply error_line_some in Hline as (-> & Hne & token & Ht & Hc).
    rewrite chars_text. destruct (strip_shape raw) as (_ & _ & Hfix).
    split.
    { intros E. apply (f_equal chars) in E. rewrite chars_text in E. now destruct Hne. }
    split; [exact Hfix|].
    assert (occurs_in raw (chars combined)) as Hocc.
    { apply (splitlines_from_occurs (chars combined) [] raw Hraw). }
    split.
    { apply (no_linebreak_occurs _ raw (strip_occurs raw)).
      apply (splitlines_from_no_linebreak (chars combined) [] raw); [constructor | exact Hraw]. }
    split; [exact (occurs_in_trans _ _ _ (strip_occurs raw) Hocc)|].
    exists token. split; [exact Ht|]. rewrite is_in_lower, chars_text. exact Hc.
  - intros console use_mono out. unfold _should_try_pat3_mono_compat_fallback.
    destruct (negb use_mono); [discriminate|].
    destruct (file_exists out); [discriminate|].
    destruct (negb (is_in "pat3.console" _)); [discriminate|].
    cbv zeta. fold combined. intros H.
    apply andb_true_iff in H as [_ H]. apply andb_true_iff in H as [H _].
    now apply Hsignal.
  - unfold _infer_hint_from_output. cbv zeta. fold combined.
    destruct (is_in "invalid arguments. invalid image" (lower_string combined)) eqn:E.
    + intros _. apply Hsignal. rewrite is_in_lower in *.
      apply contains_spec. apply contains_spec in E.
      refine (occurs_in_trans _ _ _ _ E).
      apply contains_spec. reflexivity.
    + destruct (is_in "object reference not set to an instance of an object" _);
        [|discriminate].
      intros H.
      apply (f_equal (fun o => String.eqb (default "" o) hint_invalid_image)) in H.
      vm_compute in H. discriminate H.
Qed.

(** *** The detail of a failure message *)

Lemma lstrip_nil (l : list ascii) :
  lstrip l = [] <-> Forall (fun c => isspace c = true) l.
Proof.
  induction l as [|c t IH]; cbn [lstrip]; [split; [constructor | reflexivity]|].
  destruct (isspace c) eqn:E.
  - rewrite IH. split; [now constructor | now inversion 1].
  - split; [discriminate | inversion 1; congruence].
Qed.

Lemma strip_nil (l : list ascii) :
  strip l = [] <-> Forall (fun c => isspace c = true) l.
Proof.
  rewrite <- lstrip_nil. unfold strip, rstrip. split.
  - intros H. apply (f_equal (@rev ascii)) in H. rewrite rev_involutive in H.
    cbn [rev] in H. apply lstrip_nil in H. apply Forall_rev in H.
    rewrite rev_involutive in H.
    pose proof (lstrip_starts_unspaced l) as Hs.
    destruct (lstrip l) as [|c t]; [reflexivity|].
    inversion H; subst. cbn in Hs. congruence.
  - now intros ->.
Qed.

Lemma linebreak_is_space (c : ascii) : is_linebreak c = true -> isspace c = true.
Proof. destruct c as [[] [] [] [] [] [] [] []]; vm_compute; congruence. Qed.

(** The test made on one line by [_first_nonempty_line]. *)
Definition nonempty_line (raw : list ascii) : option string :=
  match strip raw with [] => None | line => Some (text line) end.

Lemma nonempty_line_spec (raw : list ascii) :
  (nonempty_line raw = None <-> strip raw = []) /\
  (forall line, nonempty_line raw = Some line -> line = text (strip raw) /\ strip raw <> []).
Proof.
  unfold nonempty_line. destruct (strip raw) as [|c l]; split.
  - split; reflexivity.
  - discriminate.
  - split; discriminate.
  - intros line [= <-]. split; [reflexivity | discriminate].
Qed.

(** A text has a non-blank line exactly when it is not blank. *)
Lemma first_nonempty_line_none (s : string) :
  _first_nonempty_line s = None <-> strip (chars s) = [].
Proof.
  change (_first_nonempty_line s) with (head (omap nonempty_line (splitlines (chars s)))).
  rewrite head_omap_none, strip_nil. split.
  - intros H. apply Forall_forall. intros c Hc.
    destruct (isspace c) eqn:Ec; [reflexivity|]. exfalso.
    assert (no_linebreak [c]) as Hnb.
    { constructor; [|constructor].
      destruct (is_linebreak c) eqn:El; [|reflexivity].
      apply linebreak_is_space in El. congruence. }
    assert (occurs_in [c] (chars s)) as Hocc.
    { apply list_elem_of_split in Hc as (a & b & ->). now exists a, b. }
    destruct (occurs_in_some_line [c] ltac:(discriminate) Hnb (chars s) [] Hocc)
      as (raw & Hraw & Hin).
    apply (occurs_in_strip [c] raw ltac:(discriminate) Ec Ec) in Hin.
    apply (proj1 (nonempty_line_spec raw)) in H; [|exact Hraw].
    rewrite H in Hin. now apply occurs_in_nil in Hin.
  - intros H raw Hraw. apply (proj1 (nonempty_line_spec raw)), strip_nil.
    apply (splitlines_from_occurs (chars s) []) in Hraw as (a & b & E).
    cbn [rev app] in E. rewrite E in H.
    apply Forall_app in H as [_ H]. now apply Forall_app in H as [H _].
Qed.

Lemma first_nonempty_line_some (s line : string) :
  _first_nonempty_line s = Some line ->
  line <> "" /\ strip (chars line) = chars line /\ no_linebreak (chars line) /\
  occurs_in (chars line) (chars s).
Proof.
  change (_first_nonempty_line s) with (head (omap nonempty_line (splitlines (chars s)))).
  intros H. apply head_omap_some in H as (raw & Hraw & H).
  apply (proj2 (nonempty_line_spec raw)) in H as [-> Hne].
  rewrite chars_text. destruct (strip_shape raw) as (_ & _ & Hfix).
  split.
  { intros E. apply (f_equal chars) in E. rewrite chars_text in E. now destruct Hne. }
  split; [exact Hfix|].
  assert (occurs_in raw (chars s)) as Hocc
    by apply (splitlines_from_occurs (chars s) [] raw Hraw).
  split.
  - apply (no_linebreak_occurs _ raw (strip_occurs raw)).
    apply (splitlines_from_no_linebreak (chars s) [] raw); [constructor | exact Hraw].
  - exact (occurs_in_trans _ _ _ (strip_occurs raw) Hocc).
Qed.

(** X26. [_first_nonempty_line] gives nothing exactly for a blank text,
    and otherwise a non-empty single line of the text without white
    space at either end.  So the message of a failed run names a detail
    unless there is no model error and both output streams are blank;
    the detail is the model error if there is one, else the first
    non-blank line of stderr, else that of stdout. *)
Theorem failure_detail_is_first_nonblank_line :
  (forall s, _first_nonempty_line s = None <-> strip (chars s) = []) /\
  (forall s line,
     _first_nonempty_line s = Some line ->
     line <> "" /\ strip (chars line) = chars line /\ no_linebreak (chars line) /\
     occurs_in (chars line) (chars s)) /\
  (forall model_error fallback_error' stdout stderr,
     (truthy model_error = None /\ strip (chars stderr) = [] /\ strip (chars stdout) = [] /\
      exists rest,
        failure_message model_error fallback_error' stdout stderr
          = msg_execution_failed +:+ rest /\
        (rest = "" \/ exists rest', rest = " Hint: " +:+ rest'
                  \/ rest = " Fallback detail: " +:+ rest')) \/
     (exists detail rest,
        failure_message model_error fallback_error' stdout stderr
          = msg_execution_failed +:+ " Detail: " +:+ detail +:+ rest /\
        detail <> "" /\
        (truthy model_error = Some detail \/
         truthy model_error = None /\
         (_first_nonempty_line stderr = Some detail \/
          strip (chars stderr) = [] /\ _first_nonempty_line stdout = Some detail)))).
Proof.
  split; [exact first_nonempty_line_none|]. split; [exact first_nonempty_line_some|].
  intros me fe so se. unfold failure_message. cbv zeta.
  assert (forall s, truthy (_first_nonempty_line s) = _first_nonempty_line s) as Htr.
  { intros s. destruct (_first_nonempty_line s) as [line|] eqn:E; [|reflexivity].
    apply first_nonempty_line_some in E as [Hne _].
    destruct line; [now destruct Hne | reflexivity]. }
  assert (forall o d, truthy o = Some d -> d <> "") as Hne.
  { intros [[|c t]|] d; cbn; intros [= <-]; discriminate. }
  assert (forall o, truthy (truthy o) = truthy o) as Hidem.
  { intros [[|c t]|]; reflexivity. }
  rewrite Htr.
  set (hint := truthy (_infer_hint_from_output so se)).
  set (tail1 := match hint with Some h => " Hint: " +:+ h | None => "" end).
  set (tail2 := match truthy fe with
                | Some f =>
                    " Fallback detail: attempted PAT3 Mono compatibility shim but it failed: "
                    +:+ f
                | None => ""
                end).
  assert (forall m : string,
            match truthy fe with
            | Some f =>
                match hint with Some h => m +:+ " Hint: " +:+ h | None => m end
                +:+ " Fallback detail: attempted PAT3 Mono compatibility shim but it failed: "
                +:+ f
            | None => match hint with Some h => m +:+ " Hint: " +:+ h | None => m end
            end = m +:+ tail1 +:+ tail2) as Hshape.
  { intros m. subst tail1 tail2.
    assert (forall a : string, a +:+ "" = a) as Hnil.
    { induction a as [|x a IH]; [reflexivity|].
      change (String x (a +:+ "") = String x a). now rewrite IH. }
    destruct (truthy fe), hint; rewrite ?Hnil, ?string_app_assoc; reflexivity. }
  assert (forall d : string, d <> "" -> truthy (Some d) = Some d) as Hsome.
  { intros [|c t] Hd; [now destruct Hd | reflexivity]. }
  destruct (truthy me) as [d|] eqn:Eme.
  - right. cbn [or_else]. rewrite (Hsome d (Hne me d Eme)).
    exists d, (tail1 +:+ tail2). rewrite Hshape, !string_app_assoc.
    split; [reflexivity|]. split; [now apply (Hne me)|]. now left.
  - cbn [or_else].
    destruct (_first_nonempty_line se) as [d|] eqn:Ese.
    + right. cbn [or_else].
      apply first_nonempty_line_some in Ese as Hd. rewrite (Hsome d (proj1 Hd)).
      exists d, (tail1 +:+ tail2). rewrite Hshape, !string_app_assoc.
      split; [reflexivity|]. split; [apply Hd|]. right. split; [reflexivity|]. now left.
    + cbn [or_else]. apply first_nonempty_line_none in Ese.
      destruct (_first_nonempty_line so) as [d|] eqn:Eso.
      * right. apply first_nonempty_line_some in Eso as Hd. rewrite (Hsome d (proj1 Hd)).
        exists d, (tail1 +:+ tail2). rewrite Hshape, !string_app_assoc.
        split; [reflexivity|]. split; [apply Hd|]. right. split; [reflexivity|].
        right. now split.
      * left. apply first_nonempty_line_none in Eso. cbn [truthy].
        split; [reflexivity|]. split; [exact Ese|]. split; [exact Eso|].
        exists (tail1 +:+ tail2). rewrite Hshape. split; [reflexivity|].
        subst tail1 tail2. destruct hint as [h|].
        -- right. eexists. left. rewrite string_app_assoc. reflexivity.
        -- destruct (truthy fe) as [f|]; [|now left].
           right. eexists. right.
           change ("" +:+ ?x) with x.
           change " Fallback detail: attempted PAT3 Mono compatibility shim but it failed: "
             with (" Fallback detail: "
                   +:+ "attempted PAT3 Mono compatibility shim but it failed: ").
           rewrite string_app_assoc. reflexivity.
Qed.

End ErrorLine.

(** ** coach/utils.py: [sanitize_filename] *)

Section SanitizeFilename.
Import Text Sanitize.
Local Open Scope string_scope.

Definition safe (l : list ascii) : Prop := Forall (fun c => is_safe c = true) l.

(** The test of [strip("-")]. *)
Definition is_dash (c : ascii) : bool := existsb (Ascii.eqb c) (chars "-").

Lemma is_dash_true (c : ascii) : is_dash c = true <-> c = "-"%char.
Proof.
  unfold is_dash. cbn. rewrite orb_false_r. apply Ascii.eqb_eq.
Qed.

Lemma safe_not_space (c : ascii) : is_safe c = true -> isspace c = false.
Proof. destruct c as [[] [] [] [] [] [] [] []]; vm_compute; congruence. Qed.

Lemma sub_unsafe_safe (l : list ascii) : forall in_run, safe (sub_unsafe in_run l).
Proof.
  induction l as [|c t IH]; intros in_run; cbn [sub_unsafe]; [constructor|].
  destruct (is_safe c) eqn:E; [constructor; [exact E | apply IH]|].
  destruct in_run; [apply IH|]. constructor; [reflexivity | apply IH].
Qed.

Lemma sub_unsafe_fixed (l : list ascii) :
  safe l -> forall in_run, sub_unsafe in_run l = l.
Proof.
  induction 1 as [|c t Hc Ht IH]; intros in_run; cbn [sub_unsafe]; [reflexivity|].
  now rewrite Hc, IH.
Qed.

(** Where every safe character is a dash, only dashes are left. *)
Lemma sub_unsafe_dashes (l : list ascii) :
  Forall (fun c => is_safe c = false \/ c = "-"%char) l ->
  forall in_run, Forall (fun c => is_dash c = true) (sub_unsafe in_run l).
Proof.
  induction 1 as [|c t Hc Ht IH]; intros in_run; cbn [sub_unsafe]; [constructor|].
  destruct (is_safe c) eqn:E.
  - destruct Hc as [Hc | ->]; [congruence|]. constructor; [reflexivity | apply IH].
  - destruct in_run; [apply IH|]. constructor; [reflexivity | apply IH].
Qed.

Lemma lstrip_by_all (f : ascii -> bool) (l : list ascii) :
  Forall (fun c => f c = true) l -> lstrip_by f l = [].
Proof. induction 1 as [|c t Hc Ht IH]; cbn [lstrip_by]; [reflexivity|]. now rewrite Hc. Qed.

Lemma starts_without_head (f : ascii -> bool) (l : list ascii) :
  starts_without f l <-> forall c, head l = Some c -> f c = false.
Proof.
  destruct l as [|x t]; cbn.
  - split; [discriminate | constructor].
  - split; [now intros H c [= <-] | intros H; now apply H].
Qed.

(** A name that [sanitize_filename] has nothing to do on. *)
Definition clean_name (l : list ascii) : Prop :=
  l <> [] /\ safe l /\ head l <> Some "-"%char /\ last l <> Some "-"%char.

Lemma not_dash_head (l : list ascii) :
  starts_without is_dash l <-> head l <> Some "-"%char.
Proof.
  rewrite starts_without_head. split.
  - intros H E. specialize (H _ E). now compute in H.
  - intros H c E. apply not_true_iff_false. rewrite is_dash_true. intros ->. now apply H.
Qed.

Lemma head_rev (l : list ascii) : head (rev l) = last l.
Proof.
  induction l as [|x t IH] using rev_ind; [reflexivity|].
  now rewrite rev_app_distr, last_snoc.
Qed.

Lemma sanitize_clean (s : string) : clean_name (chars (sanitize_filename s)).
Proof.
  unfold sanitize_filename, strip_chars. cbv zeta. fold is_dash.
  set (cleaned := sub_unsafe false (strip (chars s))).
  destruct (strip_by_shape is_dash cleaned) as (H1 & H2 & _ & a & b & Hab).
  assert (safe (strip_by is_dash cleaned)) as Hsafe.
  { pose proof (sub_unsafe_safe (strip (chars s)) false) as H. fold cleaned in H.
    rewrite Hab in H. unfold safe in *.
    apply Forall_app in H as [_ H]. now apply Forall_app in H as [H _]. }
  apply not_dash_head in H1, H2. rewrite head_rev in H2.
  destruct (strip_by is_dash cleaned) as [|c t] eqn:E.
  - vm_compute. repeat split; try discriminate. repeat constructor.
  - rewrite <- E in *. rewrite chars_text. repeat split; try assumption.
    rewrite E. discriminate.
Qed.

Lemma sanitize_fixed (s : string) : clean_name (chars s) -> sanitize_filename s = s.
Proof.
  intros (Hne & Hsafe & Hhead & Hlast).
  unfold sanitize_filename, strip_chars. cbv zeta. fold is_dash.
  assert (strip (chars s) = chars s) as ->.
  { rewrite strip_by_isspace. apply strip_by_fixed; apply starts_without_head.
    - intros c Hc. apply safe_not_space. unfold safe in Hsafe.
      rewrite Forall_forall in Hsafe. apply Hsafe.
      destruct (chars s); [discriminate|]. injection Hc as ->. apply list_elem_of_here.
    - intros c Hc. apply safe_not_space. unfold safe in Hsafe.
      rewrite Forall_forall in Hsafe. apply Hsafe.
      rewrite head_rev in Hc. apply last_Some in Hc as [l' ->].
      apply elem_of_app. right. apply list_elem_of_here. }
  rewrite (sub_unsafe_fixed _ Hsafe).
  rewrite strip_by_fixed.
  - destruct (chars s) as [|c t] eqn:E; [now destruct Hne|].
    rewrite <- E. apply text_chars.
  - now apply not_dash_head.
  - apply not_dash_head. now rewrite head_rev.
Qed.

(** X27. [sanitize_filename] always gives a usable name: it is never
    empty, holds only letters, digits, ".", "_" and "-", and neither
    begins nor ends with "-".  A name of that kind is returned as it is,
    so sanitizing twice is the same as sanitizing once; and a text with
    nothing but dashes and characters outside the class (the empty text
    among them) gives "item". *)
Theorem sanitize_filename_gives_clean_names :
  (forall s, clean_name (chars (sanitize_filename s))) /\
  (forall s, clean_name (chars s) -> sanitize_filename s = s) /\
  (forall s, sanitize_filename (sanitize_filename s) = sanitize_filename s) /\
  (forall s,
     Forall (fun c => is_safe c = false \/ c = "-"%char) (chars s) ->
     sanitize_filename s = "item").
Proof.
  split; [exact sanitize_clean|]. split; [exact sanitize_fixed|]. split.
  - intros s. apply sanitize_fixed, sanitize_clean.
  - intros s Hs. unfold sanitize_filename, strip_chars. cbv zeta. fold is_dash.
    assert (Forall (fun c => is_safe c = false \/ c = "-"%char) (strip (chars s))) as Hs'.
    { destruct (strip_occurs (chars s)) as (a & b & E). rewrite E in Hs.
      apply Forall_app in Hs as [_ Hs]. now apply Forall_app in Hs as [Hs _]. }
    unfold strip_by.
    now rewrite (lstrip_by_all _ _ (sub_unsafe_dashes _ Hs' false)).
Qed.

End SanitizeFilename.

(** ** coach/pat/parser.py: the excerpt of an error message *)

Section Excerpt.
Import Text Parser.
Local Open Scope string_scope.

(** White space, if any, is a plain space. *)
Definition spaced_plainly (l : list ascii) : Prop :=
  Forall (fun c => isspace c = true -> c = " "%char) l.

Definition unspaced (l : list ascii) : Prop := Forall (fun c => isspace c = false) l.

Lemma unspaced_plainly (l : list ascii) : unspaced l -> spaced_plainly l.
Proof. intros H. eapply Forall_impl; [exact H|]. intros c Hc. congruence. Qed.

(** The words of [str.split()] are not empty and hold no white space. *)
Lemma split_ws_words (l : list ascii) :
  forall cur,
    unspaced cur ->
    Forall (fun word => word <> [] /\ unspaced word) (split_ws cur l).
Proof.
  assert (forall x cur, unspaced (x :: cur) ->
                        rev (x :: cur) <> [] /\ unspaced (rev (x :: cur))) as Hword.
  { intros x cur H. split; [|now apply Forall_rev].
    intros E. apply (f_equal (@rev ascii)) in E. now rewrite rev_involutive in E. }
  induction l as [|c t IH]; intros cur Hcur; cbn [split_ws].
  - destruct cur as [|x cur]; [constructor|]. constructor; [now apply Hword | constructor].
  - destruct (isspace c) eqn:E.
    + destruct cur as [|x cur]; [apply IH; constructor|].
      constructor; [now apply Hword | apply IH; constructor].
    + apply IH. now constructor.
Qed.

Lemma split_ws_nil (l : list ascii) :
  forall cur, split_ws cur l = [] <-> cur = [] /\ Forall (fun c => isspace c = true) l.
Proof.
  induction l as [|c t IH]; intros cur; cbn [split_ws].
  - destruct cur as [|x cur].
    + split; [intros _; split; [reflexivity | constructor] | reflexivity].
    + split; [discriminate | intros [H _]; discriminate H].
  - destruct (isspace c) eqn:E.
    + destruct cur as [|x cur].
      * rewrite IH. split; intros [H1 H2]; split; try reflexivity.
        -- now constructor.
        -- now inversion H2.
      * split; [discriminate | intros [H _]; discriminate H].
    + rewrite IH. split; [intros [H _]; discriminate H|].
      intros [_ H]. inversion H; congruence.
Qed.

Lemma join_spaced (parts : list (list ascii)) :
  Forall (fun word => word <> [] /\ unspaced word) parts ->
  spaced_plainly (join (chars " ") parts) /\
  (parts <> [] -> join (chars " ") parts <> []).
Proof.
  induction 1 as [|word rest [Hne Hw] Hrest [IH1 IH2]]; cbn [join].
  - split; [constructor | congruence].
  - destruct rest as [|word' rest].
    + split; [now apply unspaced_plainly | now intros _].
    + split.
      * apply Forall_app. split; [now apply unspaced_plainly|].
        apply Forall_app. split; [|exact IH1].
        constructor; [reflexivity | constructor].
      * intros _ E. apply app_eq_nil in E as [E _]. now destruct Hne.
Qed.

Lemma length_text (l : list ascii) : String.length (text l) = length l.
Proof. induction l as [|c t IH]; [reflexivity|]. cbn. now rewrite <- IH. Qed.

Lemma length_string_app (a b : string) :
  String.length (a +:+ b) = (String.length a + String.length b)%nat.
Proof.
  induction a as [|c a IH]; [reflexivity|].
  change (S (String.length (a +:+ b)) = S (String.length a + String.length b)).
  now rewrite IH.
Qed.

(** X28. The excerpt that an error message quotes is short and on one
    line: it has at most 180 characters, its only white space is the
    plain space, it is empty exactly when the text is blank, and it is
    the whole text, with every run of white space collapsed, whenever
    that has at most 180 characters.  So the message of the ValueError
    that [parse_probability] raises has at most 234 characters. *)
Theorem excerpt_is_short_and_on_one_line (s : string) :
  let compact := join (chars " ") (split_ws [] (chars s)) in
  (length (_excerpt (chars s) 180) <= 180)%nat /\
  spaced_plainly (_excerpt (chars s) 180) /\
  (_excerpt (chars s) 180 = [] <-> strip (chars s) = []) /\
  ((length compact <= 180)%nat -> _excerpt (chars s) 180 = compact) /\
  (forall message,
     parse_probability s = Parser.ValueError message ->
     (String.length message <= 234)%nat).
Proof.
  intros compact.
  pose proof (split_ws_words (chars s) [] ltac:(constructor)) as Hwords.
  destruct (join_spaced _ Hwords) as [Hplain Hne]. fold compact in Hplain, Hne.
  assert (length (_excerpt (chars s) 180) <= 180)%nat as Hlen.
  { unfold _excerpt. cbv zeta. fold compact.
    destruct (length compact <=? 180)%nat eqn:E.
    - now apply Nat.leb_le in E.
    - apply Nat.leb_gt in E. rewrite length_app, length_take.
      change (length (chars "...")) with 3%nat. lia. }
  split; [exact Hlen|]. split; [|split; [|split]].
  - unfold _excerpt. cbv zeta. fold compact.
    destruct (length compact <=? 180)%nat; [exact Hplain|].
    apply Forall_app. split; [now apply Forall_take|].
    repeat constructor; discriminate.
  - unfold _excerpt. cbv zeta. fold compact.
    assert (strip (chars s) = [] <-> split_ws [] (chars s) = []) as ->.
    { rewrite strip_nil, split_ws_nil. split; [now split | now intros [_ H]]. }
    destruct (length compact <=? 180)%nat eqn:E.
    + split.
      * intros Hc.
        destruct (split_ws [] (chars s)) as [|w ws] eqn:Es; [reflexivity|].
        now destruct Hne.
      * intros Hs. unfold compact. now rewrite Hs.
    + apply Nat.leb_gt in E. split.
      * intros Hc. apply app_eq_nil in Hc as [_ Hc]. discriminate.
      * intros Hs. unfold compact in E. rewrite Hs in E. cbn in E. lia.
  - intros H. unfold _excerpt. cbv zeta. fold compact.
    apply Nat.leb_le in H. now rewrite H.
  - intros message. unfold parse_probability.
    destruct (last (collect_values (chars s))); [discriminate|].
    intros [= <-]. rewrite length_string_app, length_text.
    change (String.length parse_error_prefix) with 54%nat. lia.
Qed.

End Excerpt.

(** ** coach/service.py: the run directories of a strategy search *)

Section RunDirectories.
Import Utils Params Service.
Local Open Scope string_scope.

(** Reading a decimal numeral, leading zeros allowed. *)
Definition read_decimal (s : string) : option Z :=
  option_map (fun u => Z.of_N (N.of_uint u)) (NilZero.uint_of_string s).

Lemma read_decimal_decimal (n : Z) :
  (0 <= n)%Z -> read_decimal (TemplateContext.decimal n) = Some n.
Proof.
  intros Hn. unfold read_decimal, TemplateContext.decimal.
  rewrite NilZero.usu.
  - cbn [option_map]. rewrite DecimalN.Unsigned.of_to. f_equal. lia.
  - intros E. pose proof (DecimalN.Unsigned.of_to (Z.to_N n)) as H.
    rewrite E in H. cbn in H. rewrite <- H in E. discriminate E.
Qed.

Lemma read_decimal_zero (s : string) :
  s <> "" -> read_decimal ("0" +:+ s) = read_decimal s.
Proof.
  destruct s as [|c s]; [congruence|]. intros _. unfold read_decimal.
  change (NilZero.uint_of_string ("0" +:+ String c s))
    with (DecimalString.uint_of_char "0" (NilEmpty.uint_of_string (String c s))).
  change (NilZero.uint_of_string (String c s)) with (NilEmpty.uint_of_string (String c s)).
  now destruct (NilEmpty.uint_of_string (String c s)).
Qed.

(** The three-digit index can be read back. *)
Lemma pad3_read (idx : Z) : (0 <= idx)%Z -> read_decimal (pad3 idx) = Some idx.
Proof.
  intros H. unfold pad3, Runner.str_int.
  assert ((idx <? 0)%Z = false) as -> by lia.
  pose proof (read_decimal_decimal idx H) as Hd.
  assert (TemplateContext.decimal idx <> "") as Hne.
  { intros E. rewrite E in Hd. discriminate Hd. }
  assert ("0" +:+ TemplateContext.decimal idx <> "") as Hne' by discriminate.
  destruct ((0 <=? idx)%Z && (idx <? 10)%Z).
  { change ("00" +:+ ?s) with ("0" +:+ ("0" +:+ s)).
    now rewrite !read_decimal_zero. }
  destruct ((0 <=? idx)%Z && (idx <? 100)%Z); [now rewrite read_decimal_zero|].
  rewrite andb_false_r. exact Hd.
Qed.

Lemma string_app_inv_head (a x y : string) : a +:+ x = a +:+ y -> x = y.
Proof.
  induction a as [|c a IH]; [trivial|].
  change (String c (a +:+ x) = String c (a +:+ y) -> x = y). intros [= H]. now apply IH.
Qed.

Lemma candidate_run_dir_inj (run_dir' : string) (i j : Z) :
  (0 <= i)%Z -> (0 <= j)%Z ->
  candidate_run_dir run_dir' i = candidate_run_dir run_dir' j -> i = j.
Proof.
  intros Hi Hj H. unfold candidate_run_dir, candidate_name, Runner.path_join in H.
  rewrite !string_app_assoc in H.
  do 5 apply string_app_inv_head in H.
  apply (f_equal read_decimal) in H. rewrite !pad3_read in H by assumption.
  now injection H.
Qed.

Lemma candidate_run_dir_inside (run_dir' : string) (i : Z) :
  candidate_run_dir run_dir' i <> run_dir'.
Proof.
  intros H. apply (f_equal String.length) in H.
  unfold candidate_run_dir, Runner.path_join in H.
  rewrite !string_app_assoc, length_string_app in H.
  change ("/" +:+ ?s) with (String "/" s) in H. cbn [String.length] in H. lia.
Qed.

(** The directories of the loop, whatever ends it. *)
Lemma search_loop_trace (w : world) (params : MatchupParams) (run_dir' mode' : string)
    (pat_path : option string) (timeout_s : option Z) (cands : list candidate) :
  forall idx st,
  exists k,
    (0 <= k <= Z.of_nat (length cands))%Z /\
    executed (fst (search_loop w params run_dir' mode' pat_path timeout_s idx cands st))
      = (executed st ++ map (candidate_run_dir run_dir') (seqZ idx k))%list.
Proof.
  induction cands as [|c rest IH]; intros idx st.
  - exists 0%Z. cbn. split; [lia | now rewrite app_nil_r].
  - cbn [search_loop length].
    destruct (with_adjustments params _ _) as [adjusted|].
    2:{ exists 0%Z. cbn. split; [lia | now rewrite app_nil_r]. }
    fold (candidate_name idx). fold (candidate_run_dir run_dir' idx).
    match goal with
    | |- context [_execute_pat w ?e ?pc ?n ?dir mode' pat_path timeout_s st] =>
        destruct (execute_pat_frame w mode' pat_path timeout_s e pc n dir st) as [_ Eexe];
        destruct (_execute_pat w e pc n dir mode' pat_path timeout_s st) as [st1 r1]
    end.
    cbn [fst] in Eexe. destruct r1 as [ex|pat_exec].
    { exists 1%Z. cbn [fst]. split; [lia|]. now rewrite Eexe. }
    destruct (IH (idx + 1)%Z st1) as (k & Hk & Etrace).
    exists (Z.succ k). split; [lia|].
    rewrite seqZ_cons, Z.pred_succ by lia. cbn [map].
    replace (Z.succ idx) with (idx + 1)%Z by lia.
    destruct (search_loop _ _ _ _ _ _ _ rest st1) as [st2 [ex|ranked]];
      cbn [fst] in *; [|destruct (probability pat_exec); cbn [fst]];
      now rewrite Etrace, Eexe, <- app_assoc.
Qed.

(** X29. Whatever its outcome, a strategy search runs the engine first
    in its run directory and then in candidates/candidate_001,
    candidates/candidate_002, ... below it, for at most max(1, budget)
    candidates and without a gap; no two of these runs share a
    directory, so no run overwrites the artifacts of another. *)
Theorem strategy_runs_in_distinct_directories (w : world) (params : MatchupParams)
    (run_dir' mode' : string) (budget : Z) (l1_bound : Q)
    (pat_path : option string) (timeout_s : option Z) (st : state) :
  exists k,
    (0 <= k <= Z.max 1 budget)%Z /\
    executed (fst (strategy w params run_dir' mode' budget l1_bound pat_path timeout_s st))
      = (executed st ++ run_dir' :: map (candidate_run_dir run_dir') (seqZ 1 k))%list /\
    NoDup (run_dir' :: map (candidate_run_dir run_dir') (seqZ 1 k)).
Proof.
  assert (forall k, NoDup (run_dir' :: map (candidate_run_dir run_dir') (seqZ 1 k))) as Hnd.
  { intros k. constructor.
    - intros Hin. apply list_elem_of_fmap in Hin as (i & Hi & _).
      symmetry in Hi. now apply candidate_run_dir_inside in Hi.
    - apply NoDup_fmap_2_strong; [|apply NoDup_seqZ].
      intros i j Hi Hj. apply elem_of_seqZ in Hi, Hj.
      apply candidate_run_dir_inj; lia. }
  unfold strategy.
  match goal with
  | |- context [_execute_pat w ?e ?pc ?n ?dir mode' pat_path timeout_s st] =>
      destruct (execute_pat_frame w mode' pat_path timeout_s e pc n dir st) as [_ Eexe];
      destruct (_execute_pat w e pc n dir mode' pat_path timeout_s st) as [st1 r1]
  end.
  cbn [fst] in Eexe.
  assert (exists k, (0 <= k <= Z.max 1 budget)%Z /\
                    executed st1
                    = (executed st ++ run_dir'
                         :: map (candidate_run_dir run_dir') (seqZ 1 k))%list) as Hnone.
  { exists 0%Z. split; [lia | exact Eexe]. }
  destruct r1 as [ex|baseline_pat].
  { destruct Hnone as (k & Hk & E). exists k. cbn [fst]. now repeat split. }
  destruct (probability baseline_pat) as [baseline|].
  2:{ destruct Hnone as (k & Hk & E). exists k. cbn [fst]. now repeat split. }
  destruct (_generate_candidates params l1_bound) as [generated|].
  2:{ destruct Hnone as (k & Hk & E). exists k. cbn [fst]. now repeat split. }
  destruct (search_loop_trace w params run_dir' mode' pat_path timeout_s
              (take (Z.to_nat (Z.max 1 budget)) generated) 1 st1) as (k & Hk & Etrace).
  rewrite length_take in Hk.
  exists k. split; [lia|]. split; [|apply Hnd].
  destruct (search_loop _ _ _ _ _ _ _ _ st1) as [st2 [ex|ranked]]; cbn [fst] in *.
  - now rewrite Etrace, Eexe, <- app_assoc.
  - destruct (stable_sort ranked_before ranked) as [|[best best_params] sorted];
      cbn [fst]; now rewrite Etrace, Eexe, <- app_assoc.
Qed.

End RunDirectories.
